(** * Coordination service: a shallow embedding and its verified properties

    The development embeds
    [xla/tsl/distributed_runtime/coordination/coordination_service.cc]
    (class [CoordinationServiceStandaloneImpl]) and proves the properties of
    its key-value store, task registry, barrier engine and error propagation.

    Conventions of the embedding.
    - [std::string] is [string]; bytes compare as unsigned characters, as
      [std::string::compare] does.
    - [absl::flat_hash_map] and [absl::flat_hash_set] are [gmap] and [gset];
      the iteration order of a hash table is unspecified in the source and is
      the order of [map_to_list] / [elements] here.
    - [std::map] (the key-value store) is a list of entries kept in strictly
      increasing key order.
    - Every entry point runs atomically under [state_mu_]; the clock value it
      reads is the argument [now].
    - Callbacks are opaque handles; invoking one appends an event to the
      service's log, as does every outbound RPC.
    - Dereferencing the null [unique_ptr] that [cluster_state_[name]] creates
      for an undeclared name is undefined behaviour: the operation has no
      result ([None]).  A failed [CHECK] aborts and has no result either;
      [assert] is compiled out. *)

From stdpp Require Import gmap strings list fin_maps pretty sorting.
From Stdlib Require Import Ascii ZArith Lia.

Open Scope Z_scope.

(* ===================================================================== *)
(** * Definitions *)
(* ===================================================================== *)

(** ** Key normalization *)

Definition is_slash (c : ascii) : bool := Ascii.eqb c "/"%char.
Definition is_nul (c : ascii) : bool := Ascii.eqb c Ascii.zero.

(** The test [ *src ] is false at the terminating NUL of [c_str()], which is either the
    end of the string or an embedded NUL character. *)
Definition at_nul (src : string) : bool :=
  match src with
  | EmptyString => true
  | String c _ => is_nul c
  end.

(** The loop [while ( *src == '/') src++;] *)
Fixpoint skip_slashes (src : string) : string :=
  match src with
  | String c r => if is_slash c then skip_slashes r else src
  | EmptyString => src
  end.

(** The loop [while ( *src && *src != '/') *dst++ = *src++;]
    Returns the characters copied and the position where [src] stopped. *)
Fixpoint copy_segment (src : string) : string * string :=
  match src with
  | String c r =>
      if is_nul c || is_slash c then (EmptyString, src)
      else let '(seg, rest) := copy_segment r in (String c seg, rest)
  | EmptyString => (EmptyString, src)
  end.

(** The outer [while ( *src )] loop.  [dst] is the text written so far; the
    source writes it into the buffer it reads from, which is sound because
    [dst] never overtakes [src].  Every iteration that starts at a non-NUL
    character consumes at least one character, so [fuel] above the length of
    [src] is never exhausted (lemma [normalize_loop_scan]). *)
Fixpoint normalize_loop (fuel : nat) (src dst : string) : string :=
  match fuel with
  | O => dst
  | S fuel' =>
      if at_nul src then dst
      else
        let src1 := skip_slashes src in
        let '(seg, src2) := copy_segment src1 in
        let dst1 := dst +:+ seg in
        match src2 with
        | String c src3 =>
            if is_nul c then normalize_loop fuel' src2 dst1
            else normalize_loop fuel' src3 (dst1 +:+ String c EmptyString)
        | EmptyString => normalize_loop fuel' src2 dst1
        end
  end.

(** The final [if (dst > norm_key.begin() && dst[-1] == '/') dst--;] *)
Fixpoint strip_trailing_slash (d : string) : string :=
  match d with
  | EmptyString => EmptyString
  | String c EmptyString => if is_slash c then EmptyString else d
  | String c r => String c (strip_trailing_slash r)
  end.

Definition NormalizeKey (orig_key : string) : string :=
  strip_trailing_slash
    (normalize_loop (S (String.length orig_key)) orig_key EmptyString).

(** The three loops as one pass over [src]: [skipping] tells whether the
    pass is in the slash-skipping loop (true) or in the copying loop. *)
Fixpoint scan (skipping : bool) (src : string) : string :=
  match src with
  | EmptyString => EmptyString
  | String c r =>
      if is_nul c then EmptyString
      else if is_slash c then
             if skipping then scan true r else String c (scan true r)
           else String c (scan false r)
  end.

(** Text without NUL, without a doubled slash, and without a leading slash
    when [after_slash] holds. *)
Fixpoint key_shape (after_slash : bool) (s : string) : bool :=
  match s with
  | EmptyString => true
  | String c r =>
      if is_nul c then false
      else if is_slash c then negb after_slash && key_shape true r
           else key_shape false r
  end.

Fixpoint ends_with_slash (s : string) : bool :=
  match s with
  | EmptyString => false
  | String c EmptyString => is_slash c
  | String _ r => ends_with_slash r
  end.

(** A normalized key: no NUL, no leading or trailing slash, no doubled
    slash. *)
Definition normalized (s : string) : Prop :=
  key_shape true s = true ∧ ends_with_slash s = false.

(** ** The ordered key-value store *)

Definition KvStore : Type := list (string * string).

Definition key_lt (a b : string) : Prop := String.compare a b = Lt.

Definition kv_sorted (st : KvStore) : Prop :=
  StronglySorted key_lt (fst <$> st).

(** [kv_store_.find(key)] *)
Fixpoint kv_find (key : string) (st : KvStore) : option string :=
  match st with
  | [] => None
  | (k, v) :: rest => if String.eqb k key then Some v else kv_find key rest
  end.

(** [kv_store_.erase(kv_store_.find(key))], when the key is found. *)
Fixpoint kv_erase (key : string) (st : KvStore) : KvStore :=
  match st with
  | [] => []
  | (k, v) :: rest =>
      if String.eqb k key then rest else (k, v) :: kv_erase key rest
  end.

(** [kv_store_.lower_bound(dir)]: the entries before the first key that is
    not less than [dir], and the entries from there on. *)
Fixpoint lower_bound (dir : string) (st : KvStore) : KvStore * KvStore :=
  match st with
  | [] => ([], [])
  | (k, v) :: rest =>
      if String.ltb k dir
      then let '(before, from) := lower_bound dir rest in ((k, v) :: before, from)
      else ([], st)
  end.

(** [std::mismatch(dir.begin(), dir.end(), key.begin()).first == dir.end()] *)
Definition has_dir_prefix (dir key : string) : bool := String.prefix dir key.

(** [for (end = begin; end != kv_store_.end(); end++) if (mismatch) break;]
    Returns the entries from [end] on. *)
Fixpoint advance_end (dir : string) (from : KvStore) : KvStore :=
  match from with
  | [] => []
  | (k, v) :: rest =>
      if has_dir_prefix dir k then advance_end dir rest else from
  end.

(** ** Status values *)

Inductive StatusCode : Type :=
  | kOk | kCancelled | kUnknown | kInvalidArgument | kDeadlineExceeded
  | kNotFound | kAlreadyExists | kPermissionDenied | kResourceExhausted
  | kFailedPrecondition | kAborted | kOutOfRange | kUnimplemented
  | kInternal | kUnavailable | kDataLoss | kUnauthenticated.

Global Instance StatusCode_eq_dec : EqDecision StatusCode.
Proof. solve_decision. Defined.

Record CoordinatedTask : Type := mkTask { job_name : string; task_id : Z }.

Global Instance CoordinatedTask_eq_dec : EqDecision CoordinatedTask.
Proof. solve_decision. Defined.

Global Instance CoordinatedTask_countable : Countable CoordinatedTask.
Proof.
  refine (inj_countable' (λ t, (job_name t, task_id t))
                         (λ p, mkTask p.1 p.2) _).
  by intros [].
Defined.

(** Payload of a coordination error (the [CoordinationServiceError] proto). *)
Record CoordinationServiceError : Type := mkPayload {
  source_task : option CoordinatedTask;
  is_reported_error : bool
}.

Global Instance CoordinationServiceError_eq_dec :
  EqDecision CoordinationServiceError.
Proof. solve_decision. Defined.

(** [absl::Status]: a code, a message, and the payload stored under
    [CoordinationErrorPayloadKey()], if any. *)
Record Status : Type := mkStatus {
  code : StatusCode;
  message : string;
  payload : option CoordinationServiceError
}.

Global Instance Status_eq_dec : EqDecision Status.
Proof. solve_decision. Defined.

Definition OkStatus : Status := mkStatus kOk "" None.
Definition ok (s : Status) : bool := bool_decide (code s = kOk).

Definition CancelledError (msg : string) : Status := mkStatus kCancelled msg None.
Definition UnknownError (msg : string) : Status := mkStatus kUnknown msg None.
Definition InvalidArgumentError (msg : string) : Status := mkStatus kInvalidArgument msg None.
Definition DeadlineExceededError (msg : string) : Status := mkStatus kDeadlineExceeded msg None.
Definition NotFoundError (msg : string) : Status := mkStatus kNotFound msg None.
Definition AlreadyExistsError (msg : string) : Status := mkStatus kAlreadyExists msg None.
Definition FailedPreconditionError (msg : string) : Status := mkStatus kFailedPrecondition msg None.
Definition AbortedError (msg : string) : Status := mkStatus kAborted msg None.
Definition InternalError (msg : string) : Status := mkStatus kInternal msg None.
Definition UnavailableError (msg : string) : Status := mkStatus kUnavailable msg None.

Definition IsUnavailable (s : Status) : bool := bool_decide (code s = kUnavailable).
Definition IsCancelled (s : Status) : bool := bool_decide (code s = kCancelled).

(** Modelled from the spec: [MakeCoordinationError] is declared in
    [coordination_service_error_util.h], which is not among the sources.
    Section 7 of the specification says that propagated errors carry a
    payload [{source_task, is_reported_error}]; the one-argument form
    attaches a payload without a source task, the other records the task. *)
Definition MakeCoordinationError (s : Status) : Status :=
  mkStatus (code s) (message s) (Some (mkPayload None false)).

Definition MakeCoordinationErrorFrom (s : Status) (origin : CoordinatedTask)
    : Status :=
  mkStatus (code s) (message s) (Some (mkPayload (Some origin) false)).

(** [status.GetPayload(CoordinationErrorPayloadKey())] as a condition. *)
Definition has_coordination_payload (s : Status) : bool :=
  bool_decide (is_Some (payload s)).

(** [absl::StrCat] of a list of pieces. *)
Definition StrCat (pieces : list string) : string :=
  foldr String.append EmptyString pieces.

(** [absl::StatusCodeToString], of the Abseil library. *)
Definition StatusCodeToString (c : StatusCode) : string :=
  match c with
  | kOk => "OK" | kCancelled => "CANCELLED" | kUnknown => "UNKNOWN"
  | kInvalidArgument => "INVALID_ARGUMENT"
  | kDeadlineExceeded => "DEADLINE_EXCEEDED" | kNotFound => "NOT_FOUND"
  | kAlreadyExists => "ALREADY_EXISTS"
  | kPermissionDenied => "PERMISSION_DENIED"
  | kResourceExhausted => "RESOURCE_EXHAUSTED"
  | kFailedPrecondition => "FAILED_PRECONDITION" | kAborted => "ABORTED"
  | kOutOfRange => "OUT_OF_RANGE" | kUnimplemented => "UNIMPLEMENTED"
  | kInternal => "INTERNAL" | kUnavailable => "UNAVAILABLE"
  | kDataLoss => "DATA_LOSS" | kUnauthenticated => "UNAUTHENTICATED"
  end.

(** [absl::Status::ToString], of the Abseil library: [OK] for an OK status;
    otherwise the name of the code, a colon and the message, and then, for
    each payload, the text of that payload in brackets.  A status of the
    service carries at most the coordination payload; [payload_text] gives
    what is printed for it. *)
Definition Status_ToString
    (payload_text : CoordinationServiceError → string) (s : Status) : string :=
  if ok s then "OK"
  else StrCat [StatusCodeToString (code s); ": "; message s;
               from_option payload_text "" (payload s)].

(** [absl::StrJoin(parts, sep)] *)
Fixpoint StrJoin (parts : list string) (sep : string) : string :=
  match parts with
  | [] => EmptyString
  | [p] => p
  | p :: rest => p +:+ sep +:+ StrJoin rest sep
  end.

Definition GetTaskName' (job : string) (task : Z) : string :=
  StrCat ["/job:"; job; "/replica:"; pretty 0; "/task:"; pretty task].

Definition GetTaskName (task : CoordinatedTask) : string :=
  GetTaskName' (job_name task) (task_id task).

(** ** [DeleteKeyValue] on the store alone *)

Definition DeleteKeyValue_store (key : string) (st : KvStore) : KvStore :=
  let norm_key := NormalizeKey key in
  let dir := StrCat [norm_key; "/"] in
  let '(before, from) := lower_bound dir st in
  let st1 := before ++ advance_end dir from in
  match kv_find norm_key st1 with
  | Some _ => kv_erase norm_key st1
  | None => st1
  end.

(** ** Service state *)

Definition StatusCallback : Type := nat.
Definition StatusOrValueCallback : Type := nat.

(** [DeviceInfo]: the repeated [device] field, opaque entries. *)
Definition DeviceInfo : Type := list string.

Inductive CoordinatedTaskState : Type :=
  | TASKSTATE_DISCONNECTED | TASKSTATE_CONNECTED | TASKSTATE_ERROR.

Global Instance CoordinatedTaskState_eq_dec : EqDecision CoordinatedTaskState.
Proof. solve_decision. Defined.

Inductive StatusOrValue : Type :=
  | ValueOf (value : string)
  | ErrorOf (error : Status).

(** What the service does to the outside: callback invocations and the
    outbound [ReportErrorToTaskAsync] RPC. *)
Inductive Event : Type :=
  | StatusCallbackCalled (cb : StatusCallback) (s : Status)
  | GetCallbackCalled (cb : StatusOrValueCallback) (r : StatusOrValue)
  | ReportErrorToTaskSent (destination : string) (error_code : StatusCode)
      (error_message : string) (error_payload : CoordinationServiceError).

Record TaskState : Type := mkTaskState {
  task_incarnation_ : Z;
  state_ : CoordinatedTaskState;
  status_ : Status;
  last_heartbeat_us_ : Z;
  disconnect_grace_period_us_ : Z;
  devices_ : DeviceInfo;
  ongoing_barriers_for_task_ : gset string
}.

(** [std::make_unique<TaskState>()].  The source gives [last_heartbeat_us_]
    no initial value; it is read for connected tasks only, after
    [SetConnected] has set it, and is 0 here until then. *)
Definition new_TaskState : TaskState :=
  mkTaskState 0 TASKSTATE_DISCONNECTED OkStatus 0 0 [] ∅.

Record BarrierState : Type := mkBarrierState {
  passed : bool;
  result : Status;
  deadline_in_micros : Z;
  num_pending_tasks : Z;
  tasks_at_barrier : gmap CoordinatedTask bool;
  done_callbacks : list StatusCallback;
  initiating_task : CoordinatedTask
}.

(** A value-initialized [BarrierState], as [try_emplace] and [operator[]]
    create it. *)
Definition new_BarrierState : BarrierState :=
  mkBarrierState false (UnknownError "Invalid barrier result.") 0 0 ∅ []
                 (mkTask "" 0).

Record ErrorPollingState : Type := mkErrorPollingState {
  responded_ : bool;
  error_ : Status;
  polling_done_callbacks_ : list StatusCallback;
  polling_task_names_ : gset string
}.

Definition new_ErrorPollingState : ErrorPollingState :=
  mkErrorPollingState false OkStatus [] ∅.

Record Service : Type := mkService {
  cluster_state_ : gmap string TaskState;
  cluster_devices_ : DeviceInfo;
  kv_store_ : KvStore;
  get_cb_ : gmap string (list StatusOrValueCallback);
  shutting_down_ : bool;
  barriers_ : gmap string BarrierState;
  ongoing_barriers_ : gset string;
  client_polling_for_error_ : bool;
  error_polling_state_ : ErrorPollingState;
  post_aggregate_device_fn_ : option (DeviceInfo → DeviceInfo);
  log : list Event
}.

Definition set_cluster_state (f : gmap string TaskState → gmap string TaskState)
    (s : Service) : Service :=
  mkService (f (cluster_state_ s)) (cluster_devices_ s) (kv_store_ s) (get_cb_ s)
    (shutting_down_ s) (barriers_ s) (ongoing_barriers_ s)
    (client_polling_for_error_ s) (error_polling_state_ s)
    (post_aggregate_device_fn_ s) (log s).

Definition set_cluster_devices (d : DeviceInfo) (s : Service) : Service :=
  mkService (cluster_state_ s) d (kv_store_ s) (get_cb_ s)
    (shutting_down_ s) (barriers_ s) (ongoing_barriers_ s)
    (client_polling_for_error_ s) (error_polling_state_ s)
    (post_aggregate_device_fn_ s) (log s).

Definition set_kv_store (st : KvStore) (s : Service) : Service :=
  mkService (cluster_state_ s) (cluster_devices_ s) st (get_cb_ s)
    (shutting_down_ s) (barriers_ s) (ongoing_barriers_ s)
    (client_polling_for_error_ s) (error_polling_state_ s)
    (post_aggregate_device_fn_ s) (log s).

Definition set_get_cb (g : gmap string (list StatusOrValueCallback))
    (s : Service) : Service :=
  mkService (cluster_state_ s) (cluster_devices_ s) (kv_store_ s) g
    (shutting_down_ s) (barriers_ s) (ongoing_barriers_ s)
    (client_polling_for_error_ s) (error_polling_state_ s)
    (post_aggregate_device_fn_ s) (log s).

Definition set_shutting_down (b : bool) (s : Service) : Service :=
  mkService (cluster_state_ s) (cluster_devices_ s) (kv_store_ s) (get_cb_ s)
    b (barriers_ s) (ongoing_barriers_ s)
    (client_polling_for_error_ s) (error_polling_state_ s)
    (post_aggregate_device_fn_ s) (log s).

Definition set_barriers (f : gmap string BarrierState → gmap string BarrierState)
    (s : Service) : Service :=
  mkService (cluster_state_ s) (cluster_devices_ s) (kv_store_ s) (get_cb_ s)
    (shutting_down_ s) (f (barriers_ s)) (ongoing_barriers_ s)
    (client_polling_for_error_ s) (error_polling_state_ s)
    (post_aggregate_device_fn_ s) (log s).

Definition set_ongoing_barriers (f : gset string → gset string)
    (s : Service) : Service :=
  mkService (cluster_state_ s) (cluster_devices_ s) (kv_store_ s) (get_cb_ s)
    (shutting_down_ s) (barriers_ s) (f (ongoing_barriers_ s))
    (client_polling_for_error_ s) (error_polling_state_ s)
    (post_aggregate_device_fn_ s) (log s).

Definition set_client_polling_for_error (b : bool) (s : Service) : Service :=
  mkService (cluster_state_ s) (cluster_devices_ s) (kv_store_ s) (get_cb_ s)
    (shutting_down_ s) (barriers_ s) (ongoing_barriers_ s)
    b (error_polling_state_ s)
    (post_aggregate_device_fn_ s) (log s).

Definition set_error_polling_state (e : ErrorPollingState) (s : Service)
    : Service :=
  mkService (cluster_state_ s) (cluster_devices_ s) (kv_store_ s) (get_cb_ s)
    (shutting_down_ s) (barriers_ s) (ongoing_barriers_ s)
    (client_polling_for_error_ s) e
    (post_aggregate_device_fn_ s) (log s).

Definition set_post_aggregate_device_fn (f : option (DeviceInfo → DeviceInfo))
    (s : Service) : Service :=
  mkService (cluster_state_ s) (cluster_devices_ s) (kv_store_ s) (get_cb_ s)
    (shutting_down_ s) (barriers_ s) (ongoing_barriers_ s)
    (client_polling_for_error_ s) (error_polling_state_ s)
    f (log s).

Definition add_log (es : list Event) (s : Service) : Service :=
  mkService (cluster_state_ s) (cluster_devices_ s) (kv_store_ s) (get_cb_ s)
    (shutting_down_ s) (barriers_ s) (ongoing_barriers_ s)
    (client_polling_for_error_ s) (error_polling_state_ s)
    (post_aggregate_device_fn_ s) (log s ++ es).

(** ** Task records *)

(** Unsigned 64-bit arithmetic wraps around. *)
Definition u64 (z : Z) : Z := z mod 2 ^ 64.

Definition SetConnected (task_incarnation now : Z) (t : TaskState) : TaskState :=
  mkTaskState task_incarnation TASKSTATE_CONNECTED OkStatus now
    (disconnect_grace_period_us_ t) (devices_ t) (ongoing_barriers_for_task_ t).

Definition Disconnect (grace_period_duration_us now : Z) (t : TaskState)
    : TaskState :=
  mkTaskState (task_incarnation_ t) TASKSTATE_DISCONNECTED OkStatus
    (last_heartbeat_us_ t) (u64 (now + grace_period_duration_us))
    (devices_ t) (ongoing_barriers_for_task_ t).

Definition TaskState_SetError (status : Status) (t : TaskState) : TaskState :=
  if bool_decide (state_ t = TASKSTATE_ERROR) then t
  else mkTaskState (task_incarnation_ t) TASKSTATE_ERROR status
         (last_heartbeat_us_ t) (disconnect_grace_period_us_ t)
         (devices_ t) (ongoing_barriers_for_task_ t).

Definition incarnation_mismatch (expected got : Z) : Status :=
  MakeCoordinationError (AbortedError (StrCat
    ["Incarnation ID mismatch: expecting "; pretty expected; " but got ";
     pretty got; ". This means the remote task has restarted."])).

Definition TaskState_RecordHeartbeat (task_incarnation now : Z) (t : TaskState)
    : Status * TaskState :=
  if negb (ok (status_ t)) then (status_ t, t)
  else if negb (bool_decide (task_incarnation = task_incarnation_ t))
  then (incarnation_mismatch (task_incarnation_ t) task_incarnation, t)
  else (OkStatus,
        mkTaskState (task_incarnation_ t) (state_ t) (status_ t) now
          (disconnect_grace_period_us_ t) (devices_ t)
          (ongoing_barriers_for_task_ t)).

Definition TimeSinceLastHeartbeatMs (now : Z) (t : TaskState) : Z :=
  u64 (now - last_heartbeat_us_ t) / 1000.

Definition CollectDeviceInfo (devices : DeviceInfo) (t : TaskState) : TaskState :=
  mkTaskState (task_incarnation_ t) (state_ t) (status_ t)
    (last_heartbeat_us_ t) (disconnect_grace_period_us_ t)
    devices (ongoing_barriers_for_task_ t).

Definition DeviceInfoIsCollected (t : TaskState) : bool :=
  negb (bool_decide (length (devices_ t) = 0%nat)).

Definition set_ongoing_barriers_for_task (f : gset string → gset string)
    (t : TaskState) : TaskState :=
  mkTaskState (task_incarnation_ t) (state_ t) (status_ t)
    (last_heartbeat_us_ t) (disconnect_grace_period_us_ t)
    (devices_ t) (f (ongoing_barriers_for_task_ t)).

Definition JoinBarrier (barrier_id : string) : TaskState → TaskState :=
  set_ongoing_barriers_for_task (λ b, {[barrier_id]} ∪ b).

Definition ExitBarrier (barrier_id : string) : TaskState → TaskState :=
  set_ongoing_barriers_for_task (λ b, b ∖ {[barrier_id]}).

Definition IsDisconnectedBeyondGracePeriod (now : Z) (t : TaskState) : bool :=
  bool_decide (state_ t = TASKSTATE_DISCONNECTED)
  && bool_decide (disconnect_grace_period_us_ t < now).

(** ** Barrier records *)

Definition set_passed_result (r : Status) (b : BarrierState) : BarrierState :=
  mkBarrierState true r (deadline_in_micros b) (num_pending_tasks b)
    (tasks_at_barrier b) (done_callbacks b) (initiating_task b).

Definition set_tasks_at_barrier (m : gmap CoordinatedTask bool)
    (b : BarrierState) : BarrierState :=
  mkBarrierState (passed b) (result b) (deadline_in_micros b)
    (num_pending_tasks b) m (done_callbacks b) (initiating_task b).

Definition set_done_callbacks (l : list StatusCallback) (b : BarrierState)
    : BarrierState :=
  mkBarrierState (passed b) (result b) (deadline_in_micros b)
    (num_pending_tasks b) (tasks_at_barrier b) l (initiating_task b).

Definition set_num_pending_tasks (n : Z) (b : BarrierState) : BarrierState :=
  mkBarrierState (passed b) (result b) (deadline_in_micros b)
    n (tasks_at_barrier b) (done_callbacks b) (initiating_task b).

Definition set_deadline_in_micros (d : Z) (b : BarrierState) : BarrierState :=
  mkBarrierState (passed b) (result b) d
    (num_pending_tasks b) (tasks_at_barrier b) (done_callbacks b)
    (initiating_task b).

Definition init_barrier (task : CoordinatedTask) (b : BarrierState)
    : BarrierState :=
  mkBarrierState false (result b) (deadline_in_micros b)
    (num_pending_tasks b) (tasks_at_barrier b) (done_callbacks b) task.

(** [ValidateTaskArgs] *)
Definition ValidateTaskArgs (tasks_args : list CoordinatedTask)
    (tasks_at_barrier : gmap CoordinatedTask bool) (cluster_size : Z) : bool :=
  match tasks_args with
  | [] => bool_decide (Z.of_nat (size tasks_at_barrier) = cluster_size)
  | _ =>
      if negb (bool_decide (size tasks_at_barrier = length tasks_args))
      then false
      else forallb (λ task, bool_decide (is_Some (tasks_at_barrier !! task)))
                   tasks_args
  end.

(** ** The state-and-failure monad of the entry points *)

Definition M (A : Type) : Type := Service → option (A * Service).

Definition ret {A} (a : A) : M A := λ s, Some (a, s).

Definition bind {A B} (m : M A) (f : A → M B) : M B :=
  λ s, match m s with
       | Some (a, s') => f a s'
       | None => None
       end.

(** Undefined behaviour or abort: no result. *)
Definition undefined {A} : M A := λ _, None.

Definition gets {A} (f : Service → A) : M A := λ s, Some (f s, s).

Definition modify (f : Service → Service) : M unit := λ s, Some (tt, f s).

Notation "x <- m ;; k" := (bind m (λ x, k))
  (at level 100, m at next level, right associativity).
Notation "m ;;; k" := (bind m (λ _, k))
  (at level 100, right associativity).

Fixpoint for_each {X} (l : list X) (body : X → M unit) : M unit :=
  match l with
  | [] => ret tt
  | x :: rest => body x ;;; for_each rest body
  end.

Definition when (c : bool) (m : M unit) : M unit := if c then m else ret tt.

Definition emit (e : Event) : M unit := modify (add_log [e]).

(** Invoking a [StatusCallback]. *)
Definition call (done : StatusCallback) (s : Status) : M unit :=
  emit (StatusCallbackCalled done s).

(** [cluster_state_[name]->...]: the record, or a null dereference. *)
Definition task_at (name : string) : M TaskState :=
  λ s, match cluster_state_ s !! name with
       | Some t => Some (t, s)
       | None => None
       end.

Definition update_task (name : string) (f : TaskState → TaskState) : M unit :=
  t <- task_at name ;;
  modify (set_cluster_state (<[name := f t]>)).

(** [barriers_[id]] and [barriers_.try_emplace(id)]: the record is created
    value-initialized when missing; the result tells whether it was. *)
Definition try_emplace_barrier (barrier_id : string) : M bool :=
  present <- gets (λ s, bool_decide (is_Some (barriers_ s !! barrier_id))) ;;
  if (present : bool) then ret false
  else modify (set_barriers (<[barrier_id := new_BarrierState]>)) ;;; ret true.

Definition barrier_at (barrier_id : string) : M BarrierState :=
  gets (λ s, default new_BarrierState (barriers_ s !! barrier_id)).

Definition update_barrier (barrier_id : string)
    (f : BarrierState → BarrierState) : M unit :=
  b <- barrier_at barrier_id ;;
  modify (set_barriers (<[barrier_id := f b]>)).

(** ** Configuration *)

(** The fields of the [CoordinationServiceConfig] proto that the service
    reads; a job is a name and its number of tasks. *)
Record CoordinationServiceConfig : Type := mkConfig {
  heartbeat_timeout_in_ms : Z;
  shutdown_barrier_timeout_in_ms : Z;
  allow_new_incarnation_to_reconnect : bool;
  coordinated_job_list : list (string * Z);
  recoverable_jobs : list string
}.

(** What is fixed when the service is constructed.  [client_cache_present]
    tells whether [client_cache_] is non-null (push mode).
    [ParseFullName] stands for [DeviceNameUtils::ParseFullName], which is not
    among the sources: it yields the [job] and [task] fields of the parsed
    name.  [PayloadToString] stands for what [absl::Status::ToString] prints
    for the coordination payload of a status, after the message: a space
    and, in brackets, the type URL that is the key of the payload and the
    escaped bytes of the serialized payload; neither the key nor the
    serialization is among the sources. *)
Record ServiceEnv : Type := mkEnv {
  config : CoordinationServiceConfig;
  client_cache_present : bool;
  service_incarnation_ : Z;
  ParseFullName : string → string * Z;
  PayloadToString : CoordinationServiceError → string
}.

Definition kDevicePropagationTimeout : Z := 3600 * 1000000.
Definition kDefaultHeartbeatTimeoutMs : Z := 10 * 1000.
Definition kPendingTaskLogLimit : Z := 20.

Definition nl : string := String (ascii_of_nat 10) EmptyString.

(** The comparator of [std::sort] in [AggregateClusterDevices]. *)
Definition task_lt (task1 task2 : CoordinatedTask) : bool :=
  if negb (String.eqb (job_name task1) (job_name task2))
  then String.ltb (job_name task1) (job_name task2)
  else bool_decide (task_id task1 < task_id task2).

Definition task_le (task1 task2 : CoordinatedTask) : Prop :=
  task_lt task2 task1 = false.

Global Instance task_le_dec task1 task2 : Decision (task_le task1 task2).
Proof. unfold task_le. apply _. Defined.

Record CoordinatedTaskStateInfo : Type := mkStateInfo {
  info_task : CoordinatedTask;
  info_state : CoordinatedTaskState;
  info_error_code : StatusCode;
  info_error_message : string;
  info_error_payload : option CoordinationServiceError
}.

Section Operations.

Variable E : ServiceEnv.

Definition heartbeat_timeout_ms_ : Z :=
  if bool_decide (0 < heartbeat_timeout_in_ms (config E))
  then heartbeat_timeout_in_ms (config E)
  else kDefaultHeartbeatTimeoutMs.

(** [shutdown_barrier_timeout_], in microseconds. *)
Definition shutdown_barrier_timeout_ : Z :=
  shutdown_barrier_timeout_in_ms (config E) * 1000.

Definition device_propagation_barrier_id_ : string :=
  StrCat ["WaitForAllTasks::"; pretty (service_incarnation_ E)].

Definition shutdown_barrier_id_ : string :=
  StrCat ["Shutdown::"; pretty (service_incarnation_ E)].

Definition GetTaskFromName (task_name : string) : CoordinatedTask :=
  let '(job, task) := ParseFullName E task_name in mkTask job task.

Definition isRecoverableJob (task_name : string) : bool :=
  bool_decide (task_name ∈ recoverable_jobs (config E)).

Definition task_names : M (list string) :=
  gets (λ s, (map_to_list (cluster_state_ s)).*1).

(** The constructor: one disconnected record per declared task. *)
Definition declare_tasks (job : string * Z) (cs : gmap string TaskState)
    : gmap string TaskState :=
  foldl (λ cs i,
           let task_name := GetTaskName' job.1 (Z.of_nat i) in
           match cs !! task_name with
           | Some _ => cs
           | None => <[task_name := new_TaskState]> cs
           end)
        cs (seq 0 (Z.to_nat job.2)).

Definition initial_service : Service :=
  mkService
    (foldl (λ cs job, declare_tasks job cs) ∅ (coordinated_job_list (config E)))
    [] [] ∅ false ∅ ∅ false new_ErrorPollingState None [].

(** [ErrorPollingState::SetError] *)
Definition ErrorPollingState_SetError (error : Status) : M unit :=
  eps <- gets error_polling_state_ ;;
  if responded_ eps then ret tt
  else
    modify (set_error_polling_state
              (mkErrorPollingState true error (polling_done_callbacks_ eps)
                                   (polling_task_names_ eps))) ;;;
    for_each (polling_done_callbacks_ eps) (λ done_cb, call done_cb error) ;;;
    modify (set_error_polling_state
              (mkErrorPollingState true error [] (polling_task_names_ eps))).

(** [ErrorPollingState::AddTask] *)
Definition ErrorPollingState_AddTask (task : CoordinatedTask)
    (done : StatusCallback) : M unit :=
  eps <- gets error_polling_state_ ;;
  if responded_ eps then ret tt
  else modify (set_error_polling_state
                 (mkErrorPollingState (responded_ eps) (error_ eps)
                    (polling_done_callbacks_ eps ++ [done])
                    ({[GetTaskName task]} ∪ polling_task_names_ eps))).

Definition ReportServiceErrorToTaskAsync (destination_task : CoordinatedTask)
    (error : Status) : M unit :=
  if negb (client_cache_present E) then ret tt
  else emit (ReportErrorToTaskSent (GetTaskName destination_task)
               (code error) (message error)
               (mkPayload (Some (mkTask "coordination_service" 0)) false)).

Definition AggregateClusterDevices : M unit :=
  names <- task_names ;;
  let ordered_tasks := merge_sort task_le (GetTaskFromName <$> names) in
  for_each ordered_tasks (λ task,
    t <- task_at (GetTaskName task) ;;
    modify (λ s, set_cluster_devices (cluster_devices_ s ++ devices_ t) s)) ;;;
  fn <- gets post_aggregate_device_fn_ ;;
  match fn with
  | Some f => modify (λ s, set_cluster_devices (f (cluster_devices_ s)) s)
  | None => ret tt
  end.

Definition shutdown_straggler_error (barrier_result : Status) : Status :=
  MakeCoordinationError (InternalError (StrCat
    ["Shutdown barrier has failed, but this task is not at the barrier yet.";
     nl; "Barrier result: '"; message barrier_result])).

(** [PassBarrier].  The shutdown hook calls [DisconnectTask], which calls
    [PassBarrier] again for the barriers the disconnected task was in;
    [disconnect] is [DisconnectTask] one level down (see [PassBarrier]
    below). *)
Definition PassBarrierG (disconnect : CoordinatedTask → M Status)
    (barrier_id : string) (result : Status) : M unit :=
  update_barrier barrier_id (set_passed_result result) ;;;
  when (String.eqb barrier_id device_propagation_barrier_id_)
       AggregateClusterDevices ;;;
  barrier <- barrier_at barrier_id ;;
  for_each (map_to_list (tasks_at_barrier barrier)) (λ task_at_barrier,
    update_task (GetTaskName task_at_barrier.1) (ExitBarrier barrier_id)) ;;;
  when (String.eqb barrier_id shutdown_barrier_id_)
       (let shutdown_error := shutdown_straggler_error result in
        for_each (map_to_list (tasks_at_barrier barrier)) (λ entry,
          if (entry.2 : bool)
          then disconnect entry.1 ;;; ret tt
          else ReportServiceErrorToTaskAsync entry.1 shutdown_error)) ;;;
  update_barrier barrier_id (set_tasks_at_barrier ∅) ;;;
  modify (set_ongoing_barriers (λ o, o ∖ {[barrier_id]})) ;;;
  barrier <- barrier_at barrier_id ;;
  for_each (done_callbacks barrier) (λ callback, call callback result) ;;;
  update_barrier barrier_id (set_done_callbacks []).

Definition disconnect_barrier_error (barrier_id task_name : string) : Status :=
  MakeCoordinationError (InternalError (StrCat
    ["Barrier failed because a task has disconnected. Barrier Id: ";
     barrier_id; ", Task: "; task_name])).

(** [DisconnectTask], over the [PassBarrier] it calls. *)
Definition DisconnectTaskG (pass : string → Status → M unit)
    (task : CoordinatedTask) (now : Z) : M Status :=
  let task_name := GetTaskName task in
  stopped <- gets shutting_down_ ;;
  if (stopped : bool) then
    ret (MakeCoordinationError (InternalError (StrCat
      ["Coordination service has stopped. DisconnectTask() ";
       "failed for task_name="; task_name])))
  else
    found <- gets (λ s, cluster_state_ s !! task_name) ;;
    match found with
    | None =>
        ret (MakeCoordinationError (InvalidArgumentError (StrCat
          ["Unexpected disconnect request with task_name="; task_name])))
    | Some t =>
        if bool_decide (state_ t = TASKSTATE_DISCONNECTED) then
          ret (MakeCoordinationError (FailedPreconditionError (StrCat
            ["The task is already disconnected: "; task_name])))
        else
          update_task task_name
            (Disconnect (u64 (heartbeat_timeout_ms_ * 1000)) now) ;;;
          t' <- task_at task_name ;;
          for_each (elements (ongoing_barriers_for_task_ t')) (λ barrier_id,
            try_emplace_barrier barrier_id ;;;
            pass barrier_id (disconnect_barrier_error barrier_id task_name)) ;;;
          ret OkStatus
    end.

(** The recursion [PassBarrier] -> [DisconnectTask] -> [PassBarrier] stops
    at the second [PassBarrier]: the shutdown hook runs after [ExitBarrier]
    has removed the shutdown barrier from every participant, so the barriers
    that the nested [DisconnectTask] passes are never the shutdown barrier and
    their hook does not run (lemmas [PassBarrier_nested_hook] and
    [DisconnectTask_nested_hook]). *)
Definition PassBarrier_nested (barrier_id : string) (result : Status) : M unit :=
  PassBarrierG (λ _, undefined) barrier_id result.

Definition DisconnectTask_nested (now : Z) (task : CoordinatedTask) : M Status :=
  DisconnectTaskG PassBarrier_nested task now.

Definition PassBarrier (now : Z) (barrier_id : string) (result : Status)
    : M unit :=
  PassBarrierG (DisconnectTask_nested now) barrier_id result.

Definition DisconnectTask (task : CoordinatedTask) (now : Z) : M Status :=
  DisconnectTaskG (PassBarrier now) task now.

Definition task_error_barrier_error (barrier_id task_name : string)
    (error : Status) : Status :=
  MakeCoordinationError (InternalError (StrCat
    ["Barrier failed beacuse a task is in error. Barrier Id: "; barrier_id;
     ", Task: "; task_name; "Error: "; message error])).

Definition SetTaskError (now : Z) (task_name : string) (error : Status)
    : M unit :=
  update_task task_name (TaskState_SetError error) ;;;
  t <- task_at task_name ;;
  for_each (elements (ongoing_barriers_for_task_ t)) (λ barrier_id,
    try_emplace_barrier barrier_id ;;;
    PassBarrier now barrier_id
      (task_error_barrier_error barrier_id task_name error)).

(** [SendErrorPollingResponse]; the first line is a [CHECK]. *)
Definition SendErrorPollingResponse (error : Status) : M unit :=
  polling <- gets client_polling_for_error_ ;;
  if negb polling then undefined
  else
    eps <- gets error_polling_state_ ;;
    if responded_ eps then ret tt
    else ErrorPollingState_SetError error.

Definition shutdown_barrier_error (barrier_id : string) : Status :=
  MakeCoordinationError (AbortedError (StrCat
    ["Barrier failed because service is shutting down. Barrier_id: ";
     barrier_id])).

Definition shutdown_get_error (key : string) : Status :=
  CancelledError (StrCat
    ["Coordination service is shutting down. Cancelling ";
     "GetKeyValue() for key: "; key]).

(** [Stop].  Joining the staleness thread has no effect on the state. *)
Definition Stop (now : Z) : M unit :=
  get_cb <- gets get_cb_ ;;
  for_each (map_to_list get_cb) (λ entry,
    for_each entry.2 (λ get_kv_callback,
      emit (GetCallbackCalled get_kv_callback
              (ErrorOf (shutdown_get_error entry.1))))) ;;;
  modify (set_get_cb ∅) ;;;
  modify (set_shutting_down true) ;;;
  barriers <- gets barriers_ ;;
  for_each (map_to_list barriers).*1 (λ barrier_id,
    barrier <- barrier_at barrier_id ;;
    when (negb (passed barrier))
         (PassBarrier now barrier_id (shutdown_barrier_error barrier_id))) ;;;
  modify (set_barriers (λ _, ∅)) ;;;
  modify (set_cluster_state (λ _, ∅)) ;;;
  polling <- gets client_polling_for_error_ ;;
  when polling
       (SendErrorPollingResponse
          (CancelledError (StrCat ["Coordination service is shutting down. ";
                                   "Cancelling PollForErrorAsync()"]))).

(** [SendErrorPollingResponseOrStopService]; the first line is a [CHECK]. *)
Definition SendErrorPollingResponseOrStopService (now : Z) (error : Status)
    : M bool :=
  if ok error then undefined
  else
    polling <- gets client_polling_for_error_ ;;
    if (polling : bool) then SendErrorPollingResponse error ;;; ret false
    else Stop now ;;; ret true.

(** The loop of [PropagateError] over the task names collected before it. *)
Fixpoint propagate_to (now : Z) (source_task : CoordinatedTask)
    (is_reported_by_task : bool) (error : Status) (names : list string)
    : M unit :=
  match names with
  | [] => ret tt
  | task :: rest =>
      t <- task_at task ;;
      if negb (bool_decide (state_ t = TASKSTATE_CONNECTED))
      then propagate_to now source_task is_reported_by_task error rest
      else if negb (client_cache_present E)
      then SendErrorPollingResponseOrStopService now error ;;; ret tt
      else
        emit (ReportErrorToTaskSent task (code error) (message error)
                (mkPayload (Some source_task) is_reported_by_task)) ;;;
        propagate_to now source_task is_reported_by_task error rest
  end.

Definition PropagateError (now : Z) (source_task : CoordinatedTask)
    (is_reported_by_task : bool) : M unit :=
  if isRecoverableJob (job_name source_task) then ret tt
  else
    t <- task_at (GetTaskName source_task) ;;
    names <- task_names ;;
    propagate_to now source_task is_reported_by_task (status_ t) names.

Definition heartbeat_timeout_error (task_name : string) : Status :=
  MakeCoordinationError (UnavailableError (StrCat
    ["Task "; task_name;
     " heartbeat timeout. This indicates that the ";
     "remote task has failed, got preempted, or ";
     "crashed unexpectedly. Check the task logs ";
     "for an earlier error to debug further."])).

Definition unhealthy_tasks_error (stale_task_names : list string) : Status :=
  MakeCoordinationError (UnavailableError (StrCat
    ["The following tasks are unhealthy (stopped sending ";
     "heartbeats):"; nl; StrJoin stale_task_names nl; nl;
     "Check the task logs for an earlier error to debug ";
     "further."])).

(** The scan of [CheckHeartbeatTimeout]: the names of the stale tasks. *)
Fixpoint mark_stale_tasks (now : Z) (names : list string) : M (list string) :=
  match names with
  | [] => ret []
  | task_name :: rest =>
      found <- gets (λ s, cluster_state_ s !! task_name) ;;
      match found with
      | None => mark_stale_tasks now rest
      | Some t =>
          if negb (bool_decide (state_ t = TASKSTATE_CONNECTED))
          then mark_stale_tasks now rest
          else if bool_decide (heartbeat_timeout_ms_ < TimeSinceLastHeartbeatMs now t)
          then
            SetTaskError now task_name (heartbeat_timeout_error task_name) ;;;
            stale <- mark_stale_tasks now rest ;;
            ret (task_name :: stale)
          else mark_stale_tasks now rest
      end
  end.

Definition CheckHeartbeatTimeout (now : Z) : M unit :=
  names <- task_names ;;
  stale_task_names <- mark_stale_tasks now names ;;
  match stale_task_names with
  | [] => ret tt
  | _ =>
      if negb (client_cache_present E)
      then SendErrorPollingResponseOrStopService now
             (unhealthy_tasks_error stale_task_names) ;;; ret tt
      else for_each stale_task_names (λ stale_task_name,
             PropagateError now (GetTaskFromName stale_task_name) false)
  end.

(** Barriers of [ongoing_barriers_] whose deadline has passed. *)
Fixpoint expired_barriers (now : Z) (ids : list string) : M (list string) :=
  match ids with
  | [] => ret []
  | barrier_id :: rest =>
      try_emplace_barrier barrier_id ;;;
      barrier <- barrier_at barrier_id ;;
      expired <- expired_barriers now rest ;;
      ret (if bool_decide (deadline_in_micros barrier < now)
           then barrier_id :: expired else expired)
  end.

(** The pending tasks of a timed-out barrier: how many, and the names of
    the first ones. *)
Fixpoint pending_tasks_of (entries : list (CoordinatedTask * bool))
    (pending_tasks : string) (pending_task_count : Z) : string * Z :=
  match entries with
  | [] => (pending_tasks, pending_task_count)
  | (task, at_barrier) :: rest =>
      if (at_barrier : bool)
      then pending_tasks_of rest pending_tasks pending_task_count
      else
        let count := pending_task_count + 1 in
        pending_tasks_of rest
          (if bool_decide (count < kPendingTaskLogLimit)
           then pending_tasks +:+ GetTaskName task +:+ nl else pending_tasks)
          count
  end.

Definition barrier_timeout_message (barrier_id : string)
    (barrier : BarrierState) : string :=
  let '(pending_tasks, pending_task_count) :=
    pending_tasks_of (map_to_list (tasks_at_barrier barrier)) "" 0 in
  let total := Z.of_nat (size (tasks_at_barrier barrier)) in
  StrCat
    ["Barrier timed out. Id: "; barrier_id;
     ". This usually happens because a task ";
     "triggered the barrier too early or too slowly. Please look at the ";
     "task logs (both timed out and first task) to debug further."; nl;
     "# of tasks that reached the barrier: ";
     pretty (total - pending_task_count); "/"; pretty total; "."; nl;
     "The first task at the barrier: ";
     GetTaskName (initiating_task barrier);
     ". Some timed out task names:"; nl; pending_tasks].

Fixpoint pass_expired_barriers (now : Z) (ids : list string)
    (shutdown_error : option string) : M (option string) :=
  match ids with
  | [] => ret shutdown_error
  | barrier_id :: rest =>
      barrier <- barrier_at barrier_id ;;
      let error_message := barrier_timeout_message barrier_id barrier in
      PassBarrier now barrier_id
        (MakeCoordinationError (DeadlineExceededError error_message)) ;;;
      pass_expired_barriers now rest
        (if String.eqb barrier_id shutdown_barrier_id_
         then Some error_message else shutdown_error)
  end.

Definition CheckBarrierTimeout (now : Z) : M unit :=
  ids <- gets (λ s, elements (ongoing_barriers_ s)) ;;
  expired <- expired_barriers now ids ;;
  shutdown_error <- pass_expired_barriers now expired None ;;
  match shutdown_error with
  | Some error_message =>
      if negb (client_cache_present E)
      then SendErrorPollingResponseOrStopService now
             (MakeCoordinationError (DeadlineExceededError (StrCat
                ["Shutdown barrier timed out. Error: "; error_message]))) ;;;
           ret tt
      else ret tt
  | None => ret tt
  end.

Definition service_stopped_error (what : string) : Status :=
  MakeCoordinationError (InternalError what).

Definition RegisterTask (task : CoordinatedTask) (incarnation now : Z)
    : M Status :=
  let task_name := GetTaskName task in
  stopped <- gets shutting_down_ ;;
  if (stopped : bool) then
    ret (service_stopped_error (StrCat
      ["Coordination service has stopped. RegisterTask() from task: ";
       task_name;
       " failed. This usually implies an earlier error that caused ";
       "coordination service to shut down before the workers disconnect ";
       "gracefully. Check the task leader's logs for an earlier error to ";
       "debug the root cause."]))
  else
    found <- gets (λ s, cluster_state_ s !! task_name) ;;
    match found with
    | None =>
        ret (MakeCoordinationError (InvalidArgumentError (StrCat
          ["Unexpected task registered with task_name="; task_name])))
    | Some t =>
        let task_state := state_ t in
        let task_status := status_ t in
        let fail (error_message : string) : M Status :=
          let error :=
            MakeCoordinationErrorFrom (AbortedError error_message) task in
          SetTaskError now task_name error ;;;
          PropagateError now task false ;;;
          ret error in
        if bool_decide (task_state = TASKSTATE_DISCONNECTED)
           || (allow_new_incarnation_to_reconnect (config E)
               && (IsUnavailable task_status
                   && has_coordination_payload task_status))
        then
          update_task task_name (SetConnected incarnation now) ;;;
          ret OkStatus
        else if bool_decide (task_state = TASKSTATE_CONNECTED) then
          if bool_decide (task_incarnation_ t = incarnation) then
            update_task task_name (SetConnected incarnation now) ;;;
            ret OkStatus
          else
            fail (StrCat
              [task_name;
               " unexpectedly tried to connect with a different ";
               "incarnation. It has likely restarted."])
        else
          fail (StrCat
            [task_name;
             " unexpectedly tried to connect while it is already in ";
             "error. ResetTask() should be called before a ";
             "subsequent connect attempt."])
    end.

Definition ResetTask (task : CoordinatedTask) (now : Z) : M Status :=
  DisconnectTask task now.

Definition ReportTaskError (task : CoordinatedTask) (error : Status) (now : Z)
    : M Status :=
  let task_name := GetTaskName task in
  stopped <- gets shutting_down_ ;;
  if (stopped : bool) then
    ret (service_stopped_error
           "Coordination service has stopped. ReportTaskError() failed.")
  else
    found <- gets (λ s, cluster_state_ s !! task_name) ;;
    match found with
    | None =>
        ret (MakeCoordinationError (InvalidArgumentError (StrCat
          ["Unexpected request from task "; task_name])))
    | Some t =>
        if negb (bool_decide (state_ t = TASKSTATE_CONNECTED)) then
          ret (MakeCoordinationError (FailedPreconditionError
            "The task is not connected or already has an error."))
        else
          SetTaskError now task_name error ;;;
          PropagateError now task true ;;;
          ret OkStatus
    end.

(** [GetTaskState]: [cluster_state_[task_name]] is not guarded. *)
Fixpoint GetTaskState (tasks : list CoordinatedTask)
    : M (list CoordinatedTaskStateInfo) :=
  match tasks with
  | [] => ret []
  | task :: rest =>
      t <- task_at (GetTaskName task) ;;
      let error := status_ t in
      let state_info :=
        mkStateInfo task (state_ t) (code error) (message error)
          (if negb (ok error) then Some (mkPayload (Some task) false)
           else None) in
      states_info <- GetTaskState rest ;;
      ret (state_info :: states_info)
  end.

Definition RecordHeartbeat (task : CoordinatedTask) (incarnation now : Z)
    : M Status :=
  let task_name := GetTaskName task in
  stopped <- gets shutting_down_ ;;
  if (stopped : bool) then
    ret (service_stopped_error (StrCat
      ["Coordination service has stopped. RecordHeartbeat() from task: ";
       task_name;
       " failed. This usually implies an earlier error that caused ";
       "coordination service to shut down before the workers disconnect ";
       "gracefully. Check the task leader's logs for an earlier error to ";
       "debug the root cause."]))
  else
    found <- gets (λ s, cluster_state_ s !! task_name) ;;
    match found with
    | None =>
        ret (MakeCoordinationError (InvalidArgumentError (StrCat
          ["Unexpected heartbeat request from task: "; task_name;
           ". This usually implies a configuration error."])))
    | Some t =>
        if negb (ok (status_ t)) then ret (status_ t)
        else if IsDisconnectedBeyondGracePeriod now t then
          ret (MakeCoordinationError (InvalidArgumentError (StrCat
            ["Task with task_name="; task_name;
             " must be registered before sending heartbeat messages"])))
        else
          let '(s, t') := TaskState_RecordHeartbeat incarnation now t in
          modify (set_cluster_state (<[task_name := t']>)) ;;;
          if negb (ok s) then
            SetTaskError now task_name s ;;;
            PropagateError now task false ;;;
            ret s
          else ret s
    end.

(** The loop of [BarrierAsync] over the given participants: the name of the
    first undeclared task, if any; the tasks before it are in the map. *)
Fixpoint add_participating_tasks (barrier_id : string)
    (tasks : list CoordinatedTask) : M (option string) :=
  match tasks with
  | [] => ret None
  | task :: rest =>
      let task_name := GetTaskName task in
      declared <- gets (λ s, bool_decide (is_Some (cluster_state_ s !! task_name))) ;;
      if negb declared then ret (Some task_name)
      else
        update_barrier barrier_id (λ b,
          set_tasks_at_barrier (<[task := false]> (tasks_at_barrier b)) b) ;;;
        add_participating_tasks barrier_id rest
  end.

(** The loop of [BarrierAsync] that looks for a participant in error. *)
Fixpoint find_task_in_error (tasks : list CoordinatedTask) : M (option string) :=
  match tasks with
  | [] => ret None
  | pending_task :: rest =>
      let task_name := GetTaskName pending_task in
      t <- task_at task_name ;;
      if bool_decide (state_ t = TASKSTATE_ERROR) then ret (Some task_name)
      else find_task_in_error rest
  end.

Definition non_participating_error (barrier_id : string)
    (task : CoordinatedTask) : Status :=
  MakeCoordinationError (InvalidArgumentError (StrCat
    ["A non-participating task ("; GetTaskName task;
     ") called the barrier: "; barrier_id])).

Definition conflicting_tasks_error (barrier_id : string) : Status :=
  MakeCoordinationError (InvalidArgumentError (StrCat
    ["Conflicting tasks specified for the same barrier: "; barrier_id])).

Definition barrier_after_shutdown_error : Status :=
  service_stopped_error
    "Barrier requested after coordination service has shut down.".

(** The block of [BarrierAsync] that creates the barrier.  The result is
    false when the call has returned inside the block. *)
Definition create_barrier (barrier_id : string) (timeout : Z)
    (task : CoordinatedTask) (participating_tasks : list CoordinatedTask)
    (done : StatusCallback) (now : Z) : M bool :=
  update_barrier barrier_id (init_barrier task) ;;;
  unexpected <-
    match participating_tasks with
    | [] =>
        names <- task_names ;;
        for_each names (λ task_name,
          update_barrier barrier_id (λ b,
            set_tasks_at_barrier
              (<[GetTaskFromName task_name := false]> (tasks_at_barrier b)) b)) ;;;
        ret None
    | _ => add_participating_tasks barrier_id participating_tasks
    end ;;
  match unexpected with
  | Some task_name =>
      let error := MakeCoordinationError (InvalidArgumentError (StrCat
        ["Unexpected task ("; task_name;
         ") that is not in the cluster called the barrier. ";
         "Barrier Id: "; barrier_id])) in
      PassBarrier now barrier_id error ;;; call done error ;;; ret false
  | None =>
      update_barrier barrier_id (λ b,
        set_num_pending_tasks (Z.of_nat (size (tasks_at_barrier b))) b) ;;;
      barrier <- barrier_at barrier_id ;;
      let tasks := (map_to_list (tasks_at_barrier barrier)).*1 in
      in_error <- find_task_in_error tasks ;;
      match in_error with
      | Some task_name =>
          let error := MakeCoordinationError (InternalError (StrCat
            ["Task ("; task_name;
             ") is already in error before the barrier ";
             "was called. Barrier Id: "; barrier_id])) in
          PassBarrier now barrier_id error ;;; call done error ;;; ret false
      | None =>
          update_barrier barrier_id (set_deadline_in_micros (u64 (now + timeout))) ;;;
          modify (set_ongoing_barriers (λ o, {[barrier_id]} ∪ o)) ;;;
          for_each tasks (λ task,
            update_task (GetTaskName task) (JoinBarrier barrier_id)) ;;;
          ret true
      end
  end.

(** The part of [BarrierAsync] after the barrier exists. *)
Definition join_barrier (barrier_id : string) (task : CoordinatedTask)
    (participating_tasks : list CoordinatedTask) (done : StatusCallback)
    (now : Z) : M unit :=
  barrier <- barrier_at barrier_id ;;
  if passed barrier then
    if String.eqb barrier_id shutdown_barrier_id_ then
      s <- DisconnectTask task now ;;
      if negb (ok s) then call done s
      else barrier <- barrier_at barrier_id ;; call done (result barrier)
    else call done (result barrier)
  else
    update_barrier barrier_id (λ b,
      set_done_callbacks (done_callbacks b ++ [done]) b) ;;;
    cluster_size <- gets (λ s, Z.of_nat (size (cluster_state_ s))) ;;
    if negb (ValidateTaskArgs participating_tasks (tasks_at_barrier barrier)
                              cluster_size)
    then PassBarrier now barrier_id (conflicting_tasks_error barrier_id)
    else
      if negb (default false (tasks_at_barrier barrier !! task)) then
        update_barrier barrier_id (λ b,
          set_num_pending_tasks (num_pending_tasks b - 1)
            (set_tasks_at_barrier (<[task := true]> (tasks_at_barrier b)) b)) ;;;
        barrier <- barrier_at barrier_id ;;
        if bool_decide (num_pending_tasks barrier = 0)
        then PassBarrier now barrier_id OkStatus
        else ret tt
      else ret tt.

(** [BarrierAsync]; [timeout] is in microseconds. *)
Definition BarrierAsync (barrier_id : string) (timeout : Z)
    (task : CoordinatedTask) (participating_tasks : list CoordinatedTask)
    (done : StatusCallback) (now : Z) : M unit :=
  let source_task_name := GetTaskName task in
  let among_participating_tasks :=
    existsb (λ task, String.eqb (GetTaskName task) source_task_name)
            participating_tasks in
  if negb (bool_decide (participating_tasks = []))
     && negb among_participating_tasks
  then
    let error := non_participating_error barrier_id task in
    stopped <- gets shutting_down_ ;;
    if (stopped : bool) then call done barrier_after_shutdown_error
    else
      try_emplace_barrier barrier_id ;;;
      PassBarrier now barrier_id error ;;;
      call done error
  else
    stopped <- gets shutting_down_ ;;
    if (stopped : bool) then call done barrier_after_shutdown_error
    else
      inserted <- try_emplace_barrier barrier_id ;;
      proceed <-
        (if (inserted : bool)
         then create_barrier barrier_id timeout task participating_tasks done now
         else ret true) ;;
      if (proceed : bool)
      then join_barrier barrier_id task participating_tasks done now
      else ret tt.

Definition cancelled_error (barrier_id : string) (task : CoordinatedTask)
    : Status :=
  MakeCoordinationError (CancelledError (StrCat
    ["Barrier ("; barrier_id; ") is cancelled by task: "; GetTaskName task])).

(** [absl::StrCat] of a [StatusCode] prints its integer value. *)
Definition code_number (c : StatusCode) : Z :=
  match c with
  | kOk => 0 | kCancelled => 1 | kUnknown => 2 | kInvalidArgument => 3
  | kDeadlineExceeded => 4 | kNotFound => 5 | kAlreadyExists => 6
  | kPermissionDenied => 7 | kResourceExhausted => 8
  | kFailedPrecondition => 9 | kAborted => 10 | kOutOfRange => 11
  | kUnimplemented => 12 | kInternal => 13 | kUnavailable => 14
  | kDataLoss => 15 | kUnauthenticated => 16
  end.

Definition CancelBarrier (barrier_id : string) (task : CoordinatedTask)
    (now : Z) : M Status :=
  stopped <- gets shutting_down_ ;;
  if (stopped : bool) then
    ret (service_stopped_error
           "Coordination service has stopped. CancelBarrier() failed.")
  else
    try_emplace_barrier barrier_id ;;;
    barrier <- barrier_at barrier_id ;;
    if passed barrier then
      ret (MakeCoordinationError (FailedPreconditionError (StrCat
        ["Barrier ("; barrier_id;
         ") has already been passed with status code: ";
         pretty (code_number (code (result barrier)))])))
    else
      PassBarrier now barrier_id (cancelled_error barrier_id task) ;;;
      ret OkStatus.

Definition PollForErrorAsync (task : CoordinatedTask) (done : StatusCallback)
    (now : Z) : M unit :=
  let task_name := GetTaskName task in
  stopped <- gets shutting_down_ ;;
  if (stopped : bool) then
    call done (service_stopped_error
      "PollForError requested after coordination service has shut down.")
  else if client_cache_present E then
    call done (MakeCoordinationError (InternalError (StrCat
      ["Should not use error polling from service when ";
       "there is service to client connection."])))
  else
    modify (set_client_polling_for_error true) ;;;
    found <- gets (λ s, cluster_state_ s !! task_name) ;;
    match found with
    | None =>
        call done (MakeCoordinationError (InvalidArgumentError (StrCat
          ["Unexpected task ("; task_name;
           ") that is not in the cluster polling for errors."])))
    | Some t =>
        if IsDisconnectedBeyondGracePeriod now t then
          call done (MakeCoordinationError (FailedPreconditionError (StrCat
            ["Task ("; task_name;
             ") that has not been registered or has disconnected ";
             "polling for errors."])))
        else if bool_decide (state_ t = TASKSTATE_ERROR) then
          call done (MakeCoordinationError (FailedPreconditionError (StrCat
            ["Task ("; task_name;
             ") that is already in error state polling for errors. Current error: ";
             Status_ToString (PayloadToString E) (status_ t)])))
        else
          eps <- gets error_polling_state_ ;;
          if responded_ eps then call done (error_ eps)
          else ErrorPollingState_AddTask task done
    end.

Definition WaitForAllTasks (task : CoordinatedTask) (devices : DeviceInfo)
    (done : StatusCallback) (now : Z) : M unit :=
  stopped <- gets shutting_down_ ;;
  if (stopped : bool) then
    call done (service_stopped_error
      "Coordination service has stopped. WaitForAllTasks() failed.")
  else
    found <- gets (λ s, cluster_state_ s !! GetTaskName task) ;;
    match found with
    | Some t =>
        when (negb (DeviceInfoIsCollected t))
             (update_task (GetTaskName task) (CollectDeviceInfo devices))
    | None => ret tt
    end ;;;
    BarrierAsync device_propagation_barrier_id_ kDevicePropagationTimeout
                 task [] done now.

Definition ShutdownTaskAsync (task : CoordinatedTask) (done : StatusCallback)
    (now : Z) : M unit :=
  if bool_decide (0 < shutdown_barrier_timeout_) then
    BarrierAsync shutdown_barrier_id_ shutdown_barrier_timeout_ task [] done now
  else
    stopped <- gets shutting_down_ ;;
    status <-
      (if (stopped : bool) then
         ret (service_stopped_error
           "Coordination service has stopped. ShutdownTaskAsync() failed.")
       else DisconnectTask task now) ;;
    call done status.

Definition SetDeviceAggregationFunction (f : DeviceInfo → DeviceInfo) : M unit :=
  modify (set_post_aggregate_device_fn (Some f)).

(** ** Key-value operations of the service *)

(** [kv_store_.insert_or_assign(key, value)] on the ordered store. *)
Fixpoint insert_or_assign (key value : string) (st : KvStore) : KvStore :=
  match st with
  | [] => [(key, value)]
  | (k, v) :: rest =>
      if String.eqb k key then (key, value) :: rest
      else if String.ltb key k then (key, value) :: st
      else (k, v) :: insert_or_assign key value rest
  end.

Definition InsertKeyValue (key value : string) (allow_overwrite : bool)
    : M Status :=
  let norm_key := NormalizeKey key in
  kv <- gets kv_store_ ;;
  if negb allow_overwrite && bool_decide (is_Some (kv_find norm_key kv)) then
    ret (MakeCoordinationError (AlreadyExistsError (StrCat
      ["Config key "; key; " already exists."])))
  else
    modify (set_kv_store (insert_or_assign norm_key value kv)) ;;;
    get_cb <- gets get_cb_ ;;
    match get_cb !! norm_key with
    | Some cbs =>
        for_each cbs (λ cb, emit (GetCallbackCalled cb (ValueOf value))) ;;;
        modify (set_get_cb (delete norm_key get_cb))
    | None => ret tt
    end ;;;
    ret OkStatus.

Definition GetKeyValueAsync (key : string) (done : StatusOrValueCallback)
    : M unit :=
  let norm_key := NormalizeKey key in
  kv <- gets kv_store_ ;;
  match kv_find norm_key kv with
  | Some value => emit (GetCallbackCalled done (ValueOf value))
  | None =>
      modify (λ s, set_get_cb
        (<[norm_key := default [] (get_cb_ s !! norm_key) ++ [done]]> (get_cb_ s)) s)
  end.

Definition TryGetKeyValue (key : string) : M StatusOrValue :=
  let norm_key := NormalizeKey key in
  kv <- gets kv_store_ ;;
  match kv_find norm_key kv with
  | None => ret (ErrorOf (NotFoundError (StrCat
                  ["Config key "; key; " not found."])))
  | Some value => ret (ValueOf value)
  end.

Definition DeleteKeyValue (key : string) : M Status :=
  kv <- gets kv_store_ ;;
  modify (set_kv_store (DeleteKeyValue_store key kv)) ;;;
  ret OkStatus.

(** ** Entry points as transitions *)

Inductive Op : Type :=
  | OpRegisterTask (task : CoordinatedTask) (incarnation : Z)
  | OpWaitForAllTasks (task : CoordinatedTask) (devices : DeviceInfo)
      (done : StatusCallback)
  | OpShutdownTaskAsync (task : CoordinatedTask) (done : StatusCallback)
  | OpResetTask (task : CoordinatedTask)
  | OpRecordHeartbeat (task : CoordinatedTask) (incarnation : Z)
  | OpReportTaskError (task : CoordinatedTask) (error : Status)
  | OpGetTaskState (tasks : list CoordinatedTask)
  | OpInsertKeyValue (key value : string) (allow_overwrite : bool)
  | OpGetKeyValueAsync (key : string) (done : StatusOrValueCallback)
  | OpDeleteKeyValue (key : string)
  | OpBarrierAsync (barrier_id : string) (timeout : Z) (task : CoordinatedTask)
      (participating_tasks : list CoordinatedTask) (done : StatusCallback)
  | OpCancelBarrier (barrier_id : string) (task : CoordinatedTask)
  | OpPollForErrorAsync (task : CoordinatedTask) (done : StatusCallback)
  | OpSetDeviceAggregationFunction (f : DeviceInfo → DeviceInfo)
  | OpCheckHeartbeatTimeout
  | OpCheckBarrierTimeout
  | OpStop.

Definition discard {A} (m : M A) : M unit := m ;;; ret tt.

(** One entry point (or one sweep of the staleness thread, or the
    destructor's [Stop]) run at clock value [now]. *)
Definition step (op : Op) (now : Z) : M unit :=
  match op with
  | OpRegisterTask task incarnation => discard (RegisterTask task incarnation now)
  | OpWaitForAllTasks task devices done => WaitForAllTasks task devices done now
  | OpShutdownTaskAsync task done => ShutdownTaskAsync task done now
  | OpResetTask task => discard (ResetTask task now)
  | OpRecordHeartbeat task incarnation =>
      discard (RecordHeartbeat task incarnation now)
  | OpReportTaskError task error => discard (ReportTaskError task error now)
  | OpGetTaskState tasks => discard (GetTaskState tasks)
  | OpInsertKeyValue key value allow_overwrite =>
      discard (InsertKeyValue key value allow_overwrite)
  | OpGetKeyValueAsync key done => GetKeyValueAsync key done
  | OpDeleteKeyValue key => discard (DeleteKeyValue key)
  | OpBarrierAsync barrier_id timeout task participating_tasks done =>
      BarrierAsync barrier_id timeout task participating_tasks done now
  | OpCancelBarrier barrier_id task => discard (CancelBarrier barrier_id task now)
  | OpPollForErrorAsync task done => PollForErrorAsync task done now
  | OpSetDeviceAggregationFunction f => SetDeviceAggregationFunction f
  | OpCheckHeartbeatTimeout => CheckHeartbeatTimeout now
  | OpCheckBarrierTimeout => CheckBarrierTimeout now
  | OpStop => Stop now
  end.

(** The states the service can be in: the constructed one and every state
    an entry point leaves behind. *)
Inductive reachable : Service → Prop :=
  | reachable_initial : reachable initial_service
  | reachable_step s op now s' :
      reachable s → step op now s = Some (tt, s') → reachable s'.

(** Running a list of entry points, each with its clock value. *)
Fixpoint run (ops : list (Op * Z)) (s : Service) : option Service :=
  match ops with
  | [] => Some s
  | (op, now) :: rest =>
      match step op now s with
      | Some (_, s') => run rest s'
      | None => None
      end
  end.

End Operations.

(** ** Triples over the monad *)

(** [triple d P m Q]: from a state in [P], [m] ends in a state in [Q]; when
    [m] has no result the triple holds exactly if [d] does.  With [d := True]
    this is partial correctness, with [d := False] total correctness. *)
Definition triple {A} (d : Prop) (P : Service → Prop) (m : M A)
    (Q : A → Service → Prop) : Prop :=
  ∀ s, P s → match m s with
             | Some (a, s') => Q a s'
             | None => d
             end.

(** Two states that agree on the task table, the barrier table and the set
    of ongoing barriers. *)
Definition same_core (s s' : Service) : Prop :=
  cluster_state_ s' = cluster_state_ s
  ∧ barriers_ s' = barriers_ s
  ∧ ongoing_barriers_ s' = ongoing_barriers_ s
  ∧ shutting_down_ s' = shutting_down_ s.

(** The state [Stop] leaves behind. *)
Definition stopped (s : Service) : Prop :=
  shutting_down_ s = true ∧ barriers_ s = ∅ ∧ cluster_state_ s = ∅.

(** ** The barrier invariant *)

(** The invariant that links barriers and the tasks waiting for them.
    - A passed barrier has no participants left, no pending callback, and is
      not among the ongoing barriers.
    - A task waits only for barriers that exist, have not passed, and list
      the task as a participant.
    [X] holds the barriers that [PassBarrier] is in the middle of passing
    (marked passed, not yet cleaned up); [F] holds passed barrier records
    that are required to stay as they are. *)
Definition barrier_inv (X : gset string) (F : gmap string BarrierState)
    (s : Service) : Prop :=
  (∀ id b, barriers_ s !! id = Some b → passed b = true → id ∉ X →
     tasks_at_barrier b = ∅ ∧ done_callbacks b = []
     ∧ (id ∉ ongoing_barriers_ s))
  ∧ (∀ name t id, cluster_state_ s !! name = Some t →
       id ∈ ongoing_barriers_for_task_ t →
       (id ∉ X)
       ∧ ∃ b, barriers_ s !! id = Some b ∧ passed b = false
              ∧ ∃ task, is_Some (tasks_at_barrier b !! task)
                        ∧ GetTaskName task = name)
  ∧ (∀ id, id ∈ X → ∃ b, barriers_ s !! id = Some b ∧ passed b = true)
  ∧ (∀ id b, F !! id = Some b →
       barriers_ s !! id = Some b ∧ passed b = true ∧ (id ∉ X)).

(** [ExitBarrier(barrier_id)] on every task named in [names]. *)
Definition exit_all (barrier_id : string) (names : list string)
    (cs : gmap string TaskState) : gmap string TaskState :=
  foldl (λ cs name, alter (ExitBarrier barrier_id) name cs) cs names.

(** The record of a barrier after [PassBarrier]. *)
Definition passed_record (r : Status) (b : BarrierState) : BarrierState :=
  mkBarrierState true r (deadline_in_micros b) (num_pending_tasks b) ∅ []
                 (initiating_task b).

Definition callbacks_called (cbs : list StatusCallback) (r : Status)
    : list Event :=
  (λ cb, StatusCallbackCalled cb r) <$> cbs.

Section WellFormed.

Variable E : ServiceEnv.

(** Every participant of every barrier is a declared task. *)
Definition participants_declared (s : Service) : Prop :=
  ∀ id b task, barriers_ s !! id = Some b →
    is_Some (tasks_at_barrier b !! task) →
    is_Some (cluster_state_ s !! GetTaskName task).

(** The names of the declared tasks parse back to declared tasks (what
    [AggregateClusterDevices] relies on). *)
Definition names_parse (s : Service) : Prop :=
  ∀ name, is_Some (cluster_state_ s !! name) →
    is_Some (cluster_state_ s !! GetTaskName (GetTaskFromName E name)).

Definition well_formed (s : Service) : Prop :=
  participants_declared s ∧ names_parse s.

End WellFormed.

(** A predicate that only reads the task table, the barrier table, the
    ongoing barriers and the shutdown flag. *)
Definition core_pred (P : Service → Prop) : Prop :=
  ∀ s s', same_core s s' → P s → P s'.

(** The invariant while [PassBarrier] runs its [ExitBarrier] loop for
    [barrier_id]: the barrier is marked passed, and the tasks still waiting
    for it are among [names], the participants the loop has yet to visit. *)
Definition barrier_inv_exiting (X : gset string)
    (F : gmap string BarrierState) (barrier_id : string)
    (names : list string) (s : Service) : Prop :=
  (∀ id b, barriers_ s !! id = Some b → passed b = true → id ∉ X →
     id ≠ barrier_id →
     tasks_at_barrier b = ∅ ∧ done_callbacks b = []
     ∧ (id ∉ ongoing_barriers_ s))
  ∧ (∀ name t id, cluster_state_ s !! name = Some t →
       id ∈ ongoing_barriers_for_task_ t →
       (id ∉ X)
       ∧ ((id = barrier_id ∧ name ∈ names)
          ∨ (id ≠ barrier_id
             ∧ ∃ b, barriers_ s !! id = Some b ∧ passed b = false
                    ∧ ∃ task, is_Some (tasks_at_barrier b !! task)
                              ∧ GetTaskName task = name)))
  ∧ (∀ id, id ∈ X ∨ id = barrier_id →
       ∃ b, barriers_ s !! id = Some b ∧ passed b = true)
  ∧ (∀ id b, F !! id = Some b →
       barriers_ s !! id = Some b ∧ passed b = true ∧ (id ∉ X)
       ∧ id ≠ barrier_id).

(** After an entry point the invariant holds with the frozen records [F]
    kept, unless the entry point stopped the service. *)
Definition kept_or_stopped (F : gmap string BarrierState) (s : Service) : Prop :=
  barrier_inv ∅ F s ∨ stopped s.

(** The barrier [id], if it exists, has not passed. *)
Definition unpassed (barrier_id : string) (s : Service) : Prop :=
  ∀ b, barriers_ s !! barrier_id = Some b → passed b = false.

(** The barrier [id] exists and has not passed. *)
Definition pending (barrier_id : string) (s : Service) : Prop :=
  ∃ b, barriers_ s !! barrier_id = Some b ∧ passed b = false.

(** The barrier that an entry point fails because its caller is outside
    the participant list it gives. *)
Definition non_participating_call (op : Op) : option string :=
  match op with
  | OpBarrierAsync barrier_id _ task participating_tasks _ =>
      if negb (bool_decide (participating_tasks = []))
         && negb (existsb (λ t, String.eqb (GetTaskName t) (GetTaskName task))
                          participating_tasks)
      then Some barrier_id else None
  | _ => None
  end.

(** What holds while the shutdown hook of [PassBarrier] runs for
    [barrier_id]: the state is well formed, the record of the barrier is
    [b1], no participant of [b1] waits for the barrier any more, and the log
    extends [log0]. *)
Definition hook_inv (E : ServiceEnv) (barrier_id : string) (b1 : BarrierState)
    (log0 : list Event) (s : Service) : Prop :=
  well_formed E s
  ∧ barriers_ s !! barrier_id = Some b1
  ∧ (∀ task t, is_Some (tasks_at_barrier b1 !! task) →
       cluster_state_ s !! GetTaskName task = Some t →
       barrier_id ∉ ongoing_barriers_for_task_ t)
  ∧ ∃ pre, log s = log0 ++ pre.

(** ** Further notions used in the statements, and worked examples *)

(** The keys that [DeleteKeyValue] removes for the normalized key
    [norm_key]: the key itself and the keys under the directory it names. *)
Definition deleted_by (norm_key key : string) : Prop :=
  key = norm_key ∨ ∃ suffix, key = norm_key +:+ "/" +:+ suffix.

(** A store with a key, two keys under it, and a key that only shares its
    first letter. *)
Definition example_store : KvStore :=
  [("a", "1"); ("a/b", "2"); ("a/b/c", "3"); ("ab", "4"); ("b", "5")].

(** [well_formed], as a check that can be run on a given state. *)
Definition well_formed_check (E : ServiceEnv) (s : Service) : bool :=
  bool_decide (map_Forall (λ _ b,
      map_Forall (λ task (_ : bool),
                    is_Some (cluster_state_ s !! GetTaskName task))
                 (tasks_at_barrier b))
    (barriers_ s))
  && bool_decide (map_Forall (λ name _,
       is_Some (cluster_state_ s !! GetTaskName (GetTaskFromName E name)))
     (cluster_state_ s)).

(** A cluster of one job [j] with two tasks, in pull mode. *)
Definition example_config : CoordinationServiceConfig :=
  mkConfig 0 0 false [("j", 2)] [].

(** [ParseFullName] on the task names of this cluster. *)
Definition example_parse (name : string) : string * Z :=
  if String.eqb name "/job:j/replica:0/task:1" then ("j", 1) else ("j", 0).

(** A stand-in for the printed payload: its source task and its flag. *)
Definition example_payload_text (p : CoordinationServiceError) : string :=
  StrCat [" [coordination_error='";
          from_option GetTaskName "" (source_task p);
          if is_reported_error p then " reported" else ""; "']"].

Definition example_env : ServiceEnv :=
  mkEnv example_config false 7 example_parse example_payload_text.

(** Its two tasks. *)
Definition j0 : CoordinatedTask := mkTask "j" 0.
Definition j1 : CoordinatedTask := mkTask "j" 1.

(** The state a run leaves behind, from the constructed service. *)
Definition state_after (E : ServiceEnv) (ops : list (Op * Z)) : Service :=
  default (initial_service E) (run E ops (initial_service E)).

(** Both tasks registered; [j0] waits at barrier [b] for [j1], with
    callback 1. *)
Definition example_pending : Service :=
  state_after example_env
    [(OpRegisterTask j0 7, 100); (OpRegisterTask j1 9, 100);
     (OpBarrierAsync "b" 5000000 j0 [j0; j1] 1%nat, 200)].

(** The same, after [j0] has cancelled the barrier. *)
Definition example_cancelled : Service :=
  state_after example_env
    [(OpRegisterTask j0 7, 100); (OpRegisterTask j1 9, 100);
     (OpBarrierAsync "b" 5000000 j0 [j0; j1] 1%nat, 200);
     (OpCancelBarrier "b" j0, 300)].

(** The same, after the service has stopped. *)
Definition example_stopped : Service :=
  state_after example_env
    [(OpRegisterTask j0 7, 100); (OpRegisterTask j1 9, 100);
     (OpBarrierAsync "b" 5000000 j0 [j0; j1] 1%nat, 200);
     (OpStop, 300)].

(** The record of barrier [b] in [example_pending]. *)
Definition example_barrier : BarrierState :=
  default new_BarrierState (barriers_ example_pending !! "b").

(** [example_pending] after [j0] has started to poll for errors, with
    callback 5. *)
Definition example_polling_run : list (Op * Z) :=
  [(OpRegisterTask j0 7, 100); (OpRegisterTask j1 9, 100);
   (OpBarrierAsync "b" 5000000 j0 [j0; j1] 1%nat, 200);
   (OpPollForErrorAsync j0 5%nat, 250)].

Definition example_polling : Service :=
  state_after example_env example_polling_run.

(** What a run leaves of barrier [barrier_id]: whether it has passed, and
    the code of its stored result. *)
Definition barrier_outcome (E : ServiceEnv) (ops : list (Op * Z))
    (barrier_id : string) : option (bool * StatusCode) :=
  s ← run E ops (initial_service E);
  b ← barriers_ s !! barrier_id;
  Some (passed b, code (result b)).

(** The record of barrier [b] in [example_cancelled]. *)
Definition example_cancelled_barrier : BarrierState :=
  default new_BarrierState (barriers_ example_cancelled !! "b").

(** What [GetTaskState] reports for [task] when its record is [t]. *)
Definition state_info_of (task : CoordinatedTask) (t : TaskState)
    : CoordinatedTaskStateInfo :=
  mkStateInfo task (state_ t) (code (status_ t)) (message (status_ t))
    (if ok (status_ t) then None else Some (mkPayload (Some task) false)).


(** Whether entry point [op], run in state [s], sets
    [client_polling_for_error_]: only [PollForErrorAsync] does, when the
    service runs and has no client cache. *)
Definition polls (E : ServiceEnv) (op : Op) (s : Service) : bool :=
  match op with
  | OpPollForErrorAsync _ _ =>
      negb (shutting_down_ s) && negb (client_cache_present E)
  | _ => false
  end.

(** Whether some entry point of the run [ops] from [s] has polled for
    errors. *)
Fixpoint polled (E : ServiceEnv) (ops : list (Op * Z)) (s : Service) : bool :=
  match ops with
  | [] => false
  | (op, now) :: rest =>
      polls E op s
      || match step E op now s with
         | Some (_, s') => polled E rest s'
         | None => false
         end
  end.

(** Every task in state CONNECTED has an OK status. *)
Definition connected_ok (s : Service) : Prop :=
  ∀ name t, cluster_state_ s !! name = Some t →
    state_ t = TASKSTATE_CONNECTED → ok (status_ t) = true.

(** [j0] registers and then reports an error whose status is OK. *)
Definition example_ok_error : Service :=
  state_after example_env
    [(OpRegisterTask j0 7, 100); (OpReportTaskError j0 OkStatus, 200)].

(** ** Further operations, notions and worked examples *)

(** The loop of [GetKeyValueDir]: the entries from [begin] up to the first
    key without the directory prefix. *)
Fixpoint take_dir (dir : string) (from : KvStore) : KvStore :=
  match from with
  | [] => []
  | (k, v) :: rest =>
      if has_dir_prefix dir k then (k, v) :: take_dir dir rest else []
  end.

(** [GetKeyValueDir]; a [KeyValueEntry] is a key with its value. *)
Definition GetKeyValueDir (directory_key : string) : M (list (string * string)) :=
  let norm_key := NormalizeKey directory_key in
  let dir := StrCat [norm_key; "/"] in
  kv <- gets kv_store_ ;;
  let '(_, begin) := lower_bound dir kv in
  ret (take_dir dir begin).

(** The events of handing [value] to the getters [cbs]. *)
Definition getters_called (cbs : list StatusOrValueCallback) (value : string)
    : list Event :=
  (λ cb, GetCallbackCalled cb (ValueOf value)) <$> cbs.

(** The state after an accepted [InsertKeyValue] of [value] under the
    normalized key [nk]. *)
Definition inserted (nk value : string) (s : Service) : Service :=
  let s1 := set_kv_store (insert_or_assign nk value (kv_store_ s)) s in
  match get_cb_ s !! nk with
  | Some cbs =>
      set_get_cb (delete nk (get_cb_ s)) (add_log (getters_called cbs value) s1)
  | None => s1
  end.

(** The entry points that write the key-value store. *)
Definition writes_kv_store (op : Op) : bool :=
  match op with
  | OpInsertKeyValue _ _ _ | OpDeleteKeyValue _ => true
  | _ => false
  end.

(** What the key-value store always is: in key order, with normalized
    keys. *)
Definition kv_store_ok (st : KvStore) : Prop :=
  kv_sorted st ∧ Forall (λ kv, normalized kv.1) st.

(** The names of the tasks that the configuration declares. *)
Definition declared_name (E : ServiceEnv) (name : string) : Prop :=
  ∃ job n i, (job, n) ∈ coordinated_job_list (config E)
             ∧ 0 ≤ i < n ∧ name = GetTaskName' job i.

(** The error with which [RegisterTask] refuses a task: [why] tells what the
    task did. *)
Definition registration_error (task : CoordinatedTask) (why : list string)
    : Status :=
  MakeCoordinationErrorFrom
    (AbortedError (StrCat (GetTaskName task :: why))) task.

(** The names of the connected tasks, in the order of the task table. *)
Definition connected_task_names (s : Service) : list string :=
  (List.filter (λ e, bool_decide (state_ e.2 = TASKSTATE_CONNECTED))
               (map_to_list (cluster_state_ s))).*1.

(** The RPCs by which [PropagateError] reports [error] of [source_task] to
    the tasks named [names]. *)
Definition error_reports (source_task : CoordinatedTask)
    (is_reported_by_task : bool) (error : Status) (names : list string)
    : list Event :=
  (λ name, ReportErrorToTaskSent name (code error) (message error)
             (mkPayload (Some source_task) is_reported_by_task)) <$> names.

(** Barrier [barrier_id] has passed, with a result in [φ]. *)
Definition passed_with (φ : Status → Prop) (barrier_id : string)
    (s : Service) : Prop :=
  ∃ b, barriers_ s !! barrier_id = Some b ∧ passed b = true ∧ φ (result b).

(** The record of a task that [DisconnectTask] has disconnected at clock
    value [now], once it has left its barriers. *)
Definition disconnected_record (E : ServiceEnv) (now : Z) (t : TaskState)
    : TaskState :=
  mkTaskState (task_incarnation_ t) TASKSTATE_DISCONNECTED OkStatus
    (last_heartbeat_us_ t) (u64 (now + u64 (heartbeat_timeout_ms_ E * 1000)))
    (devices_ t) ∅.

(** The participants of a barrier that is created with the list
    [participating_tasks]: the list, or every declared task when the list is
    empty. *)
Definition barrier_participants (E : ServiceEnv)
    (participating_tasks : list CoordinatedTask) (s : Service)
    : list CoordinatedTask :=
  match participating_tasks with
  | [] => GetTaskFromName E <$> (map_to_list (cluster_state_ s)).*1
  | _ => participating_tasks
  end.

(** The participant map in which none of [tasks] has arrived, on top of
    [m]. *)
Definition none_arrived (tasks : list CoordinatedTask)
    (m : gmap CoordinatedTask bool) : gmap CoordinatedTask bool :=
  foldl (λ m task, <[task := false]> m) m tasks.

(** [JoinBarrier(barrier_id)] on every task named in [names]. *)
Definition join_all (barrier_id : string) (names : list string)
    (cs : gmap string TaskState) : gmap string TaskState :=
  foldl (λ cs name, alter (JoinBarrier barrier_id) name cs) cs names.

(** The record of a barrier with participant map [m] (nobody arrived) right
    after the call of [task] that created it. *)
Definition created_barrier (now timeout : Z) (task : CoordinatedTask)
    (done : StatusCallback) (m : gmap CoordinatedTask bool) : BarrierState :=
  mkBarrierState false (result new_BarrierState) (u64 (now + timeout))
    (Z.of_nat (size m) - 1) (<[task := true]> m) [done] task.

(** Barrier [barrier_id] has failed at creation with [error]: it has passed
    with that result, has [task] as initiating task, and keeps neither
    participants nor callbacks. *)
Definition failed_at_creation (barrier_id : string) (task : CoordinatedTask)
    (error : Status) (s : Service) : Prop :=
  ∃ b, barriers_ s !! barrier_id = Some b
       ∧ passed b = true ∧ result b = error
       ∧ tasks_at_barrier b = ∅ ∧ done_callbacks b = []
       ∧ initiating_task b = task.

(** The results with which a barrier can fail during the sweep of
    [CheckBarrierTimeout]: its deadline is over, or a task at the shutdown
    barrier was disconnected. *)
Definition timed_out_or_disconnected (r : Status) : Prop :=
  code r = kDeadlineExceeded ∨ code r = kInternal.

(** The calls by which [Stop] cancels the pending [GetKeyValueAsync]
    callbacks [get_cb], key by key. *)
Definition getters_cancelled (get_cb : gmap string (list StatusOrValueCallback))
    : list Event :=
  concat ((λ entry : string * list StatusOrValueCallback,
             (λ cb, GetCallbackCalled cb (ErrorOf (shutdown_get_error entry.1)))
               <$> entry.2)
          <$> map_to_list get_cb).

(** The error with which [Stop] answers the pending [PollForErrorAsync]
    calls. *)
Definition shutdown_poll_error : Status :=
  CancelledError (StrCat ["Coordination service is shutting down. ";
                          "Cancelling PollForErrorAsync()"]).

(** The devices recorded for [task]; none for an undeclared task. *)
Definition devices_of_task (s : Service) (task : CoordinatedTask) : DeviceInfo :=
  default [] (devices_ <$> cluster_state_ s !! GetTaskName task).

(** Task [name] is CONNECTED in [s] and its last heartbeat is older than the
    heartbeat timeout at clock value [now]. *)
Definition stale_at (E : ServiceEnv) (now : Z) (s : Service) (name : string)
    : Prop :=
  ∃ t, cluster_state_ s !! name = Some t
       ∧ state_ t = TASKSTATE_CONNECTED
       ∧ heartbeat_timeout_ms_ E < TimeSinceLastHeartbeatMs now t.

(** Task [name] is declared and not CONNECTED. *)
Definition not_connected (name : string) (s : Service) : Prop :=
  ∃ t, cluster_state_ s !! name = Some t ∧ state_ t ≠ TASKSTATE_CONNECTED.

(** Every task record of the table satisfies [R]. *)
Definition records (R : string → TaskState → Prop) (s : Service) : Prop :=
  ∀ name t, cluster_state_ s !! name = Some t → R name t.

(** The example store, held by a service. *)
Definition example_kv : Service :=
  set_kv_store example_store (initial_service example_env).

(** Both tasks of the example cluster registered, at clock value 100. *)
Definition example_registered : Service :=
  state_after example_env
    [(OpRegisterTask j0 7, 100); (OpRegisterTask j1 9, 100)].

(** The example cluster with a client cache (push mode), both tasks
    registered. *)
Definition example_push_env : ServiceEnv :=
  mkEnv example_config true 7 example_parse example_payload_text.

Definition example_push_registered : Service :=
  state_after example_push_env
    [(OpRegisterTask j0 7, 100); (OpRegisterTask j1 9, 100)].

(** [example_registered] after [j1] has handed in its devices. *)
Definition example_devices : Service :=
  state_after example_env
    [(OpRegisterTask j0 7, 100); (OpRegisterTask j1 9, 100);
     (OpWaitForAllTasks j1 ["d1"; "d2"] 1%nat, 200)].

(** The record of a task in a state; a fresh record for an undeclared
    task. *)
Definition record_of (s : Service) (task : CoordinatedTask) : TaskState :=
  default new_TaskState (cluster_state_ s !! GetTaskName task).

(** A cluster of one job [j] with three tasks, in pull mode. *)
Definition example_parse3 (name : string) : string * Z :=
  if String.eqb name "/job:j/replica:0/task:1" then ("j", 1)
  else if String.eqb name "/job:j/replica:0/task:2" then ("j", 2)
  else ("j", 0).

Definition example_env3 : ServiceEnv :=
  mkEnv (mkConfig 0 0 false [("j", 3)] []) false 7 example_parse3
    example_payload_text.

(** Its first task has called a barrier [w] for the whole cluster, with
    callback 1. *)
Definition example_open_barrier : Service :=
  state_after example_env3 [(OpBarrierAsync "w" 5000000 j0 [] 1%nat, 200)].

(** The third task of that cluster, and a task that none of the example
    clusters declares. *)
Definition j2 : CoordinatedTask := mkTask "j" 2.
Definition undeclared_task : CoordinatedTask := mkTask "k" 0.

(** In the cluster of two, the undeclared task calls a barrier [w] for the
    whole cluster, with callback 1. *)
Definition example_undeclared_run : list (Op * Z) :=
  [(OpBarrierAsync "w" 5000000 undeclared_task [] 1%nat, 200)].

Definition example_undeclared : Service :=
  state_after example_env example_undeclared_run.

(** [example_pending] after [j1] has arrived at barrier [b] as well, with
    callback 2. *)
Definition example_passed : Service :=
  state_after example_env
    [(OpRegisterTask j0 7, 100); (OpRegisterTask j1 9, 100);
     (OpBarrierAsync "b" 5000000 j0 [j0; j1] 1%nat, 200);
     (OpBarrierAsync "b" 5000000 j1 [j0; j1] 2%nat, 300)].

(** In the cluster of three, [j0] waits at a barrier [b] of [j0] and [j1],
    with callback 1. *)
Definition example_pending3 : Service :=
  state_after example_env3
    [(OpBarrierAsync "b" 5000000 j0 [j0; j1] 1%nat, 200)].

(** The cluster of two, in pull mode, with a shutdown barrier that times out
    after one millisecond. *)
Definition example_shutdown_env : ServiceEnv :=
  mkEnv (mkConfig 0 1 false [("j", 2)] []) false 7 example_parse
    example_payload_text.

(** The undeclared task calls barrier [w] for the whole cluster; then [j0],
    which has not registered, asks to shut down, with callback 2. *)
Definition example_shutdown_run : list (Op * Z) :=
  [(OpBarrierAsync "w" 5000000 undeclared_task [] 1%nat, 200);
   (OpShutdownTaskAsync j0 2%nat, 200)].

Definition example_shutdown : Service :=
  state_after example_shutdown_env example_shutdown_run.

(** Both tasks registered in that cluster; [j0] has asked to shut down, with
    callback 1, and waits at the shutdown barrier for [j1]. *)
Definition example_leaving_run : list (Op * Z) :=
  [(OpRegisterTask j0 7, 100); (OpRegisterTask j1 9, 100);
   (OpShutdownTaskAsync j0 1%nat, 200)].

Definition example_leaving : Service :=
  state_after example_shutdown_env example_leaving_run.

(* ===================================================================== *)
(** * Proofs *)

(** ** Key normalization *)

Section normalize_key.

Implicit Types (src dst s d : string) (c : ascii).

Lemma append_cons c s1 s2 : String c s1 +:+ s2 = String c (s1 +:+ s2).
Proof. reflexivity. Qed.

Lemma append_empty_l s : "" +:+ s = s.
Proof. reflexivity. Qed.

Lemma append_empty_r s : s +:+ "" = s.
Proof. induction s; rewrite ?append_cons; [done|congruence]. Qed.

Lemma append_assoc_string s1 s2 s3 : (s1 +:+ s2) +:+ s3 = s1 +:+ (s2 +:+ s3).
Proof. induction s1; rewrite ?append_cons, ?append_empty_l; congruence. Qed.

Lemma slash_not_nul c : is_slash c = true → is_nul c = false.
Proof.
  unfold is_slash, is_nul. intros H%Ascii.eqb_eq. by subst.
Qed.

Lemma scan_skip_slashes src : scan true (skip_slashes src) = scan true src.
Proof.
  induction src as [|c r IH]; simpl; [done|].
  destruct (is_slash c) eqn:Hs.
  - by rewrite IH, (slash_not_nul c Hs).
  - simpl. by rewrite Hs.
Qed.

Lemma skip_slashes_length src :
  (String.length (skip_slashes src) ≤ String.length src)%nat.
Proof.
  induction src as [|c r IH]; simpl; [done|].
  destruct (is_slash c); simpl; lia.
Qed.

Lemma skip_slashes_head src c r :
  skip_slashes src = String c r → is_slash c = false.
Proof.
  induction src as [|c' r' IH]; simpl; [done|].
  destruct (is_slash c') eqn:Hs; [done|]. by intros [= -> ->].
Qed.

(** After the slash-skipping loop both phases of the pass agree. *)
Lemma scan_after_skip src :
  scan true (skip_slashes src) = scan false (skip_slashes src).
Proof.
  destruct (skip_slashes src) as [|c r] eqn:Heq; [done|].
  simpl. by rewrite (skip_slashes_head _ _ _ Heq).
Qed.

Lemma copy_segment_scan src seg rest :
  copy_segment src = (seg, rest) →
  scan false src = seg +:+ scan false rest
  ∧ (String.length rest ≤ String.length src)%nat
  ∧ match rest with
    | String c _ => is_nul c = true ∨ is_slash c = true
    | EmptyString => True
    end.
Proof.
  revert seg rest. induction src as [|c r IH]; intros seg rest; simpl.
  - by intros [= <- <-].
  - destruct (is_nul c) eqn:Hn; simpl.
    { intros [= <- <-]. simpl. rewrite Hn. auto. }
    destruct (is_slash c) eqn:Hs; simpl.
    { intros [= <- <-]. simpl. rewrite Hn, Hs. auto. }
    destruct (copy_segment r) as [seg' rest'] eqn:Hc.
    intros [= <- <-]. destruct (IH _ _ eq_refl) as (-> & ? & ?).
    rewrite append_cons. split_and!; [done|lia|done].
Qed.

Lemma normalize_loop_at_nul fuel src dst :
  at_nul src = true → normalize_loop fuel src dst = dst.
Proof. destruct fuel; simpl; [done|]. by intros ->. Qed.

Lemma scan_at_nul b src : at_nul src = true → scan b src = "".
Proof. destruct src; simpl; [done|]. by intros ->. Qed.

(** The fuel of [NormalizeKey] is never exhausted: with more fuel than
    characters the loops compute the one-pass scan. *)
Lemma normalize_loop_scan fuel src dst :
  (String.length src < fuel)%nat →
  normalize_loop fuel src dst = dst +:+ scan true src.
Proof.
  revert src dst. induction fuel as [|fuel IH]; intros src dst Hlen; [lia|].
  simpl. destruct (at_nul src) eqn:Hnul.
  { by rewrite scan_at_nul, append_empty_r. }
  rewrite <- scan_skip_slashes, scan_after_skip.
  pose proof (skip_slashes_length src) as Hskip.
  destruct (copy_segment (skip_slashes src)) as [seg src2] eqn:Hc.
  destruct (copy_segment_scan _ _ _ Hc) as (-> & Hlen2 & Hhead).
  destruct src2 as [|c src3].
  - rewrite normalize_loop_at_nul by done. by rewrite append_empty_r.
  - destruct (is_nul c) eqn:Hn.
    + rewrite normalize_loop_at_nul by done. simpl. rewrite Hn.
      by rewrite append_empty_r.
    + destruct Hhead as [?|Hs]; [congruence|].
      rewrite IH by (simpl in *; lia).
      simpl. rewrite Hn, Hs. by rewrite !append_assoc_string.
Qed.

Lemma NormalizeKey_scan k : NormalizeKey k = strip_trailing_slash (scan true k).
Proof. unfold NormalizeKey. by rewrite normalize_loop_scan by lia. Qed.

Lemma scan_shape b s : key_shape b (scan b s) = true.
Proof.
  revert b. induction s as [|c r IH]; intros b; simpl; [done|].
  destruct (is_nul c) eqn:Hn; [done|].
  destruct (is_slash c) eqn:Hs.
  - destruct b; [apply IH|]. simpl. rewrite Hn, Hs. simpl. apply IH.
  - simpl. rewrite Hn, Hs. apply IH.
Qed.

Lemma scan_fixed b s : key_shape b s = true → scan b s = s.
Proof.
  revert b. induction s as [|c r IH]; intros b; simpl; [done|].
  destruct (is_nul c); [done|].
  destruct (is_slash c).
  - destruct b; simpl; [done|]. intros H. by rewrite IH.
  - intros H. by rewrite IH.
Qed.

Lemma strip_trailing_slash_shape b d :
  key_shape b d = true → key_shape b (strip_trailing_slash d) = true.
Proof.
  revert b. induction d as [|c r IH]; intros b; [done|].
  destruct r as [|c2 r2].
  { intros H. cbn [strip_trailing_slash]. by destruct (is_slash c). }
  change (strip_trailing_slash (String c (String c2 r2)))
    with (String c (strip_trailing_slash (String c2 r2))).
  remember (String c2 r2) as r'. simpl.
  destruct (is_nul c); [done|].
  destruct (is_slash c).
  - intros [-> H]%andb_prop. simpl. by apply IH.
  - by apply IH.
Qed.

Lemma strip_trailing_slash_end b d :
  key_shape b d = true → ends_with_slash (strip_trailing_slash d) = false.
Proof.
  revert b. induction d as [|c r IH]; intros b; [done|].
  destruct r as [|c2 r2].
  { simpl. destruct (is_slash c) eqn:Hs; [done|]. simpl. by rewrite Hs. }
  change (strip_trailing_slash (String c (String c2 r2)))
    with (String c (strip_trailing_slash (String c2 r2))).
  intros Hshape.
  assert (key_shape (is_slash c) (String c2 r2) = true) as Hrest.
  { simpl in Hshape. destruct (is_nul c); [done|].
    destruct (is_slash c); [by apply andb_prop in Hshape as [_ ?]|done]. }
  specialize (IH _ Hrest).
  destruct (strip_trailing_slash (String c2 r2)) as [|c3 r3] eqn:Hstrip; [|done].
  (* the tail was a lone slash, so [c] is not one *)
  simpl. destruct (is_slash c) eqn:Hs; [|done].
  destruct r2 as [|c4 r4]; simpl in Hstrip.
  - destruct (is_slash c2) eqn:Hs2; [|done].
    simpl in Hrest. rewrite Hs2 in Hrest. by destruct (is_nul c2).
  - done.
Qed.

Lemma strip_trailing_slash_fixed d :
  ends_with_slash d = false → strip_trailing_slash d = d.
Proof.
  induction d as [|c r IH]; [done|].
  destruct r as [|c2 r2]; simpl.
  - by intros ->.
  - intros H. simpl in IH. by rewrite IH.
Qed.

Lemma NormalizeKey_normalized k : normalized (NormalizeKey k).
Proof.
  rewrite NormalizeKey_scan. split.
  - apply strip_trailing_slash_shape, scan_shape.
  - eapply strip_trailing_slash_end, scan_shape.
Qed.

Lemma NormalizeKey_fixed k : normalized k → NormalizeKey k = k.
Proof.
  intros [Hshape Hend]. rewrite NormalizeKey_scan.
  rewrite scan_fixed by done. by apply strip_trailing_slash_fixed.
Qed.

End normalize_key.


(** ** The ordered store *)

Section kv_store.

Implicit Types (st : KvStore) (dir key k : string).

Lemma prefix_iff p s : String.prefix p s = true ↔ ∃ t, s = p +:+ t.
Proof.
  revert s. induction p as [|c p IH]; intros s.
  - destruct s; simpl; split; eauto.
  - destruct s as [|c' s]; simpl.
    + split; [done|]. by intros [t Ht].
    + destruct (ascii_dec c c') as [->|Hne].
      * rewrite IH. split; intros [t Ht]; exists t.
        -- by rewrite append_cons, Ht.
        -- rewrite append_cons in Ht. congruence.
      * split; [done|]. intros [t Ht]. rewrite append_cons in Ht. congruence.
Qed.

Lemma ascii_compare_refl c : Ascii.compare c c = Eq.
Proof. unfold Ascii.compare. apply N.compare_refl. Qed.

Lemma ascii_compare_lt_trans a b c :
  Ascii.compare a b = Lt → Ascii.compare b c = Lt → Ascii.compare a c = Lt.
Proof. unfold Ascii.compare. rewrite !N.compare_lt_iff. lia. Qed.

Lemma key_lt_irrefl k : ¬ key_lt k k.
Proof.
  unfold key_lt. induction k as [|c k IH]; simpl; [done|].
  by rewrite ascii_compare_refl.
Qed.

Lemma key_lt_trans k1 k2 k3 : key_lt k1 k2 → key_lt k2 k3 → key_lt k1 k3.
Proof.
  unfold key_lt. revert k2 k3.
  induction k1 as [|a k1 IH]; intros [|b k2] [|c k3]; simpl; try done.
  destruct (Ascii.compare a b) eqn:Hab; try done;
    destruct (Ascii.compare b c) eqn:Hbc; try done.
  - apply Ascii.compare_eq_iff in Hab, Hbc. subst.
    rewrite ascii_compare_refl. apply IH.
  - apply Ascii.compare_eq_iff in Hab. subst. by rewrite Hbc.
  - apply Ascii.compare_eq_iff in Hbc. subst. by rewrite Hab.
  - by rewrite (ascii_compare_lt_trans _ _ _ Hab Hbc).
Qed.

(** A key below [dir] is not inside the directory. *)
Lemma below_not_inside dir k :
  key_lt k dir → String.prefix dir k = false.
Proof.
  unfold key_lt. revert k. induction dir as [|d dir IH]; intros [|a k]; simpl;
    try done.
  destruct (ascii_dec d a) as [->|Hne]; [|done].
  rewrite ascii_compare_refl. apply IH.
Qed.

(** Past the directory, every larger key is past it too. *)
Lemma above_stays_outside dir k1 k2 :
  ¬ key_lt k1 dir → String.prefix dir k1 = false → key_lt k1 k2 →
  String.prefix dir k2 = false.
Proof.
  unfold key_lt. revert k1 k2.
  induction dir as [|d dir IH]; intros k1 k2.
  { by destruct k1. }
  destruct k1 as [|a k1]; [done|]. destruct k2 as [|b k2]; [done|].
  simpl. destruct (ascii_dec d b) as [->|Hne]; [|done].
  destruct (ascii_dec b a) as [->|Hne].
  - rewrite !ascii_compare_refl. apply IH.
  - destruct (Ascii.compare a b) eqn:Hab.
    + apply Ascii.compare_eq_iff in Hab. congruence.
    + by intros [].
    + done.
Qed.

Lemma kv_find_app key st1 st2 :
  kv_find key (st1 ++ st2) =
  match kv_find key st1 with Some v => Some v | None => kv_find key st2 end.
Proof.
  induction st1 as [|[k v] st1 IH]; simpl; [done|].
  by destruct (String.eqb k key).
Qed.

Lemma kv_find_absent (P : string → Prop) key st :
  Forall (λ kv, P kv.1) st → ¬ P key → kv_find key st = None.
Proof.
  induction 1 as [|[k v] st HP _ IH]; intros Hkey; simpl; [done|].
  destruct (String.eqb_spec k key) as [->|]; [done|]. by apply IH.
Qed.

Lemma lower_bound_split dir st before from :
  lower_bound dir st = (before, from) →
  st = before ++ from
  ∧ Forall (λ kv, key_lt kv.1 dir) before
  ∧ match from with
    | [] => True
    | kv :: _ => ¬ key_lt kv.1 dir
    end.
Proof.
  revert before from. induction st as [|[k v] st IH]; intros before from; simpl.
  { by intros [= <- <-]. }
  unfold String.ltb. destruct (String.compare k dir) eqn:Hcmp.
  - intros [= <- <-]. split_and!; [done|done|]. unfold key_lt. simpl. congruence.
  - destruct (lower_bound dir st) as [before' from'].
    intros [= <- <-]. destruct (IH _ _ eq_refl) as (-> & ? & ?).
    split_and!; [done| |done]. by constructor.
  - intros [= <- <-]. split_and!; [done|done|]. unfold key_lt. simpl. congruence.
Qed.

Lemma sorted_tail_above dir k (keys : list string) :
  ¬ key_lt k dir → Forall (key_lt k) keys → Forall (λ k', ¬ key_lt k' dir) keys.
Proof.
  intros Hk Hall. eapply List.Forall_impl; [|exact Hall].
  intros k' Hlt Hk'. apply Hk. by eapply key_lt_trans.
Qed.

Lemma kv_sorted_cons k v st :
  kv_sorted ((k, v) :: st) ↔ Forall (λ kv, key_lt k kv.1) st ∧ kv_sorted st.
Proof.
  unfold kv_sorted. rewrite fmap_cons, StronglySorted_cons, Forall_fmap. done.
Qed.

Lemma advance_end_find dir key st :
  kv_sorted st → Forall (λ kv, ¬ key_lt kv.1 dir) st →
  kv_find key (advance_end dir st) =
  if String.prefix dir key then None else kv_find key st.
Proof.
  induction st as [|[k v] st IH]; intros Hsorted Hge; simpl.
  { by destruct (String.prefix dir key). }
  apply kv_sorted_cons in Hsorted as [Hk Hsorted].
  apply Forall_cons in Hge as [Hkge Hge]. simpl in Hkge.
  unfold has_dir_prefix. destruct (String.prefix dir k) eqn:Hpre.
  - rewrite IH by done. destruct (String.prefix dir key) eqn:Hkey; [done|].
    destruct (String.eqb_spec k key) as [->|]; [congruence|done].
  - destruct (String.prefix dir key) eqn:Hkey; [|done].
    apply (kv_find_absent (λ k', String.prefix dir k' = false)
             key ((k, v) :: st)); [|congruence].
    constructor; [done|].
    eapply List.Forall_impl; [|exact Hk].
    intros [k' v'] Hlt. simpl in *. by eapply above_stays_outside.
Qed.

Lemma kv_erase_find nk key st :
  kv_sorted st →
  kv_find key (kv_erase nk st) =
  if String.eqb key nk then None else kv_find key st.
Proof.
  induction st as [|[k v] st IH]; intros Hsorted; simpl.
  { by destruct (String.eqb key nk). }
  apply kv_sorted_cons in Hsorted as [Hk Hsorted].
  destruct (String.eqb_spec k nk) as [->|Hne].
  - destruct (String.eqb_spec key nk) as [->|Hne].
    + apply (kv_find_absent (λ k', key_lt nk k')); [done|].
      apply key_lt_irrefl.
    + destruct (String.eqb_spec nk key); [congruence|done].
  - simpl. destruct (String.eqb_spec k key) as [->|Hne'].
    + destruct (String.eqb_spec key nk); [congruence|done].
    + by apply IH.
Qed.

Lemma kv_erase_sorted nk st : kv_sorted st → kv_sorted (kv_erase nk st).
Proof.
  induction st as [|[k v] st IH]; intros Hsorted; simpl; [done|].
  apply kv_sorted_cons in Hsorted as [Hk Hsorted].
  destruct (String.eqb k nk); [done|].
  apply kv_sorted_cons. split; [|by apply IH].
  clear IH Hsorted. induction st as [|[k' v'] st IH]; simpl; [done|].
  apply Forall_cons in Hk as [??].
  destruct (String.eqb k' nk); [done|]. constructor; auto.
Qed.

Lemma advance_end_suffix dir st :
  ∃ dropped, st = dropped ++ advance_end dir st.
Proof.
  induction st as [|[k v] st [dropped IH]]; simpl.
  - by exists [].
  - destruct (has_dir_prefix dir k).
    + exists ((k, v) :: dropped). simpl. congruence.
    + by exists [].
Qed.

Lemma kv_find_missing_erase nk st :
  kv_find nk st = None → kv_erase nk st = st.
Proof.
  induction st as [|[k v] st IH]; simpl; [done|].
  destruct (String.eqb k nk); [done|]. intros H. by rewrite IH.
Qed.

(** What [DeleteKeyValue] leaves in a sorted store. *)
Lemma DeleteKeyValue_store_find key k st :
  kv_sorted st →
  let norm_key := NormalizeKey k in
  kv_sorted (DeleteKeyValue_store k st)
  ∧ kv_find key (DeleteKeyValue_store k st) =
    if String.eqb key norm_key || String.prefix (norm_key +:+ "/") key
    then None else kv_find key st.
Proof.
  intros Hsorted norm_key. unfold DeleteKeyValue_store. fold norm_key.
  change (StrCat [norm_key; "/"]) with (norm_key +:+ "/" +:+ "").
  rewrite append_empty_r.
  set (dir := norm_key +:+ "/").
  destruct (lower_bound dir st) as [before from] eqn:Hlb.
  destruct (lower_bound_split _ _ _ _ Hlb) as (-> & Hbefore & Hfrom).
  unfold kv_sorted in Hsorted. rewrite fmap_app in Hsorted.
  apply StronglySorted_app in Hsorted as (Hcross & Hsb & Hsf).
  assert (Forall (λ kv, ¬ key_lt kv.1 dir) from) as Hge.
  { destruct from as [|[k0 v0] from]; [done|].
    constructor; [done|].
    apply (kv_sorted_cons k0 v0 from) in Hsf as [Hk0 _].
    apply (Forall_fmap fst (λ k', ¬ key_lt k' dir)).
    eapply sorted_tail_above; [exact Hfrom|]. by apply Forall_fmap. }
  destruct (advance_end_suffix dir from) as [dropped Hdrop].
  assert (kv_sorted (before ++ advance_end dir from)) as Hsorted1.
  { unfold kv_sorted. rewrite fmap_app. apply StronglySorted_app_2.
    - intros x1 x2 Hx1 Hx2. apply Hcross; [done|].
      rewrite Hdrop, fmap_app. apply elem_of_app. by right.
    - done.
    - rewrite Hdrop, fmap_app in Hsf. by apply StronglySorted_app_1_r in Hsf. }
  assert (∀ key', kv_find key' (before ++ advance_end dir from) =
                  if String.prefix dir key' then None
                  else kv_find key' (before ++ from)) as Hfind1.
  { intros key'. rewrite !kv_find_app, advance_end_find by done.
    destruct (String.prefix dir key') eqn:Hpre; [|done].
    rewrite (kv_find_absent (λ k', key_lt k' dir)); [done|done|].
    intros Hlt. apply below_not_inside in Hlt. congruence. }
  assert (kv_sorted (kv_erase norm_key (before ++ advance_end dir from))
          ∧ kv_find key (kv_erase norm_key (before ++ advance_end dir from)) =
            if String.eqb key norm_key || String.prefix dir key
            then None else kv_find key (before ++ from)) as Herased.
  { split; [by apply kv_erase_sorted|].
    rewrite kv_erase_find, Hfind1 by done.
    by destruct (String.eqb key norm_key). }
  destruct (kv_find norm_key (before ++ advance_end dir from)) eqn:Hnk; [done|].
  by rewrite kv_find_missing_erase in Herased.
Qed.

End kv_store.

(** C6.  [DeleteKeyValue(k)] always returns OK and changes only the store;
    on a store in key order it removes the normalized key and every key
    [k/suffix] below it, and every other key keeps its value. *)
Theorem DeleteKeyValue_removes_directory (k : string) (s : Service) :
  ∃ s',
    DeleteKeyValue k s = Some (OkStatus, s')
    ∧ s' = set_kv_store (kv_store_ s') s
    ∧ (kv_sorted (kv_store_ s) →
       kv_sorted (kv_store_ s')
       ∧ ∀ key,
           (deleted_by (NormalizeKey k) key → kv_find key (kv_store_ s') = None)
           ∧ (¬ deleted_by (NormalizeKey k) key →
              kv_find key (kv_store_ s') = kv_find key (kv_store_ s))).
Proof.
  eexists. split; [reflexivity|]. split; [done|]. simpl. intros Hsorted.
  destruct (DeleteKeyValue_store_find "" k _ Hsorted) as [Hs _].
  split; [done|]. intros key.
  destruct (DeleteKeyValue_store_find key k _ Hsorted) as [_ ->].
  unfold deleted_by. split.
  - intros [->|[suffix ->]].
    + by rewrite String.eqb_refl.
    + assert (String.prefix (NormalizeKey k +:+ "/")
                (NormalizeKey k +:+ "/" +:+ suffix) = true) as ->.
      { apply prefix_iff. exists suffix. by rewrite append_assoc_string. }
      by rewrite orb_true_r.
  - intros Hnot.
    destruct (String.eqb_spec key (NormalizeKey k)) as [->|_].
    { destruct Hnot. by left. }
    destruct (String.prefix _ key) eqn:Hpre; [|done].
    apply prefix_iff in Hpre as [suffix ->]. destruct Hnot. right. exists suffix.
    by rewrite append_assoc_string.
Qed.

Lemma DeleteKeyValue_removes_directory_witness :
  kv_sorted example_store
  ∧ (DeleteKeyValue_store "/a/" example_store = [("ab", "4"); ("b", "5")])
  ∧ ∃ s',
      DeleteKeyValue "/a/"
        (set_kv_store example_store (initial_service example_env))
      = Some (OkStatus, s')
      ∧ kv_find "ab" (kv_store_ s') = Some "4"
      ∧ kv_find "a/b" (kv_store_ s') = None.
Proof.
  assert (kv_sorted example_store) as Hsorted.
  { unfold kv_sorted, example_store. simpl.
    repeat (constructor; [|by repeat constructor]). constructor. }
  split; [done|]. split; [reflexivity|].
  destruct (DeleteKeyValue_removes_directory "/a/"
              (set_kv_store example_store (initial_service example_env)))
    as (s' & Hrun & _ & Hspec).
  exists s'. split; [done|].
  destruct (Hspec Hsorted) as [_ Hkeys]. split.
  - destruct (Hkeys "ab") as [_ Hab]. rewrite Hab; [reflexivity|].
    intros [H|[suffix H]]; vm_compute in H; congruence.
  - destruct (Hkeys "a/b") as [Hab _]. rewrite Hab; [done|].
    right. by exists "b".
Defined.

(** ** Rules for triples *)

Section triple_rules.

Context {d : Prop}.
Implicit Types (P : Service → Prop) (s : Service).

Lemma triple_ret {A} P (a : A) (Q : A → Service → Prop) :
  (∀ s, P s → Q a s) → triple d P (ret a) Q.
Proof. intros H s HP. by apply H. Qed.

Lemma triple_bind {A B} P (R : A → Service → Prop) (Q : B → Service → Prop)
    (m : M A) (f : A → M B) :
  triple d P m R → (∀ a, triple d (R a) (f a) Q) → triple d P (bind m f) Q.
Proof.
  intros Hm Hf s HP. unfold bind. specialize (Hm s HP).
  destruct (m s) as [[a s']|]; [|done]. by apply Hf.
Qed.

Lemma triple_gets {A} P (f : Service → A) (Q : A → Service → Prop) :
  (∀ s, P s → Q (f s) s) → triple d P (gets f) Q.
Proof. intros H s HP. by apply H. Qed.

Lemma triple_gets_inv {A} P (f : Service → A) : triple d P (gets f) (λ _, P).
Proof. by apply triple_gets. Qed.

Lemma triple_gets_eq {A} P (f : Service → A) :
  triple d P (gets f) (λ a s, P s ∧ a = f s).
Proof. by apply triple_gets. Qed.

Lemma triple_modify P (f : Service → Service) (Q : unit → Service → Prop) :
  (∀ s, P s → Q tt (f s)) → triple d P (modify f) Q.
Proof. intros H s HP. by apply H. Qed.

Lemma triple_undefined {A} P (Q : A → Service → Prop) :
  (∀ s, P s → d) → triple d P undefined Q.
Proof. intros H s HP. by eapply H. Qed.

Lemma triple_conseq {A} P P' (Q Q' : A → Service → Prop) (m : M A) :
  triple d P m Q → (∀ s, P' s → P s) → (∀ a s, Q a s → Q' a s) →
  triple d P' m Q'.
Proof.
  intros Hm Hpre Hpost s HP. specialize (Hm s (Hpre s HP)).
  destruct (m s) as [[a s']|]; [|done]. by apply Hpost.
Qed.

Lemma triple_pre {A} P P' (Q : A → Service → Prop) (m : M A) :
  triple d P m Q → (∀ s, P' s → P s) → triple d P' m Q.
Proof. intros Hm Hpre. eapply triple_conseq; eauto. Qed.

Lemma triple_post {A} P (Q Q' : A → Service → Prop) (m : M A) :
  triple d P m Q → (∀ a s, Q a s → Q' a s) → triple d P m Q'.
Proof. intros Hm Hpost. eapply triple_conseq; eauto. Qed.

(** A fact that does not depend on the state can be taken out. *)
Lemma triple_pure {A} (φ : Prop) P (Q : A → Service → Prop) (m : M A) :
  (φ → triple d P m Q) → triple d (λ s, φ ∧ P s) m Q.
Proof. intros H s [Hφ HP]. by apply H. Qed.

Lemma triple_exists {A X} (P : X → Service → Prop) (Q : A → Service → Prop)
    (m : M A) :
  (∀ x, triple d (P x) m Q) → triple d (λ s, ∃ x, P x s) m Q.
Proof. intros H s [x HP]. by eapply H. Qed.

Lemma triple_or {A} P1 P2 (Q : A → Service → Prop) (m : M A) :
  triple d P1 m Q → triple d P2 m Q → triple d (λ s, P1 s ∨ P2 s) m Q.
Proof. intros H1 H2 s [HP|HP]; [by apply H1|by apply H2]. Qed.

Lemma triple_for_each {X} (I : Service → Prop) (l : list X) (body : X → M unit) :
  (∀ x, x ∈ l → triple d I (body x) (λ _, I)) →
  triple d I (for_each l body) (λ _, I).
Proof.
  induction l as [|x l' IH]; intros Hbody; simpl.
  - by apply triple_ret.
  - eapply triple_bind.
    + apply Hbody. by left.
    + intros []. apply IH. intros y Hy. apply Hbody. by right.
Qed.

(** A loop whose invariant speaks of the elements still to be visited. *)
Lemma triple_for_each_rest {X} (I : list X → Service → Prop) (l : list X)
    (body : X → M unit) :
  (∀ x rest, triple d (I (x :: rest)) (body x) (λ _, I rest)) →
  triple d (I l) (for_each l body) (λ _, I []).
Proof.
  intros Hbody. induction l as [|x l' IH]; simpl.
  - by apply triple_ret.
  - eapply triple_bind; [apply Hbody|]. intros []. apply IH.
Qed.

Lemma triple_when P (c : bool) (m : M unit) :
  (c = true → triple d P m (λ _, P)) → triple d P (when c m) (λ _, P).
Proof. intros H. destruct c; simpl; [by apply H|by apply triple_ret]. Qed.

Lemma triple_task_at P name (Q : TaskState → Service → Prop) :
  (∀ s, P s → match cluster_state_ s !! name with
              | Some t => Q t s
              | None => d
              end) →
  triple d P (task_at name) Q.
Proof.
  intros H s HP. specialize (H s HP). unfold task_at.
  by destruct (cluster_state_ s !! name).
Qed.

Lemma triple_task_at_eq P name :
  (∀ s, P s → d ∨ is_Some (cluster_state_ s !! name)) →
  triple d P (task_at name) (λ t s, P s ∧ cluster_state_ s !! name = Some t).
Proof.
  intros H. apply triple_task_at. intros s HPs.
  destruct (H s HPs) as [Hd|[t Ht]].
  - by destruct (cluster_state_ s !! name).
  - by rewrite Ht.
Qed.

Lemma triple_update_task P name f (Q : unit → Service → Prop) :
  (∀ s, P s → match cluster_state_ s !! name with
              | Some t => Q tt (set_cluster_state (<[name := f t]>) s)
              | None => d
              end) →
  triple d P (update_task name f) Q.
Proof.
  intros H s HP. specialize (H s HP). unfold update_task, bind, task_at.
  by destruct (cluster_state_ s !! name).
Qed.

Lemma triple_barrier_at P id (Q : BarrierState → Service → Prop) :
  (∀ s, P s → Q (default new_BarrierState (barriers_ s !! id)) s) →
  triple d P (barrier_at id) Q.
Proof. intros H. by apply triple_gets. Qed.

Lemma triple_barrier_at_eq P id :
  triple d P (barrier_at id)
    (λ b s, P s ∧ b = default new_BarrierState (barriers_ s !! id)).
Proof. by apply triple_gets. Qed.

Lemma triple_update_barrier P id f (Q : unit → Service → Prop) :
  (∀ s, P s →
     Q tt (set_barriers
             (<[id := f (default new_BarrierState (barriers_ s !! id))]>) s)) →
  triple d P (update_barrier id f) Q.
Proof. intros H s HP. by apply H. Qed.

Lemma triple_try_emplace_barrier P id (Q : bool → Service → Prop) :
  (∀ s, P s → match barriers_ s !! id with
              | Some _ => Q false s
              | None => Q true (set_barriers (<[id := new_BarrierState]>) s)
              end) →
  triple d P (try_emplace_barrier id) Q.
Proof.
  intros H s HP. specialize (H s HP).
  unfold try_emplace_barrier, bind, gets.
  case_bool_decide as Hb.
  - destruct Hb as [b Hb]. by rewrite Hb in H.
  - destruct (barriers_ s !! id) eqn:Hb'; [|done]. destruct Hb. eauto.
Qed.

Lemma triple_emit P e (Q : unit → Service → Prop) :
  (∀ s, P s → Q tt (add_log [e] s)) → triple d P (emit e) Q.
Proof. intros H. by apply triple_modify. Qed.

End triple_rules.

(** Total correctness gives partial correctness. *)
Lemma triple_total_partial {A} P (m : M A) Q :
  triple False P m Q → triple True P m Q.
Proof.
  intros H s HP. specialize (H s HP). by destruct (m s) as [[??]|].
Qed.

Lemma triple_total_run {A} P (m : M A) Q s :
  triple False P m Q → P s → ∃ a s', m s = Some (a, s') ∧ Q a s'.
Proof.
  intros H HP. specialize (H s HP). destruct (m s) as [[a s']|]; [eauto|done].
Qed.

Lemma triple_partial_run {A} P (m : M A) Q s a s' :
  triple True P m Q → P s → m s = Some (a, s') → Q a s'.
Proof. intros H HP Hm. specialize (H s HP). by rewrite Hm in H. Qed.

Lemma triple_assert {A} {d : Prop} (φ : Prop) P (Q : A → Service → Prop) (m : M A) :
  (∀ s, P s → φ) → (φ → triple d P m Q) → triple d P m Q.
Proof. intros Hφ Hm s HP. apply Hm; eauto. Qed.

Lemma triple_inv_bind {A B} {d : Prop} (P : Service → Prop) (m : M A) (f : A → M B) :
  triple d P m (λ _, P) → (∀ a, triple d P (f a) (λ _, P)) →
  triple d P (bind m f) (λ _, P).
Proof. intros. by eapply triple_bind. Qed.

Lemma triple_inv_ret {A} {d : Prop} (P : Service → Prop) (a : A) :
  triple d P (ret a) (λ _, P).
Proof. by apply triple_ret. Qed.

Lemma triple_inv_undefined {A} (P : Service → Prop) :
  triple True P (@undefined A) (λ _, P).
Proof. by apply triple_undefined. Qed.

Lemma triple_inv_task_at (P : Service → Prop) name :
  triple True P (task_at name) (λ _, P).
Proof. apply triple_task_at. intros s Hs. by destruct (_ !! _). Qed.

(** One step of a proof that [P] is kept: splits the program at its head. *)
Ltac tinv_step :=
  lazymatch goal with
  | |- triple _ _ (bind _ _) _ => apply triple_inv_bind; [|intros ?]
  | |- triple _ _ (ret _) _ => apply triple_inv_ret
  | |- triple _ _ (gets _) _ => apply triple_gets_inv
  | |- triple _ _ (barrier_at _) _ => apply triple_gets_inv
  | |- triple True _ undefined _ => apply triple_inv_undefined
  | |- triple True _ (task_at _) _ => apply triple_inv_task_at
  | |- triple _ _ (for_each _ _) _ => apply triple_for_each; intros ? _
  | |- triple _ _ (when _ _) _ => apply triple_when; intros _
  | |- triple _ _ (discard _) _ => unfold discard
  | |- triple _ _ task_names _ => unfold task_names
  | |- triple _ _ (if ?c then _ else _) _ => destruct c
  | |- triple _ _ (match ?c with _ => _ end) _ => destruct c
  | |- triple _ _ (let '(_, _) := ?c in _) _ => destruct c
  end.

Ltac tinv := repeat (tinv_step; simpl).

(** ** Operations that leave tasks and barriers alone *)

Section core_only.

Context {d : Prop} (E : ServiceEnv).
Context (P : Service → Prop) (HP : core_pred P).

Lemma same_core_refl s : same_core s s.
Proof. done. Qed.

Lemma core_modify f :
  (∀ s, same_core s (f s)) → triple d P (modify f) (λ _, P).
Proof. intros Hf. apply triple_modify. intros s Hs. by apply (HP s). Qed.

Lemma core_emit e : triple d P (emit e) (λ _, P).
Proof. by apply core_modify. Qed.

Lemma core_call done r : triple d P (call done r) (λ _, P).
Proof. apply core_emit. Qed.

Lemma core_calls cbs r :
  triple d P (for_each cbs (λ cb, call cb r)) (λ _, P).
Proof. apply triple_for_each. intros cb _. apply core_call. Qed.

Lemma core_ReportServiceErrorToTaskAsync task error :
  triple d P (ReportServiceErrorToTaskAsync E task error) (λ _, P).
Proof.
  unfold ReportServiceErrorToTaskAsync.
  destruct (client_cache_present E); simpl; [apply core_emit|by apply triple_ret].
Qed.

Lemma core_ErrorPollingState_SetError error :
  triple d P (ErrorPollingState_SetError error) (λ _, P).
Proof.
  unfold ErrorPollingState_SetError.
  eapply triple_bind; [apply triple_gets_inv|]. intros eps.
  destruct (responded_ eps); [by apply triple_ret|].
  eapply triple_bind; [by apply core_modify|]. intros [].
  eapply triple_bind; [apply core_calls|]. intros [].
  by apply core_modify.
Qed.

Lemma core_ErrorPollingState_AddTask task done :
  triple d P (ErrorPollingState_AddTask task done) (λ _, P).
Proof.
  unfold ErrorPollingState_AddTask.
  eapply triple_bind; [apply triple_gets_inv|]. intros eps.
  destruct (responded_ eps); [by apply triple_ret|].
  by apply core_modify.
Qed.

End core_only.

Section core_only_partial.

Context (E : ServiceEnv).
Context (P : Service → Prop) (HP : core_pred P).

Lemma core_SendErrorPollingResponse error :
  triple True P (SendErrorPollingResponse error) (λ _, P).
Proof.
  unfold SendErrorPollingResponse.
  eapply triple_bind; [apply triple_gets_inv|]. intros polling.
  destruct polling; simpl; [|by apply triple_undefined].
  eapply triple_bind; [apply triple_gets_inv|]. intros eps.
  destruct (responded_ eps); [by apply triple_ret|].
  by apply core_ErrorPollingState_SetError.
Qed.

Lemma core_AggregateClusterDevices :
  triple True P (AggregateClusterDevices E) (λ _, P).
Proof.
  unfold AggregateClusterDevices.
  eapply triple_bind; [apply triple_gets_inv|]. intros names.
  eapply triple_bind.
  { apply triple_for_each. intros task _.
    eapply triple_bind; [apply triple_task_at_eq; auto|].
    intros t. eapply triple_pre; [|by intros s [Hs _]]. by apply core_modify. }
  intros []. eapply triple_bind; [apply triple_gets_inv|]. intros [f|].
  - by apply core_modify.
  - by apply triple_ret.
Qed.

End core_only_partial.

(** ** The barrier invariant under the elementary updates *)

Section barrier_inv_updates.

Implicit Types (X : gset string) (F : gmap string BarrierState).
Implicit Types (s : Service) (b : BarrierState) (t : TaskState).

Lemma barrier_inv_core X F : core_pred (barrier_inv X F).
Proof.
  intros s s' (Hc & Hb & Ho & _). unfold barrier_inv.
  by rewrite Hc, Hb, Ho.
Qed.

Lemma barrier_inv_exiting_core X F id names :
  core_pred (barrier_inv_exiting X F id names).
Proof.
  intros s s' (Hc & Hb & Ho & _). unfold barrier_inv_exiting.
  by rewrite Hc, Hb, Ho.
Qed.

Lemma barrier_inv_update_task X F s name t t' :
  cluster_state_ s !! name = Some t →
  ongoing_barriers_for_task_ t' ⊆ ongoing_barriers_for_task_ t →
  barrier_inv X F s →
  barrier_inv X F (set_cluster_state (<[name := t']>) s).
Proof.
  intros Ht Hsub (Ha & Hb & Hd & HF). split_and!; simpl; [done| |done|done].
  intros name' t0 id Hlook Hin.
  destruct (decide (name = name')) as [<-|Hne].
  - rewrite lookup_insert_eq in Hlook. injection Hlook as <-.
    apply (Hb name t id Ht). by apply Hsub.
  - rewrite lookup_insert_ne in Hlook by done. by apply (Hb name' t0 id).
Qed.

Lemma barrier_inv_exiting_start X F s id r :
  barrier_inv X F s → id ∉ X → F !! id = None →
  let b := default new_BarrierState (barriers_ s !! id) in
  barrier_inv_exiting X F id
    ((λ e, GetTaskName e.1) <$> map_to_list (tasks_at_barrier b))
    (set_barriers (<[id := set_passed_result r b]>) s).
Proof.
  intros (Ha & Hb & Hd & HF) HidX HidF b. split_and!; simpl.
  - intros id' b' Hlook Hp HX Hne. rewrite lookup_insert_ne in Hlook by done.
    by apply Ha.
  - intros name t id' Hlook Hin.
    destruct (Hb name t id' Hlook Hin) as (HX & b' & Hb' & Hp & task & Hkey & Hname).
    split; [done|]. destruct (decide (id' = id)) as [->|Hne].
    + left. split; [done|]. unfold b. rewrite Hb'. simpl.
      destruct Hkey as [arrived Hkey].
      apply list_elem_of_fmap. exists (task, arrived). split; [done|].
      by apply elem_of_map_to_list.
    + right. split; [done|]. exists b'. rewrite lookup_insert_ne by done. eauto.
  - intros id' [HX| ->].
    + destruct (Hd id' HX) as (b' & Hb' & Hp).
      destruct (decide (id = id')) as [->|Hne]; [done|].
      exists b'. by rewrite lookup_insert_ne.
    + eexists. by rewrite lookup_insert_eq.
  - intros id' b' HF'. destruct (HF id' b' HF') as (Hb' & Hp & HX).
    assert (id' ≠ id) by congruence.
    rewrite lookup_insert_ne by done. done.
Qed.

Lemma barrier_inv_exiting_step X F s id name names t :
  barrier_inv_exiting X F id (name :: names) s →
  cluster_state_ s !! name = Some t →
  barrier_inv_exiting X F id names
    (set_cluster_state (<[name := ExitBarrier id t]>) s).
Proof.
  intros (Ha & Hb & Hd & HF) Ht. split_and!; simpl; [done| |done|done].
  intros name' t' id' Hlook Hin.
  destruct (decide (name = name')) as [<-|Hne].
  - rewrite lookup_insert_eq in Hlook. injection Hlook as <-.
    simpl in Hin. apply elem_of_difference in Hin as [Hin Hnid].
    destruct (Hb name t id' Ht Hin) as [HX [[-> _]|Hr]]; [set_solver|].
    split; [done|by right].
  - rewrite lookup_insert_ne in Hlook by done.
    destruct (Hb name' t' id' Hlook Hin) as [HX [[-> Hel]|Hr]].
    + split; [done|]. left. split; [done|].
      apply elem_of_cons in Hel as [->|Hel]; done.
    + split; [done|by right].
Qed.

Lemma barrier_inv_exiting_done X F s id :
  barrier_inv_exiting X F id [] s → barrier_inv ({[id]} ∪ X) F s.
Proof.
  intros (Ha & Hb & Hd & HF). split_and!.
  - intros id' b Hlook Hp HX. apply Ha; [done|done|set_solver|set_solver].
  - intros name t id' Hlook Hin.
    destruct (Hb name t id' Hlook Hin) as [HX [[_ Hel]|[Hne Hr]]].
    + by apply elem_of_nil in Hel.
    + split; [set_solver|done].
  - intros id' Hin. apply Hd. set_solver.
  - intros id' b HF'. destruct (HF id' b HF') as (? & ? & ? & ?).
    split_and!; [done|done|set_solver].
Qed.

(** Updating a barrier that is being passed. *)
Lemma barrier_inv_update_passing X F s id b' :
  barrier_inv X F s → id ∈ X → passed b' = true →
  barrier_inv X F (set_barriers (<[id := b']>) s).
Proof.
  intros (Ha & Hb & Hd & HF) HidX Hp'. split_and!; simpl.
  - intros id' b Hlook Hp HX.
    rewrite lookup_insert_ne in Hlook by congruence. by apply Ha.
  - intros name t id' Hlook Hin.
    destruct (Hb name t id' Hlook Hin) as (HX & b & Hb' & Hr).
    split; [done|]. exists b. rewrite lookup_insert_ne by congruence. done.
  - intros id' HX. destruct (decide (id = id')) as [->|Hne].
    + exists b'. by rewrite lookup_insert_eq.
    + rewrite lookup_insert_ne by done. by apply Hd.
  - intros id' b HF'. destruct (HF id' b HF') as (? & ? & ?).
    rewrite lookup_insert_ne by congruence. done.
Qed.

Lemma barrier_inv_erase_ongoing X F s id :
  barrier_inv X F s →
  barrier_inv X F (set_ongoing_barriers (λ o, o ∖ {[id]}) s).
Proof.
  intros (Ha & Hb & Hd & HF). split_and!; simpl; [|done|done|done].
  intros id' b Hlook Hp HX. destruct (Ha id' b Hlook Hp HX) as (? & ? & ?).
  split_and!; [done|done|set_solver].
Qed.

Lemma barrier_inv_finish X F s id b :
  barrier_inv ({[id]} ∪ X) F s →
  barriers_ s !! id = Some b → tasks_at_barrier b = ∅ → done_callbacks b = [] →
  id ∉ ongoing_barriers_ s →
  barrier_inv X F s.
Proof.
  intros (Ha & Hb & Hd & HF) Hlook Hmap Hcbs Hong. split_and!.
  - intros id' b' Hlook' Hp HX. destruct (decide (id' = id)) as [->|Hne].
    + by simplify_eq.
    + apply Ha; [done|done|set_solver].
  - intros name t id' Hl Hin. destruct (Hb name t id' Hl Hin) as [HX Hr].
    split; [set_solver|done].
  - intros id' HX. apply Hd. set_solver.
  - intros id' b' HF'. destruct (HF id' b' HF') as (? & ? & ?).
    split_and!; [done|done|set_solver].
Qed.

(** Updating a barrier that has not passed, keeping its participants. *)
Lemma barrier_inv_update_unpassed X F s id b' :
  barrier_inv X F s →
  (∀ b, barriers_ s !! id = Some b →
        passed b = false
        ∧ ∀ task, is_Some (tasks_at_barrier b !! task) →
                  is_Some (tasks_at_barrier b' !! task)) →
  passed b' = false →
  barrier_inv X F (set_barriers (<[id := b']>) s).
Proof.
  intros (Ha & Hb & Hd & HF) Hold Hp'. split_and!; simpl.
  - intros id' b Hlook Hp HX. destruct (decide (id = id')) as [->|Hne].
    + rewrite lookup_insert_eq in Hlook. congruence.
    + rewrite lookup_insert_ne in Hlook by done. by apply Ha.
  - intros name t id' Hlook Hin.
    destruct (Hb name t id' Hlook Hin) as (HX & b & Hb' & Hp & task & Hkey & Hn).
    split; [done|]. destruct (decide (id = id')) as [->|Hne].
    + exists b'. rewrite lookup_insert_eq. split_and!; [done|done|].
      exists task. split; [|done]. by apply (Hold b Hb').
    + exists b. rewrite lookup_insert_ne by done. eauto.
  - intros id' HX. destruct (Hd id' HX) as (b & Hb' & Hp).
    destruct (decide (id = id')) as [->|Hne].
    + destruct (Hold b Hb'). congruence.
    + exists b. by rewrite lookup_insert_ne.
  - intros id' b HF'. destruct (HF id' b HF') as (Hb' & Hp & HX).
    destruct (decide (id = id')) as [->|Hne].
    + destruct (Hold b Hb'). congruence.
    + by rewrite lookup_insert_ne.
Qed.

Lemma barrier_inv_add_ongoing X F s id :
  barrier_inv X F s →
  (∀ b, barriers_ s !! id = Some b → passed b = false) →
  barrier_inv X F (set_ongoing_barriers (λ o, {[id]} ∪ o) s).
Proof.
  intros (Ha & Hb & Hd & HF) Hun. split_and!; simpl; [|done|done|done].
  intros id' b Hlook Hp HX. destruct (Ha id' b Hlook Hp HX) as (? & ? & ?).
  split_and!; [done|done|].
  assert (id' ≠ id); [|set_solver]. intros ->. specialize (Hun b Hlook). congruence.
Qed.

Lemma barrier_inv_join X F s id name t b task :
  barrier_inv X F s →
  cluster_state_ s !! name = Some t →
  barriers_ s !! id = Some b → passed b = false → id ∉ X →
  is_Some (tasks_at_barrier b !! task) → GetTaskName task = name →
  barrier_inv X F (set_cluster_state (<[name := JoinBarrier id t]>) s).
Proof.
  intros (Ha & Hb & Hd & HF) Ht Hlook Hp HX Hkey Hname.
  split_and!; simpl; [done| |done|done].
  intros name' t' id' Hl Hin. destruct (decide (name = name')) as [<-|Hne].
  - rewrite lookup_insert_eq in Hl. injection Hl as <-. simpl in Hin.
    apply elem_of_union in Hin as [->%elem_of_singleton|Hin].
    + split; [done|]. exists b. eauto.
    + by apply (Hb name t id').
  - rewrite lookup_insert_ne in Hl by done. by apply (Hb name' t' id').
Qed.

Lemma barrier_inv_stopped X F s :
  barriers_ s = ∅ → cluster_state_ s = ∅ → X = ∅ → F = ∅ → barrier_inv X F s.
Proof.
  intros Hb Hc -> ->. split_and!.
  - intros id b. by rewrite Hb, lookup_empty.
  - intros name t id. by rewrite Hc, lookup_empty.
  - set_solver.
  - intros id b. by rewrite lookup_empty.
Qed.

End barrier_inv_updates.

(** ** The barrier invariant through [PassBarrier] and [DisconnectTask] *)

Section barrier_inv_pass.

Context (E : ServiceEnv).
Implicit Types (X : gset string) (F : gmap string BarrierState).

Local Abbreviation names_of m := ((λ e : CoordinatedTask * bool, GetTaskName e.1) <$> map_to_list m).

Lemma PassBarrierG_inv X F disconnect id r :
  id ∉ X → F !! id = None →
  (∀ task, triple True (barrier_inv ({[id]} ∪ X) F) (disconnect task)
                  (λ _, barrier_inv ({[id]} ∪ X) F)) →
  triple True (barrier_inv X F) (PassBarrierG E disconnect id r)
         (λ _, barrier_inv X F).
Proof.
  intros HX HF Hdisc. unfold PassBarrierG.
  set (R1 := λ s, barrier_inv_exiting X F id
    (names_of (tasks_at_barrier (default new_BarrierState (barriers_ s !! id)))) s).
  assert (core_pred R1) as HR1.
  { intros s s' Hcore. unfold R1. destruct Hcore as (? & Hb & ? & ?) eqn:Hc.
    rewrite Hb. by apply barrier_inv_exiting_core. }
  eapply triple_bind with (R := λ _, R1).
  { apply triple_update_barrier. intros s Hs. unfold R1. simpl.
    rewrite lookup_insert_eq. simpl.
    by apply barrier_inv_exiting_start. }
  intros []. eapply triple_bind with (R := λ _, R1).
  { apply triple_when. intros _. by apply core_AggregateClusterDevices. }
  intros []. eapply triple_bind; [apply triple_barrier_at_eq|]. intros barrier.
  eapply triple_bind with (R := λ _, barrier_inv ({[id]} ∪ X) F).
  { eapply triple_conseq.
    - apply (triple_for_each_rest
               (λ rest, barrier_inv_exiting X F id ((λ e, GetTaskName e.1) <$> rest))).
      intros e rest. apply triple_update_task. intros s Hs.
      destruct (cluster_state_ s !! GetTaskName e.1) eqn:Ht; [|done].
      by eapply barrier_inv_exiting_step.
    - intros s [Hs ->]. exact Hs.
    - intros [] s Hs. by apply barrier_inv_exiting_done. }
  intros []. eapply triple_bind with (R := λ _, barrier_inv ({[id]} ∪ X) F).
  { apply triple_when. intros _. apply triple_for_each. intros [task arrived] _.
    destruct arrived; simpl.
    - eapply triple_bind; [apply Hdisc|]. intros ?. by apply triple_ret.
    - apply core_ReportServiceErrorToTaskAsync, barrier_inv_core. }
  intros [].
  set (Q := λ (has_cbs ongoing : bool) s,
         barrier_inv ({[id]} ∪ X) F s
         ∧ (∃ b, barriers_ s !! id = Some b ∧ tasks_at_barrier b = ∅
                 ∧ (has_cbs = false → done_callbacks b = []))
         ∧ (ongoing = false → id ∉ ongoing_barriers_ s)).
  assert (∀ c o, core_pred (Q c o)) as HQ.
  { intros c o s s' Hcore (Hinv & Hrec & Hong).
    pose proof Hcore as (_ & Hb & Ho & _). unfold Q. rewrite Hb, Ho.
    split; [|done]. by eapply barrier_inv_core. }
  eapply triple_bind with (R := λ _, Q true true).
  { apply triple_update_barrier. intros s Hs. split_and!; [| |done].
    - apply barrier_inv_update_passing; [done|set_solver|].
      destruct Hs as (_ & _ & Hd & _).
      destruct (Hd id) as (b & -> & Hp); [set_solver|done].
    - eexists. simpl. rewrite lookup_insert_eq. done. }
  intros []. eapply triple_bind with (R := λ _, Q true false).
  { apply triple_modify. intros s (Hinv & Hrec & _). split_and!; [|done|].
    - by apply barrier_inv_erase_ongoing.
    - intros _. simpl. set_solver. }
  intros []. eapply triple_bind; [apply triple_gets_inv|]. intros cbs.
  eapply triple_bind; [by apply core_calls|]. intros [].
  apply triple_update_barrier. intros s (Hinv & (b & Hb & Hmap & _) & Hong).
  eapply barrier_inv_finish.
  - apply barrier_inv_update_passing; [done|set_solver|].
    destruct Hinv as (_ & _ & Hd & _).
    destruct (Hd id) as (b' & -> & Hp); [set_solver|done].
  - simpl. by rewrite lookup_insert_eq.
  - by rewrite Hb.
  - done.
  - simpl. by apply Hong.
Qed.

End barrier_inv_pass.

(** ** The barrier invariant through the internal operations *)

Section barrier_inv_ops.

Context (E : ServiceEnv).
Implicit Types (X : gset string) (F : gmap string BarrierState).

(** A task record update that keeps the set of ongoing barriers. *)
Lemma update_task_inv X F name f :
  (∀ t, ongoing_barriers_for_task_ (f t) = ongoing_barriers_for_task_ t) →
  triple True (barrier_inv X F) (update_task name f) (λ _, barrier_inv X F).
Proof.
  intros Hf. apply triple_update_task. intros s Hs.
  destruct (cluster_state_ s !! name) eqn:Ht; [|done].
  eapply barrier_inv_update_task; [done| |done]. by rewrite Hf.
Qed.

Lemma insert_task_inv X F name t t' :
  ongoing_barriers_for_task_ t' = ongoing_barriers_for_task_ t →
  triple True (λ s, barrier_inv X F s ∧ cluster_state_ s !! name = Some t)
    (modify (set_cluster_state (<[name := t']>))) (λ _, barrier_inv X F).
Proof.
  intros Ht'. apply triple_modify. intros s [Hs Ht].
  eapply barrier_inv_update_task; [done| |done]. by rewrite Ht'.
Qed.

Lemma try_emplace_barrier_inv X F id :
  triple True (barrier_inv X F) (try_emplace_barrier id) (λ _, barrier_inv X F).
Proof.
  apply triple_try_emplace_barrier. intros s Hs.
  destruct (barriers_ s !! id) eqn:Hb; [done|].
  apply barrier_inv_update_unpassed; [done| |done]. intros b. by rewrite Hb.
Qed.

(** The barriers a task waits for can be passed: they are neither being
    passed nor frozen. *)
Lemma ongoing_passable X F s name t id :
  barrier_inv X F s → cluster_state_ s !! name = Some t →
  id ∈ ongoing_barriers_for_task_ t → (id ∉ X) ∧ F !! id = None.
Proof.
  intros (_ & Hb & _ & HF) Ht Hin.
  destruct (Hb name t id Ht Hin) as (HX & b & Hlook & Hp & _).
  split; [done|]. destruct (F !! id) as [b'|] eqn:HFid; [|done].
  destruct (HF id b' HFid) as (? & ? & _). congruence.
Qed.

Lemma unpassed_passable X F s id :
  barrier_inv X F s → (∀ b, barriers_ s !! id = Some b → passed b = false) →
  (id ∉ X) ∧ F !! id = None.
Proof.
  intros (_ & _ & Hd & HF) Hun. split.
  - intros HX. destruct (Hd id HX) as (b' & Hb' & ?).
    specialize (Hun b' Hb'). congruence.
  - destruct (F !! id) as [b'|] eqn:HFid; [|done].
    destruct (HF id b' HFid) as (Hb' & ? & _).
    specialize (Hun b' Hb'). congruence.
Qed.

Lemma DisconnectTaskG_inv X F pass task now :
  (∀ id r, id ∉ X → F !! id = None →
     triple True (barrier_inv X F) (pass id r) (λ _, barrier_inv X F)) →
  triple True (barrier_inv X F) (DisconnectTaskG E pass task now)
         (λ _, barrier_inv X F).
Proof.
  intros Hpass. unfold DisconnectTaskG.
  tinv_step; [tinv_step|]. destruct a; [tinv|].
  tinv_step; [tinv_step|]. destruct a as [t|]; [|tinv].
  case_bool_decide; [tinv|].
  tinv_step; [by apply update_task_inv|].
  eapply triple_bind; [apply triple_task_at_eq; auto|]. intros t'.
  apply (triple_assert (∀ id, id ∈ ongoing_barriers_for_task_ t' →
                              (id ∉ X) ∧ F !! id = None)).
  { intros s [Hs Ht'] id Hid. by eapply ongoing_passable. }
  intros Hids. eapply triple_pre; [|by intros s [Hs _]].
  tinv_step; [|tinv].
  apply triple_for_each. intros id Hid%elem_of_elements.
  destruct (Hids id Hid) as [HX HF].
  tinv_step; [apply try_emplace_barrier_inv|by apply Hpass].
Qed.

Lemma PassBarrier_nested_inv X F id r :
  id ∉ X → F !! id = None →
  triple True (barrier_inv X F) (PassBarrier_nested E id r)
         (λ _, barrier_inv X F).
Proof.
  intros HX HF. apply PassBarrierG_inv; [done..|].
  intros task. by apply triple_undefined.
Qed.

Lemma DisconnectTask_nested_inv X F now task :
  triple True (barrier_inv X F) (DisconnectTask_nested E now task)
         (λ _, barrier_inv X F).
Proof.
  apply DisconnectTaskG_inv. intros id r. apply PassBarrier_nested_inv.
Qed.

Lemma PassBarrier_inv X F now id r :
  id ∉ X → F !! id = None →
  triple True (barrier_inv X F) (PassBarrier E now id r) (λ _, barrier_inv X F).
Proof.
  intros HX HF. apply PassBarrierG_inv; [done..|].
  intros task. apply DisconnectTask_nested_inv.
Qed.

Lemma DisconnectTask_inv X F task now :
  triple True (barrier_inv X F) (DisconnectTask E task now)
         (λ _, barrier_inv X F).
Proof. apply DisconnectTaskG_inv. intros id r. apply PassBarrier_inv. Qed.

Lemma SetTaskError_inv X F now task_name error :
  triple True (barrier_inv X F) (SetTaskError E now task_name error)
         (λ _, barrier_inv X F).
Proof.
  unfold SetTaskError.
  tinv_step.
  { apply update_task_inv. intros t. unfold TaskState_SetError.
    by case_bool_decide. }
  eapply triple_bind; [apply triple_task_at_eq; auto|]. intros t.
  apply (triple_assert (∀ id, id ∈ ongoing_barriers_for_task_ t →
                              (id ∉ X) ∧ F !! id = None)).
  { intros s [Hs Ht'] id Hid. by eapply ongoing_passable. }
  intros Hids. eapply triple_pre; [|by intros s [Hs _]].
  apply triple_for_each. intros id Hid%elem_of_elements.
  destruct (Hids id Hid) as [HX HF].
  tinv_step; [apply try_emplace_barrier_inv|by apply PassBarrier_inv].
Qed.

(** *** The shutdown flag is written by [Stop] only *)

Ltac flag_leaf :=
  first
    [ apply triple_update_barrier; intros ? Hflag; exact Hflag
    | apply triple_update_task; intros ? Hflag; destruct (_ !! _); [exact Hflag|done]
    | apply triple_try_emplace_barrier; intros ? Hflag; destruct (_ !! _); exact Hflag
    | apply triple_modify; intros ? Hflag; exact Hflag ].

Lemma flag_core v : core_pred (λ s, shutting_down_ s = v).
Proof. intros s s' (_ & _ & _ & Hf) Hs. congruence. Qed.

Lemma PassBarrierG_flag v disconnect id r :
  (∀ task, triple True (λ s, shutting_down_ s = v) (disconnect task)
                  (λ _ s, shutting_down_ s = v)) →
  triple True (λ s, shutting_down_ s = v) (PassBarrierG E disconnect id r)
         (λ _ s, shutting_down_ s = v).
Proof.
  intros Hdisc. unfold PassBarrierG. tinv; try flag_leaf.
  - apply (core_AggregateClusterDevices E _ (flag_core v)).
  - apply Hdisc.
  - apply (core_ReportServiceErrorToTaskAsync E _ (flag_core v)).
Qed.

Lemma DisconnectTaskG_flag v pass task now :
  (∀ id r, triple True (λ s, shutting_down_ s = v) (pass id r)
                  (λ _ s, shutting_down_ s = v)) →
  triple True (λ s, shutting_down_ s = v) (DisconnectTaskG E pass task now)
         (λ _ s, shutting_down_ s = v).
Proof.
  intros Hpass. unfold DisconnectTaskG. tinv; try flag_leaf. apply Hpass.
Qed.

Lemma PassBarrier_flag v now id r :
  triple True (λ s, shutting_down_ s = v) (PassBarrier E now id r)
         (λ _ s, shutting_down_ s = v).
Proof.
  apply PassBarrierG_flag. intros task. apply DisconnectTaskG_flag.
  intros id' r'. apply PassBarrierG_flag. intros task'. by apply triple_undefined.
Qed.

(** [Stop] ends in a stopped service, whatever the state it starts in. *)
Lemma Stop_stopped now :
  triple True (λ _, True) (Stop E now) (λ _, stopped).
Proof.
  unfold Stop.
  eapply triple_bind with (R := λ _ _, True); [by apply triple_gets|]. intros get_cb.
  eapply triple_bind with (R := λ _ _, True).
  { apply triple_for_each. intros ? _. apply triple_for_each. intros ? _.
    by apply triple_emit. }
  intros []. eapply triple_bind with (R := λ _ _, True); [by apply triple_modify|].
  intros []. eapply triple_bind with (R := λ _ s, shutting_down_ s = true).
  { by apply triple_modify. }
  intros []. eapply triple_bind; [apply triple_gets_inv|]. intros barriers.
  eapply triple_bind with (R := λ _ s, shutting_down_ s = true).
  { apply triple_for_each. intros id _. tinv. apply PassBarrier_flag. }
  intros []. eapply triple_bind
    with (R := λ _ s, shutting_down_ s = true ∧ barriers_ s = ∅).
  { by apply triple_modify. }
  intros []. eapply triple_bind with (R := λ _, stopped).
  { apply triple_modify. by intros s [??]. }
  assert (core_pred stopped) as Hcore.
  { intros s s' (Hc & Hb & _ & Hf). unfold stopped. by rewrite Hc, Hb, Hf. }
  intros []. tinv. by apply core_SendErrorPollingResponse.
Qed.

(** Surfacing an error in pull mode either leaves tasks and barriers as
    they are or stops the service. *)
Lemma SendErrorPollingResponseOrStopService_core P now error :
  core_pred P →
  triple True P (SendErrorPollingResponseOrStopService E now error)
         (λ _ s, P s ∨ stopped s).
Proof.
  intros HP. unfold SendErrorPollingResponseOrStopService.
  destruct (ok error); [by apply triple_undefined|].
  eapply triple_bind; [apply triple_gets_inv|]. intros [].
  - eapply triple_bind; [by apply core_SendErrorPollingResponse|].
    intros []. apply triple_ret. auto.
  - eapply triple_bind.
    + eapply triple_pre; [apply Stop_stopped|done].
    + intros []. apply triple_ret. auto.
Qed.

Lemma propagate_to_core P now source reported error names :
  core_pred P →
  triple True P (propagate_to E now source reported error names)
         (λ _ s, P s ∨ stopped s).
Proof.
  intros HP. induction names as [|name names IH]; simpl.
  { apply triple_ret. auto. }
  eapply triple_bind; [apply triple_inv_task_at|]. intros t.
  destruct (negb _); [done|].
  destruct (negb _).
  - eapply triple_bind; [by apply SendErrorPollingResponseOrStopService_core|].
    intros b. by apply triple_ret.
  - eapply triple_bind; [by apply core_emit|]. by intros [].
Qed.

(** In push mode propagation only sends RPCs. *)
Lemma PropagateError_push P now source reported :
  core_pred P → client_cache_present E = true →
  triple True P (PropagateError E now source reported) (λ _, P).
Proof.
  intros HP Hcc. unfold PropagateError.
  destruct (isRecoverableJob _ _); [tinv|].
  tinv_step; [tinv_step|]. tinv_step; [tinv|].
  induction a0 as [|name names IH]; simpl; [tinv|].
  tinv_step; [tinv_step|]. destruct (negb _); [done|].
  rewrite Hcc. simpl. tinv_step; [by apply core_emit|done].
Qed.

Lemma PropagateError_core P now source reported :
  core_pred P →
  triple True P (PropagateError E now source reported)
         (λ _ s, P s ∨ stopped s).
Proof.
  intros HP. unfold PropagateError.
  destruct (isRecoverableJob _ _). { apply triple_ret. auto. }
  eapply triple_bind; [apply triple_inv_task_at|]. intros t.
  eapply triple_bind; [apply triple_gets_inv|]. intros names.
  by apply propagate_to_core.
Qed.

End barrier_inv_ops.

(** ** The barrier invariant through the entry points *)

Section barrier_inv_entry_points.

Context (E : ServiceEnv).
Implicit Types (F : gmap string BarrierState).

Local Abbreviation Inv F := (barrier_inv ∅ F).

Lemma stopped_inv s : stopped s → barrier_inv ∅ ∅ s.
Proof. intros (_ & Hb & Hc). by apply barrier_inv_stopped. Qed.

Lemma mark_stale_tasks_inv F now names :
  triple True (Inv F) (mark_stale_tasks E now names) (λ _, Inv F).
Proof.
  induction names as [|name names IH]; simpl; [tinv|].
  tinv_step; [tinv_step|]. destruct a as [t|]; [|done].
  destruct (negb _); [done|]. case_bool_decide; [|done].
  tinv_step; [apply SetTaskError_inv|]. tinv_step; [done|]. tinv.
Qed.

Lemma CheckHeartbeatTimeout_inv F now :
  triple True (Inv F) (CheckHeartbeatTimeout E now) (λ _, kept_or_stopped F).
Proof.
  unfold CheckHeartbeatTimeout.
  eapply triple_bind; [apply triple_gets_inv|]. intros names.
  eapply triple_bind; [apply mark_stale_tasks_inv|]. intros stale.
  destruct stale as [|name stale]. { apply triple_ret. by left. }
  destruct (negb (client_cache_present E)) eqn:Hcc.
  - eapply triple_bind.
    + apply SendErrorPollingResponseOrStopService_core, barrier_inv_core.
    + intros b. by apply triple_ret.
  - (* push mode: no propagation stops the service *)
    eapply triple_post with (Q := λ _, Inv F); [|by left].
    apply triple_for_each. intros stale_name _.
    apply PropagateError_push; [apply barrier_inv_core|].
    by destruct (client_cache_present E).
Qed.

Lemma expired_barriers_inv F now ids :
  triple True (Inv F) (expired_barriers now ids)
    (λ expired s, Inv F s ∧ ∀ id, id ∈ expired → id ∈ ids).
Proof.
  induction ids as [|id ids IH]; simpl.
  { apply triple_ret. intros s Hs. split; [done|]. by intros id ?%elem_of_nil. }
  eapply triple_bind; [apply try_emplace_barrier_inv|]. intros ?.
  eapply triple_bind; [apply triple_gets_inv|]. intros barrier.
  eapply triple_bind; [apply IH|]. intros expired.
  apply triple_ret. intros s [Hs Hsub]. split; [done|].
  intros id'. case_bool_decide; set_solver.
Qed.

Lemma pass_expired_barriers_inv F now ids shutdown_error :
  (∀ id, id ∈ ids → F !! id = None) →
  triple True (Inv F) (pass_expired_barriers E now ids shutdown_error)
         (λ _, Inv F).
Proof.
  revert shutdown_error. induction ids as [|id ids IH]; intros se Hids; simpl.
  { tinv. }
  tinv_step; [tinv_step|]. tinv_step.
  - apply PassBarrier_inv; [set_solver|]. apply Hids. by left.
  - apply IH. intros id' Hid'. apply Hids. by right.
Qed.

Lemma CheckBarrierTimeout_inv F now :
  triple True (Inv F) (CheckBarrierTimeout E now) (λ _, kept_or_stopped F).
Proof.
  unfold CheckBarrierTimeout.
  eapply triple_bind; [apply triple_gets_eq|]. intros ids.
  apply (triple_assert (∀ id, id ∈ ids → F !! id = None)).
  { intros s [Hs ->] id Hid%elem_of_elements.
    destruct Hs as (Ha & _ & _ & HF).
    destruct (F !! id) as [b|] eqn:HFid; [|done].
    destruct (HF id b HFid) as (Hb & Hp & HX).
    by destruct (Ha id b Hb Hp HX) as (_ & _ & []). }
  intros Hids. eapply triple_pre; [|by intros s [Hs _]].
  eapply triple_bind; [apply expired_barriers_inv|]. intros expired.
  apply (triple_assert (∀ id, id ∈ expired → F !! id = None)).
  { intros s [_ Hsub] id Hid. apply Hids. by apply Hsub. }
  intros Hexp. eapply triple_pre; [|by intros s [Hs _]].
  eapply triple_bind; [by apply pass_expired_barriers_inv|]. intros [msg|].
  - destruct (negb _).
    + eapply triple_bind.
      * apply SendErrorPollingResponseOrStopService_core, barrier_inv_core.
      * intros b. by apply triple_ret.
    + apply triple_ret. by left.
  - apply triple_ret. by left.
Qed.

Lemma fail_registration_inv F now task_name error task :
  triple True (Inv F)
    (SetTaskError E now task_name error ;;;
     PropagateError E now task false ;;; ret error)
    (λ _, kept_or_stopped F).
Proof.
  eapply triple_bind; [apply SetTaskError_inv|]. intros [].
  eapply triple_bind; [apply PropagateError_core, barrier_inv_core|].
  intros []. by apply triple_ret.
Qed.

Lemma RegisterTask_inv F task incarnation now :
  triple True (Inv F) (RegisterTask E task incarnation now)
         (λ _, kept_or_stopped F).
Proof.
  unfold RegisterTask.
  eapply triple_bind; [apply triple_gets_inv|]. intros [].
  { apply triple_ret. by left. }
  eapply triple_bind; [apply triple_gets_inv|]. intros [t|].
  2:{ apply triple_ret. by left. }
  destruct (_ || _).
  { eapply triple_bind; [by apply update_task_inv|]. intros [].
    apply triple_ret. by left. }
  case_bool_decide.
  - case_bool_decide.
    + eapply triple_bind; [by apply update_task_inv|]. intros [].
      apply triple_ret. by left.
    + apply fail_registration_inv.
  - apply fail_registration_inv.
Qed.

Lemma ResetTask_inv F task now :
  triple True (Inv F) (ResetTask E task now) (λ _, Inv F).
Proof. apply DisconnectTask_inv. Qed.

Lemma ReportTaskError_inv F task error now :
  triple True (Inv F) (ReportTaskError E task error now)
         (λ _, kept_or_stopped F).
Proof.
  unfold ReportTaskError.
  eapply triple_bind; [apply triple_gets_inv|]. intros [].
  { apply triple_ret. by left. }
  eapply triple_bind; [apply triple_gets_inv|]. intros [t|].
  2:{ apply triple_ret. by left. }
  destruct (negb _). { apply triple_ret. by left. }
  eapply triple_bind; [apply SetTaskError_inv|]. intros [].
  eapply triple_bind; [apply PropagateError_core, barrier_inv_core|].
  intros []. by apply triple_ret.
Qed.

Lemma GetTaskState_inv F tasks :
  triple True (Inv F) (GetTaskState tasks) (λ _, Inv F).
Proof. induction tasks as [|task tasks IH]; simpl; tinv. apply IH. Qed.

Lemma RecordHeartbeat_inv F task incarnation now :
  triple True (Inv F) (RecordHeartbeat E task incarnation now)
         (λ _, kept_or_stopped F).
Proof.
  unfold RecordHeartbeat.
  eapply triple_bind; [apply triple_gets_inv|]. intros [].
  { apply triple_ret. by left. }
  eapply triple_bind; [apply triple_gets_eq|]. intros [t|].
  2:{ apply triple_ret. intros s [Hs _]. by left. }
  destruct (negb _). { apply triple_ret. intros s [Hs _]. by left. }
  destruct (IsDisconnectedBeyondGracePeriod _ _).
  { apply triple_ret. intros s [Hs _]. by left. }
  destruct (TaskState_RecordHeartbeat incarnation now t) as [st t'] eqn:Hhb.
  assert (ongoing_barriers_for_task_ t' = ongoing_barriers_for_task_ t) as Hong.
  { unfold TaskState_RecordHeartbeat in Hhb.
    destruct (negb _); [by simplify_eq|].
    destruct (negb _); by simplify_eq. }
  eapply triple_bind.
  { eapply triple_pre; [by apply (insert_task_inv ∅ F _ t t')|].
    intros s [Hs Ht]. by split. }
  intros []. destruct (negb _).
  - apply fail_registration_inv.
  - apply triple_ret. by left.
Qed.

Lemma kv_inv F (P := Inv F) :
  (∀ key value allow, triple True P (InsertKeyValue key value allow) (λ _, P))
  ∧ (∀ key done, triple True P (GetKeyValueAsync key done) (λ _, P))
  ∧ (∀ key, triple True P (DeleteKeyValue key) (λ _, P))
  ∧ (∀ f, triple True P (SetDeviceAggregationFunction f) (λ _, P)).
Proof.
  assert (core_pred P) as HP by apply barrier_inv_core.
  split_and!.
  - intros. unfold InsertKeyValue. tinv; by apply core_modify.
  - intros. unfold GetKeyValueAsync. tinv; by apply core_modify.
  - intros. unfold DeleteKeyValue. tinv. by apply core_modify.
  - intros. by apply core_modify.
Qed.

Lemma PollForErrorAsync_inv F task done now :
  triple True (Inv F) (PollForErrorAsync E task done now) (λ _, Inv F).
Proof.
  assert (core_pred (Inv F)) as HP by apply barrier_inv_core.
  unfold PollForErrorAsync. tinv; try by apply core_call.
  - by apply core_modify.
  - by apply core_ErrorPollingState_AddTask.
Qed.

End barrier_inv_entry_points.

(** ** The barrier invariant through the barrier calls, and in every
       reachable state *)

Section barrier_inv_barriers.

Context (E : ServiceEnv).
Implicit Types (F : gmap string BarrierState).

Local Abbreviation Inv F := (barrier_inv ∅ F).

(** Updates of a pending barrier that keep it pending and keep its
    participants. *)
Lemma update_pending_barrier_inv F id g :
  (∀ b, passed b = false →
        passed (g b) = false
        ∧ ∀ task, is_Some (tasks_at_barrier b !! task) →
                  is_Some (tasks_at_barrier (g b) !! task)) →
  triple True (λ s, Inv F s ∧ unpassed id s) (update_barrier id g)
         (λ _ s, Inv F s ∧ pending id s).
Proof.
  intros Hg. apply triple_update_barrier. intros s [Hs Hun].
  destruct (barriers_ s !! id) as [b|] eqn:Hb; simpl.
  - destruct (Hg b (Hun b Hb)) as [Hp Hkeys]. split.
    + apply barrier_inv_update_unpassed; [done| |done].
      intros b' Hb'. rewrite Hb in Hb'. injection Hb' as <-. split; [by apply Hun|done].
    + eexists. split; [apply lookup_insert_eq|done].
  - destruct (Hg new_BarrierState eq_refl) as [Hp Hkeys]. split.
    + apply barrier_inv_update_unpassed; [done| |done].
      intros b'. by rewrite Hb.
    + eexists. split; [apply lookup_insert_eq|done].
Qed.

Lemma pending_unpassed id s : pending id s → unpassed id s.
Proof. intros (b & Hb & Hp) b' Hb'. congruence. Qed.

Lemma update_pending_barrier_inv' F id g :
  (∀ b, passed b = false →
        passed (g b) = false
        ∧ ∀ task, is_Some (tasks_at_barrier b !! task) →
                  is_Some (tasks_at_barrier (g b) !! task)) →
  triple True (λ s, Inv F s ∧ pending id s) (update_barrier id g)
         (λ _ s, Inv F s ∧ pending id s).
Proof.
  intros Hg. eapply triple_pre; [by apply update_pending_barrier_inv|].
  intros s [Hs Hp]. split; [done|]. by apply pending_unpassed.
Qed.

Lemma insert_participant task v b :
  passed b = false →
  passed (set_tasks_at_barrier (<[task := v]> (tasks_at_barrier b)) b) = false
  ∧ ∀ task', is_Some (tasks_at_barrier b !! task') →
      is_Some (tasks_at_barrier
                 (set_tasks_at_barrier (<[task := v]> (tasks_at_barrier b)) b)
               !! task').
Proof.
  intros Hp. split; [done|]. intros task' Hkey. simpl.
  destruct (decide (task = task')) as [->|Hne].
  - rewrite lookup_insert_eq. eauto.
  - by rewrite lookup_insert_ne.
Qed.

Lemma PassBarrier_pending_inv F now id r :
  triple True (λ s, Inv F s ∧ unpassed id s) (PassBarrier E now id r)
         (λ _, Inv F).
Proof.
  apply (triple_assert ((id ∉ (∅ : gset string)) ∧ F !! id = None)).
  { intros s [Hs Hun]. by eapply unpassed_passable. }
  intros [HX HF]. eapply triple_pre; [by apply PassBarrier_inv|].
  by intros s [Hs _].
Qed.

Lemma add_participating_tasks_inv F id tasks :
  triple True (λ s, Inv F s ∧ pending id s) (add_participating_tasks id tasks)
         (λ _ s, Inv F s ∧ pending id s).
Proof.
  induction tasks as [|task tasks IH]; simpl; [tinv|].
  tinv_step; [tinv_step|]. destruct (negb a); [tinv|].
  tinv_step; [|done].
  apply update_pending_barrier_inv'. intros b. apply insert_participant.
Qed.

Lemma find_task_in_error_inv P tasks :
  triple True P (find_task_in_error tasks) (λ _, P).
Proof.
  induction tasks as [|task tasks IH]; simpl; [tinv|].
  tinv_step; [tinv_step|]. by case_bool_decide; [tinv|].
Qed.

Lemma create_barrier_inv F id timeout task participating done now :
  triple True (λ s, Inv F s ∧ pending id s)
    (create_barrier E id timeout task participating done now)
    (λ _, Inv F).
Proof.
  unfold create_barrier.
  eapply triple_bind with (R := λ _ s, Inv F s ∧ pending id s).
  { by apply update_pending_barrier_inv'. }
  intros []. eapply triple_bind with (R := λ _ s, Inv F s ∧ pending id s).
  { destruct participating as [|p ps].
    - tinv. apply update_pending_barrier_inv'. intros b. apply insert_participant.
    - apply add_participating_tasks_inv. }
  assert (core_pred (Inv F)) as Hcore by apply barrier_inv_core.
  intros [task_name|].
  { eapply triple_pre with (P := λ s, Inv F s ∧ unpassed id s).
    2:{ intros s [Hs Hp]. split; [done|]. by apply pending_unpassed. }
    eapply triple_bind; [apply PassBarrier_pending_inv|]. intros [].
    tinv. by apply core_call. }
  eapply triple_bind with (R := λ _ s, Inv F s ∧ pending id s).
  { by apply update_pending_barrier_inv'. }
  intros []. eapply triple_bind; [apply triple_barrier_at_eq|]. intros barrier.
  set (tasks := (map_to_list (tasks_at_barrier barrier)).*1).
  set (PK := λ s, Inv F s ∧ ∃ b, barriers_ s !! id = Some b ∧ passed b = false
                  ∧ ∀ task, task ∈ tasks → is_Some (tasks_at_barrier b !! task)).
  eapply triple_pre with (P := PK).
  2:{ intros s [[Hs (b & Hb & Hp)] ->]. split; [done|]. exists b.
      split_and!; [done..|]. intros task' Hin. unfold tasks in Hin.
      rewrite Hb in Hin. simpl in Hin.
      apply list_elem_of_fmap in Hin as ([task'' v] & -> & Hin).
      apply elem_of_map_to_list in Hin. simpl. eauto. }
  eapply triple_bind; [apply find_task_in_error_inv|]. intros [task_name|].
  { eapply triple_pre with (P := λ s, Inv F s ∧ unpassed id s).
    2:{ intros s [Hs (b & Hb & Hp & _)]. split; [done|].
        intros b' Hb'. congruence. }
    eapply triple_bind; [apply PassBarrier_pending_inv|]. intros [].
    tinv. by apply core_call. }
  eapply triple_bind with (R := λ _, PK).
  { apply triple_update_barrier. intros s [Hs (b & Hb & Hp & Hkeys)].
    rewrite Hb. simpl. split.
    - apply barrier_inv_update_unpassed; [done| |done].
      intros b' Hb'. rewrite Hb in Hb'. by injection Hb' as <-.
    - eexists. split; [apply lookup_insert_eq|]. done. }
  intros []. eapply triple_bind with (R := λ _, PK).
  { apply triple_modify. intros s [Hs (b & Hb & Hp & Hkeys)]. split; [|by exists b].
    apply barrier_inv_add_ongoing; [done|]. intros b' Hb'. congruence. }
  intros []. eapply triple_bind with (R := λ _, PK).
  { apply triple_for_each. intros task' Hin.
    apply triple_update_task. intros s [Hs (b & Hb & Hp & Hkeys)].
    destruct (cluster_state_ s !! GetTaskName task') as [t|] eqn:Ht; [|done].
    split; [|by exists b].
    eapply barrier_inv_join; eauto. set_solver. }
  intros []. apply triple_ret. by intros s [Hs _].
Qed.

Lemma join_barrier_inv F id task participating done now :
  triple True (Inv F) (join_barrier E id task participating done now)
         (λ _, Inv F).
Proof.
  assert (core_pred (Inv F)) as Hcore by apply barrier_inv_core.
  unfold join_barrier.
  eapply triple_bind; [apply triple_barrier_at_eq|]. intros barrier.
  destruct (passed barrier) eqn:Hpassed.
  { eapply triple_pre; [|by intros s [Hs _]].
    destruct (String.eqb id _).
    - tinv_step; [apply DisconnectTask_inv|]. tinv; by apply core_call.
    - by apply core_call. }
  eapply triple_pre with (P := λ s, Inv F s ∧ unpassed id s).
  2:{ intros s [Hs ->]. split; [done|]. intros b Hb. by rewrite Hb in Hpassed. }
  eapply triple_bind with (R := λ _ s, Inv F s ∧ pending id s).
  { by apply update_pending_barrier_inv. }
  intros []. eapply triple_bind; [apply triple_gets_inv|]. intros cluster_size.
  destruct (negb (ValidateTaskArgs _ _ _)).
  { eapply triple_pre; [apply PassBarrier_pending_inv|].
    intros s [Hs Hp]. split; [done|]. by apply pending_unpassed. }
  destruct (negb (default false _)); [|by apply triple_ret; intros s [Hs _]].
  eapply triple_bind with (R := λ _ s, Inv F s ∧ pending id s).
  { apply update_pending_barrier_inv'. intros b Hp.
    destruct (insert_participant task true b Hp) as [? Hkeys]. by split. }
  intros []. eapply triple_bind; [apply triple_gets_inv|]. intros barrier'.
  case_bool_decide.
  - eapply triple_pre; [apply PassBarrier_pending_inv|].
    intros s [Hs Hp]. split; [done|]. by apply pending_unpassed.
  - apply triple_ret. by intros s [Hs _].
Qed.

Lemma try_emplace_barrier_pending_inv F id :
  triple True (Inv F) (try_emplace_barrier id)
    (λ inserted s, Inv F s ∧ (inserted = true → pending id s)).
Proof.
  apply triple_try_emplace_barrier. intros s Hs.
  destruct (barriers_ s !! id) eqn:Hb; [done|]. split.
  - apply barrier_inv_update_unpassed; [done| |done]. intros b. by rewrite Hb.
  - intros _. eexists. split; [apply lookup_insert_eq|done].
Qed.

Lemma BarrierAsync_inv F id timeout task participating done now :
  (non_participating_call (OpBarrierAsync id timeout task participating done)
     = Some id → F !! id = None) →
  triple True (Inv F)
    (BarrierAsync E id timeout task participating done now) (λ _, Inv F).
Proof.
  assert (core_pred (Inv F)) as Hcore by apply barrier_inv_core.
  intros HF. unfold BarrierAsync. simpl in HF.
  destruct (_ && _).
  - specialize (HF eq_refl). tinv; try by apply core_call.
    + apply try_emplace_barrier_inv.
    + apply PassBarrier_inv; [set_solver|done].
  - eapply triple_bind; [apply triple_gets_inv|]. intros [].
    { by apply core_call. }
    eapply triple_bind; [apply try_emplace_barrier_pending_inv|]. intros inserted.
    eapply triple_bind with (R := λ _, Inv F).
    { destruct inserted.
      - eapply triple_pre; [apply create_barrier_inv|]. intros s [Hs Hp]. auto.
      - apply triple_ret. by intros s [Hs _]. }
    intros []; [apply join_barrier_inv|by apply triple_ret].
Qed.

Lemma CancelBarrier_inv F id task now :
  triple True (Inv F) (CancelBarrier E id task now) (λ _, Inv F).
Proof.
  unfold CancelBarrier.
  eapply triple_bind; [apply triple_gets_inv|]. intros []; [tinv|].
  eapply triple_bind; [apply try_emplace_barrier_inv|]. intros ?.
  eapply triple_bind; [apply triple_barrier_at_eq|]. intros barrier.
  destruct (passed barrier) eqn:Hpassed.
  { apply triple_ret. by intros s [Hs _]. }
  eapply triple_bind with (R := λ _, Inv F); [|intros []; by apply triple_ret].
  eapply triple_pre; [apply PassBarrier_pending_inv|].
  intros s [Hs ->]. split; [done|]. intros b Hb. by rewrite Hb in Hpassed.
Qed.

Lemma WaitForAllTasks_inv F task devices done now :
  triple True (Inv F) (WaitForAllTasks E task devices done now) (λ _, Inv F).
Proof.
  assert (core_pred (Inv F)) as Hcore by apply barrier_inv_core.
  unfold WaitForAllTasks. tinv; try by apply core_call.
  - by apply update_task_inv.
  - by apply BarrierAsync_inv.
Qed.

Lemma ShutdownTaskAsync_inv F task done now :
  triple True (Inv F) (ShutdownTaskAsync E task done now) (λ _, Inv F).
Proof.
  assert (core_pred (Inv F)) as Hcore by apply barrier_inv_core.
  unfold ShutdownTaskAsync. case_bool_decide.
  - by apply BarrierAsync_inv.
  - tinv; try by apply core_call. apply DisconnectTask_inv.
Qed.

(** Every entry point keeps the invariant and the frozen records, unless it
    stops the service or is the call that overwrites a frozen record. *)
Lemma step_inv F op now :
  (∀ id, non_participating_call op = Some id → F !! id = None) →
  triple True (Inv F) (step E op now) (λ _, kept_or_stopped F).
Proof.
  intros HF.
  assert (∀ A (m : M A), triple True (Inv F) m (λ _, Inv F) →
            triple True (Inv F) (discard m) (λ _, kept_or_stopped F)) as Hd.
  { intros A m Hm. unfold discard. eapply triple_bind; [exact Hm|].
    intros a. apply triple_ret. by left. }
  assert (∀ A (m : M A), triple True (Inv F) m (λ _, kept_or_stopped F) →
            triple True (Inv F) (discard m) (λ _, kept_or_stopped F)) as Hd'.
  { intros A m Hm. unfold discard. eapply triple_bind; [exact Hm|].
    intros a. by apply triple_ret. }
  assert (∀ (m : M unit), triple True (Inv F) m (λ _, Inv F) →
            triple True (Inv F) m (λ _, kept_or_stopped F)) as Hl.
  { intros m Hm. eapply triple_post; [exact Hm|]. by left. }
  destruct (kv_inv F) as (Hkv1 & Hkv2 & Hkv3 & Hkv4).
  destruct op; simpl.
  - apply Hd', RegisterTask_inv.
  - apply Hl, WaitForAllTasks_inv.
  - apply Hl, ShutdownTaskAsync_inv.
  - apply Hd, ResetTask_inv.
  - apply Hd', RecordHeartbeat_inv.
  - apply Hd', ReportTaskError_inv.
  - apply Hd, GetTaskState_inv.
  - apply Hd, Hkv1.
  - apply Hl, Hkv2.
  - apply Hd, Hkv3.
  - apply Hl, BarrierAsync_inv. intros Hnp. apply HF. exact Hnp.
  - apply Hd, CancelBarrier_inv.
  - apply Hl, PollForErrorAsync_inv.
  - apply Hl, Hkv4.
  - apply CheckHeartbeatTimeout_inv.
  - apply CheckBarrierTimeout_inv.
  - eapply triple_conseq; [apply Stop_stopped|done|].
    intros [] s Hs. by right.
Qed.

Lemma declare_tasks_no_barriers job cs :
  (∀ name t, cs !! name = Some t → ongoing_barriers_for_task_ t = ∅) →
  ∀ name t, declare_tasks job cs !! name = Some t →
            ongoing_barriers_for_task_ t = ∅.
Proof.
  unfold declare_tasks. generalize (seq 0 (Z.to_nat job.2)). intros l.
  revert cs. induction l as [|i l IH]; intros cs Hcs; simpl; [done|].
  apply IH. destruct (cs !! _) eqn:Hlook; [done|].
  intros name t. destruct (decide (GetTaskName' job.1 (Z.of_nat i) = name)) as [<-|Hne].
  - rewrite lookup_insert_eq. by intros [= <-].
  - rewrite lookup_insert_ne by done. apply Hcs.
Qed.

Lemma initial_service_inv : barrier_inv ∅ ∅ (initial_service E).
Proof.
  split_and!; simpl.
  - intros id b. by rewrite lookup_empty.
  - intros name t id Hlook Hin. exfalso.
    assert (ongoing_barriers_for_task_ t = ∅) as Hempty; [|set_solver].
    clear Hin. revert name t Hlook.
    generalize (coordinated_job_list (config E)).
    intros jobs. assert (∀ name t, (∅ : gmap string TaskState) !! name = Some t →
      ongoing_barriers_for_task_ t = ∅) as Hbase.
    { intros name t. by rewrite lookup_empty. }
    revert Hbase. generalize (∅ : gmap string TaskState).
    induction jobs as [|job jobs IH]; intros cs Hcs; simpl; [done|].
    apply IH. by apply declare_tasks_no_barriers.
  - set_solver.
  - intros id b. by rewrite lookup_empty.
Qed.

(** The invariant holds in every reachable state. *)
Lemma reachable_inv s : reachable E s → barrier_inv ∅ ∅ s.
Proof.
  induction 1 as [|s op now s' Hreach IH Hstep]; [apply initial_service_inv|].
  assert (kept_or_stopped ∅ s') as [Hs'|Hs'].
  { eapply (triple_partial_run _ _ _ s tt s' (step_inv ∅ op now _)); [done|done]. }
  - done.
  - by apply stopped_inv.
  Unshelve. intros id _. apply lookup_empty.
Qed.

End barrier_inv_barriers.

(** ** Definedness: [PassBarrier] on a well-formed state *)

Section pass_barrier_total.

Context (E : ServiceEnv).

Lemma well_formed_core_dom s s' :
  dom (cluster_state_ s') = dom (cluster_state_ s) →
  (∀ id b' task, barriers_ s' !! id = Some b' →
     is_Some (tasks_at_barrier b' !! task) →
     ∃ b, barriers_ s !! id = Some b ∧ is_Some (tasks_at_barrier b !! task)) →
  well_formed E s → well_formed E s'.
Proof.
  intros Hdom Hbar [Hpart Hnames].
  assert (∀ name, is_Some (cluster_state_ s' !! name)
                  ↔ is_Some (cluster_state_ s !! name)) as Hiff.
  { intros name. by rewrite <- !elem_of_dom, Hdom. }
  split.
  - intros id b' task Hb' Hkey. apply Hiff.
    destruct (Hbar id b' task Hb' Hkey) as (b & Hb & Hkey'). by eapply Hpart.
  - intros name Hname. apply Hiff, Hnames, Hiff, Hname.
Qed.

Lemma well_formed_core : core_pred (well_formed E).
Proof.
  intros s s' (Hc & Hb & _) Hwf. eapply well_formed_core_dom; [| |exact Hwf].
  - by rewrite Hc.
  - intros id b' task Hb' Hkey. rewrite Hb in Hb'. eauto.
Qed.

Lemma well_formed_update_task s name t t' :
  cluster_state_ s !! name = Some t → well_formed E s →
  well_formed E (set_cluster_state (<[name := t']>) s).
Proof.
  intros Ht. apply well_formed_core_dom; simpl.
  - rewrite dom_insert_L. apply elem_of_dom_2 in Ht. set_solver.
  - eauto.
Qed.

Lemma well_formed_update_barrier s id b' :
  (∀ task, is_Some (tasks_at_barrier b' !! task) →
     ∃ b, barriers_ s !! id = Some b ∧ is_Some (tasks_at_barrier b !! task)) →
  well_formed E s → well_formed E (set_barriers (<[id := b']>) s).
Proof.
  intros Hkeys. apply well_formed_core_dom; simpl; [done|].
  intros id' b0 task Hb0 Hkey. destruct (decide (id = id')) as [<-|Hne].
  - rewrite lookup_insert_eq in Hb0. injection Hb0 as <-. by apply Hkeys.
  - rewrite lookup_insert_ne in Hb0 by done. eauto.
Qed.

Lemma well_formed_ongoing s f :
  well_formed E s → well_formed E (set_ongoing_barriers f s).
Proof. apply well_formed_core_dom; simpl; eauto. Qed.

(** [AggregateClusterDevices] is defined when the task names parse back. *)
Lemma AggregateClusterDevices_total P :
  (∀ s devices, P s → P (set_cluster_devices devices s)) →
  (∀ s, P s → names_parse E s) →
  triple False P (AggregateClusterDevices E) (λ _, P).
Proof.
  intros HP Hnames. unfold AggregateClusterDevices.
  eapply triple_bind; [apply triple_gets_eq|]. intros names.
  set (Q := λ s, P s ∧ ∀ name, name ∈ names → is_Some (cluster_state_ s !! name)).
  eapply triple_pre with (P := Q).
  2:{ intros s [Hs ->]. split; [done|]. intros name Hin.
      apply list_elem_of_fmap in Hin as ([name' t] & -> & Hin).
      apply elem_of_map_to_list in Hin. eauto. }
  assert (∀ s devices, Q s → Q (set_cluster_devices devices s)) as HQ.
  { intros s devices [Hs Hall]. split; [by apply HP|done]. }
  eapply triple_bind with (R := λ _, Q).
  { apply triple_for_each. intros task Htask.
    eapply triple_bind.
    - apply triple_task_at_eq. intros s [Hs Hall]. right.
      rewrite merge_sort_Permutation in Htask.
      apply list_elem_of_fmap in Htask as (name & -> & Hname).
      by apply (Hnames s Hs), Hall.
    - intros t. apply triple_modify. intros s [Hs _]. by apply HQ. }
  intros []. eapply triple_bind; [apply triple_gets_inv|]. intros [f|].
  - apply triple_modify. intros s Hs. by apply HQ.
  - apply triple_ret. by intros s [??].
Qed.

Lemma hook_inv_core id0 b1 log0 s s' :
  well_formed E s' →
  barriers_ s' !! id0 = Some b1 →
  (∀ name t', cluster_state_ s' !! name = Some t' →
     ∃ t, cluster_state_ s !! name = Some t
          ∧ ongoing_barriers_for_task_ t' ⊆ ongoing_barriers_for_task_ t) →
  (∃ more, log s' = log s ++ more) →
  hook_inv E id0 b1 log0 s → hook_inv E id0 b1 log0 s'.
Proof.
  intros Hwf Hb Hcs [more Hlog] (_ & _ & Hquiet & pre & Hpre).
  split_and!; [done|done| |].
  - intros task t' Hkey Ht'. destruct (Hcs _ _ Ht') as (t & Ht & Hsub).
    specialize (Hquiet task t Hkey Ht). set_solver.
  - exists (pre ++ more). rewrite Hlog, Hpre. by rewrite app_assoc.
Qed.

Lemma hook_inv_log id0 b1 log0 :
  ∀ es s, hook_inv E id0 b1 log0 s → hook_inv E id0 b1 log0 (add_log es s).
Proof.
  intros es s Hs. eapply hook_inv_core; [| | | |exact Hs]; simpl.
  - eapply well_formed_core; [|apply Hs]. done.
  - apply Hs.
  - eauto.
  - eauto.
Qed.

Lemma hook_inv_emit id0 b1 log0 e :
  triple False (hook_inv E id0 b1 log0) (emit e) (λ _, hook_inv E id0 b1 log0).
Proof. apply triple_emit. intros s. apply hook_inv_log. Qed.

Lemma hook_inv_update_task id0 b1 log0 name f :
  (∀ t, ongoing_barriers_for_task_ (f t) ⊆ ongoing_barriers_for_task_ t) →
  triple False
    (λ s, hook_inv E id0 b1 log0 s ∧ is_Some (cluster_state_ s !! name))
    (update_task name f) (λ _, hook_inv E id0 b1 log0).
Proof.
  intros Hf. apply triple_update_task. intros s [Hs [t Ht]]. rewrite Ht.
  eapply hook_inv_core; [| | | |exact Hs]; simpl.
  - eapply well_formed_update_task; [done|apply Hs].
  - apply Hs.
  - intros name' t'. destruct (decide (name = name')) as [<-|Hne].
    + rewrite lookup_insert_eq. intros [= <-]. eauto.
    + rewrite lookup_insert_ne by done. eauto.
  - exists []. by rewrite app_nil_r.
Qed.

Lemma hook_inv_update_barrier id0 b1 log0 id g :
  id ≠ id0 →
  (∀ b task, is_Some (tasks_at_barrier (g b) !! task) →
             is_Some (tasks_at_barrier b !! task)) →
  triple False (hook_inv E id0 b1 log0) (update_barrier id g)
         (λ _, hook_inv E id0 b1 log0).
Proof.
  intros Hne Hg. apply triple_update_barrier. intros s Hs.
  eapply hook_inv_core; [| | | |exact Hs]; simpl.
  - apply well_formed_update_barrier; [|apply Hs].
    intros task Hkey%Hg. destruct (barriers_ s !! id) as [b|]; simpl in *; [eauto|].
    rewrite lookup_empty in Hkey. by destruct Hkey.
  - rewrite lookup_insert_ne by done. apply Hs.
  - eauto.
  - exists []. by rewrite app_nil_r.
Qed.

Lemma hook_inv_try_emplace id0 b1 log0 id :
  id ≠ id0 →
  triple False (hook_inv E id0 b1 log0) (try_emplace_barrier id)
         (λ _, hook_inv E id0 b1 log0).
Proof.
  intros Hne. apply triple_try_emplace_barrier. intros s Hs.
  destruct (barriers_ s !! id) eqn:Hb; [done|].
  eapply hook_inv_core; [| | | |exact Hs]; simpl.
  - apply well_formed_update_barrier; [|apply Hs].
    intros task Hkey. simpl in Hkey. rewrite lookup_empty in Hkey. by destruct Hkey.
  - rewrite lookup_insert_ne by done. apply Hs.
  - eauto.
  - exists []. by rewrite app_nil_r.
Qed.

Lemma hook_inv_pred_core id0 b1 log0 :
  ∀ s s', same_core s s' → (∃ more, log s' = log s ++ more) →
          hook_inv E id0 b1 log0 s → hook_inv E id0 b1 log0 s'.
Proof.
  intros s s' Hcore Hlog Hs. pose proof Hcore as (Hc & Hb & _).
  eapply hook_inv_core; [| | |done|exact Hs].
  - eapply well_formed_core; [done|apply Hs].
  - rewrite Hb. apply Hs.
  - rewrite Hc. eauto.
Qed.

(** The exit loop of [PassBarrier] on declared participants. *)
Lemma exit_loop_total P id (entries : list (CoordinatedTask * bool)) :
  (∀ s name t, P s → cluster_state_ s !! name = Some t →
     P (set_cluster_state (<[name := ExitBarrier id t]>) s)) →
  (∀ s e, P s → e ∈ entries → is_Some (cluster_state_ s !! GetTaskName e.1)) →
  triple False P
    (for_each entries (λ e, update_task (GetTaskName e.1) (ExitBarrier id)))
    (λ _ s, P s ∧ ∀ e t, e ∈ entries →
                   cluster_state_ s !! GetTaskName e.1 = Some t →
                   id ∉ ongoing_barriers_for_task_ t).
Proof.
  revert P. induction entries as [|e entries IH]; intros P Hupd Hdecl; simpl.
  { apply triple_ret. intros s Hs. split; [done|]. by intros e t ?%elem_of_nil. }
  set (P' := λ s, P s ∧ ∀ t, cluster_state_ s !! GetTaskName e.1 = Some t →
                        id ∉ ongoing_barriers_for_task_ t).
  eapply triple_bind with (R := λ _, P').
  { apply triple_update_task. intros s Hs.
    destruct (Hdecl s e Hs) as [t Ht]; [by left|]. rewrite Ht. split.
    - by apply Hupd.
    - intros t'. simpl. rewrite lookup_insert_eq. intros [= <-]. simpl. set_solver. }
  intros []. eapply triple_post.
  - apply (IH P').
    + intros s name t [Hs He] Ht. split; [by apply Hupd|].
      intros t'. simpl. destruct (decide (name = GetTaskName e.1)) as [->|Hne].
      * rewrite lookup_insert_eq. intros [= <-]. simpl. set_solver.
      * rewrite lookup_insert_ne by done. apply He.
    + intros s e' [Hs _] He'. apply Hdecl; [done|by right].
  - intros [] s [[Hs He] Hrest]. split; [done|].
    intros e' t [->|He']%elem_of_cons Ht; [by apply He|by eapply Hrest].
Qed.

Lemma calls_log (A : Service → Prop) cbs r log1 :
  (∀ s es, A s → A (add_log es s)) →
  triple False (λ s, A s ∧ log s = log1)
    (for_each cbs (λ cb, call cb r))
    (λ _ s, A s ∧ log s = log1 ++ callbacks_called cbs r).
Proof.
  intros HA. revert log1. induction cbs as [|cb cbs IH]; intros log1; simpl.
  { apply triple_ret. intros s [Hs ->]. by rewrite app_nil_r. }
  eapply triple_bind
    with (R := λ _ s, A s ∧ log s = log1 ++ [StatusCallbackCalled cb r]).
  { apply triple_emit. intros s [Hs <-]. split; [by apply HA|done]. }
  intros []. eapply triple_post; [apply IH|].
  intros [] s [Hs ->]. split; [done|]. by rewrite <- app_assoc.
Qed.

Local Abbreviation shutdown_id := (shutdown_barrier_id_ E).

Lemma PassBarrier_nested_hook (b1 : BarrierState) (log0 : list Event) id r :
  id ≠ shutdown_id →
  triple False (hook_inv E shutdown_id b1 log0) (PassBarrier_nested E id r)
         (λ _, hook_inv E shutdown_id b1 log0).
Proof.
  intros Hne. unfold PassBarrier_nested, PassBarrierG.
  set (K := hook_inv E shutdown_id b1 log0).
  eapply triple_bind with (R := λ _, K).
  { by apply hook_inv_update_barrier. }
  intros []. eapply triple_bind with (R := λ _, K).
  { apply triple_when. intros _. apply AggregateClusterDevices_total.
    - intros s devices Hs. eapply hook_inv_pred_core; [| |exact Hs]; [done|].
      exists []. by rewrite app_nil_r.
    - intros s Hs. apply Hs. }
  intros []. eapply triple_bind; [apply triple_barrier_at_eq|]. intros barrier.
  eapply triple_bind with (R := λ _, K).
  { eapply triple_post.
    - apply (exit_loop_total
        (λ s, K s ∧ barrier = default new_BarrierState (barriers_ s !! id))).
      + intros s name t [Hs Hb] Ht. split; [|done].
        eapply hook_inv_core; [| | | |exact Hs]; simpl.
        * eapply well_formed_update_task; [done|apply Hs].
        * apply Hs.
        * intros name' t'. destruct (decide (name = name')) as [<-|Hne'].
          -- rewrite lookup_insert_eq. intros [= <-]. exists t. split; [done|].
             simpl. set_solver.
          -- rewrite lookup_insert_ne by done. eauto.
        * exists []. by rewrite app_nil_r.
      + intros s [task v] [Hs Hb] Hin. apply elem_of_map_to_list in Hin.
        destruct (barriers_ s !! id) as [b|] eqn:Hlook; simpl in Hb; subst barrier.
        * destruct Hs as ([Hpart _] & _). eapply Hpart; [done|]. simpl. eauto.
        * simpl in Hin. by rewrite lookup_empty in Hin.
    - by intros [] s [[Hs _] _]. }
  intros []. apply String.eqb_neq in Hne. rewrite Hne. simpl.
  eapply triple_bind with (R := λ _, K); [by apply triple_ret|].
  intros []. eapply triple_bind with (R := λ _, K).
  { apply hook_inv_update_barrier; [by apply String.eqb_neq|].
    intros b task. simpl. rewrite lookup_empty. by intros []. }
  intros []. eapply triple_bind with (R := λ _, K).
  { apply triple_modify. intros s Hs.
    eapply hook_inv_core; [| | | |exact Hs]; simpl.
    - apply well_formed_ongoing, Hs.
    - apply Hs.
    - eauto.
    - exists []. by rewrite app_nil_r. }
  intros []. eapply triple_bind; [apply triple_gets_inv|]. intros barrier'.
  eapply triple_bind with (R := λ _, K).
  { apply triple_for_each. intros cb _. apply hook_inv_emit. }
  intros []. apply hook_inv_update_barrier; [by apply String.eqb_neq|done].
Qed.

Lemma DisconnectTask_nested_hook (b1 : BarrierState) (log0 : list Event)
    now task :
  is_Some (tasks_at_barrier b1 !! task) →
  triple False (hook_inv E shutdown_id b1 log0) (DisconnectTask_nested E now task)
         (λ _, hook_inv E shutdown_id b1 log0).
Proof.
  intros Hkey. unfold DisconnectTask_nested, DisconnectTaskG.
  set (K := hook_inv E shutdown_id b1 log0).
  eapply triple_bind; [apply triple_gets_inv|]. intros [].
  { by apply triple_ret. }
  eapply triple_bind; [apply triple_gets_eq|]. intros [t|].
  2:{ apply triple_ret. by intros s [??]. }
  case_bool_decide. { apply triple_ret. by intros s [??]. }
  eapply triple_bind with (R := λ _, K).
  { eapply triple_pre; [by apply hook_inv_update_task|].
    intros s [Hs Ht]. split; [done|]. by rewrite <- Ht. }
  intros []. eapply triple_bind with
    (R := λ t' s, K s ∧ cluster_state_ s !! GetTaskName task = Some t').
  { apply triple_task_at. intros s Hs.
    destruct (cluster_state_ s !! GetTaskName task) as [t'|] eqn:Ht'; [done|].
    destruct Hs as ([Hpart _] & Hb1 & _).
    destruct (Hpart _ _ task Hb1 Hkey) as [t' Ht'']. congruence. }
  intros t'.
  apply (triple_assert (∀ id, id ∈ ongoing_barriers_for_task_ t' →
                              id ≠ shutdown_id)).
  { intros s [Hs Ht'] id Hid ->. destruct Hs as (_ & _ & Hquiet & _).
    by apply (Hquiet task t' Hkey Ht'). }
  intros Hids. eapply triple_pre with (P := K); [|by intros s [??]].
  eapply triple_bind with (R := λ _, K); [|by intros []; apply triple_ret].
  apply triple_for_each. intros id Hid%elem_of_elements.
  eapply triple_bind with (R := λ _, K).
  - apply hook_inv_try_emplace. by apply Hids.
  - intros _. apply PassBarrier_nested_hook. by apply Hids.
Qed.

End pass_barrier_total.

(** ** What [PassBarrier] does *)

Section pass_barrier_effect.

Context (E : ServiceEnv).

Local Abbreviation shutdown_id := (shutdown_barrier_id_ E).

(** [PassBarrier] on a well-formed state: it is defined, marks the barrier
    passed with the given result, empties its participant map and its
    callback list, and calls the callbacks, in order, with the result; these
    calls are the last events logged.  For the shutdown barrier the events of
    the shutdown hook come before them. *)
Lemma PassBarrier_total now id r (b : BarrierState) (log0 : list Event) :
  triple False
    (λ s, well_formed E s
          ∧ default new_BarrierState (barriers_ s !! id) = b ∧ log s = log0)
    (PassBarrier E now id r)
    (λ _ s, well_formed E s
            ∧ barriers_ s !! id = Some (passed_record r b)
            ∧ ∃ pre, log s = log0 ++ pre ++ callbacks_called (done_callbacks b) r
                     ∧ (id ≠ shutdown_id → pre = [])).
Proof.
  unfold PassBarrier, PassBarrierG.
  set (b1 := set_passed_result r b).
  set (S1 := λ s, well_formed E s ∧ barriers_ s !! id = Some b1 ∧ log s = log0).
  eapply triple_bind with (R := λ _, S1).
  { apply triple_update_barrier. intros s (Hwf & <- & Hlog).
    split_and!; simpl; [|by rewrite lookup_insert_eq|done].
    apply well_formed_update_barrier; [|done]. simpl. intros task Hkey.
    destruct (barriers_ s !! id) as [b0|]; simpl in *; [eauto|].
    rewrite lookup_empty in Hkey. by destruct Hkey. }
  intros []. eapply triple_bind with (R := λ _, S1).
  { apply triple_when. intros _. apply AggregateClusterDevices_total.
    - intros s devices (Hwf & Hb & Hlog). split_and!; [|done..].
      eapply well_formed_core; [|exact Hwf]. done.
    - intros s Hs. apply Hs. }
  intros []. eapply triple_bind; [apply triple_barrier_at_eq|]. intros barrier.
  apply (triple_assert (barrier = b1)).
  { intros s [(_ & Hb & _) ->]. by rewrite Hb. }
  intros ->. eapply triple_pre with (P := S1); [|by intros s [??]].
  set (K := hook_inv E id b1 log0).
  eapply triple_bind with (R := λ _ s, K s ∧ log s = log0).
  { eapply triple_post.
    - apply (exit_loop_total S1).
      + intros s name t (Hwf & Hb & Hlog) Ht. split_and!; [|done..].
        by eapply well_formed_update_task.
      + intros s [task v] ([Hpart _] & Hb & _) Hin.
        apply elem_of_map_to_list in Hin. eapply Hpart; [done|]. simpl. eauto.
    - intros [] s [(Hwf & Hb & Hlog) Hquiet]. split; [|done].
      split_and!; [done|done| |exists []; by rewrite app_nil_r].
      intros task t [v Hkey] Ht.
      apply (Hquiet (task, v) t); [|done]. by apply elem_of_map_to_list. }
  intros [].
  set (H5 := λ s, K s ∧ (id ≠ shutdown_id → log s = log0)).
  eapply triple_bind with (R := λ _, H5).
  { destruct (String.eqb_spec id shutdown_id) as [->|Hne]; simpl.
    - eapply triple_conseq with (P := K) (Q := λ _, K);
        [|by intros s [??]|by intros [] s Hs].
      apply triple_for_each. intros [task arrived] Hin.
      apply elem_of_map_to_list in Hin. destruct arrived; simpl.
      + eapply triple_bind with (R := λ _, K).
        * apply DisconnectTask_nested_hook. simpl. eauto.
        * intros st. by apply triple_ret.
      + unfold ReportServiceErrorToTaskAsync.
        destruct (negb _); [by apply triple_ret|apply hook_inv_emit].
    - apply triple_ret. by intros s [??]. }
  intros [].
  set (b2 := set_tasks_at_barrier ∅ b1).
  set (S6 := λ s, ∃ pre, well_formed E s ∧ barriers_ s !! id = Some b2
                  ∧ log s = log0 ++ pre ∧ (id ≠ shutdown_id → pre = [])).
  assert (∀ s, H5 s → ∃ pre, log s = log0 ++ pre ∧ (id ≠ shutdown_id → pre = []))
    as Hpre.
  { intros s [(_ & _ & _ & pre & Hpre) Hlog].
    exists pre. split; [done|]. intros Hne. specialize (Hlog Hne).
    rewrite Hlog in Hpre. apply (app_inv_head log0). by rewrite <- Hpre, app_nil_r. }
  eapply triple_bind with (R := λ _, S6).
  { apply triple_update_barrier. intros s Hs. destruct (Hpre s Hs) as (pre & Hp & Hp').
    destruct Hs as [(Hwf & Hb & _) _]. rewrite Hb. simpl. exists pre.
    split_and!; [|apply lookup_insert_eq|done..].
    apply well_formed_update_barrier; [|done]. simpl. intros task.
    rewrite lookup_empty. by intros []. }
  intros []. eapply triple_bind with (R := λ _, S6).
  { apply triple_modify. intros s (pre & Hwf & Hb & Hp & Hp'). exists pre.
    split_and!; simpl; [|done..]. by apply well_formed_ongoing. }
  intros []. eapply triple_bind; [apply triple_barrier_at_eq|]. intros barrier.
  apply (triple_assert (barrier = b2)).
  { intros s [(pre & _ & Hb & _) ->]. by rewrite Hb. }
  intros ->. eapply triple_pre with (P := S6); [|by intros s [??]].
  apply triple_exists. intros pre.
  set (A := λ s, well_formed E s ∧ barriers_ s !! id = Some b2).
  eapply triple_bind with
    (R := λ _ s, (A s ∧ (id ≠ shutdown_id → pre = []))
                 ∧ log s = (log0 ++ pre) ++ callbacks_called (done_callbacks b) r).
  { eapply triple_pre.
    - apply (calls_log (λ s, A s ∧ (id ≠ shutdown_id → pre = []))
               (done_callbacks b2) r (log0 ++ pre)).
      intros s es [[Hwf Hb] Hp]. split; [split; [|done]|done].
      eapply well_formed_core; [|exact Hwf]. done.
    - intros s (Hwf & Hb & Hlog & Hp). by split. }
  intros []. apply triple_update_barrier. intros s [[[Hwf Hb] Hp] Hlog].
  rewrite Hb. simpl. split_and!.
  - apply well_formed_update_barrier; [|done]. simpl. intros task.
    rewrite lookup_empty. by intros [].
  - apply lookup_insert_eq.
  - exists pre. by rewrite Hlog, <- app_assoc.
Qed.

End pass_barrier_effect.

(** ** Barriers without participants *)

Section passed_barriers.

Context (E : ServiceEnv).

(** [PassBarrier] on a barrier without participants only rewrites its
    record. *)
Lemma PassBarrier_no_participants now id r (b : BarrierState) :
  tasks_at_barrier b = ∅ →
  triple True (λ s, barriers_ s !! id = Some b) (PassBarrier E now id r)
         (λ _ s, barriers_ s !! id = Some (passed_record r b)).
Proof.
  intros Hempty. unfold PassBarrier, PassBarrierG.
  set (b1 := set_passed_result r b).
  set (S1 := λ s, barriers_ s !! id = Some b1).
  assert (core_pred S1) as Hcore.
  { intros s s' (_ & Hb & _) Hs. unfold S1. by rewrite Hb. }
  eapply triple_bind with (R := λ _, S1).
  { apply triple_update_barrier. intros s Hs. unfold S1. simpl.
    rewrite lookup_insert_eq, Hs. done. }
  intros []. eapply triple_bind with (R := λ _, S1).
  { apply triple_when. intros _. by apply core_AggregateClusterDevices. }
  intros []. eapply triple_bind; [apply triple_barrier_at_eq|]. intros barrier.
  apply (triple_assert (barrier = b1)).
  { intros s [Hs ->]. unfold S1 in Hs. by rewrite Hs. }
  intros ->. eapply triple_pre with (P := S1); [|by intros s [??]].
  replace (map_to_list (tasks_at_barrier b1)) with
    ([] : list (CoordinatedTask * bool))
    by (simpl; by rewrite Hempty, map_to_list_empty).
  simpl.
  eapply triple_bind with (R := λ _, S1); [by apply triple_ret|].
  intros []. eapply triple_bind with (R := λ _, S1).
  { apply triple_when. intros _. by apply triple_ret. }
  intros [].
  eapply triple_bind with (R := λ _ s, barriers_ s !! id = Some (set_tasks_at_barrier ∅ b1)).
  { apply triple_update_barrier. intros s Hs. simpl.
    rewrite lookup_insert_eq. unfold S1 in Hs. by rewrite Hs. }
  set (S2 := λ s, barriers_ s !! id = Some (set_tasks_at_barrier ∅ b1)).
  intros []. eapply triple_bind with (R := λ _, S2).
  { apply triple_modify. by intros s Hs. }
  intros []. eapply triple_bind; [apply triple_barrier_at_eq|]. intros barrier.
  eapply triple_bind with (R := λ _, S2).
  { eapply triple_pre with (P := S2); [|by intros s [??]].
    apply triple_for_each. intros cb _. apply triple_emit. by intros s Hs. }
  intros []. apply triple_update_barrier. intros s Hs. simpl.
  rewrite lookup_insert_eq. unfold S2 in Hs. rewrite Hs. done.
Qed.

End passed_barriers.

(** ** Runs of callbacks, as equations *)

Lemma add_log_nil s : add_log [] s = s.
Proof. destruct s. unfold add_log. simpl. by rewrite app_nil_r. Qed.

Lemma add_log_app es1 es2 s : add_log es2 (add_log es1 s) = add_log (es1 ++ es2) s.
Proof. destruct s. unfold add_log. simpl. by rewrite app_assoc. Qed.

Lemma for_each_call cbs r s :
  for_each cbs (λ cb, call cb r) s = Some (tt, add_log (callbacks_called cbs r) s).
Proof.
  revert s. induction cbs as [|cb cbs IH]; intros s; simpl.
  - by rewrite add_log_nil.
  - unfold bind at 1. unfold call at 1, emit, modify. simpl.
    rewrite IH. by rewrite add_log_app.
Qed.

(** Total and partial correctness combine. *)
Lemma triple_total_and {A} P P' (m : M A) Q Q' :
  triple False P m Q → triple True P' m Q' →
  triple False (λ s, P s ∧ P' s) m (λ a s, Q a s ∧ Q' a s).
Proof.
  intros H H' s [HP HP']. specialize (H s HP). specialize (H' s HP').
  destruct (m s) as [[a s']|]; [done|done].
Qed.

(** ** [Stop] *)

Section stop.

Context (E : ServiceEnv).

Lemma PassBarrier_well_formed now id r :
  triple False (well_formed E) (PassBarrier E now id r) (λ _, well_formed E).
Proof.
  intros s Hs.
  pose proof (PassBarrier_total E now id r
                (default new_BarrierState (barriers_ s !! id)) (log s) s) as H.
  destruct (PassBarrier E now id r s) as [[[] s']|]; [|by apply H].
  by apply H.
Qed.

(** [Stop] has a result in every well-formed state, and leaves a stopped
    service. *)
Lemma Stop_total now :
  triple False (well_formed E) (Stop E now) (λ _, stopped).
Proof.
  cut (triple False (well_formed E) (Stop E now) (λ _ _, True)).
  { intros Htotal s Hs. specialize (Htotal s Hs).
    pose proof (Stop_stopped E now s I) as Hpartial.
    by destruct (Stop E now s) as [[[] s']|]. }
  assert (∀ s s', same_core s s' → well_formed E s → well_formed E s') as Hcore.
  { intros s s' Hc Hs. by eapply well_formed_core. }
  unfold Stop.
  eapply triple_bind with (R := λ _, well_formed E); [by apply triple_gets|].
  intros get_cb.
  eapply triple_bind with (R := λ _, well_formed E).
  { apply triple_for_each. intros ? _. apply triple_for_each. intros ? _.
    apply triple_emit. intros s. by apply Hcore. }
  intros []. eapply triple_bind with (R := λ _, well_formed E).
  { apply triple_modify. intros s. by apply Hcore. }
  intros []. eapply triple_bind with (R := λ _, well_formed E).
  { apply triple_modify. intros s Hs. destruct Hs as [Hp Hn]. by split. }
  intros []. eapply triple_bind; [apply triple_gets_inv|]. intros barriers.
  eapply triple_bind with (R := λ _, well_formed E).
  { apply triple_for_each. intros id _.
    eapply triple_bind; [apply triple_gets_inv|]. intros b.
    apply triple_when. intros _. apply PassBarrier_well_formed. }
  intros []. eapply triple_bind with (R := λ _ _, True); [by apply triple_modify|].
  intros []. eapply triple_bind with (R := λ _ _, True); [by apply triple_modify|].
  intros []. eapply triple_bind; [apply triple_gets_eq|]. intros polling.
  destruct polling; simpl; [|by apply triple_ret]. intros s [_ Hs].
  unfold SendErrorPollingResponse, bind, gets. simpl. rewrite <- Hs. simpl.
  destruct (responded_ _); [done|].
  unfold ErrorPollingState_SetError, bind, gets. simpl.
  destruct (responded_ _); [done|]. unfold modify. simpl.
  rewrite for_each_call. done.
Qed.

End stop.

Lemma well_formed_check_sound E s :
  well_formed_check E s = true → well_formed E s.
Proof.
  unfold well_formed_check. intros H. apply andb_prop in H as [Hp Hn].
  apply bool_decide_eq_true in Hp, Hn. split.
  - intros id b task Hb [arrived Hkey].
    exact (Hp id b Hb task arrived Hkey).
  - intros name [t Ht]. exact (Hn name t Ht).
Qed.

(** ** [CancelBarrier] *)

Section cancel.

Context (E : ServiceEnv).

Lemma try_emplace_barrier_run id s :
  ∃ inserted s1,
    try_emplace_barrier id s = Some (inserted, s1)
    ∧ default new_BarrierState (barriers_ s1 !! id)
      = default new_BarrierState (barriers_ s !! id)
    ∧ log s1 = log s
    ∧ cluster_state_ s1 = cluster_state_ s
    ∧ (is_Some (barriers_ s !! id) → s1 = s ∧ inserted = false)
    ∧ (barriers_ s !! id = None → inserted = true
         ∧ s1 = set_barriers (<[id := new_BarrierState]>) s)
    ∧ (well_formed E s → well_formed E s1).
Proof.
  unfold try_emplace_barrier, bind, gets. simpl.
  destruct (barriers_ s !! id) as [b|] eqn:Hb.
  - rewrite bool_decide_eq_true_2 by eauto. exists false, s. simpl.
    rewrite Hb. split_and!; done.
  - rewrite bool_decide_eq_false_2 by (intros [? [=]]). eexists true, _.
    unfold modify, ret. simpl. split; [reflexivity|]. simpl.
    rewrite lookup_insert_eq. split_and!; try done.
    intros Hwf. apply well_formed_update_barrier; [|done]. simpl. intros task Hkey.
    rewrite lookup_empty in Hkey. by destruct Hkey.
Qed.

(** [CancelBarrier(barrier_id, task)] answers Internal, with the state
    untouched, when the service has stopped; it answers FailedPrecondition,
    with the state untouched, when the barrier has passed; otherwise (the
    barrier being pending or new), in a state where every task recorded at a
    barrier is declared, it passes the barrier with a Cancelled status whose
    message ends in the name of the cancelling task, every waiting callback
    is called with that status, and the answer is OK. *)
Theorem CancelBarrier_outcomes barrier_id task now s :
  let b := default new_BarrierState (barriers_ s !! barrier_id) in
  let cancelled := cancelled_error barrier_id task in
  (shutting_down_ s = true →
     ∃ st, CancelBarrier E barrier_id task now s = Some (st, s)
           ∧ code st = kInternal)
  ∧ (shutting_down_ s = false → passed b = true →
     ∃ st, CancelBarrier E barrier_id task now s = Some (st, s)
           ∧ code st = kFailedPrecondition)
  ∧ (shutting_down_ s = false → passed b = false → well_formed E s →
     code cancelled = kCancelled
     ∧ (∃ text, message cancelled = text +:+ GetTaskName task)
     ∧ ∃ s' pre,
         CancelBarrier E barrier_id task now s = Some (OkStatus, s')
         ∧ barriers_ s' !! barrier_id = Some (passed_record cancelled b)
         ∧ log s' = log s ++ pre ++ callbacks_called (done_callbacks b) cancelled
         ∧ (barrier_id ≠ shutdown_barrier_id_ E → pre = [])).
Proof.
  intros b cancelled. split_and!.
  - intros Hstop. unfold CancelBarrier, bind, gets. simpl. rewrite Hstop.
    eexists. split; [reflexivity|done].
  - intros Hrun Hpassed. unfold CancelBarrier, bind, gets. simpl. rewrite Hrun.
    destruct (try_emplace_barrier_run barrier_id s)
      as (inserted & s1 & -> & _ & _ & _ & Hsame & _).
    destruct (barriers_ s !! barrier_id) as [b0|] eqn:Hb; [|done].
    destruct Hsame as [-> _]; [eauto|]. unfold barrier_at, gets. simpl.
    rewrite Hb. simpl. subst b. simpl in Hpassed. rewrite Hpassed.
    eexists. split; [reflexivity|done].
  - intros Hrun Hpassed Hwf. split; [done|]. split.
    { eexists (StrCat ["Barrier ("; barrier_id; ") is cancelled by task: "]).
      unfold cancelled, cancelled_error, StrCat. simpl.
      rewrite !append_assoc_string, !append_empty_r, ?append_empty_l. done. }
    unfold CancelBarrier, bind, gets. simpl. rewrite Hrun.
    destruct (try_emplace_barrier_run barrier_id s)
      as (inserted & s1 & -> & Hb1 & Hlog1 & _ & _ & _ & Hwf1).
    unfold barrier_at, gets. simpl. rewrite Hb1. fold b. rewrite Hpassed.
    change (cancelled_error barrier_id task) with cancelled.
    destruct (triple_total_run _ _ _ s1
                (PassBarrier_total E now barrier_id cancelled b (log s)))
      as ([] & s' & -> & _ & Hb' & pre & Hlog & Hpre); [by auto|].
    exists s', pre. done.
Qed.

End cancel.

Lemma CancelBarrier_outcomes_witness :
  (∃ st, CancelBarrier example_env "b" j1 400 example_stopped
         = Some (st, example_stopped) ∧ code st = kInternal)
  ∧ (∃ st, CancelBarrier example_env "b" j1 400 example_cancelled
           = Some (st, example_cancelled) ∧ code st = kFailedPrecondition)
  ∧ ∃ s' pre,
      CancelBarrier example_env "b" j1 400 example_pending = Some (OkStatus, s')
      ∧ barriers_ s' !! "b"
        = Some (passed_record (cancelled_error "b" j1)
                  (default new_BarrierState (barriers_ example_pending !! "b")))
      ∧ log s' = log example_pending ++ pre
                 ++ callbacks_called [1%nat] (cancelled_error "b" j1)
      ∧ ("b" ≠ shutdown_barrier_id_ example_env → pre = []).
Proof.
  split; [|split].
  - apply (CancelBarrier_outcomes example_env "b" j1 400 example_stopped).
    vm_compute. reflexivity.
  - apply (CancelBarrier_outcomes example_env "b" j1 400 example_cancelled);
      vm_compute; reflexivity.
  - apply (CancelBarrier_outcomes example_env "b" j1 400 example_pending).
    + vm_compute. reflexivity.
    + vm_compute. reflexivity.
    + apply well_formed_check_sound. vm_compute. reflexivity.
Defined.

(** Facts about given states, evaluated one conjunct after the other, so
    that a state found for one conjunct is known in the next. *)
Ltac settle_conjuncts :=
  cbv zeta;
  lazymatch goal with
  | |- _ ∧ _ => split; settle_conjuncts
  | |- _ => vm_compute; reflexivity
  end.

(** C5.  [CancelBarrier] of a barrier that has not passed, while the service
    runs, does not always pass the barrier and answer OK.  In the cluster of
    two, the undeclared task [k:0] calls [BarrierAsync] on [w] with the empty
    list: the call is not checked against the task table, and the caller is
    recorded at the barrier as a participant that has arrived.  When [j0]
    then cancels [w], [PassBarrier] looks up the record of every participant
    to take the barrier off its list; [k:0] has none, the source dereferences
    the null record, and the call has no result. *)
Theorem CancelBarrier_undeclared_participant :
  let s := example_undeclared in
  run example_env example_undeclared_run (initial_service example_env) = Some s
  ∧ shutting_down_ s = false
  ∧ (∃ b, barriers_ s !! "w" = Some b ∧ passed b = false
          ∧ tasks_at_barrier b !! undeclared_task = Some true)
  ∧ cluster_state_ s !! GetTaskName undeclared_task = None
  ∧ CancelBarrier example_env "w" j0 300 s = None.
Proof.
  intros s. do 2 (split; [vm_compute; reflexivity|]).
  split; [eexists; settle_conjuncts|settle_conjuncts].
Qed.

(** ** The polling channel *)

Section polling.

Context (E : ServiceEnv).

(** What [SendErrorPollingResponse] does once somebody polls: the first
    error is handed to every waiting poller and kept; later ones are
    dropped. *)
Lemma SendErrorPollingResponse_run error s :
  client_polling_for_error_ s = true →
  ∃ s', SendErrorPollingResponse error s = Some (tt, s')
        ∧ same_core s s'
        ∧ client_polling_for_error_ s' = true
        ∧ if responded_ (error_polling_state_ s) then s' = s
          else error_polling_state_ s'
               = mkErrorPollingState true error []
                   (polling_task_names_ (error_polling_state_ s))
               ∧ log s' = log s ++ callbacks_called
                            (polling_done_callbacks_ (error_polling_state_ s))
                            error.
Proof.
  intros Hpoll. unfold SendErrorPollingResponse, bind, gets. simpl.
  rewrite Hpoll. simpl.
  destruct (responded_ (error_polling_state_ s)) eqn:Hresp.
  { exists s. split_and!; done. }
  unfold ErrorPollingState_SetError, bind, gets. simpl. rewrite Hresp.
  unfold modify. simpl. rewrite for_each_call. simpl.
  eexists. split; [reflexivity|]. split_and!; done.
Qed.

End polling.

(** ** [BarrierAsync] on a barrier that exists *)

Lemma set_barriers_twice f g s :
  set_barriers f (set_barriers g s) = set_barriers (λ m, f (g m)) s.
Proof. done. Qed.

Lemma set_barriers_insert_twice id (b1 b2 : BarrierState) s :
  set_barriers (<[id := b2]>) (set_barriers (<[id := b1]>) s)
  = set_barriers (<[id := b2]>) s.
Proof.
  rewrite set_barriers_twice. unfold set_barriers. f_equal.
  apply insert_insert_eq.
Qed.

Section barrier_calls.

Context (E : ServiceEnv).

Local Abbreviation shutdown_id := (shutdown_barrier_id_ E).

(** The record of a barrier once a call has queued its callback. *)
Local Abbreviation queued done b :=
  (set_done_callbacks (done_callbacks b ++ [done]) b).

(** [BarrierAsync] on a barrier that exists and has not passed, from a
    caller that gets past the participation check: the callback is queued,
    then the arguments are validated and the arrival is recorded. *)
Lemma BarrierAsync_existing id timeout task participating done now s b :
  shutting_down_ s = false →
  barriers_ s !! id = Some b → passed b = false →
  non_participating_call (OpBarrierAsync id timeout task participating done)
    = None →
  BarrierAsync E id timeout task participating done now s
  = (if negb (ValidateTaskArgs participating (tasks_at_barrier b)
                (Z.of_nat (size (cluster_state_ s))))
     then PassBarrier E now id (conflicting_tasks_error id)
     else if negb (default false (tasks_at_barrier b !! task))
     then update_barrier id (λ b,
            set_num_pending_tasks (num_pending_tasks b - 1)
              (set_tasks_at_barrier (<[task := true]> (tasks_at_barrier b)) b)) ;;;
          barrier <- barrier_at id ;;
          if bool_decide (num_pending_tasks barrier = 0)
          then PassBarrier E now id OkStatus
          else ret tt
     else ret tt)
    (set_barriers (<[id := queued done b]>) s).
Proof.
  intros Hrun Hb Hpassed Hcall. unfold BarrierAsync.
  simpl in Hcall.
  destruct (negb (bool_decide (participating = [])) && _) eqn:Hcheck; [done|].
  clear Hcall. unfold bind at 1, gets. simpl. rewrite Hrun.
  unfold bind at 1.
  destruct (try_emplace_barrier_run E id s)
    as (inserted & s1 & -> & _ & _ & _ & Hsame & _).
  destruct Hsame as [-> ->]; [eauto|].
  unfold bind at 1, ret at 1. unfold join_barrier.
  unfold bind at 1, barrier_at at 1, gets. simpl. rewrite Hb. simpl.
  rewrite Hpassed.
  unfold bind at 1, update_barrier at 1, bind at 1, barrier_at at 1, gets, modify.
  simpl. rewrite Hb. simpl. done.
Qed.

Lemma well_formed_queued id done s b :
  barriers_ s !! id = Some b → well_formed E s →
  well_formed E (set_barriers (<[id := queued done b]>) s).
Proof.
  intros Hb. apply well_formed_update_barrier. simpl. eauto.
Qed.

(** The record of a barrier once [task] has been marked arrived. *)
Local Abbreviation marked task done b :=
  (set_num_pending_tasks (num_pending_tasks b - 1)
     (set_tasks_at_barrier (<[task := true]> (tasks_at_barrier b))
        (queued done b))).

(** Marking [task] arrived, right after its callback was queued. *)
Lemma arrival_step id task done s b (k : BarrierState → M unit) :
  (update_barrier id (λ b0,
     set_num_pending_tasks (num_pending_tasks b0 - 1)
       (set_tasks_at_barrier (<[task := true]> (tasks_at_barrier b0)) b0)) ;;;
   barrier <- barrier_at id ;; k barrier)
    (set_barriers (<[id := queued done b]>) s)
  = k (marked task done b) (set_barriers (<[id := marked task done b]>) s).
Proof.
  unfold bind at 1, update_barrier at 1, bind at 1, barrier_at at 1, gets, modify.
  simpl. rewrite lookup_insert_eq. simpl. rewrite set_barriers_insert_twice.
  unfold bind at 1, barrier_at at 1, gets. simpl. by rewrite lookup_insert_eq.
Qed.

(** C3, as amended.  [BarrierAsync] by a participant of a barrier that has
    not passed, while the service runs, with a participant list that is
    empty or names the caller and that passes validation.  If the
    participant has arrived before, the call is no error and changes
    nothing but the list of callbacks of the barrier, to which the callback
    of the call is added.  If it has not, it is marked arrived, the pending
    count goes down by one and the callback is added.  When that makes the
    count zero, and every task recorded at a barrier is a declared task (the
    names of declared tasks parsing back to declared tasks), the barrier
    passes with OK and every queued callback, the one of this call last, is
    called with OK. *)
Theorem BarrierAsync_arrival id timeout task participating done now s b
    (arrived : bool) :
  shutting_down_ s = false →
  barriers_ s !! id = Some b → passed b = false →
  tasks_at_barrier b !! task = Some arrived →
  non_participating_call (OpBarrierAsync id timeout task participating done)
    = None →
  ValidateTaskArgs participating (tasks_at_barrier b)
    (Z.of_nat (size (cluster_state_ s))) = true →
  (arrived = true →
     BarrierAsync E id timeout task participating done now s
     = Some (tt, set_barriers (<[id := queued done b]>) s))
  ∧ (arrived = false → num_pending_tasks b - 1 ≠ 0 →
     BarrierAsync E id timeout task participating done now s
     = Some (tt, set_barriers (<[id := marked task done b]>) s))
  ∧ (arrived = false → num_pending_tasks b - 1 = 0 → well_formed E s →
     ∃ s' pre,
       BarrierAsync E id timeout task participating done now s = Some (tt, s')
       ∧ barriers_ s' !! id = Some (passed_record OkStatus (marked task done b))
       ∧ log s' = log s ++ pre
                  ++ callbacks_called (done_callbacks b ++ [done]) OkStatus
       ∧ (id ≠ shutdown_id → pre = [])).
Proof.
  intros Hrun Hb Hpassed Harrived Hcall Hvalid.
  rewrite (BarrierAsync_existing _ _ _ _ _ _ _ b) by done.
  rewrite Hvalid, Harrived. simpl. split_and!.
  - by intros ->.
  - intros -> Hpending. simpl. rewrite arrival_step. simpl.
    by rewrite bool_decide_eq_false_2.
  - intros -> Hzero Hwf. simpl. rewrite arrival_step. simpl.
    rewrite bool_decide_eq_true_2 by done.
    destruct (triple_total_run _ _ _
                (set_barriers (<[id := marked task done b]>) s)
                (PassBarrier_total E now id OkStatus (marked task done b) (log s)))
      as ([] & s' & -> & _ & Hb' & pre & Hlog & Hpre).
    { split_and!; simpl; [|by rewrite lookup_insert_eq|done].
      apply well_formed_update_barrier; [|done]. simpl. intros task' Hkey.
      exists b. split; [done|]. destruct (decide (task' = task)) as [->|Hne].
      - by rewrite Harrived.
      - by rewrite lookup_insert_ne in Hkey. }
    exists s', pre. done.
Qed.

(** C4, as amended.  [BarrierAsync] on a barrier that exists and has not
    passed, while the service runs, with a participant list that is empty or
    names the caller, validates the list.  A list that is not empty passes
    validation exactly if it is as long as the barrier has participants and
    every task in it is a participant; the empty list exactly if the barrier
    has as many participants as the cluster has tasks.  In a state where
    every task recorded at a barrier is a declared task (the names of
    declared tasks parsing back to declared tasks), a call that does not
    pass validation passes the barrier with an InvalidArgument error, and
    every queued callback, the one of this call last, is called with it; and
    a call by a participant that passes validation leaves the barrier
    un-passed or passes it with OK. *)
Theorem BarrierAsync_validates id timeout task participating done now s b :
  shutting_down_ s = false →
  barriers_ s !! id = Some b → passed b = false →
  non_participating_call (OpBarrierAsync id timeout task participating done)
    = None →
  let accepted := ValidateTaskArgs participating (tasks_at_barrier b)
                    (Z.of_nat (size (cluster_state_ s))) in
  let failure := conflicting_tasks_error id in
  (accepted = true ↔
     if bool_decide (participating = [])
     then size (tasks_at_barrier b) = size (cluster_state_ s)
     else size (tasks_at_barrier b) = length participating
          ∧ ∀ t, t ∈ participating → is_Some (tasks_at_barrier b !! t))
  ∧ (accepted = false → well_formed E s →
     code failure = kInvalidArgument
     ∧ ∃ s' pre,
         BarrierAsync E id timeout task participating done now s = Some (tt, s')
         ∧ barriers_ s' !! id = Some (passed_record failure b)
         ∧ log s' = log s ++ pre
                    ++ callbacks_called (done_callbacks b ++ [done]) failure
         ∧ (id ≠ shutdown_id → pre = []))
  ∧ (accepted = true → is_Some (tasks_at_barrier b !! task) → well_formed E s →
     ∃ s' b',
       BarrierAsync E id timeout task participating done now s = Some (tt, s')
       ∧ barriers_ s' !! id = Some b'
       ∧ (passed b' = false ∨ result b' = OkStatus)).
Proof.
  intros Hrun Hb Hpassed Hcall accepted failure. split_and!.
  - unfold accepted, ValidateTaskArgs. destruct participating as [|t0 rest].
    { rewrite (bool_decide_eq_true_2 (@nil CoordinatedTask = [])) by done.
      rewrite bool_decide_eq_true. lia. }
    rewrite (bool_decide_eq_false_2 (t0 :: rest = [])) by done.
    case_bool_decide as Hsize; simpl.
    + rewrite andb_true_iff, bool_decide_eq_true, forallb_forall. split.
      * intros [H0 Hrest]. split; [done|]. intros t [->|Hin]%elem_of_cons; [done|].
        apply list_elem_of_In in Hin. apply Hrest in Hin.
        by apply bool_decide_eq_true in Hin.
      * intros [_ Hall]. split; [apply Hall; left|].
        intros t Hin. apply bool_decide_eq_true. apply Hall. right.
        by apply list_elem_of_In.
    + split; [done|]. intros [? _]. done.
  - intros Hrej Hwf. split; [done|].
    rewrite (BarrierAsync_existing _ _ _ _ _ _ _ b) by done.
    fold accepted. rewrite Hrej. simpl. fold failure.
    destruct (triple_total_run _ _ _
                (set_barriers (<[id := queued done b]>) s)
                (PassBarrier_total E now id failure (queued done b) (log s)))
      as ([] & s' & -> & _ & Hb' & pre & Hlog & Hpre).
    { split_and!; simpl; [by apply well_formed_queued|by rewrite lookup_insert_eq|done]. }
    exists s', pre. done.
  - intros Hacc [arrived Harrived] Hwf.
    rewrite (BarrierAsync_existing _ _ _ _ _ _ _ b) by done.
    fold accepted. rewrite Hacc, Harrived. simpl. destruct arrived; simpl.
    { eexists _, _. split; [reflexivity|]. simpl. rewrite lookup_insert_eq.
      split; [done|]. by left. }
    rewrite arrival_step. simpl.
    case_bool_decide as Hzero.
    2:{ eexists _, _. split; [reflexivity|]. simpl. rewrite lookup_insert_eq.
        split; [done|]. by left. }
    destruct (triple_total_run _ _ _
                (set_barriers (<[id := marked task done b]>) s)
                (PassBarrier_total E now id OkStatus (marked task done b) (log s)))
      as ([] & s' & -> & _ & Hb' & pre & Hlog & Hpre).
    { split_and!; simpl; [|by rewrite lookup_insert_eq|done].
      apply well_formed_update_barrier; [|done]. simpl. intros task' Hkey.
      exists b. split; [done|]. destruct (decide (task' = task)) as [->|Hne].
      - by rewrite Harrived.
      - by rewrite lookup_insert_ne in Hkey. }
    eexists s', _. split; [done|]. split; [exact Hb'|]. by right.
Qed.

End barrier_calls.

Lemma BarrierAsync_arrival_witness :
  ∃ s' pre,
    BarrierAsync example_env "b" 5000000 j1 [j0; j1] 2%nat 300 example_pending
    = Some (tt, s')
    ∧ barriers_ s' !! "b"
      = Some (passed_record OkStatus
                (set_num_pending_tasks (num_pending_tasks example_barrier - 1)
                   (set_tasks_at_barrier
                      (<[j1 := true]> (tasks_at_barrier example_barrier))
                      (set_done_callbacks
                         (done_callbacks example_barrier ++ [2%nat])
                         example_barrier))))
    ∧ log s' = log example_pending ++ pre
               ++ callbacks_called (done_callbacks example_barrier ++ [2%nat])
                    OkStatus
    ∧ ("b" ≠ shutdown_barrier_id_ example_env → pre = []).
Proof.
  apply (BarrierAsync_arrival example_env "b" 5000000 j1 [j0; j1] 2%nat 300
           example_pending example_barrier false);
    [vm_compute; reflexivity..|].
  apply well_formed_check_sound. vm_compute. reflexivity.
Defined.

(** C3 does not hold as it is stated, for two reasons.  A repeated call by
    a participant that has arrived does change the state: its callback is
    queued behind the others, to be answered when the barrier passes.  And
    the arrival that brings the pending count to zero does not pass the
    barrier when an undeclared task is recorded at it: in the cluster of
    two, after the undeclared task has called [w] with the empty list, the
    call of [j0] with the list of all three brings the count to zero, and
    [PassBarrier] dereferences the missing record of the undeclared task. *)
Lemma repeated_call_queues_callback :
  (∃ b s' b',
     barriers_ example_pending !! "b" = Some b
     ∧ passed b = false ∧ tasks_at_barrier b !! j0 = Some true
     ∧ done_callbacks b = [1%nat]
     ∧ BarrierAsync example_env "b" 5000000 j0 [j0; j1] 3%nat 300 example_pending
       = Some (tt, s')
     ∧ barriers_ s' !! "b" = Some b'
     ∧ done_callbacks b' = [1%nat; 3%nat]
     ∧ log s' = log example_pending)
  ∧ (run example_env example_undeclared_run (initial_service example_env)
     = Some example_undeclared
     ∧ ∃ b,
         barriers_ example_undeclared !! "w" = Some b
         ∧ passed b = false ∧ tasks_at_barrier b !! j0 = Some false
         ∧ num_pending_tasks b - 1 = 0
         ∧ ValidateTaskArgs [j0; j1; undeclared_task] (tasks_at_barrier b)
             (Z.of_nat (size (cluster_state_ example_undeclared))) = true
         ∧ BarrierAsync example_env "w" 5000000 j0 [j0; j1; undeclared_task]
             2%nat 300 example_undeclared = None).
Proof.
  split.
  - eexists _, _, _. settle_conjuncts.
  - split; [vm_compute; reflexivity|]. eexists. settle_conjuncts.
Qed.

Lemma BarrierAsync_validates_witness :
  (∃ s' pre,
     BarrierAsync example_env "b" 5000000 j1 [j1] 2%nat 300 example_pending
     = Some (tt, s')
     ∧ barriers_ s' !! "b"
       = Some (passed_record (conflicting_tasks_error "b") example_barrier)
     ∧ log s' = log example_pending ++ pre
                ++ callbacks_called (done_callbacks example_barrier ++ [2%nat])
                     (conflicting_tasks_error "b")
     ∧ ("b" ≠ shutdown_barrier_id_ example_env → pre = []))
  ∧ ∃ s' b',
      BarrierAsync example_env "b" 5000000 j1 [j0; j1] 2%nat 300 example_pending
      = Some (tt, s')
      ∧ barriers_ s' !! "b" = Some b'
      ∧ (passed b' = false ∨ result b' = OkStatus).
Proof.
  assert (well_formed example_env example_pending) as Hwf.
  { apply well_formed_check_sound. vm_compute. reflexivity. }
  split.
  - apply (BarrierAsync_validates example_env "b" 5000000 j1 [j1] 2%nat 300
             example_pending example_barrier);
      [vm_compute; reflexivity..|exact Hwf].
  - apply (BarrierAsync_validates example_env "b" 5000000 j1 [j0; j1] 2%nat 300
             example_pending example_barrier);
      [vm_compute; reflexivity..| |exact Hwf].
    vm_compute. eauto.
Defined.

(** C4 does not hold for every barrier and every call.  A barrier that has
    passed is not validated: [b] has passed with OK and has no participants
    left, and a call of [j1] with the list [[j1]] gets OK back and changes
    nothing else.  A list that matches is not enough: in the cluster of
    three, [j2] calls the barrier of [j0] and [j1] with exactly these two,
    and the barrier fails with InvalidArgument, because the caller is not in
    its own list.  And a list that does not match does not fail the barrier
    when an undeclared task is recorded at it: [PassBarrier] dereferences
    the missing record, and the call has no result. *)
Lemma passed_barrier_not_validated :
  (∃ b,
     barriers_ example_passed !! "b" = Some b
     ∧ passed b = true ∧ result b = OkStatus
     ∧ ValidateTaskArgs [j1] (tasks_at_barrier b)
         (Z.of_nat (size (cluster_state_ example_passed))) = false
     ∧ BarrierAsync example_env "b" 5000000 j1 [j1] 3%nat 400 example_passed
       = Some (tt, add_log [StatusCallbackCalled 3%nat OkStatus] example_passed))
  ∧ (∃ b s' b',
       barriers_ example_pending3 !! "b" = Some b
       ∧ passed b = false
       ∧ ValidateTaskArgs [j0; j1] (tasks_at_barrier b)
           (Z.of_nat (size (cluster_state_ example_pending3))) = true
       ∧ BarrierAsync example_env3 "b" 5000000 j2 [j0; j1] 3%nat 300
           example_pending3 = Some (tt, s')
       ∧ barriers_ s' !! "b" = Some b'
       ∧ passed b' = true ∧ code (result b') = kInvalidArgument)
  ∧ (∃ b,
       barriers_ example_undeclared !! "w" = Some b
       ∧ passed b = false
       ∧ ValidateTaskArgs [j0] (tasks_at_barrier b)
           (Z.of_nat (size (cluster_state_ example_undeclared))) = false
       ∧ BarrierAsync example_env "w" 5000000 j0 [j0] 2%nat 300
           example_undeclared = None).
Proof.
  split; [|split].
  - eexists. settle_conjuncts.
  - eexists _, _, _. settle_conjuncts.
  - eexists. settle_conjuncts.
Qed.

(** ** Passed barriers *)

Section passed_stable.

Context (E : ServiceEnv).

Lemma run_reachable ops s s' :
  reachable E s → run E ops s = Some s' → reachable E s'.
Proof.
  revert s. induction ops as [|[op now] ops IH]; intros s Hs; simpl.
  { by intros [= <-]. }
  destruct (step E op now s) as [[[] s1]|] eqn:Hstep; [|done].
  apply IH. by eapply reachable_step.
Qed.

Lemma state_after_reachable ops :
  is_Some (run E ops (initial_service E)) → reachable E (state_after E ops).
Proof.
  intros [s Hs]. unfold state_after. rewrite Hs. simpl.
  eapply run_reachable; [apply reachable_initial|done].
Qed.

Lemma barrier_inv_freeze s id b :
  barrier_inv ∅ ∅ s → barriers_ s !! id = Some b → passed b = true →
  barrier_inv ∅ {[id := b]} s.
Proof.
  intros (Ha & Hb & Hd & _) Hlook Hpassed. split_and!; [done..|].
  intros id' b' [<- <-]%lookup_singleton_Some. split_and!; [done..|set_solver].
Qed.

Lemma passed_record_same (b : BarrierState) :
  passed b = true → tasks_at_barrier b = ∅ → done_callbacks b = [] →
  passed_record (result b) b = b.
Proof. destruct b. simpl. by intros -> -> ->. Qed.

(** C1.  In a state the service can reach, a barrier that has passed has no
    participants and no callbacks left, so none of its callbacks can be
    called again.  Its record, the stored result included, is the same after
    every entry point, [CancelBarrier] included, with two exceptions: an
    entry point that stops the service discards all barrier records, and
    [BarrierAsync] on the same id by a task outside the participant list it
    gives overwrites the stored result with the InvalidArgument error of
    that call (the record stays passed, without participants or
    callbacks). *)
Theorem passed_barrier_stable s id b :
  reachable E s → barriers_ s !! id = Some b → passed b = true →
  tasks_at_barrier b = ∅ ∧ done_callbacks b = []
  ∧ (∀ op now s',
       non_participating_call op ≠ Some id →
       step E op now s = Some (tt, s') →
       barriers_ s' !! id = Some b ∨ stopped s')
  ∧ (∀ timeout task participating done now s',
       non_participating_call
         (OpBarrierAsync id timeout task participating done) = Some id →
       BarrierAsync E id timeout task participating done now s = Some (tt, s') →
       code (non_participating_error id task) = kInvalidArgument
       ∧ barriers_ s' !! id
         = Some (passed_record
                   (if shutting_down_ s then result b
                    else non_participating_error id task) b)).
Proof.
  intros Hreach Hb Hpassed. apply reachable_inv in Hreach as Hinv.
  destruct Hinv as (Ha & Hrest).
  destruct (Ha id b Hb Hpassed) as (Hmap & Hcbs & _); [set_solver|].
  split; [done|]. split; [done|]. split.
  - intros op now s' Hop Hstep.
    assert (kept_or_stopped {[id := b]} s') as [Hs'|Hs'].
    { eapply (triple_partial_run _ _ _ s tt s' (step_inv E {[id := b]} op now _));
        [|done].
      apply barrier_inv_freeze; [|done..]. by apply (reachable_inv E). }
    + left. destruct Hs' as (_ & _ & _ & HF).
      apply (HF id b). apply lookup_singleton_eq.
    + by right.
  - intros timeout task participating done now s' Hcall Hrun. split; [done|].
    revert Hrun. unfold BarrierAsync. simpl in Hcall.
    destruct (negb (bool_decide (participating = [])) && _); [|done].
    unfold bind at 1, gets. simpl. destruct (shutting_down_ s) eqn:Hflag.
    { unfold call, emit, modify. intros [= <-]. simpl.
      by rewrite passed_record_same. }
    unfold bind at 1.
    destruct (try_emplace_barrier_run E id s)
      as (inserted & s1 & -> & _ & _ & _ & Hsame & _).
    destruct Hsame as [-> ->]; [eauto|].
    unfold bind at 1.
    pose proof (PassBarrier_no_participants E now id
                  (non_participating_error id task) b Hmap s Hb) as Hpass.
    destruct (PassBarrier E now id (non_participating_error id task) s)
      as [[[] s2]|]; [|done].
    unfold call, emit, modify. by intros [= <-].
  Unshelve.
  intros id' Hid'. apply lookup_singleton_None. by intros <-.
Qed.

End passed_stable.

(** C1 does not hold without these exceptions: barrier [x] passes with OK
    when its only participant [j0] arrives; a later [BarrierAsync] on [x] by
    [j1], which is not in the list it gives, replaces the stored result by
    InvalidArgument. *)
Lemma passed_result_overwritten :
  barrier_outcome example_env
    [(OpBarrierAsync "x" 1000000 j0 [j0] 1%nat, 200)] "x"
  = Some (true, kOk)
  ∧ barrier_outcome example_env
      [(OpBarrierAsync "x" 1000000 j0 [j0] 1%nat, 200);
       (OpBarrierAsync "x" 1000000 j1 [j0] 2%nat, 300)] "x"
    = Some (true, kInvalidArgument).
Proof. split; vm_compute; reflexivity. Qed.

Lemma passed_barrier_stable_witness :
  tasks_at_barrier example_cancelled_barrier = ∅
  ∧ done_callbacks example_cancelled_barrier = []
  ∧ (∀ op now s',
       non_participating_call op ≠ Some "b" →
       step example_env op now example_cancelled = Some (tt, s') →
       barriers_ s' !! "b" = Some example_cancelled_barrier ∨ stopped s')
  ∧ (∀ timeout task participating done now s',
       non_participating_call
         (OpBarrierAsync "b" timeout task participating done) = Some "b" →
       BarrierAsync example_env "b" timeout task participating done now
         example_cancelled = Some (tt, s') →
       code (non_participating_error "b" task) = kInvalidArgument
       ∧ barriers_ s' !! "b"
         = Some (passed_record
                   (if shutting_down_ example_cancelled
                    then result example_cancelled_barrier
                    else non_participating_error "b" task)
                   example_cancelled_barrier)).
Proof.
  apply (passed_barrier_stable example_env example_cancelled "b"
           example_cancelled_barrier).
  - apply state_after_reachable. vm_compute. eauto.
  - vm_compute. reflexivity.
  - vm_compute. reflexivity.
Defined.

(** ** [GetTaskState] *)

(** C10.  [GetTaskState(tasks)] has a result exactly when every queried
    task is declared.  Then it leaves the state as it is and reports, for
    each queried task in order, the state and the status of its record, with
    an error payload naming the task when the status is not OK.  A task that
    is not declared makes the whole call undefined: [cluster_state_[name]]
    is dereferenced without a check. *)
Theorem GetTaskState_declared tasks s :
  (Forall (λ task, is_Some (cluster_state_ s !! GetTaskName task)) tasks →
     ∃ infos,
       GetTaskState tasks s = Some (infos, s)
       ∧ Forall2 (λ task info,
                    ∃ t, cluster_state_ s !! GetTaskName task = Some t
                         ∧ info = state_info_of task t) tasks infos)
  ∧ (∀ task, task ∈ tasks → cluster_state_ s !! GetTaskName task = None →
       GetTaskState tasks s = None).
Proof.
  split.
  - induction 1 as [|task rest [t Ht] Hrest IH]; simpl.
    { exists []. split; [done|constructor]. }
    destruct IH as (infos & Hrun & Hinfos).
    unfold bind, task_at. rewrite Ht. simpl. rewrite Hrun. simpl.
    eexists. split; [reflexivity|]. constructor; [|done].
    exists t. split; [done|]. unfold state_info_of. by destruct (ok (status_ t)).
  - induction tasks as [|task0 rest IH]; intros task Hin Hnone.
    { by apply elem_of_nil in Hin. }
    simpl. unfold bind at 1, task_at.
    destruct (cluster_state_ s !! GetTaskName task0) as [t0|] eqn:Ht0; [|done].
    apply elem_of_cons in Hin as [->|Hin]; [congruence|].
    simpl. unfold bind. by rewrite (IH task Hin Hnone).
Qed.

Lemma GetTaskState_declared_witness :
  (∃ infos,
     GetTaskState [j0; j1] example_pending = Some (infos, example_pending)
     ∧ Forall2 (λ task info,
                  ∃ t, cluster_state_ example_pending !! GetTaskName task = Some t
                       ∧ info = state_info_of task t) [j0; j1] infos)
  ∧ GetTaskState [j0; mkTask "j" 2] example_pending = None.
Proof.
  split.
  - apply (GetTaskState_declared [j0; j1] example_pending).
    repeat constructor; vm_compute; eauto.
  - apply (GetTaskState_declared [j0; mkTask "j" 2] example_pending)
      with (task := mkTask "j" 2).
    + apply elem_of_cons. right. apply elem_of_cons. by left.
    + vm_compute. reflexivity.
Defined.

(** ** Task errors and heartbeats *)

Section task_errors.

Context (E : ServiceEnv).

Local Abbreviation shutdown_id := (shutdown_barrier_id_ E).





(** [SetTaskError] on a declared task has a result. *)
Lemma SetTaskError_total now name err :
  triple False (λ s, well_formed E s ∧ is_Some (cluster_state_ s !! name))
         (SetTaskError E now name err) (λ _, well_formed E).
Proof.
  unfold SetTaskError.
  eapply triple_bind
    with (R := λ _ s, well_formed E s ∧ is_Some (cluster_state_ s !! name)).
  { apply triple_update_task. intros s [Hwf [t Ht]]. rewrite Ht. split.
    - by eapply well_formed_update_task.
    - simpl. rewrite lookup_insert_eq. eauto. }
  intros []. eapply triple_bind with (R := λ _, well_formed E).
  { apply triple_task_at. intros s [Hwf [t Ht]]. by rewrite Ht. }
  intros t. apply triple_for_each. intros id _.
  eapply triple_bind with (R := λ _, well_formed E).
  { intros s Hs. destruct (try_emplace_barrier_run E id s)
      as (inserted & s1 & -> & _ & _ & _ & _ & _ & Hwf). by apply Hwf. }
  intros _. apply PassBarrier_well_formed.
Qed.

(** In pull mode an error that is not OK can always be surfaced. *)
Lemma SendErrorPollingResponseOrStopService_total now error :
  ok error = false →
  triple False (well_formed E) (SendErrorPollingResponseOrStopService E now error)
         (λ _ _, True).
Proof.
  intros Herr s Hwf. unfold SendErrorPollingResponseOrStopService.
  rewrite Herr. unfold bind at 1, gets. simpl.
  destruct (client_polling_for_error_ s) eqn:Hpoll.
  - destruct (SendErrorPollingResponse_run error s Hpoll) as (s' & Hrun & _).
    unfold bind, ret. by rewrite Hrun.
  - destruct (triple_total_run _ _ _ s (Stop_total E now) Hwf)
      as ([] & s' & Hrun & _).
    unfold bind, ret. by rewrite Hrun.
Qed.




(** [RecordHeartbeat] for a declared task, while the service runs. *)
Lemma RecordHeartbeat_declared task incarnation now s t :
  shutting_down_ s = false →
  cluster_state_ s !! GetTaskName task = Some t →
  RecordHeartbeat E task incarnation now s
  = (if negb (ok (status_ t)) then ret (status_ t)
     else if IsDisconnectedBeyondGracePeriod now t then
       ret (MakeCoordinationError (InvalidArgumentError (StrCat
         ["Task with task_name="; GetTaskName task;
          " must be registered before sending heartbeat messages"])))
     else
       let '(st, t') := TaskState_RecordHeartbeat incarnation now t in
       modify (set_cluster_state (<[GetTaskName task := t']>)) ;;;
       if negb (ok st) then
         SetTaskError E now (GetTaskName task) st ;;;
         PropagateError E now task false ;;;
         ret st
       else ret st) s.
Proof.
  intros Hrun Ht. unfold RecordHeartbeat, bind at 1, gets. simpl. rewrite Hrun.
  unfold bind at 1. by rewrite Ht.
Qed.


End task_errors.


(** Why the last case of [RecordHeartbeat] asks that the task does not
    wait at the shutdown barrier: with a shutdown barrier and no client
    cache, [j0] is CONNECTED and waits at the shutdown barrier for [j1];
    the state is reachable and every participant is declared.  The error
    of a heartbeat (or a registration) with another incarnation passes the
    shutdown barrier, which disconnects [j0] and resets its status to OK;
    [PropagateError] then hands that OK status to
    [SendErrorPollingResponseOrStopService], whose check of the status
    fails: the call has no result. *)
Lemma mismatch_at_shutdown_barrier :
  let E := example_shutdown_env in
  let s := example_leaving in
  run E example_leaving_run (initial_service E) = Some s
  ∧ well_formed E s
  ∧ (∃ t, cluster_state_ s !! GetTaskName j0 = Some t
          ∧ state_ t = TASKSTATE_CONNECTED ∧ ok (status_ t) = true
          ∧ task_incarnation_ t = 7
          ∧ shutdown_barrier_id_ E ∈ ongoing_barriers_for_task_ t)
  ∧ RecordHeartbeat E j0 8 300 s = None
  ∧ RegisterTask E j0 8 300 s = None.
Proof.
  intros E s. split; [vm_compute; reflexivity|]. split.
  { apply well_formed_check_sound. vm_compute. reflexivity. }
  split; [|settle_conjuncts].
  eexists. repeat (split; [vm_compute; reflexivity|]).
  apply (bool_decide_unpack _). vm_compute. exact I.
Qed.


(** ** [client_polling_for_error_] is written by [PollForErrorAsync] only *)

Create HintDb frame.

Ltac frame_leaf :=
  first
    [ apply triple_update_barrier; intros ? Hflag; exact Hflag
    | apply triple_update_task; intros ? Hflag; destruct (_ !! _); [exact Hflag|done]
    | apply triple_try_emplace_barrier; intros ? Hflag; destruct (_ !! _); exact Hflag
    | apply triple_modify; intros ? Hflag; exact Hflag
    | apply triple_emit; intros ? Hflag; exact Hflag ].

Ltac frame :=
  repeat first [ progress (tinv_step; simpl) | frame_leaf
               | solve [eauto with frame] ].

Section polling_flag.

Context (E : ServiceEnv) (v : bool).

Local Abbreviation kept m :=
  (triple True (λ s, client_polling_for_error_ s = v) m
          (λ _ s, client_polling_for_error_ s = v)).

Lemma ReportServiceErrorToTaskAsync_polling task error :
  kept (ReportServiceErrorToTaskAsync E task error).
Proof. unfold ReportServiceErrorToTaskAsync. frame. Qed.

Lemma AggregateClusterDevices_polling : kept (AggregateClusterDevices E).
Proof. unfold AggregateClusterDevices. frame. Qed.

Local Hint Resolve ReportServiceErrorToTaskAsync_polling
  AggregateClusterDevices_polling : frame.

Lemma PassBarrierG_polling disconnect id r :
  (∀ task, kept (disconnect task)) → kept (PassBarrierG E disconnect id r).
Proof. intros Hdisc. unfold PassBarrierG. frame. Qed.

Lemma DisconnectTaskG_polling pass task now :
  (∀ id r, kept (pass id r)) → kept (DisconnectTaskG E pass task now).
Proof. intros Hpass. unfold DisconnectTaskG. frame. Qed.

Lemma PassBarrier_polling now id r : kept (PassBarrier E now id r).
Proof.
  apply PassBarrierG_polling. intros task. apply DisconnectTaskG_polling.
  intros id' r'. apply PassBarrierG_polling. intros task'. by apply triple_undefined.
Qed.

Local Hint Resolve PassBarrier_polling : frame.

Lemma DisconnectTask_polling task now : kept (DisconnectTask E task now).
Proof. apply DisconnectTaskG_polling. intros id r. apply PassBarrier_polling. Qed.

Local Hint Resolve DisconnectTask_polling : frame.

Lemma SetTaskError_polling now name error : kept (SetTaskError E now name error).
Proof. unfold SetTaskError. frame. Qed.

Lemma ErrorPollingState_SetError_polling error :
  kept (ErrorPollingState_SetError error).
Proof. unfold ErrorPollingState_SetError. frame. Qed.

Lemma ErrorPollingState_AddTask_polling task done :
  kept (ErrorPollingState_AddTask task done).
Proof. unfold ErrorPollingState_AddTask. frame. Qed.

Local Hint Resolve SetTaskError_polling ErrorPollingState_SetError_polling
  ErrorPollingState_AddTask_polling : frame.

Lemma SendErrorPollingResponse_polling error :
  kept (SendErrorPollingResponse error).
Proof. unfold SendErrorPollingResponse. frame. Qed.

Local Hint Resolve SendErrorPollingResponse_polling : frame.

Lemma Stop_polling now : kept (Stop E now).
Proof. unfold Stop. frame. Qed.

Local Hint Resolve Stop_polling : frame.

Lemma SendErrorPollingResponseOrStopService_polling now error :
  kept (SendErrorPollingResponseOrStopService E now error).
Proof. unfold SendErrorPollingResponseOrStopService. frame. Qed.

Local Hint Resolve SendErrorPollingResponseOrStopService_polling : frame.

Lemma propagate_to_polling now source reported error names :
  kept (propagate_to E now source reported error names).
Proof. induction names; simpl; frame. Qed.

Local Hint Resolve propagate_to_polling : frame.

Lemma PropagateError_polling now source reported :
  kept (PropagateError E now source reported).
Proof. unfold PropagateError. frame. Qed.

Local Hint Resolve PropagateError_polling : frame.

Lemma mark_stale_tasks_polling now names : kept (mark_stale_tasks E now names).
Proof. induction names; simpl; frame. Qed.

Lemma expired_barriers_polling now ids : kept (expired_barriers now ids).
Proof. induction ids; simpl; frame. Qed.

Lemma pass_expired_barriers_polling now ids shutdown_error :
  kept (pass_expired_barriers E now ids shutdown_error).
Proof. revert shutdown_error. induction ids; intros ?; simpl; frame. Qed.

Local Hint Resolve mark_stale_tasks_polling expired_barriers_polling
  pass_expired_barriers_polling : frame.

Lemma GetTaskState_polling tasks : kept (GetTaskState tasks).
Proof. induction tasks; simpl; frame. Qed.

Lemma add_participating_tasks_polling id tasks :
  kept (add_participating_tasks id tasks).
Proof. induction tasks; simpl; frame. Qed.

Lemma find_task_in_error_polling tasks : kept (find_task_in_error tasks).
Proof. induction tasks; simpl; frame. Qed.

Local Hint Resolve GetTaskState_polling add_participating_tasks_polling
  find_task_in_error_polling : frame.

Lemma BarrierAsync_polling id timeout task participating done now :
  kept (BarrierAsync E id timeout task participating done now).
Proof. unfold BarrierAsync, create_barrier, join_barrier. frame. Qed.

Local Hint Resolve BarrierAsync_polling : frame.

(** Every entry point but [PollForErrorAsync] leaves the flag alone. *)
Lemma step_kept op now :
  match op with OpPollForErrorAsync _ _ => False | _ => True end →
  kept (step E op now).
Proof.
  intros Hop.
  destruct op; simpl; try done;
    try (unfold RegisterTask, WaitForAllTasks, ShutdownTaskAsync, ResetTask,
           RecordHeartbeat, ReportTaskError, InsertKeyValue, GetKeyValueAsync,
           TryGetKeyValue,
           DeleteKeyValue, CancelBarrier, SetDeviceAggregationFunction,
           CheckHeartbeatTimeout, CheckBarrierTimeout; frame).
Qed.

End polling_flag.

(** ** The decision between polling and stopping *)

Section polling_decision.

Context (E : ServiceEnv).

Lemma step_polling_flag op now s s' :
  step E op now s = Some (tt, s') →
  client_polling_for_error_ s'
  = client_polling_for_error_ s || polls E op s.
Proof.
  intros Hstep.
  assert (match op with OpPollForErrorAsync _ _ => False | _ => True end →
          client_polling_for_error_ s' = client_polling_for_error_ s) as Hkept.
  { intros Hop.
    apply (triple_partial_run _ _ _ s tt s'
             (step_kept E (client_polling_for_error_ s) op now Hop) eq_refl Hstep). }
  destruct op; simpl; rewrite ?orb_false_r; try (by apply Hkept).
  revert Hstep. simpl. unfold PollForErrorAsync, bind at 1, gets at 1. simpl.
  destruct (shutting_down_ s).
  { unfold call, emit, modify. intros [= <-]. simpl. by rewrite orb_false_r. }
  destruct (client_cache_present E).
  { unfold call, emit, modify. intros [= <-]. simpl. by rewrite orb_false_r. }
  simpl. rewrite orb_true_r. intros Hstep.
  refine (triple_partial_run (λ _, True) _
            (λ _ s, client_polling_for_error_ s = true) s tt s' _ I Hstep).
  eapply triple_bind with (R := λ _ s, client_polling_for_error_ s = true).
  { by apply triple_modify. }
  intros []. frame.
  all: eauto using ErrorPollingState_AddTask_polling.
Qed.

(** The flag after a run: set when the run began, or by a poll in it. *)
Lemma run_polling_flag ops s s' :
  run E ops s = Some s' →
  client_polling_for_error_ s'
  = client_polling_for_error_ s || polled E ops s.
Proof.
  revert s. induction ops as [|[op now] ops IH]; intros s; simpl.
  { intros [= <-]. by rewrite orb_false_r. }
  destruct (step E op now s) as [[[] s1]|] eqn:Hstep; [|done].
  intros Hrun. rewrite (IH s1 Hrun), (step_polling_flag op now s s1 Hstep).
  by rewrite orb_assoc.
Qed.

(** In pull mode, for an error that is not OK,
    [SendErrorPollingResponseOrStopService] answers [true] exactly when
    nobody has polled for errors ([client_polling_for_error_] is unset), and
    then, in a state where every task recorded at a barrier is declared, it
    has stopped the service; when somebody has polled it answers
    [false], leaves tasks, barriers and the shutdown flag as they are, and
    hands the error to the polling channel: the first error handed over is
    sent to every waiting poller and kept for later ones, an error after
    that changes nothing.  After a run from the constructed service the flag
    is set exactly if some [PollForErrorAsync] of the run was made while the
    service was running. *)
Theorem SendErrorPollingResponseOrStopService_decides now error s :
  client_cache_present E = false → ok error = false →
  (client_polling_for_error_ s = false → well_formed E s →
     ∃ s', SendErrorPollingResponseOrStopService E now error s = Some (true, s')
           ∧ stopped s')
  ∧ (client_polling_for_error_ s = true →
     ∃ s', SendErrorPollingResponseOrStopService E now error s = Some (false, s')
           ∧ same_core s s'
           ∧ if responded_ (error_polling_state_ s) then s' = s
             else error_polling_state_ s'
                  = mkErrorPollingState true error []
                      (polling_task_names_ (error_polling_state_ s))
                  ∧ log s' = log s ++ callbacks_called
                               (polling_done_callbacks_ (error_polling_state_ s))
                               error)
  ∧ (∀ ops, run E ops (initial_service E) = Some s →
       client_polling_for_error_ s = polled E ops (initial_service E)).
Proof.
  intros _ Herr. unfold SendErrorPollingResponseOrStopService. rewrite Herr.
  split_and!.
  - intros Hpoll Hwf. unfold bind at 1, gets. simpl. rewrite Hpoll.
    destruct (triple_total_run _ _ _ s (Stop_total E now) Hwf)
      as ([] & s' & Hrun & Hstopped).
    unfold bind, ret. rewrite Hrun. eauto.
  - intros Hpoll. unfold bind at 1, gets. simpl. rewrite Hpoll.
    destruct (SendErrorPollingResponse_run error s Hpoll)
      as (s' & Hrun & Hcore & _ & Heffect).
    unfold bind, ret. rewrite Hrun. eauto.
  - intros ops Hrun. by rewrite (run_polling_flag ops _ s Hrun).
Qed.

End polling_decision.

Lemma SendErrorPollingResponseOrStopService_decides_witness :
  (∃ s', SendErrorPollingResponseOrStopService example_env 300
           (heartbeat_timeout_error "t") example_pending = Some (true, s')
         ∧ stopped s')
  ∧ (∃ s', SendErrorPollingResponseOrStopService example_env 300
            (heartbeat_timeout_error "t") example_polling = Some (false, s')
          ∧ same_core example_polling s'
          ∧ error_polling_state_ s'
            = mkErrorPollingState true (heartbeat_timeout_error "t") []
                (polling_task_names_ (error_polling_state_ example_polling))
          ∧ log s' = log example_polling
                     ++ callbacks_called [5%nat] (heartbeat_timeout_error "t"))
  ∧ client_polling_for_error_ example_polling
    = polled example_env example_polling_run (initial_service example_env).
Proof.
  split; [|split].
  - apply (SendErrorPollingResponseOrStopService_decides example_env 300
             (heartbeat_timeout_error "t") example_pending);
      [reflexivity|reflexivity|vm_compute; reflexivity|].
    apply well_formed_check_sound. vm_compute. reflexivity.
  - apply (SendErrorPollingResponseOrStopService_decides example_env 300
             (heartbeat_timeout_error "t") example_polling);
      [reflexivity|reflexivity|vm_compute; reflexivity].
  - apply (SendErrorPollingResponseOrStopService_decides example_env 300
             (heartbeat_timeout_error "t") example_polling);
      [reflexivity|reflexivity|vm_compute; reflexivity].
Defined.

(** C9.  In pull mode, with an error that is not OK and nobody polling,
    [SendErrorPollingResponseOrStopService] does not always stop the service
    and answer [true].  In the cluster of two with a shutdown barrier, the
    undeclared task [k:0] calls [w] with the empty list and is recorded at
    it; then [j0], which has not registered, asks to shut down, which
    creates the shutdown barrier.  When [CheckBarrierTimeout] finds the
    shutdown barrier expired it passes it (the state after that is still
    running, with nobody polling) and hands the timeout error to the
    decision function, which calls [Stop]; [Stop] passes barrier [w], where
    [PassBarrier] dereferences the missing record of [k:0]: the decision
    function, and with it the sweep, has no result. *)
Theorem decision_undeclared_participant :
  let E := example_shutdown_env in
  let s := example_shutdown in
  run E example_shutdown_run (initial_service E) = Some s
  ∧ client_cache_present E = false
  ∧ client_polling_for_error_ s = false
  ∧ ∃ text s1,
      pass_expired_barriers E 5000 [shutdown_barrier_id_ E] None s
      = Some (Some text, s1)
      ∧ shutting_down_ s1 = false
      ∧ client_polling_for_error_ s1 = false
      ∧ (let error := MakeCoordinationError (DeadlineExceededError (StrCat
                        ["Shutdown barrier timed out. Error: "; text])) in
         ok error = false
         ∧ SendErrorPollingResponseOrStopService E 5000 error s1 = None)
      ∧ CheckBarrierTimeout E 5000 s = None.
Proof.
  intros E s. repeat (split; [vm_compute; reflexivity|]).
  eexists _, _. settle_conjuncts.
Qed.

(** ** A connected task has an OK status *)

Section connected_tasks.

Context (E : ServiceEnv).

Local Abbreviation keeps m :=
  (triple True connected_ok m (λ _, connected_ok)).

Lemma connected_ok_insert name t' s :
  connected_ok s →
  (state_ t' = TASKSTATE_CONNECTED → ok (status_ t') = true) →
  connected_ok (set_cluster_state (<[name := t']>) s).
Proof.
  intros Hs Ht' name' t. simpl. destruct (decide (name = name')) as [<-|Hne].
  - rewrite lookup_insert_eq. by intros [= <-].
  - rewrite lookup_insert_ne by done. apply Hs.
Qed.

(** An update of a task record that keeps a connected task's status OK. *)
Lemma connected_ok_update_task name f :
  (∀ t, (state_ t = TASKSTATE_CONNECTED → ok (status_ t) = true) →
        state_ (f t) = TASKSTATE_CONNECTED → ok (status_ (f t)) = true) →
  keeps (update_task name f).
Proof.
  intros Hf. apply triple_update_task. intros s Hs.
  destruct (cluster_state_ s !! name) as [t|] eqn:Ht; [|done].
  apply connected_ok_insert; [done|]. apply Hf. by apply (Hs name).
Qed.

Ltac record_leaf :=
  apply connected_ok_update_task; intros ? ?;
  unfold TaskState_SetError, SetConnected, Disconnect, ExitBarrier, JoinBarrier,
    CollectDeviceInfo, set_ongoing_barriers_for_task;
  repeat case_bool_decide; simpl; try done.

Ltac walk := frame; try record_leaf.

Lemma ReportServiceErrorToTaskAsync_connected task error :
  keeps (ReportServiceErrorToTaskAsync E task error).
Proof. unfold ReportServiceErrorToTaskAsync. walk. Qed.

Lemma AggregateClusterDevices_connected : keeps (AggregateClusterDevices E).
Proof. unfold AggregateClusterDevices. walk. Qed.

Local Hint Resolve ReportServiceErrorToTaskAsync_connected
  AggregateClusterDevices_connected : frame.

Lemma PassBarrierG_connected disconnect id r :
  (∀ task, keeps (disconnect task)) → keeps (PassBarrierG E disconnect id r).
Proof. intros Hdisc. unfold PassBarrierG. walk. Qed.

Lemma DisconnectTaskG_connected pass task now :
  (∀ id r, keeps (pass id r)) → keeps (DisconnectTaskG E pass task now).
Proof. intros Hpass. unfold DisconnectTaskG. walk. Qed.

Lemma PassBarrier_connected now id r : keeps (PassBarrier E now id r).
Proof.
  apply PassBarrierG_connected. intros task. apply DisconnectTaskG_connected.
  intros id' r'. apply PassBarrierG_connected. intros task'.
  by apply triple_undefined.
Qed.

Local Hint Resolve PassBarrier_connected : frame.

Lemma DisconnectTask_connected task now : keeps (DisconnectTask E task now).
Proof. apply DisconnectTaskG_connected. intros id r. apply PassBarrier_connected. Qed.

Local Hint Resolve DisconnectTask_connected : frame.

Lemma SetTaskError_connected now name error :
  keeps (SetTaskError E now name error).
Proof. unfold SetTaskError. walk. Qed.

Lemma ErrorPollingState_SetError_connected error :
  keeps (ErrorPollingState_SetError error).
Proof. unfold ErrorPollingState_SetError. walk. Qed.

Lemma ErrorPollingState_AddTask_connected task done :
  keeps (ErrorPollingState_AddTask task done).
Proof. unfold ErrorPollingState_AddTask. walk. Qed.

Local Hint Resolve SetTaskError_connected ErrorPollingState_SetError_connected
  ErrorPollingState_AddTask_connected : frame.

Lemma SendErrorPollingResponse_connected error :
  keeps (SendErrorPollingResponse error).
Proof. unfold SendErrorPollingResponse. walk. Qed.

Local Hint Resolve SendErrorPollingResponse_connected : frame.

Lemma Stop_connected now : keeps (Stop E now).
Proof.
  unfold Stop. walk.
  apply triple_modify. intros s _ name t. simpl. by rewrite lookup_empty.
Qed.

Local Hint Resolve Stop_connected : frame.

Lemma SendErrorPollingResponseOrStopService_connected now error :
  keeps (SendErrorPollingResponseOrStopService E now error).
Proof. unfold SendErrorPollingResponseOrStopService. walk. Qed.

Local Hint Resolve SendErrorPollingResponseOrStopService_connected : frame.

Lemma propagate_to_connected now source reported error names :
  keeps (propagate_to E now source reported error names).
Proof. induction names; simpl; walk. Qed.

Local Hint Resolve propagate_to_connected : frame.

Lemma PropagateError_connected now source reported :
  keeps (PropagateError E now source reported).
Proof. unfold PropagateError. walk. Qed.

Local Hint Resolve PropagateError_connected : frame.

Lemma mark_stale_tasks_connected now names : keeps (mark_stale_tasks E now names).
Proof. induction names; simpl; walk. Qed.

Lemma expired_barriers_connected now ids : keeps (expired_barriers now ids).
Proof. induction ids; simpl; walk. Qed.

Lemma pass_expired_barriers_connected now ids shutdown_error :
  keeps (pass_expired_barriers E now ids shutdown_error).
Proof. revert shutdown_error. induction ids; intros ?; simpl; walk. Qed.

Local Hint Resolve mark_stale_tasks_connected expired_barriers_connected
  pass_expired_barriers_connected : frame.

Lemma GetTaskState_connected tasks : keeps (GetTaskState tasks).
Proof. induction tasks; simpl; walk. Qed.

Lemma add_participating_tasks_connected id tasks :
  keeps (add_participating_tasks id tasks).
Proof. induction tasks; simpl; walk. Qed.

Lemma find_task_in_error_connected tasks : keeps (find_task_in_error tasks).
Proof. induction tasks; simpl; walk. Qed.

Local Hint Resolve GetTaskState_connected add_participating_tasks_connected
  find_task_in_error_connected : frame.

Lemma BarrierAsync_connected id timeout task participating done now :
  keeps (BarrierAsync E id timeout task participating done now).
Proof. unfold BarrierAsync, create_barrier, join_barrier. walk. Qed.

Local Hint Resolve BarrierAsync_connected : frame.

Lemma RecordHeartbeat_connected task incarnation now :
  keeps (RecordHeartbeat E task incarnation now).
Proof.
  unfold RecordHeartbeat.
  eapply triple_bind; [apply triple_gets_inv|]. intros [|]; [walk|].
  eapply triple_bind; [apply triple_gets_eq|]. intros [t|].
  2:{ eapply triple_pre with (P := connected_ok); [walk|by intros s [??]]. }
  apply (triple_assert
           (state_ t = TASKSTATE_CONNECTED → ok (status_ t) = true)).
  { intros s [Hs Ht]. by apply (Hs (GetTaskName task)). }
  intros Ht. eapply triple_pre with (P := connected_ok); [|by intros s [??]].
  destruct (negb (ok (status_ t))); [walk|].
  destruct (IsDisconnectedBeyondGracePeriod now t); [walk|].
  destruct (TaskState_RecordHeartbeat incarnation now t) as [st t'] eqn:Hrec.
  assert (state_ t' = state_ t ∧ status_ t' = status_ t) as [Hstate Hstatus].
  { unfold TaskState_RecordHeartbeat in Hrec.
    destruct (negb (ok (status_ t))); [by simplify_eq|].
    destruct (negb (bool_decide _)); by simplify_eq. }
  eapply triple_bind with (R := λ _, connected_ok); [|intros []; walk].
  apply triple_modify. intros s Hs. apply connected_ok_insert; [done|].
  by rewrite Hstate, Hstatus.
Qed.

Local Hint Resolve RecordHeartbeat_connected : frame.

Lemma step_connected op now : keeps (step E op now).
Proof.
  destruct op; simpl;
    unfold RegisterTask, WaitForAllTasks, ShutdownTaskAsync, ResetTask,
      ReportTaskError, InsertKeyValue, GetKeyValueAsync,
      TryGetKeyValue, DeleteKeyValue, CancelBarrier, PollForErrorAsync,
      SetDeviceAggregationFunction, CheckHeartbeatTimeout, CheckBarrierTimeout;
    walk.
Qed.

Lemma initial_service_connected : connected_ok (initial_service E).
Proof.
  intros name t. simpl. generalize (coordinated_job_list (config E)).
  intros jobs.
  assert (∀ name t, (∅ : gmap string TaskState) !! name = Some t →
                    state_ t = TASKSTATE_DISCONNECTED) as Hinit.
  { intros ??. by rewrite lookup_empty. }
  revert Hinit. generalize (∅ : gmap string TaskState).
  induction jobs as [|job jobs IH]; intros cs Hcs; simpl.
  { intros Hlook Hstate. by rewrite (Hcs _ _ Hlook) in Hstate. }
  apply IH. clear IH name t. unfold declare_tasks.
  generalize (seq 0 (Z.to_nat job.2)). intros ids. revert cs Hcs.
  induction ids as [|i ids IH]; intros cs Hcs; simpl; [done|].
  apply IH. destruct (cs !! _) eqn:Hi; [done|].
  intros name t. destruct (decide (GetTaskName' job.1 (Z.of_nat i) = name)) as [<-|Hne].
  - rewrite lookup_insert_eq. by intros [= <-].
  - rewrite lookup_insert_ne by done. apply Hcs.
Qed.

(** In every state the service can reach, a connected task has an OK
    status. *)
Lemma reachable_connected_ok s : reachable E s → connected_ok s.
Proof.
  induction 1 as [|s op now s' Hreach IH Hstep]; [apply initial_service_connected|].
  exact (triple_partial_run _ _ _ s tt s' (step_connected op now) IH Hstep).
Qed.

End connected_tasks.

(** C2.  A connected task has an OK status in every state the service can
    reach.  The other half of the invariant is not kept by the code:
    [ReportTaskError] hands the status it is given to [SetTaskError] without
    looking at it, so a connected task that reports an OK status ends in
    state ERROR with an OK status (in a build without assertions; with
    them, the assertion in [PropagateError] fails at this point). *)
Theorem connected_ok_and_error_with_ok_status :
  (∀ E s, reachable E s → connected_ok s)
  ∧ reachable example_env example_ok_error
  ∧ ∃ t, cluster_state_ example_ok_error !! GetTaskName j0 = Some t
         ∧ state_ t = TASKSTATE_ERROR ∧ ok (status_ t) = true.
Proof.
  split; [exact reachable_connected_ok|]. split.
  - apply state_after_reachable. vm_compute. eauto.
  - vm_compute. eexists. split; [reflexivity|]. done.
Qed.

(* ===================================================================== *)
(** * Further properties of the service *)

(** ** The key-value store: insertion and lookup *)

Section kv_insert.

Implicit Types (st : KvStore) (key k v : string).

Lemma key_lt_ltb a b : String.ltb a b = true ↔ key_lt a b.
Proof.
  unfold String.ltb, key_lt. destruct (String.compare a b); split; congruence.
Qed.

Lemma kv_find_insert_or_assign key k v st :
  kv_find key (insert_or_assign k v st)
  = if String.eqb k key then Some v else kv_find key st.
Proof.
  induction st as [|[k0 v0] st IH]; simpl.
  - done.
  - destruct (String.eqb_spec k0 k) as [->|Hne]; simpl.
    + by destruct (String.eqb k key).
    + destruct (String.ltb k k0); simpl.
      * done.
      * rewrite IH. destruct (String.eqb_spec k key) as [->|_]; [|done].
        by rewrite (proj2 (String.eqb_neq k0 key)).
Qed.

Lemma insert_or_assign_keys k v st :
  Forall (λ kv, kv.1 = k ∨ kv.1 ∈ st.*1) (insert_or_assign k v st).
Proof.
  induction st as [|[k0 v0] st IH]; simpl.
  - constructor; [by left|constructor].
  - assert (Forall (λ kv, kv.1 = k ∨ kv.1 ∈ k0 :: st.*1) ((k0, v0) :: st)) as Hst.
    { apply Forall_forall. intros [k1 v1] Hin. right.
      change (k1 ∈ ((k0, v0) :: st).*1). apply list_elem_of_fmap.
      by exists (k1, v1). }
    destruct (String.eqb k0 k).
    { constructor; [by left|]. by apply Forall_cons_1 in Hst as [_ ?]. }
    destruct (String.ltb k k0).
    { constructor; [by left|done]. }
    constructor; [right; left|].
    eapply List.Forall_impl; [|exact IH]. intros [k1 v1] [?|?]; [by left|].
    right. by right.
Qed.

Lemma insert_or_assign_sorted k v st :
  kv_sorted st → kv_sorted (insert_or_assign k v st).
Proof.
  induction st as [|[k0 v0] st IH]; intros Hsorted; simpl.
  - apply kv_sorted_cons. split; [constructor|constructor].
  - apply kv_sorted_cons in Hsorted as [Hall Hst].
    destruct (String.eqb_spec k0 k) as [->|Hne].
    { by apply kv_sorted_cons. }
    destruct (String.ltb k k0) eqn:Hlt.
    { apply key_lt_ltb in Hlt. apply kv_sorted_cons. split.
      - constructor; [done|]. eapply List.Forall_impl; [|exact Hall].
        intros kv ?. by eapply key_lt_trans.
      - by apply kv_sorted_cons. }
    apply kv_sorted_cons. split; [|by apply IH].
    assert (key_lt k0 k) as Hk0.
    { unfold key_lt. unfold String.ltb in Hlt.
      destruct (String.compare k k0) eqn:Hc; [|done|].
      - apply String.compare_eq_iff in Hc. congruence.
      - rewrite String.compare_antisym, Hc. done. }
    eapply List.Forall_impl; [|apply insert_or_assign_keys].
    intros [k1 v1] [Heq|Hin]; simpl in *; [by subst|].
    apply list_elem_of_fmap in Hin as ([k2 v2] & -> & Hin).
    rewrite Forall_forall in Hall. by apply (Hall (k2, v2)).
Qed.

End kv_insert.

Lemma for_each_emit {X} (f : X → Event) (xs : list X) s :
  for_each xs (λ x, emit (f x)) s = Some (tt, add_log (f <$> xs) s).
Proof.
  revert s. induction xs as [|x xs IH]; intros s; simpl.
  - by rewrite add_log_nil.
  - unfold bind at 1. unfold emit at 1, modify. simpl.
    rewrite IH. by rewrite add_log_app.
Qed.

Lemma InsertKeyValue_accepted key value allow_overwrite s :
  allow_overwrite = true ∨ kv_find (NormalizeKey key) (kv_store_ s) = None →
  InsertKeyValue key value allow_overwrite s
  = Some (OkStatus, inserted (NormalizeKey key) value s).
Proof.
  intros Hok. unfold InsertKeyValue, bind at 1, gets at 1. simpl.
  assert (negb allow_overwrite
          && bool_decide (is_Some (kv_find (NormalizeKey key) (kv_store_ s)))
          = false) as ->.
  { destruct Hok as [->| ->]; [done|].
    rewrite bool_decide_eq_false_2; [by rewrite andb_false_r|]. by intros [? [=]]. }
  unfold inserted, bind, modify, gets, ret. simpl.
  destruct (get_cb_ s !! NormalizeKey key) as [cbs|]; [|done].
  unfold getters_called. by rewrite for_each_emit.
Qed.

(** X1.  Insertion and lookup.  An [InsertKeyValue] that may write (with
    [allow_overwrite], or of a key that is not there) answers OK; after it
    [TryGetKeyValue] of any spelling of the key gives the value just
    written, every other key has the value it had, and the store is still
    in key order. *)
Theorem InsertKeyValue_TryGetKeyValue key value allow_overwrite s :
  allow_overwrite = true ∨ kv_find (NormalizeKey key) (kv_store_ s) = None →
  ∃ s',
    InsertKeyValue key value allow_overwrite s = Some (OkStatus, s')
    ∧ (∀ key', NormalizeKey key' = NormalizeKey key →
         TryGetKeyValue key' s' = Some (ValueOf value, s'))
    ∧ (∀ key', NormalizeKey key' ≠ NormalizeKey key →
         fst <$> TryGetKeyValue key' s' = fst <$> TryGetKeyValue key' s)
    ∧ (kv_sorted (kv_store_ s) → kv_sorted (kv_store_ s')).
Proof.
  intros Hok. exists (inserted (NormalizeKey key) value s).
  split; [by apply InsertKeyValue_accepted|].
  assert (kv_store_ (inserted (NormalizeKey key) value s)
          = insert_or_assign (NormalizeKey key) value (kv_store_ s)) as Hstore.
  { unfold inserted. by destruct (get_cb_ s !! NormalizeKey key). }
  split_and!.
  - intros key' Hkey'. unfold TryGetKeyValue, bind, gets. simpl.
    rewrite Hstore, kv_find_insert_or_assign, Hkey', String.eqb_refl. done.
  - intros key' Hkey'. unfold TryGetKeyValue, bind, gets. simpl.
    rewrite Hstore, kv_find_insert_or_assign.
    rewrite (proj2 (String.eqb_neq _ _)) by done.
    by destruct (kv_find (NormalizeKey key') (kv_store_ s)).
  - intros Hsorted. rewrite Hstore. by apply insert_or_assign_sorted.
Qed.

(** X2.  No silent overwrite.  Without [allow_overwrite], [InsertKeyValue] of
    a key that is there answers AlreadyExists and changes nothing: the old
    value stays and no getter is called. *)
Theorem InsertKeyValue_already_exists key value s old :
  kv_find (NormalizeKey key) (kv_store_ s) = Some old →
  ∃ st, InsertKeyValue key value false s = Some (st, s)
        ∧ code st = kAlreadyExists
        ∧ TryGetKeyValue key s = Some (ValueOf old, s).
Proof.
  intros Hold. unfold InsertKeyValue, TryGetKeyValue, bind, gets. simpl.
  rewrite Hold. rewrite bool_decide_eq_true_2 by eauto. simpl.
  eexists. split; [reflexivity|]. done.
Qed.

(** X3.  Blocking reads.  [GetKeyValueAsync] of a key that is there calls the
    getter at once with the value and changes nothing else.  For a key that
    is not there it only queues the getter; the next accepted
    [InsertKeyValue] of that key, under any spelling, then calls every
    queued getter, in the order they came, with the inserted value, and
    empties the queue. *)
Theorem GetKeyValueAsync_served key done s :
  (∀ value, kv_find (NormalizeKey key) (kv_store_ s) = Some value →
     GetKeyValueAsync key done s
     = Some (tt, add_log [GetCallbackCalled done (ValueOf value)] s))
  ∧ (kv_find (NormalizeKey key) (kv_store_ s) = None →
     ∃ s1,
       GetKeyValueAsync key done s = Some (tt, s1)
       ∧ log s1 = log s ∧ kv_store_ s1 = kv_store_ s
       ∧ ∀ key' value allow_overwrite,
           NormalizeKey key' = NormalizeKey key →
           ∃ s2,
             InsertKeyValue key' value allow_overwrite s1 = Some (OkStatus, s2)
             ∧ log s2 = log s
                 ++ getters_called
                      (default [] (get_cb_ s !! NormalizeKey key) ++ [done])
                      value
             ∧ get_cb_ s2 !! NormalizeKey key = None).
Proof.
  split.
  - intros value Hfind. unfold GetKeyValueAsync, bind, gets. simpl.
    by rewrite Hfind.
  - intros Hfind. unfold GetKeyValueAsync, bind, gets. simpl. rewrite Hfind.
    unfold modify. eexists. split; [reflexivity|]. simpl.
    split; [done|]. split; [done|].
    intros key' value allow_overwrite Hkey'.
    rewrite InsertKeyValue_accepted by (right; simpl; by rewrite Hkey').
    eexists. split; [reflexivity|]. rewrite Hkey'. unfold inserted. simpl.
    rewrite lookup_insert_eq. simpl. split; [done|]. apply lookup_delete_eq.
Qed.

(** ** The key-value store: listing a directory *)

Section kv_dir.

Implicit Types (st : KvStore) (dir key : string).

Lemma filter_none {X} (p : X → bool) (l : list X) :
  Forall (λ x, p x = false) l → List.filter p l = [].
Proof. induction 1 as [|x l Hx _ IH]; simpl; [done|]. by rewrite Hx. Qed.

Lemma take_dir_filter dir st :
  kv_sorted st → Forall (λ kv, ¬ key_lt kv.1 dir) st →
  take_dir dir st = List.filter (λ kv, String.prefix dir kv.1) st.
Proof.
  induction st as [|[k v] st IH]; intros Hsorted Hge; simpl; [done|].
  apply kv_sorted_cons in Hsorted as [Hk Hsorted].
  apply Forall_cons in Hge as [Hkge Hge]. simpl in Hkge.
  unfold has_dir_prefix. destruct (String.prefix dir k) eqn:Hpre.
  - by rewrite IH.
  - symmetry. apply filter_none.
    eapply List.Forall_impl; [|exact Hk].
    intros [k' v'] Hlt. simpl in *. by eapply above_stays_outside.
Qed.

Lemma lower_bound_filter dir st before from :
  kv_sorted st → lower_bound dir st = (before, from) →
  take_dir dir from = List.filter (λ kv, String.prefix dir kv.1) st.
Proof.
  intros Hsorted Hlb.
  destruct (lower_bound_split _ _ _ _ Hlb) as (-> & Hbefore & Hfrom).
  rewrite List.filter_app.
  rewrite (filter_none _ before).
  2:{ eapply List.Forall_impl; [|exact Hbefore].
      intros [k v] Hlt. by apply below_not_inside. }
  simpl. unfold kv_sorted in Hsorted. rewrite fmap_app in Hsorted.
  apply StronglySorted_app_1_r in Hsorted as Hfromsorted.
  apply take_dir_filter; [done|].
  destruct from as [|[k v] from]; [constructor|].
  apply kv_sorted_cons in Hfromsorted as [Hk _]. simpl in Hfrom.
  constructor; [done|].
  eapply List.Forall_impl; [|exact Hk].
  intros [k' v'] Hlt Hk'. apply Hfrom. by eapply key_lt_trans.
Qed.

Lemma kv_find_filter (p : string → bool) key st :
  kv_find key (List.filter (λ kv, p kv.1) st)
  = if p key then kv_find key st else None.
Proof.
  induction st as [|[k v] st IH]; simpl; [by destruct (p key)|].
  destruct (p k) eqn:Hk; simpl.
  - destruct (String.eqb_spec k key) as [->|_]; [by rewrite Hk|done].
  - rewrite IH. destruct (String.eqb_spec k key) as [->|_]; [by rewrite Hk|done].
Qed.

Lemma filter_sorted (p : string → bool) st :
  kv_sorted st → kv_sorted (List.filter (λ kv, p kv.1) st).
Proof.
  induction st as [|[k v] st IH]; simpl; [done|].
  intros [Hk Hst]%kv_sorted_cons. specialize (IH Hst).
  destruct (p k); [|done]. apply kv_sorted_cons. split; [|done].
  apply Forall_forall. intros kv Hin%list_elem_of_In%List.filter_In.
  destruct Hin as [Hin%list_elem_of_In _]. rewrite Forall_forall in Hk. auto.
Qed.

Lemma kv_find_elem_of key v st : (key, v) ∈ st → is_Some (kv_find key st).
Proof.
  induction st as [|[k0 v0] st IH]; [by intros ?%elem_of_nil|].
  intros [[= <- <-]|Hin]%elem_of_cons; simpl.
  - rewrite String.eqb_refl. eauto.
  - destruct (String.eqb k0 key); eauto.
Qed.

Lemma GetKeyValueDir_filter directory_key s :
  kv_sorted (kv_store_ s) →
  GetKeyValueDir directory_key s
  = Some (List.filter
            (λ kv, String.prefix (NormalizeKey directory_key +:+ "/") kv.1)
            (kv_store_ s), s).
Proof.
  intros Hsorted. unfold GetKeyValueDir, bind, gets. simpl.
  change (StrCat [NormalizeKey directory_key; "/"]) with
    (NormalizeKey directory_key +:+ "/" +:+ "").
  rewrite (append_empty_r "/").
  destruct (lower_bound _ (kv_store_ s)) as [before from] eqn:Hlb.
  by rewrite (lower_bound_filter _ _ _ _ Hsorted Hlb).
Qed.

(** X4.  Listing a directory.  On a store in key order [GetKeyValueDir(d)]
    changes nothing and returns, in key order, exactly the entries whose key
    is the normalized [d], a slash, and anything after it; the entry of [d]
    itself and keys that merely begin like [d] are not among them. *)
Theorem GetKeyValueDir_entries directory_key s :
  kv_sorted (kv_store_ s) →
  let dir := NormalizeKey directory_key +:+ "/" in
  ∃ entries,
    GetKeyValueDir directory_key s = Some (entries, s)
    ∧ entries = List.filter (λ kv, String.prefix dir kv.1) (kv_store_ s)
    ∧ kv_sorted entries
    ∧ (∀ key, (∃ suffix, key = dir +:+ suffix) →
         kv_find key entries = kv_find key (kv_store_ s))
    ∧ (∀ key, (¬ ∃ suffix, key = dir +:+ suffix) → kv_find key entries = None).
Proof.
  intros Hsorted dir. rewrite GetKeyValueDir_filter by done. fold dir.
  eexists. split; [reflexivity|]. split; [done|].
  split; [by apply (filter_sorted (String.prefix dir))|].
  split.
  - intros key Hkey%prefix_iff.
    by rewrite (kv_find_filter (String.prefix dir)), Hkey.
  - intros key Hkey. rewrite (kv_find_filter (String.prefix dir)).
    destruct (String.prefix dir key) eqn:Hpre; [|done].
    destruct Hkey. by apply prefix_iff.
Qed.

(** X5.  A deleted directory is gone.  After [DeleteKeyValue(k)] on a store
    in key order, [TryGetKeyValue(k)] answers NotFound and
    [GetKeyValueDir(k)] is empty, for every spelling of the key. *)
Theorem DeleteKeyValue_then_lookup key key' s :
  kv_sorted (kv_store_ s) → NormalizeKey key' = NormalizeKey key →
  ∃ s',
    DeleteKeyValue key s = Some (OkStatus, s')
    ∧ (∃ err, TryGetKeyValue key' s' = Some (ErrorOf err, s')
              ∧ code err = kNotFound)
    ∧ GetKeyValueDir key' s' = Some ([], s').
Proof.
  intros Hsorted Hkey'.
  destruct (DeleteKeyValue_store_find "" key _ Hsorted) as [Hs' _].
  assert (∀ k, kv_find k (DeleteKeyValue_store key (kv_store_ s))
               = if String.eqb k (NormalizeKey key)
                    || String.prefix (NormalizeKey key +:+ "/") k
                 then None else kv_find k (kv_store_ s)) as Hfind.
  { intros k. by destruct (DeleteKeyValue_store_find k key _ Hsorted) as [_ ->]. }
  eexists. split; [reflexivity|]. split.
  - unfold TryGetKeyValue, bind, gets. simpl.
    rewrite Hfind, Hkey', String.eqb_refl. simpl.
    eexists. split; [reflexivity|done].
  - rewrite GetKeyValueDir_filter by exact Hs'.
    simpl. f_equal. f_equal. apply filter_none. apply Forall_forall.
    intros [k v] Hin. simpl. rewrite Hkey'.
    destruct (String.prefix _ k) eqn:Hpre; [|done].
    apply kv_find_elem_of in Hin as [v' Hv']. rewrite Hfind, Hpre in Hv'.
    by rewrite orb_true_r in Hv'.
Qed.

End kv_dir.

(** ** Properties that every entry point keeps *)

Create HintDb stable.

Section stable.

Context (E : ServiceEnv) (P : Service → Prop).
Context
  (Hupd : ∀ name t' s, P s → is_Some (cluster_state_ s !! name) →
            P (set_cluster_state (<[name := t']>) s))
  (Hclear : ∀ s, P s → P (set_cluster_state (λ _, ∅) s))
  (Hbar : ∀ f s, P s → P (set_barriers f s))
  (Hong : ∀ f s, P s → P (set_ongoing_barriers f s))
  (Hlog : ∀ es s, P s → P (add_log es s))
  (Heps : ∀ e s, P s → P (set_error_polling_state e s))
  (Hdev : ∀ d s, P s → P (set_cluster_devices d s))
  (Hgetcb : ∀ g s, P s → P (set_get_cb g s))
  (Hfn : ∀ f s, P s → P (set_post_aggregate_device_fn f s))
  (Hdown : ∀ s, P s → P (set_shutting_down true s))
  (Hpoll : ∀ s, P s → P (set_client_polling_for_error true s)).

Local Abbreviation keeps m := (triple True P m (λ _, P)).

Ltac stable_leaf :=
  first
    [ apply triple_update_barrier; intros ? ?; by apply Hbar
    | apply triple_update_task; intros s' ?;
      destruct (cluster_state_ s' !! _) eqn:?; [by apply Hupd; eauto|done]
    | apply triple_try_emplace_barrier; intros s' ?;
      destruct (barriers_ s' !! _); [done|by apply Hbar]
    | apply triple_emit; intros ? ?; by apply Hlog
    | apply triple_modify; intros ? ?;
      first [ by apply Hbar | by apply Hong | by apply Hlog | by apply Heps
            | by apply Hdev | by apply Hgetcb | by apply Hfn | by apply Hdown
            | by apply Hpoll | by apply Hclear ] ].

Ltac stable_walk :=
  repeat first [ progress (tinv_step; simpl) | stable_leaf
               | solve [eauto with stable] ].

Lemma ReportServiceErrorToTaskAsync_stable task error :
  keeps (ReportServiceErrorToTaskAsync E task error).
Proof. unfold ReportServiceErrorToTaskAsync. stable_walk. Qed.

Lemma AggregateClusterDevices_stable : keeps (AggregateClusterDevices E).
Proof. unfold AggregateClusterDevices. stable_walk. Qed.

Local Hint Resolve ReportServiceErrorToTaskAsync_stable
  AggregateClusterDevices_stable : stable.

Lemma PassBarrierG_stable disconnect id r :
  (∀ task, keeps (disconnect task)) → keeps (PassBarrierG E disconnect id r).
Proof. intros Hdisc. unfold PassBarrierG. stable_walk. Qed.

Lemma DisconnectTaskG_stable pass task now :
  (∀ id r, keeps (pass id r)) → keeps (DisconnectTaskG E pass task now).
Proof. intros Hpass. unfold DisconnectTaskG. stable_walk. Qed.

Lemma PassBarrier_stable now id r : keeps (PassBarrier E now id r).
Proof.
  apply PassBarrierG_stable. intros task. apply DisconnectTaskG_stable.
  intros id' r'. apply PassBarrierG_stable. intros task'.
  by apply triple_undefined.
Qed.

Local Hint Resolve PassBarrier_stable : stable.

Lemma DisconnectTask_stable task now : keeps (DisconnectTask E task now).
Proof. apply DisconnectTaskG_stable. intros id r. apply PassBarrier_stable. Qed.

Local Hint Resolve DisconnectTask_stable : stable.

Lemma SetTaskError_stable now name error : keeps (SetTaskError E now name error).
Proof. unfold SetTaskError. stable_walk. Qed.

Lemma ErrorPollingState_SetError_stable error :
  keeps (ErrorPollingState_SetError error).
Proof. unfold ErrorPollingState_SetError. stable_walk. Qed.

Lemma ErrorPollingState_AddTask_stable task done :
  keeps (ErrorPollingState_AddTask task done).
Proof. unfold ErrorPollingState_AddTask. stable_walk. Qed.

Local Hint Resolve SetTaskError_stable ErrorPollingState_SetError_stable
  ErrorPollingState_AddTask_stable : stable.

Lemma SendErrorPollingResponse_stable error :
  keeps (SendErrorPollingResponse error).
Proof. unfold SendErrorPollingResponse. stable_walk. Qed.

Local Hint Resolve SendErrorPollingResponse_stable : stable.

Lemma Stop_stable now : keeps (Stop E now).
Proof. unfold Stop. stable_walk. Qed.

Local Hint Resolve Stop_stable : stable.

Lemma SendErrorPollingResponseOrStopService_stable now error :
  keeps (SendErrorPollingResponseOrStopService E now error).
Proof. unfold SendErrorPollingResponseOrStopService. stable_walk. Qed.

Local Hint Resolve SendErrorPollingResponseOrStopService_stable : stable.

Lemma propagate_to_stable now source reported error names :
  keeps (propagate_to E now source reported error names).
Proof. induction names; simpl; stable_walk. Qed.

Local Hint Resolve propagate_to_stable : stable.

Lemma PropagateError_stable now source reported :
  keeps (PropagateError E now source reported).
Proof. unfold PropagateError. stable_walk. Qed.

Local Hint Resolve PropagateError_stable : stable.

Lemma mark_stale_tasks_stable now names : keeps (mark_stale_tasks E now names).
Proof. induction names; simpl; stable_walk. Qed.

Lemma expired_barriers_stable now ids : keeps (expired_barriers now ids).
Proof. induction ids; simpl; stable_walk. Qed.

Lemma pass_expired_barriers_stable now ids shutdown_error :
  keeps (pass_expired_barriers E now ids shutdown_error).
Proof. revert shutdown_error. induction ids; intros ?; simpl; stable_walk. Qed.

Local Hint Resolve mark_stale_tasks_stable expired_barriers_stable
  pass_expired_barriers_stable : stable.

Lemma GetTaskState_stable tasks : keeps (GetTaskState tasks).
Proof. induction tasks; simpl; stable_walk. Qed.

Lemma add_participating_tasks_stable id tasks :
  keeps (add_participating_tasks id tasks).
Proof. induction tasks; simpl; stable_walk. Qed.

Lemma find_task_in_error_stable tasks : keeps (find_task_in_error tasks).
Proof. induction tasks; simpl; stable_walk. Qed.

Local Hint Resolve GetTaskState_stable add_participating_tasks_stable
  find_task_in_error_stable : stable.

Lemma BarrierAsync_stable id timeout task participating done now :
  keeps (BarrierAsync E id timeout task participating done now).
Proof. unfold BarrierAsync, create_barrier, join_barrier. stable_walk. Qed.

Local Hint Resolve BarrierAsync_stable : stable.

Lemma RecordHeartbeat_stable task incarnation now :
  keeps (RecordHeartbeat E task incarnation now).
Proof.
  unfold RecordHeartbeat.
  eapply triple_bind; [apply triple_gets_inv|]. intros [|]; [stable_walk|].
  eapply triple_bind; [apply triple_gets_eq|]. intros [t|].
  2:{ eapply triple_pre with (P := P); [stable_walk|by intros s [??]]. }
  destruct (negb (ok (status_ t))).
  { eapply triple_pre with (P := P); [stable_walk|by intros s [??]]. }
  destruct (IsDisconnectedBeyondGracePeriod now t).
  { eapply triple_pre with (P := P); [stable_walk|by intros s [??]]. }
  destruct (TaskState_RecordHeartbeat incarnation now t) as [st t'].
  eapply triple_bind with (R := λ _, P); [|intros []; stable_walk].
  apply triple_modify. intros s [Hs Ht]. apply Hupd; [done|]. by rewrite <- Ht.
Qed.

Local Hint Resolve RecordHeartbeat_stable : stable.

(** Every entry point that does not write the key-value store keeps [P]. *)
Lemma step_stable op now :
  writes_kv_store op = false → keeps (step E op now).
Proof.
  intros Hop.
  destruct op; simpl; try done;
    unfold RegisterTask, WaitForAllTasks, ShutdownTaskAsync, ResetTask,
      ReportTaskError, GetKeyValueAsync, TryGetKeyValue, CancelBarrier,
      PollForErrorAsync, SetDeviceAggregationFunction, CheckHeartbeatTimeout,
      CheckBarrierTimeout;
    stable_walk.
Qed.

(** With the store among what [P] does not look at, every entry point
    keeps [P]. *)
Lemma step_stable_all op now :
  (∀ st s, P s → P (set_kv_store st s)) → keeps (step E op now).
Proof.
  intros Hkv. destruct (writes_kv_store op) eqn:Hop; [|by apply step_stable].
  destruct op; try done; simpl; unfold InsertKeyValue, DeleteKeyValue;
    stable_walk; apply triple_modify; intros ? ?; by apply Hkv.
Qed.

End stable.

(** ** The key-value store in reachable states *)

Section kv_reachable.

Context (E : ServiceEnv).

Lemma kv_erase_Forall (Q : string * string → Prop) nk st :
  Forall Q st → Forall Q (kv_erase nk st).
Proof.
  induction 1 as [|[k v] st Hkv Hst IH]; simpl; [done|].
  destruct (String.eqb k nk); [done|]. by constructor.
Qed.

Lemma DeleteKeyValue_store_Forall (Q : string * string → Prop) key st :
  Forall Q st → Forall Q (DeleteKeyValue_store key st).
Proof.
  intros Hst. unfold DeleteKeyValue_store.
  destruct (lower_bound _ st) as [before from] eqn:Hlb.
  destruct (lower_bound_split _ _ _ _ Hlb) as (-> & _ & _).
  apply Forall_app in Hst as [Hbefore Hfrom].
  assert (Forall Q (before ++ advance_end (StrCat [NormalizeKey key; "/"]) from))
    as Hkept.
  { apply Forall_app. split; [done|].
    destruct (advance_end_suffix (StrCat [NormalizeKey key; "/"]) from)
      as [dropped Hdropped].
    rewrite Hdropped in Hfrom. by apply Forall_app in Hfrom as [_ ?]. }
  destruct (kv_find _ _); [by apply kv_erase_Forall|done].
Qed.

Lemma insert_or_assign_Forall (Q : string * string → Prop) k v st :
  Q (k, v) → Forall Q st → Forall Q (insert_or_assign k v st).
Proof.
  intros Hkv. induction 1 as [|[k0 v0] st Hkv0 Hst IH]; simpl.
  { by constructor. }
  destruct (String.eqb k0 k); [by constructor|].
  destruct (String.ltb k k0); by repeat constructor.
Qed.

Lemma step_kv_store_ok op now :
  triple True (λ s, kv_store_ok (kv_store_ s)) (step E op now)
         (λ _ s, kv_store_ok (kv_store_ s)).
Proof.
  destruct (writes_kv_store op) eqn:Hop.
  2:{ by apply (step_stable E (λ s, kv_store_ok (kv_store_ s))). }
  destruct op; try done; simpl.
  - unfold discard, InsertKeyValue.
    eapply triple_bind with (R := λ _ s, kv_store_ok (kv_store_ s));
      [|intros ?; by apply triple_ret].
    eapply triple_bind; [apply triple_gets_eq|]. intros kv.
    destruct (negb allow_overwrite && _); [apply triple_ret; by intros s [??]|].
    eapply triple_bind with (R := λ _ s, kv_store_ok (kv_store_ s)).
    { apply triple_modify. intros s [[Hsorted Hnorm] ->]. split; simpl.
      - by apply insert_or_assign_sorted.
      - apply insert_or_assign_Forall; [apply NormalizeKey_normalized|done]. }
    intros []. tinv; try (apply triple_emit; by intros ? ?).
    all: apply triple_modify; by intros ? ?.
  - unfold discard, DeleteKeyValue.
    eapply triple_bind with (R := λ _ s, kv_store_ok (kv_store_ s));
      [|intros ?; by apply triple_ret].
    eapply triple_bind; [apply triple_gets_eq|]. intros kv.
    eapply triple_bind with (R := λ _ s, kv_store_ok (kv_store_ s));
      [|intros []; by apply triple_ret].
    apply triple_modify. intros s [[Hsorted Hnorm] ->]. split; simpl.
    + by destruct (DeleteKeyValue_store_find "" key _ Hsorted) as [? _].
    + by apply DeleteKeyValue_store_Forall.
Qed.

Lemma reachable_kv_store_ok s : reachable E s → kv_store_ok (kv_store_ s).
Proof.
  induction 1 as [|s op now s' Hreach IH Hstep].
  - split; simpl; constructor.
  - exact (triple_partial_run _ _ _ s tt s' (step_kv_store_ok op now) IH Hstep).
Qed.

Lemma kv_find_sorted_elem_of key v st :
  kv_sorted st → (key, v) ∈ st → kv_find key st = Some v.
Proof.
  induction st as [|[k0 v0] st IH]; [by intros _ ?%elem_of_nil|].
  intros [Hk0 Hst]%kv_sorted_cons [[= <- <-]|Hin]%elem_of_cons; simpl.
  - by rewrite String.eqb_refl.
  - destruct (String.eqb_spec k0 key) as [->|_]; [|by apply IH].
    rewrite Forall_forall in Hk0. specialize (Hk0 _ Hin). simpl in Hk0.
    by apply key_lt_irrefl in Hk0.
Qed.

(** X6.  The store in reachable states.  In every state the service can reach
    the key-value store is in strict key order and holds normalized keys
    only, so each stored entry is read back by [TryGetKeyValue] of its own
    key. *)
Theorem reachable_store_entries_readable s :
  reachable E s →
  kv_sorted (kv_store_ s)
  ∧ (∀ key value, (key, value) ∈ kv_store_ s →
       normalized key ∧ TryGetKeyValue key s = Some (ValueOf value, s)).
Proof.
  intros [Hsorted Hnorm]%reachable_kv_store_ok. split; [done|].
  intros key value Hin. rewrite Forall_forall in Hnorm.
  pose proof (Hnorm _ Hin) as Hkey. simpl in Hkey. split; [done|].
  unfold TryGetKeyValue, bind, gets. simpl.
  rewrite (NormalizeKey_fixed key Hkey).
  by rewrite (kv_find_sorted_elem_of key value).
Qed.

(** X7.  Who writes the store.  Only [InsertKeyValue] and [DeleteKeyValue]
    change the key-value store: every other entry point, the staleness
    sweeps and [Stop] included, leaves it as it is. *)
Theorem kv_store_written_by_kv_calls_only op now s s' :
  writes_kv_store op = false →
  step E op now s = Some (tt, s') →
  kv_store_ s' = kv_store_ s.
Proof.
  intros Hop Hstep.
  refine (triple_partial_run (λ s0, kv_store_ s0 = kv_store_ s) _
            (λ _ s0, kv_store_ s0 = kv_store_ s) s tt s' _ eq_refl Hstep).
  by apply (step_stable E (λ s0, kv_store_ s0 = kv_store_ s)).
Qed.

End kv_reachable.

(** ** Stopping is final *)

Section stopping.

Context (E : ServiceEnv).

Lemma step_shutting_down op now :
  triple True (λ s, shutting_down_ s = true) (step E op now)
         (λ _ s, shutting_down_ s = true).
Proof. by apply (step_stable_all E (λ s, shutting_down_ s = true)). Qed.

Lemma run_shutting_down ops s s' :
  shutting_down_ s = true → run E ops s = Some s' → shutting_down_ s' = true.
Proof.
  revert s. induction ops as [|[op now] ops IH]; intros s Hs; simpl.
  { by intros [= <-]. }
  destruct (step E op now s) as [[[] s1]|] eqn:Hstep; [|done].
  apply IH.
  exact (triple_partial_run _ _ _ s tt s1 (step_shutting_down op now) Hs Hstep).
Qed.

(** X8.  Stopping is final.  Once the service has stopped it stays stopped
    through every later entry point, and from then on [RegisterTask],
    [RecordHeartbeat], [ReportTaskError], [ResetTask] and [CancelBarrier]
    answer Internal and [BarrierAsync] calls its callback with Internal,
    none of them changing anything else. *)
Theorem stopped_service_stays_stopped ops s s' :
  shutting_down_ s = true → run E ops s = Some s' →
  shutting_down_ s' = true
  ∧ (∀ task incarnation now,
       ∃ st, RegisterTask E task incarnation now s' = Some (st, s')
             ∧ code st = kInternal)
  ∧ (∀ task incarnation now,
       ∃ st, RecordHeartbeat E task incarnation now s' = Some (st, s')
             ∧ code st = kInternal)
  ∧ (∀ task error now,
       ∃ st, ReportTaskError E task error now s' = Some (st, s')
             ∧ code st = kInternal)
  ∧ (∀ task now,
       ∃ st, ResetTask E task now s' = Some (st, s') ∧ code st = kInternal)
  ∧ (∀ id task now,
       ∃ st, CancelBarrier E id task now s' = Some (st, s')
             ∧ code st = kInternal)
  ∧ (∀ id timeout task participating done now,
       ∃ st, BarrierAsync E id timeout task participating done now s'
             = Some (tt, add_log [StatusCallbackCalled done st] s')
             ∧ code st = kInternal).
Proof.
  intros Hs Hrun. pose proof (run_shutting_down ops s s' Hs Hrun) as Hs'.
  split; [done|]. split_and!.
  - intros. unfold RegisterTask, bind, gets. simpl. rewrite Hs'.
    eexists. split; [reflexivity|done].
  - intros. unfold RecordHeartbeat, bind, gets. simpl. rewrite Hs'.
    eexists. split; [reflexivity|done].
  - intros. unfold ReportTaskError, bind, gets. simpl. rewrite Hs'.
    eexists. split; [reflexivity|done].
  - intros. unfold ResetTask, DisconnectTask, DisconnectTaskG, bind, gets.
    simpl. rewrite Hs'. eexists. split; [reflexivity|done].
  - intros. unfold CancelBarrier, bind, gets. simpl. rewrite Hs'.
    eexists. split; [reflexivity|done].
  - intros. unfold BarrierAsync.
    destruct (negb _ && negb _); unfold bind, gets; simpl; rewrite Hs';
      (eexists; split; [reflexivity|done]).
Qed.

End stopping.

(** ** The task table *)

Section task_table.

Context (E : ServiceEnv).

Lemma declare_tasks_dom job cs name :
  name ∈ dom (declare_tasks job cs)
  ↔ name ∈ dom cs
    ∨ ∃ i, 0 ≤ i < job.2 ∧ name = GetTaskName' job.1 i.
Proof.
  unfold declare_tasks.
  assert (∀ l cs,
            name ∈ dom (foldl (λ (cs : gmap string TaskState) (i : nat),
                          match cs !! GetTaskName' job.1 (Z.of_nat i) with
                          | Some _ => cs
                          | None => <[GetTaskName' job.1 (Z.of_nat i) :=
                                        new_TaskState]> cs
                          end) cs l)
            ↔ name ∈ dom cs
              ∨ ∃ i, i ∈ l ∧ name = GetTaskName' job.1 (Z.of_nat i))
    as Hfold.
  { clear cs. induction l as [|i l IH]; intros cs; simpl.
    { split; [by left|]. intros [?|(i & Hi & _)]; [done|].
      by apply elem_of_nil in Hi. }
    rewrite IH. clear IH.
    assert (name ∈ dom (match cs !! GetTaskName' job.1 (Z.of_nat i) with
                        | Some _ => cs
                        | None => <[GetTaskName' job.1 (Z.of_nat i) :=
                                      new_TaskState]> cs
                        end)
            ↔ name ∈ dom cs ∨ name = GetTaskName' job.1 (Z.of_nat i)) as ->.
    { destruct (cs !! _) eqn:Hi.
      - split; [by left|]. intros [?| ->]; [done|]. by apply elem_of_dom_2 in Hi.
      - rewrite dom_insert. set_solver. }
    split.
    - intros [[?| ->]|(i' & Hi' & ->)]; [by left|right..].
      + exists i. split; [by left|done].
      + exists i'. split; [by right|done].
    - intros [?|(i' & [->|Hi']%elem_of_cons & ->)]; [by left; left| |].
      + left. by right.
      + right. by exists i'. }
  rewrite Hfold. split.
  - intros [?|(i & Hi%elem_of_seq & ->)]; [by left|]. right.
    exists (Z.of_nat i). split; [lia|done].
  - intros [?|(i & Hi & ->)]; [by left|]. right.
    exists (Z.to_nat i). split; [apply elem_of_seq; lia|].
    by rewrite Z2Nat.id by lia.
Qed.

Lemma initial_service_dom name :
  name ∈ dom (cluster_state_ (initial_service E)) ↔ declared_name E name.
Proof.
  unfold declared_name. simpl. generalize (coordinated_job_list (config E)).
  intros jobs.
  assert (∀ cs : gmap string TaskState,
            name ∈ dom (foldl (λ cs job, declare_tasks job cs) cs jobs)
                ↔ name ∈ dom cs
                  ∨ ∃ job n i, (job, n) ∈ jobs ∧ 0 ≤ i < n
                               ∧ name = GetTaskName' job i) as Hfold.
  { induction jobs as [|[job n] jobs IH]; intros cs; simpl.
    { split; [by left|]. intros [?|(? & ? & ? & Hin & _)]; [done|].
      by apply elem_of_nil in Hin. }
    rewrite IH, declare_tasks_dom. simpl. split.
    - intros [[?|(i & Hi & ->)]|(job' & n' & i & Hin & Hi & ->)];
        [by left|right..].
      + exists job, n, i. split; [by left|done].
      + exists job', n', i. split; [by right|done].
    - intros [?|(job' & n' & i & [[= -> ->]|Hin]%elem_of_cons & Hi & ->)].
      + by left; left.
      + left. right. by exists i.
      + right. by exists job', n', i. }
  rewrite Hfold, dom_empty. set_solver.
Qed.

Lemma step_task_table (D : gset string) op now :
  triple True (λ s, dom (cluster_state_ s) = D ∨ cluster_state_ s = ∅)
    (step E op now)
    (λ _ s, dom (cluster_state_ s) = D ∨ cluster_state_ s = ∅).
Proof.
  apply (step_stable_all E
           (λ s, dom (cluster_state_ s) = D ∨ cluster_state_ s = ∅));
    try done.
  - intros name t' s Hs [t Ht]. simpl. destruct Hs as [<-|Hs].
    + left. rewrite dom_insert_L. apply elem_of_dom_2 in Ht. set_solver.
    + by rewrite Hs, lookup_empty in Ht.
  - intros s _. by right.
Qed.

(** X9.  The task table is fixed.  In every state the service can reach the
    declared tasks are exactly those of the configured jobs (task [i] of a
    job with [n] tasks, for [0 <= i < n]) until the service stops, which
    empties the table; so [RegisterTask] of any other task is answered
    InvalidArgument and changes nothing. *)
Theorem task_table_is_declared s :
  reachable E s →
  ((∀ name, is_Some (cluster_state_ s !! name) ↔ declared_name E name)
   ∨ cluster_state_ s = ∅)
  ∧ (shutting_down_ s = false →
     ∀ task incarnation now,
       ¬ declared_name E (GetTaskName task) →
       ∃ st, RegisterTask E task incarnation now s = Some (st, s)
             ∧ code st = kInvalidArgument).
Proof.
  intros Hreach.
  assert (dom (cluster_state_ s) = dom (cluster_state_ (initial_service E))
          ∨ cluster_state_ s = ∅) as Htable.
  { induction Hreach as [|s op now s' Hreach IH Hstep]; [by left|].
    exact (triple_partial_run _ _ _ s tt s' (step_task_table _ op now) IH Hstep). }
  assert ((∀ name, is_Some (cluster_state_ s !! name) ↔ declared_name E name)
          ∨ cluster_state_ s = ∅) as Hnames.
  { destruct Htable as [Hdom|?]; [left|by right].
    intros name. by rewrite <- elem_of_dom, Hdom, initial_service_dom. }
  split; [done|]. intros Hrun task incarnation now Hundeclared.
  unfold RegisterTask, bind, gets. simpl. rewrite Hrun.
  assert (cluster_state_ s !! GetTaskName task = None) as ->.
  { destruct Hnames as [Hnames| ->]; [|apply lookup_empty].
    apply eq_None_not_Some. by rewrite Hnames. }
  eexists. split; [reflexivity|done].
Qed.

End task_table.

(** ** Registration and heartbeats *)

Section registration.

Context (E : ServiceEnv).

Lemma RegisterTask_declared task incarnation now s t :
  shutting_down_ s = false →
  cluster_state_ s !! GetTaskName task = Some t →
  RegisterTask E task incarnation now s
  = (let fail why :=
       SetTaskError E now (GetTaskName task) (registration_error task why) ;;;
       PropagateError E now task false ;;;
       ret (registration_error task why) in
     if bool_decide (state_ t = TASKSTATE_DISCONNECTED)
        || (allow_new_incarnation_to_reconnect (config E)
            && (IsUnavailable (status_ t)
                && has_coordination_payload (status_ t)))
     then update_task (GetTaskName task) (SetConnected incarnation now) ;;;
          ret OkStatus
     else if bool_decide (state_ t = TASKSTATE_CONNECTED) then
       if bool_decide (task_incarnation_ t = incarnation)
       then update_task (GetTaskName task) (SetConnected incarnation now) ;;;
            ret OkStatus
       else fail [" unexpectedly tried to connect with a different ";
                  "incarnation. It has likely restarted."]
     else fail [" unexpectedly tried to connect while it is already in ";
                "error. ResetTask() should be called before a ";
                "subsequent connect attempt."]) s.
Proof.
  intros Hrun Ht. unfold RegisterTask, bind at 1, gets at 1. simpl.
  rewrite Hrun. unfold bind at 1, gets at 1. simpl. by rewrite Ht.
Qed.

Lemma update_task_run name f s t :
  cluster_state_ s !! name = Some t →
  update_task name f s = Some (tt, set_cluster_state (<[name := f t]>) s).
Proof. intros Ht. unfold update_task, bind, task_at, modify. by rewrite Ht. Qed.

(** X10.  Registration accepted.  [RegisterTask] of a declared task while the
    service runs is answered OK in three cases: the task is DISCONNECTED;
    the task is CONNECTED and comes with the incarnation it has; or the
    configuration allows new incarnations to reconnect and the task has a
    coordination Unavailable status.  The task is then CONNECTED with an OK
    status, the given incarnation and the clock value as heartbeat time; its
    devices, its grace period and the barriers it waits for are kept, and
    nothing else changes. *)
Theorem RegisterTask_accepts task incarnation now s t :
  shutting_down_ s = false →
  cluster_state_ s !! GetTaskName task = Some t →
  state_ t = TASKSTATE_DISCONNECTED
  ∨ (state_ t = TASKSTATE_CONNECTED ∧ task_incarnation_ t = incarnation)
  ∨ (allow_new_incarnation_to_reconnect (config E) = true
     ∧ IsUnavailable (status_ t) = true
     ∧ has_coordination_payload (status_ t) = true) →
  RegisterTask E task incarnation now s
  = Some (OkStatus,
          set_cluster_state
            (<[GetTaskName task :=
                 mkTaskState incarnation TASKSTATE_CONNECTED OkStatus now
                   (disconnect_grace_period_us_ t) (devices_ t)
                   (ongoing_barriers_for_task_ t)]>) s).
Proof.
  intros Hrun Ht Hcase.
  rewrite (RegisterTask_declared _ _ _ _ t) by done. simpl.
  assert (∀ s0, cluster_state_ s0 !! GetTaskName task = Some t →
            (update_task (GetTaskName task) (SetConnected incarnation now) ;;;
             ret OkStatus) s0
            = Some (OkStatus,
                    set_cluster_state
                      (<[GetTaskName task := SetConnected incarnation now t]>) s0))
    as Hok.
  { intros s0 H0. unfold bind. by rewrite (update_task_run _ _ _ t). }
  destruct Hcase as [Hstate|[[Hstate Hinc]|(Hallow & Hun & Hpay)]].
  - rewrite bool_decide_eq_true_2 by done. simpl. by apply Hok.
  - destruct (_ || _); [by apply Hok|].
    rewrite !bool_decide_eq_true_2 by done. by apply Hok.
  - rewrite Hallow, Hun, Hpay, orb_true_r. by apply Hok.
Qed.

(** X11.  Register, then heartbeat.  After a [RegisterTask] that was answered
    OK, a heartbeat of the task with the registered incarnation is answered
    OK and sets the heartbeat time to the clock value, at whatever time it
    comes; a heartbeat with another incarnation is answered Aborted. *)
Theorem RegisterTask_then_RecordHeartbeat task incarnation now s s1 :
  shutting_down_ s = false →
  is_Some (cluster_state_ s !! GetTaskName task) →
  RegisterTask E task incarnation now s = Some (OkStatus, s1) →
  (∀ later,
     ∃ t1, cluster_state_ s1 !! GetTaskName task = Some t1
           ∧ state_ t1 = TASKSTATE_CONNECTED
           ∧ last_heartbeat_us_ t1 = now
           ∧ RecordHeartbeat E task incarnation later s1
             = Some (OkStatus,
                     set_cluster_state
                       (<[GetTaskName task :=
                            mkTaskState incarnation TASKSTATE_CONNECTED OkStatus
                              later (disconnect_grace_period_us_ t1)
                              (devices_ t1) (ongoing_barriers_for_task_ t1)]>)
                       s1))
  ∧ (∀ later other r s2,
       other ≠ incarnation →
       RecordHeartbeat E task other later s1 = Some (r, s2) →
       code r = kAborted).
Proof.
  intros Hrun [t Ht] Hreg.
  rewrite (RegisterTask_declared _ _ _ _ t) in Hreg by done.
  assert (s1 = set_cluster_state
                 (<[GetTaskName task := SetConnected incarnation now t]>) s)
    as ->.
  { revert Hreg. simpl.
    assert (∀ why r s',
              (SetTaskError E now (GetTaskName task) (registration_error task why) ;;;
               PropagateError E now task false ;;;
               ret (registration_error task why)) s = Some (r, s') →
              r ≠ OkStatus) as Hfail.
    { intros why r s'. unfold bind.
      destruct (SetTaskError _ _ _ _ s) as [[[] s2]|]; [|done].
      destruct (PropagateError _ _ _ _ s2) as [[[] s3]|]; [|done].
      by intros [= <- <-]. }
    destruct (_ || _).
    { unfold bind. rewrite (update_task_run _ _ _ t) by done. by intros [= <-]. }
    destruct (bool_decide (state_ t = TASKSTATE_CONNECTED)).
    2:{ intros Hf. by apply Hfail in Hf. }
    destruct (bool_decide (task_incarnation_ t = incarnation)).
    2:{ intros Hf. by apply Hfail in Hf. }
    unfold bind. rewrite (update_task_run _ _ _ t) by done. by intros [= <-]. }
  set (t1 := SetConnected incarnation now t).
  assert (cluster_state_
            (set_cluster_state (<[GetTaskName task := t1]>) s)
            !! GetTaskName task = Some t1) as Ht1.
  { simpl. apply lookup_insert_eq. }
  split.
  - intros later. exists t1. split; [done|]. split; [done|]. split; [done|].
    rewrite (RecordHeartbeat_declared _ _ _ _ _ t1) by done. simpl.
    unfold TaskState_RecordHeartbeat. simpl.
    rewrite bool_decide_eq_true_2 by done. simpl.
    unfold bind, modify, ret. done.
  - intros later other r s2 Hother.
    rewrite (RecordHeartbeat_declared _ _ _ _ _ t1) by done. simpl.
    unfold TaskState_RecordHeartbeat. simpl.
    rewrite bool_decide_eq_false_2 by done. simpl.
    unfold bind at 1, modify.
    unfold bind.
    destruct (SetTaskError _ _ _ _ _) as [[[] s3]|]; [|done].
    destruct (PropagateError _ _ _ _ s3) as [[[] s4]|]; [|done].
    by intros [= <- <-].
Qed.

End registration.

(** ** Tasks put in error *)

Section task_failures.

Context (E : ServiceEnv).

Local Abbreviation shutdown_id := (shutdown_barrier_id_ E).




(** ** Propagation *)

Local Abbreviation is_connected :=
  (λ e : string * TaskState, bool_decide (state_ e.2 = TASKSTATE_CONNECTED)).

Lemma propagate_to_push now source reported error
    (entries : list (string * TaskState)) s :
  client_cache_present E = true →
  (∀ name t, (name, t) ∈ entries → cluster_state_ s !! name = Some t) →
  propagate_to E now source reported error entries.*1 s
  = Some (tt, add_log (error_reports source reported error
                         (List.filter is_connected entries).*1) s).
Proof.
  intros Hcc. revert s.
  induction entries as [|[name t] entries IH]; intros s Hall; simpl.
  { by rewrite add_log_nil. }
  unfold bind at 1, task_at at 1. rewrite (Hall name t) by left.
  destruct (bool_decide (state_ t = TASKSTATE_CONNECTED)); simpl.
  - rewrite Hcc. simpl. unfold bind at 1, emit, modify.
    rewrite IH.
    + by rewrite add_log_app.
    + intros n' t' Hin. simpl. apply Hall. by right.
  - apply IH. intros n' t' Hin. apply Hall. by right.
Qed.

Lemma propagate_to_pull now source reported error
    (entries : list (string * TaskState)) s :
  client_cache_present E = false →
  (∀ name t, (name, t) ∈ entries → cluster_state_ s !! name = Some t) →
  propagate_to E now source reported error entries.*1 s
  = match List.filter is_connected entries with
    | [] => Some (tt, s)
    | _ => discard (SendErrorPollingResponseOrStopService E now error) s
    end.
Proof.
  intros Hcc Hall.
  induction entries as [|[name t] entries IH]; simpl; [done|].
  unfold bind at 1, task_at at 1. rewrite (Hall name t) by left.
  destruct (bool_decide (state_ t = TASKSTATE_CONNECTED)); simpl.
  - rewrite Hcc. done.
  - apply IH. intros n' t' Hin. apply Hall. by right.
Qed.

(** X14.  Propagation.  [PropagateError] for a declared source task does
    nothing when the task belongs to a recoverable job.  Otherwise, with a
    client cache, it sends the status of the source task to every CONNECTED
    task, in the order of the task table, and to no other task, and changes
    nothing else; without a client cache it does nothing when no task is
    CONNECTED, and otherwise hands the status once to
    [SendErrorPollingResponseOrStopService]. *)
Theorem PropagateError_reaches_connected_tasks now source reported s t :
  cluster_state_ s !! GetTaskName source = Some t →
  (isRecoverableJob E (job_name source) = true →
     PropagateError E now source reported s = Some (tt, s))
  ∧ (isRecoverableJob E (job_name source) = false →
     client_cache_present E = true →
     PropagateError E now source reported s
     = Some (tt, add_log (error_reports source reported (status_ t)
                            (connected_task_names s)) s))
  ∧ (isRecoverableJob E (job_name source) = false →
     client_cache_present E = false →
     connected_task_names s = [] →
     PropagateError E now source reported s = Some (tt, s))
  ∧ (isRecoverableJob E (job_name source) = false →
     client_cache_present E = false →
     connected_task_names s ≠ [] →
     PropagateError E now source reported s
     = discard (SendErrorPollingResponseOrStopService E now (status_ t)) s).
Proof.
  intros Ht.
  assert (∀ name t', (name, t') ∈ map_to_list (cluster_state_ s) →
            cluster_state_ s !! name = Some t') as Hall.
  { intros name t'. apply elem_of_map_to_list. }
  assert (isRecoverableJob E (job_name source) = false →
          PropagateError E now source reported s
          = propagate_to E now source reported (status_ t)
              (map_to_list (cluster_state_ s)).*1 s) as Hhead.
  { intros Hrec. unfold PropagateError. rewrite Hrec.
    unfold bind at 1, task_at at 1. rewrite Ht. done. }
  split_and!.
  - intros Hrec. unfold PropagateError. by rewrite Hrec.
  - intros Hrec Hcc. rewrite Hhead by done. by apply propagate_to_push.
  - intros Hrec Hcc Hnone. rewrite Hhead by done.
    rewrite propagate_to_pull by done.
    unfold connected_task_names in Hnone.
    by destruct (List.filter _ _).
  - intros Hrec Hcc Hsome. rewrite Hhead by done.
    rewrite propagate_to_pull by done.
    unfold connected_task_names in Hsome.
    by destruct (List.filter _ _).
Qed.

(** ** The heartbeat sweep *)

Lemma mark_stale_tasks_healthy now names s :
  (∀ name t, cluster_state_ s !! name = Some t →
     state_ t = TASKSTATE_CONNECTED →
     TimeSinceLastHeartbeatMs now t ≤ heartbeat_timeout_ms_ E) →
  mark_stale_tasks E now names s = Some ([], s).
Proof.
  intros Hall. induction names as [|name names IH]; simpl; [done|].
  unfold bind at 1, gets at 1. simpl.
  destruct (cluster_state_ s !! name) as [t|] eqn:Ht; [|done].
  destruct (bool_decide (state_ t = TASKSTATE_CONNECTED)) eqn:Hc; simpl; [|done].
  apply bool_decide_eq_true in Hc.
  rewrite bool_decide_eq_false_2; [done|].
  specialize (Hall name t Ht Hc). lia.
Qed.

(** X15.  The heartbeat sweep spares healthy tasks.  When every CONNECTED task
    has sent a heartbeat within the heartbeat timeout, that is, the time
    since its last heartbeat, in milliseconds, is at most the timeout,
    [CheckHeartbeatTimeout] changes nothing: no task is put in error, no
    barrier fails and nothing is sent.  Tasks that are not CONNECTED are
    never checked. *)
Theorem CheckHeartbeatTimeout_spares_healthy now s :
  (∀ name t, cluster_state_ s !! name = Some t →
     state_ t = TASKSTATE_CONNECTED →
     TimeSinceLastHeartbeatMs now t ≤ heartbeat_timeout_ms_ E) →
  CheckHeartbeatTimeout E now s = Some (tt, s).
Proof.
  intros Hall. unfold CheckHeartbeatTimeout, bind at 1, task_names, gets at 1.
  simpl. unfold bind. by rewrite mark_stale_tasks_healthy.
Qed.

End task_failures.

(** ** Barriers that stay passed *)

Section passes.

Context (E : ServiceEnv) (φ : Status → Prop).
Context (Hφ : ∀ id name, φ (disconnect_barrier_error id name)).

(** [T] is what is known of the task table; it has to survive the updates
    that [PassBarrier] and the [DisconnectTask] of its shutdown hook make. *)
Context (T : Service → Prop).
Context
  (T_frame : ∀ s s', cluster_state_ s' = cluster_state_ s → T s → T s')
  (T_exit : ∀ s n t id, T s → cluster_state_ s !! n = Some t →
              T (set_cluster_state (<[n := ExitBarrier id t]>) s))
  (T_disconnect : ∀ s n t grace now, T s → cluster_state_ s !! n = Some t →
              state_ t ≠ TASKSTATE_DISCONNECTED →
              T (set_cluster_state (<[n := Disconnect grace now t]>) s)).

(** [T] holds and the barriers in [X] have passed with a result in [φ]. *)
Local Abbreviation Passed X :=
  (λ s : Service, T s ∧ ∀ id, id ∈ X → passed_with φ id s).

Implicit Types X : gset string.

Lemma passed_core X : core_pred (Passed X).
Proof.
  intros s s' (Hc & Hb & _) [HT Hp]. split; [by apply (T_frame s)|].
  unfold passed_with. by rewrite Hb.
Qed.

Lemma passed_mono X X' s : X' ⊆ X → Passed X s → Passed X' s.
Proof.
  intros Hsub [HT Hp]. split; [done|]. intros id Hid. apply Hp. set_solver.
Qed.

Lemma passed_ExitBarrier X n id :
  triple True (Passed X) (update_task n (ExitBarrier id)) (λ _, Passed X).
Proof.
  apply triple_update_task. intros s [HT Hp].
  destruct (cluster_state_ s !! n) as [t1|] eqn:Hn; [|done].
  split; [by apply T_exit|exact Hp].
Qed.

Lemma passed_update_barrier X id f :
  (∀ b, passed (f b) = passed b ∧ result (f b) = result b) →
  triple True (Passed X) (update_barrier id f) (λ _, Passed X).
Proof.
  intros Hf. apply triple_update_barrier. intros s [HT Hp].
  split; [by apply (T_frame s)|]. intros id' Hin.
  destruct (Hp id' Hin) as (b & Hb & Hpass & Hres). unfold passed_with. simpl.
  destruct (decide (id' = id)) as [->|Hne].
  - rewrite lookup_insert_eq, Hb. simpl. eexists. split; [done|].
    destruct (Hf b) as [-> ->]. done.
  - rewrite lookup_insert_ne by done. eauto.
Qed.

Lemma passed_try_emplace X id :
  triple True (Passed X) (try_emplace_barrier id) (λ _, Passed X).
Proof.
  apply triple_try_emplace_barrier. intros s [HT Hp].
  destruct (barriers_ s !! id) as [b|] eqn:Hb; [done|].
  split; [by apply (T_frame s)|]. intros id' Hin.
  destruct (Hp id' Hin) as (b' & Hb' & Hpass & Hres). unfold passed_with. simpl.
  rewrite lookup_insert_ne by congruence. eauto.
Qed.

Lemma PassBarrierG_passes X disconnect id r :
  φ r →
  (∀ X' task, triple True (Passed X') (disconnect task) (λ _, Passed X')) →
  triple True (Passed X) (PassBarrierG E disconnect id r)
         (λ _, Passed (X ∪ {[id]})).
Proof.
  intros Hr Hdisc. unfold PassBarrierG.
  eapply triple_bind with (R := λ _, Passed (X ∪ {[id]})).
  { apply triple_update_barrier. intros s [HT Hp].
    split; [by apply (T_frame s)|].
    intros id' Hin. unfold passed_with. simpl.
    destruct (decide (id' = id)) as [->|Hne].
    - rewrite lookup_insert_eq. eexists. split; [done|]. done.
    - rewrite lookup_insert_ne by done. apply Hp. set_solver. }
  intros []. pose proof (passed_core (X ∪ {[id]})) as Hcore.
  tinv;
    first [ by apply core_call
          | by apply (core_AggregateClusterDevices E)
          | by apply core_ReportServiceErrorToTaskAsync
          | apply passed_ExitBarrier
          | by apply passed_update_barrier
          | apply Hdisc
          | apply triple_modify; intros s [HT Hp];
            (split; [by apply (T_frame s)|exact Hp])
          | idtac ].
Qed.

Lemma DisconnectTaskG_keeps X pass task now :
  (∀ X' id r, φ r →
     triple True (Passed X') (pass id r) (λ _, Passed (X' ∪ {[id]}))) →
  triple True (Passed X) (DisconnectTaskG E pass task now) (λ _, Passed X).
Proof.
  intros Hpass. unfold DisconnectTaskG.
  tinv_step; [tinv_step|]. destruct a; [tinv|].
  eapply triple_bind; [apply triple_gets_eq|]. intros found.
  destruct found as [t1|]; [|apply triple_ret; by intros s [Hs _]].
  case_bool_decide as Hst; [apply triple_ret; by intros s [Hs _]|].
  eapply triple_bind with (R := λ _, Passed X).
  { apply triple_update_task. intros s [[HT Hp] Hfound].
    rewrite <- Hfound. split; [|exact Hp]. by apply T_disconnect. }
  intros []. tinv_step; [tinv_step|]. tinv_step; [|tinv].
  apply triple_for_each. intros id _.
  tinv_step; [apply passed_try_emplace|].
  eapply triple_post; [by apply Hpass|].
  intros [] s. apply passed_mono. set_solver.
Qed.

Lemma PassBarrier_passes X now id r :
  φ r →
  triple True (Passed X) (PassBarrier E now id r) (λ _, Passed (X ∪ {[id]})).
Proof.
  intros Hr. apply PassBarrierG_passes; [done|].
  intros X' task. apply DisconnectTaskG_keeps.
  intros X'' id' r' Hr'. apply PassBarrierG_passes; [done|].
  intros X3 task'. by apply triple_undefined.
Qed.

(** A loop that passes the barriers [ids], one after the other. *)
Lemma pass_loop now ids (make : string → Status) :
  (∀ id, φ (make id)) →
  triple True (Passed (∅ : gset string))
    (for_each ids (λ barrier_id,
       try_emplace_barrier barrier_id ;;;
       PassBarrier E now barrier_id (make barrier_id)))
    (λ _, Passed (list_to_set ids : gset string)).
Proof.
  intros Hmake.
  cut (∀ all : list string,
         triple True
           (Passed (list_to_set all ∖ list_to_set ids : gset string))
           (for_each ids (λ barrier_id,
              try_emplace_barrier barrier_id ;;;
              PassBarrier E now barrier_id (make barrier_id)))
           (λ _, Passed (list_to_set all ∖ list_to_set [] : gset string))).
  { intros H. eapply triple_conseq; [apply (H ids)| |].
    - intros s. apply passed_mono. set_solver.
    - intros [] s. apply passed_mono. set_solver. }
  intros all.
  apply (triple_for_each_rest
           (λ rest,
              Passed (list_to_set all ∖ list_to_set rest : gset string))).
  intros id rest.
  eapply triple_bind; [apply passed_try_emplace|]. intros ?.
  eapply triple_post; [by apply PassBarrier_passes|].
  intros [] s. apply passed_mono. intros x Hx.
  destruct (decide (x = id)) as [->|Hne]; set_solver.
Qed.

End passes.

(** ** Disconnecting a task *)

Section reset.

Context (E : ServiceEnv).

(** [DisconnectTask] on a well-formed state has a result. *)
Lemma DisconnectTask_total task now :
  triple False (well_formed E) (DisconnectTask E task now)
         (λ _, well_formed E).
Proof.
  unfold DisconnectTask, DisconnectTaskG.
  eapply triple_bind; [apply triple_gets_inv|]. intros [].
  { by apply triple_ret. }
  eapply triple_bind; [apply triple_gets_eq|]. intros [t|].
  2:{ apply triple_ret. by intros s [Hs _]. }
  case_bool_decide; [apply triple_ret; by intros s [Hs _]|].
  eapply triple_bind
    with (R := λ _ s, well_formed E s
                      ∧ is_Some (cluster_state_ s !! GetTaskName task)).
  { apply triple_update_task. intros s [Hwf Ht]. rewrite <- Ht. split.
    - by eapply well_formed_update_task.
    - simpl. rewrite lookup_insert_eq. eauto. }
  intros []. eapply triple_bind with (R := λ _, well_formed E).
  { apply triple_task_at. intros s [Hwf [t' Ht']]. by rewrite Ht'. }
  intros t'. eapply triple_bind with (R := λ _, well_formed E).
  2:{ intros []. by apply triple_ret. }
  apply triple_for_each. intros id _.
  eapply triple_bind with (R := λ _, well_formed E).
  { intros s Hs. destruct (try_emplace_barrier_run E id s)
      as (inserted & s1 & -> & _ & _ & _ & _ & _ & Hwf). by apply Hwf. }
  intros _. apply PassBarrier_well_formed.
Qed.

(** [DisconnectTask] of a declared task that is not DISCONNECTED, from a
    reachable, well-formed state. *)
Lemma DisconnectTask_disconnects task now s t :
  shutting_down_ s = false →
  cluster_state_ s !! GetTaskName task = Some t →
  state_ t ≠ TASKSTATE_DISCONNECTED →
  reachable E s → well_formed E s →
  ∃ s', DisconnectTask E task now s = Some (OkStatus, s')
        ∧ cluster_state_ s' !! GetTaskName task
          = Some (disconnected_record E now t)
        ∧ ∀ id, id ∈ ongoing_barriers_for_task_ t →
            passed_with (λ r, code r = kInternal) id s'.
Proof.
  set (name := GetTaskName task).
  intros Hrun Ht Hstate Hreach Hwf.
  set (φ := λ r : Status, code r = kInternal).
  set (t0 := disconnected_record E now t).
  set (O := ongoing_barriers_for_task_ t).
  assert (triple True
            (λ s0, s0 = s)
            (DisconnectTask E task now)
            (λ r s', r = OkStatus
                     ∧ (∃ t', cluster_state_ s' !! name = Some t'
                          ∧ set_ongoing_barriers_for_task (λ _, ∅) t' = t0
                          ∧ ongoing_barriers_for_task_ t' ⊆ O)
                     ∧ ∀ id, id ∈ O → passed_with φ id s')) as Hpartial.
  { unfold DisconnectTask, DisconnectTaskG.
    eapply triple_bind; [apply triple_gets_eq|]. intros stopped.
    apply (triple_assert (stopped = false)).
    { intros s0 [-> ->]. done. }
    intros ->.
    eapply triple_bind; [apply triple_gets_eq|]. intros found.
    apply (triple_assert (found = Some t)).
    { intros s0 [[-> _] ->]. done. }
    intros ->. rewrite bool_decide_eq_false_2 by done.
    eapply triple_bind with
      (R := λ _ s1, cluster_state_ s1 !! name
                    = Some (Disconnect (u64 (heartbeat_timeout_ms_ E * 1000))
                              now t)).
    { apply triple_update_task. intros s0 [[-> _] _]. fold name. rewrite Ht.
      simpl. by rewrite lookup_insert_eq. }
    intros []. eapply triple_bind.
    { apply triple_task_at_eq. by left. }
    intros t'. apply (triple_assert
      (t' = Disconnect (u64 (heartbeat_timeout_ms_ E * 1000)) now t)).
    { intros s0 [H1 H2]. fold name in H2. congruence. }
    intros ->. simpl.
    eapply triple_bind with
      (R := λ _ s', (∃ t', cluster_state_ s' !! name = Some t'
                       ∧ set_ongoing_barriers_for_task (λ _, ∅) t' = t0
                       ∧ ongoing_barriers_for_task_ t' ⊆ O)
                    ∧ ∀ id, id ∈ (list_to_set (elements O) : gset string) →
                        passed_with φ id s').
    - eapply triple_pre.
      + apply (pass_loop E φ); [done| | | |done].
        * intros s0 s0' Hc. by rewrite Hc.
        * intros s0 n t1 id (t' & Ht' & Hrec & Hsub) Hn. simpl.
          destruct (decide (n = name)) as [->|Hne].
          -- rewrite lookup_insert_eq. eexists. split; [done|].
             assert (t1 = t') as -> by congruence.
             split; [done|]. simpl. set_solver.
          -- rewrite lookup_insert_ne by done. eauto.
        * intros s0 n t1 grace now' (t' & Ht' & Hrec & Hsub) Hn Hst. simpl.
          destruct (decide (n = name)) as [->|Hne].
          -- assert (t1 = t') as -> by congruence.
             destruct Hst.
             change (state_ (set_ongoing_barriers_for_task (λ _, ∅) t')
                     = TASKSTATE_DISCONNECTED).
             by rewrite Hrec.
          -- rewrite lookup_insert_ne by done. eauto.
      + intros s0 [Hs0 _]. split; [|set_solver].
        eexists. split; [done|]. split; [done|]. done.
    - intros []. apply triple_ret. intros s0 [Hrec Hp].
      split; [done|]. split; [done|]. intros id Hid. apply Hp. set_solver. }
  destruct (triple_total_run _ _ _ s (DisconnectTask_total task now) Hwf)
    as (r & s' & Hrun' & Hwf').
  pose proof (triple_partial_run _ _ _ _ _ _ Hpartial eq_refl Hrun')
    as (-> & (t' & Ht' & Hrec & Hsub) & Hpassed).
  pose proof (triple_partial_run _ _ _ _ _ _
                (DisconnectTask_inv E ∅ ∅ task now) (reachable_inv E s Hreach)
                Hrun') as (_ & Hwait & _).
  exists s'. split; [done|]. split; [|done].
  rewrite Ht'. f_equal. rewrite <- Hrec.
  assert (ongoing_barriers_for_task_ t' = ∅) as Hempty.
  { apply leibniz_equiv. apply elem_of_equiv_empty. intros id Hid.
    destruct (Hwait name t' id Ht' Hid) as (_ & b & Hb & Hunpassed & _).
    destruct (Hpassed id) as (b' & Hb' & Hp' & _); [set_solver|].
    congruence. }
  destruct t'. simpl in *. by rewrite Hempty.
Qed.

(** X16.  Reset.  [ResetTask] is answered Internal by a stopped service,
    InvalidArgument for an undeclared task and FailedPrecondition for a task
    that is DISCONNECTED already, and changes nothing then.  Otherwise it is
    answered OK: the task is left DISCONNECTED with an OK status, its grace
    period ends one heartbeat timeout after the clock value, it waits at no
    barrier any more, and every barrier it waited at has passed with an
    Internal error. *)
Theorem ResetTask_outcomes task now s :
  let name := GetTaskName task in
  (shutting_down_ s = true →
     ∃ err, ResetTask E task now s = Some (err, s) ∧ code err = kInternal)
  ∧ (shutting_down_ s = false → cluster_state_ s !! name = None →
     ∃ err, ResetTask E task now s = Some (err, s)
            ∧ code err = kInvalidArgument)
  ∧ (∀ t, shutting_down_ s = false → cluster_state_ s !! name = Some t →
       state_ t = TASKSTATE_DISCONNECTED →
       ∃ err, ResetTask E task now s = Some (err, s)
              ∧ code err = kFailedPrecondition)
  ∧ (∀ t, shutting_down_ s = false → cluster_state_ s !! name = Some t →
       state_ t ≠ TASKSTATE_DISCONNECTED →
       reachable E s → well_formed E s →
       ∃ s', ResetTask E task now s = Some (OkStatus, s')
             ∧ cluster_state_ s' !! name = Some (disconnected_record E now t)
             ∧ ∀ id, id ∈ ongoing_barriers_for_task_ t →
                 passed_with (λ r, code r = kInternal) id s').
Proof.
  intros name. unfold ResetTask. split_and!.
  - intros Hstop. unfold DisconnectTask, DisconnectTaskG, bind, gets. simpl.
    rewrite Hstop. eexists. split; [reflexivity|done].
  - intros Hrun Hnone. unfold DisconnectTask, DisconnectTaskG, bind, gets.
    simpl. rewrite Hrun. fold name. rewrite Hnone.
    eexists. split; [reflexivity|done].
  - intros t Hrun Ht Hstate. unfold DisconnectTask, DisconnectTaskG, bind, gets.
    simpl. rewrite Hrun. fold name. rewrite Ht.
    rewrite bool_decide_eq_true_2 by done.
    eexists. split; [reflexivity|done].
  - intros t Hrun Ht Hstate Hreach Hwf. by apply DisconnectTask_disconnects.
Qed.

End reset.

(** ** [BarrierAsync] on a barrier that has passed, and from outsiders *)

Section barrier_replies.

Context (E : ServiceEnv).

Local Abbreviation shutdown_id := (shutdown_barrier_id_ E).

(** [BarrierAsync] on a barrier that has passed, from a caller that gets
    past the participation check. *)
Lemma BarrierAsync_passed id timeout task participating done now s b :
  shutting_down_ s = false →
  barriers_ s !! id = Some b → passed b = true →
  non_participating_call (OpBarrierAsync id timeout task participating done)
    = None →
  BarrierAsync E id timeout task participating done now s
  = (if String.eqb id shutdown_id then
       st <- DisconnectTask E task now ;;
       if negb (ok st) then call done st
       else barrier <- barrier_at id ;; call done (result barrier)
     else call done (result b)) s.
Proof.
  intros Hrun Hb Hpassed Hcall. unfold BarrierAsync.
  simpl in Hcall.
  destruct (negb (bool_decide (participating = [])) && _) eqn:Hcheck; [done|].
  clear Hcall. unfold bind at 1, gets. simpl. rewrite Hrun.
  unfold bind at 1.
  destruct (try_emplace_barrier_run E id s)
    as (inserted & s1 & -> & _ & _ & _ & Hsame & _).
  destruct Hsame as [-> ->]; [eauto|].
  unfold bind at 1, ret at 1. unfold join_barrier.
  unfold bind at 1, barrier_at at 1, gets. simpl. rewrite Hb. simpl.
  by rewrite Hpassed.
Qed.

(** X17.  Late callers.  [BarrierAsync] on a barrier that has passed, from a
    caller that is not refused as non-participating, only answers.  For a
    barrier other than the shutdown barrier the callback gets the stored
    result and nothing changes.  For the shutdown barrier the caller is
    disconnected first: an undeclared caller gets InvalidArgument, a caller
    that is DISCONNECTED already gets FailedPrecondition, and any other
    caller is disconnected and then gets the stored result. *)
Theorem BarrierAsync_replays_result id timeout task participating done now s b :
  shutting_down_ s = false →
  barriers_ s !! id = Some b → passed b = true →
  non_participating_call (OpBarrierAsync id timeout task participating done)
    = None →
  (id ≠ shutdown_id →
     BarrierAsync E id timeout task participating done now s
     = Some (tt, add_log [StatusCallbackCalled done (result b)] s))
  ∧ (id = shutdown_id → cluster_state_ s !! GetTaskName task = None →
     ∃ err, BarrierAsync E id timeout task participating done now s
            = Some (tt, add_log [StatusCallbackCalled done err] s)
            ∧ code err = kInvalidArgument)
  ∧ (∀ t, id = shutdown_id → cluster_state_ s !! GetTaskName task = Some t →
       state_ t = TASKSTATE_DISCONNECTED →
       ∃ err, BarrierAsync E id timeout task participating done now s
              = Some (tt, add_log [StatusCallbackCalled done err] s)
              ∧ code err = kFailedPrecondition)
  ∧ (∀ t, id = shutdown_id → cluster_state_ s !! GetTaskName task = Some t →
       state_ t ≠ TASKSTATE_DISCONNECTED →
       reachable E s → well_formed E s →
       ∃ s1, DisconnectTask E task now s = Some (OkStatus, s1)
             ∧ cluster_state_ s1 !! GetTaskName task
               = Some (disconnected_record E now t)
             ∧ BarrierAsync E id timeout task participating done now s
               = Some (tt, add_log [StatusCallbackCalled done (result b)] s1)).
Proof.
  intros Hrun Hb Hpassed Hcall.
  rewrite (BarrierAsync_passed _ _ _ _ _ _ _ b) by done.
  split_and!.
  - intros Hne. by rewrite (proj2 (String.eqb_neq _ _) Hne).
  - intros -> Hnone. rewrite String.eqb_refl.
    unfold bind at 1, DisconnectTask, DisconnectTaskG, bind at 1, gets at 1.
    simpl. rewrite Hrun. unfold bind at 1, gets at 1. simpl. rewrite Hnone.
    simpl. eexists. split; [reflexivity|done].
  - intros t -> Ht Hstate. rewrite String.eqb_refl.
    unfold bind at 1, DisconnectTask, DisconnectTaskG, bind at 1, gets at 1.
    simpl. rewrite Hrun. unfold bind at 1, gets at 1. simpl. rewrite Ht.
    rewrite bool_decide_eq_true_2 by done.
    simpl. eexists. split; [reflexivity|done].
  - intros t -> Ht Hstate Hreach Hwf. rewrite String.eqb_refl.
    destruct (DisconnectTask_disconnects E task now s t)
      as (s1 & Hd & Ht1 & _); [done..|].
    exists s1. split; [done|]. split; [done|].
    pose proof (triple_partial_run _ _ _ _ _ _
                  (DisconnectTask_inv E ∅ {[shutdown_id := b]} task now)
                  (barrier_inv_freeze s _ b (reachable_inv E s Hreach) Hb Hpassed)
                  Hd) as (_ & _ & _ & Hfrozen).
    destruct (Hfrozen shutdown_id b) as (Hb1 & _); [apply lookup_singleton_eq|].
    unfold bind at 1. rewrite Hd. simpl.
    unfold bind, barrier_at, gets. simpl. by rewrite Hb1.
Qed.

(** X18.  Outsiders.  [BarrierAsync] with a participant list that is not empty
    and does not name the caller, while the service runs, fails the barrier
    for everyone: the barrier (created if need be) is passed with an
    InvalidArgument error, also when it had passed before with another
    result; every queued callback, and then the callback of this call, is
    called with that error. *)
Theorem BarrierAsync_fails_for_outsider id timeout task participating done now s :
  participating ≠ [] →
  (∀ t, t ∈ participating → GetTaskName t ≠ GetTaskName task) →
  shutting_down_ s = false → well_formed E s →
  let b := default new_BarrierState (barriers_ s !! id) in
  let error := non_participating_error id task in
  code error = kInvalidArgument
  ∧ ∃ s' pre,
      BarrierAsync E id timeout task participating done now s = Some (tt, s')
      ∧ barriers_ s' !! id = Some (passed_record error b)
      ∧ log s' = log s ++ pre
                 ++ callbacks_called (done_callbacks b ++ [done]) error
      ∧ (id ≠ shutdown_id → pre = []).
Proof.
  intros Hne Hout Hrun Hwf b error. split; [done|].
  unfold BarrierAsync.
  rewrite (bool_decide_eq_false_2 (participating = [])) by done.
  replace (existsb _ participating) with false.
  2:{ symmetry. apply not_true_is_false. intros Hex.
      apply existsb_exists in Hex as (t & Hin & Heq).
      apply String.eqb_eq in Heq. apply (Hout t); [|done].
      by apply list_elem_of_In. }
  simpl. unfold bind at 1, gets at 1. simpl. rewrite Hrun.
  unfold bind at 1.
  destruct (try_emplace_barrier_run E id s)
    as (inserted & s1 & -> & Hb1 & Hlog1 & _ & _ & _ & Hwf1).
  fold error.
  destruct (triple_total_run _ _ _ s1
              (PassBarrier_total E now id error b (log s)))
    as ([] & s' & Hpass & _ & Hb' & pre & Hlog & Hpre); [by auto|].
  unfold bind at 1. rewrite Hpass.
  eexists _, pre. split; [reflexivity|]. simpl.
  split; [done|]. split; [|done].
  rewrite Hlog. unfold callbacks_called. rewrite fmap_app. simpl.
  by rewrite <- !app_assoc.
Qed.

End barrier_replies.

(** ** Creating a barrier *)

Section barrier_creation.

Context (E : ServiceEnv).

Local Abbreviation shutdown_id := (shutdown_barrier_id_ E).

Lemma set_barriers_insert_id id (b : BarrierState) s :
  barriers_ s !! id = Some b → set_barriers (<[id := b]>) s = s.
Proof.
  intros Hb. destruct s. unfold set_barriers. simpl in *. by rewrite insert_id.
Qed.

Lemma none_arrived_lookup tasks m task :
  none_arrived tasks m !! task
  = if decide (task ∈ tasks) then Some false else m !! task.
Proof.
  revert m. induction tasks as [|t tasks IH]; intros m.
  { destruct (decide (task ∈ [])) as [Hin|]; [|done]. by apply elem_of_nil in Hin. }
  change (none_arrived (t :: tasks) m)
    with (none_arrived tasks (<[t := false]> m)).
  rewrite IH.
  destruct (decide (task ∈ tasks)) as [Hin|Hout];
    destruct (decide (task ∈ t :: tasks)) as [Hin'|Hout']; try done.
  - destruct Hout'. by right.
  - apply elem_of_cons in Hin' as [->|?]; [|done]. apply lookup_insert_eq.
  - apply lookup_insert_ne. intros ->. apply Hout'. by left.
Qed.

Lemma none_arrived_size tasks m :
  NoDup tasks → (∀ t, t ∈ tasks → m !! t = None) →
  size (none_arrived tasks m) = (size m + length tasks)%nat.
Proof.
  revert m. induction tasks as [|t tasks IH]; intros m Hnd Hfresh; simpl.
  { lia. }
  apply NoDup_cons in Hnd as [Hnotin Hnd].
  unfold none_arrived in *. rewrite IH; [|done|].
  - rewrite map_size_insert_None by (apply Hfresh; by left). lia.
  - intros t' Hin. rewrite lookup_insert_ne by set_solver.
    apply Hfresh. by right.
Qed.

Lemma none_arrived_keys tasks task :
  task ∈ (map_to_list (none_arrived tasks ∅)).*1 ↔ task ∈ tasks.
Proof.
  rewrite list_elem_of_fmap. split.
  - intros ([t v] & -> & Hin). apply elem_of_map_to_list in Hin.
    rewrite none_arrived_lookup in Hin. simpl.
    by destruct (decide (t ∈ tasks)).
  - intros Hin. exists (task, false). split; [done|].
    apply elem_of_map_to_list. rewrite none_arrived_lookup.
    by rewrite decide_True.
Qed.

Lemma add_participating_tasks_run id tasks s b :
  barriers_ s !! id = Some b →
  (∀ t, t ∈ tasks → is_Some (cluster_state_ s !! GetTaskName t)) →
  add_participating_tasks id tasks s
  = Some (None,
          set_barriers
            (<[id := set_tasks_at_barrier
                       (none_arrived tasks (tasks_at_barrier b)) b]>) s).
Proof.
  revert s b. induction tasks as [|t tasks IH]; intros s b Hb Hdecl; simpl.
  { unfold ret. rewrite set_barriers_insert_id; [done|].
    rewrite Hb. by destruct b. }
  unfold bind at 1, gets at 1. simpl.
  rewrite bool_decide_eq_true_2 by (apply Hdecl; by left). simpl.
  unfold bind at 1, update_barrier at 1, bind at 1, barrier_at at 1, gets, modify.
  simpl. rewrite Hb. simpl.
  erewrite IH; [|simpl; apply lookup_insert_eq|].
  - by rewrite set_barriers_insert_twice.
  - intros t' Hin. simpl. apply Hdecl. by right.
Qed.

Lemma add_all_tasks_run id names s b :
  barriers_ s !! id = Some b →
  for_each names (λ task_name,
    update_barrier id (λ b,
      set_tasks_at_barrier
        (<[GetTaskFromName E task_name := false]> (tasks_at_barrier b)) b)) s
  = Some (tt,
          set_barriers
            (<[id := set_tasks_at_barrier
                       (none_arrived (GetTaskFromName E <$> names)
                          (tasks_at_barrier b)) b]>) s).
Proof.
  revert s b. induction names as [|n names IH]; intros s b Hb; simpl.
  { unfold ret. rewrite set_barriers_insert_id; [done|].
    rewrite Hb. by destruct b. }
  unfold bind at 1, update_barrier at 1, bind at 1, barrier_at at 1, gets, modify.
  simpl. rewrite Hb. simpl.
  erewrite IH; [|simpl; apply lookup_insert_eq].
  by rewrite set_barriers_insert_twice.
Qed.

Lemma find_task_in_error_none tasks s :
  (∀ t, t ∈ tasks → ∃ r, cluster_state_ s !! GetTaskName t = Some r
                         ∧ state_ r ≠ TASKSTATE_ERROR) →
  find_task_in_error tasks s = Some (None, s).
Proof.
  intros Hall. induction tasks as [|t tasks IH]; simpl; [done|].
  destruct (Hall t) as (r & Hr & Hstate); [by left|].
  unfold bind at 1, task_at at 1. rewrite Hr.
  rewrite bool_decide_eq_false_2 by done.
  apply IH. intros t' Hin. apply Hall. by right.
Qed.

Lemma join_all_dom id names cs : dom (join_all id names cs) = dom cs.
Proof.
  revert cs. induction names as [|n names IH]; intros cs; simpl; [done|].
  unfold join_all in *. rewrite IH. apply dom_alter_L.
Qed.

Lemma join_all_run id tasks s :
  (∀ t, t ∈ tasks → is_Some (cluster_state_ s !! GetTaskName t)) →
  for_each tasks (λ task, update_task (GetTaskName task) (JoinBarrier id)) s
  = Some (tt, set_cluster_state (join_all id (GetTaskName <$> tasks)) s).
Proof.
  revert s. induction tasks as [|t tasks IH]; intros s Hdecl; simpl.
  { unfold ret. by destruct s. }
  destruct (Hdecl t) as [r Hr]; [by left|].
  unfold bind at 1. rewrite (update_task_run _ _ _ r) by done.
  assert (<[GetTaskName t := JoinBarrier id r]> (cluster_state_ s)
          = alter (JoinBarrier id) (GetTaskName t) (cluster_state_ s)) as Halter.
  { apply map_eq. intros k. destruct (decide (k = GetTaskName t)) as [->|Hne].
    - by rewrite lookup_insert_eq, lookup_alter_eq, Hr.
    - by rewrite lookup_insert_ne, lookup_alter_ne. }
  rewrite IH.
  - unfold set_cluster_state. simpl. by rewrite Halter.
  - intros t' Hin. simpl. rewrite Halter.
    apply lookup_alter_is_Some. apply Hdecl. by right.
Qed.

(** X19.  The first call.  [BarrierAsync] with an id that has no record yet,
    while the service runs: let the participants be the given list, or
    every declared task when the list is empty.  If the caller is among
    them, no participant is listed twice, there are at least two, and each
    is declared and not in state ERROR, the call creates the barrier and
    answers nothing yet: the barrier is not passed, the caller is its
    initiating task and the only participant that has arrived, the pending
    count is the number of the others, the deadline is the clock value plus
    the timeout, the callback is queued, the id is among the ongoing
    barriers and every participant waits for it.  Nothing else changes and
    nothing is called. *)
Theorem BarrierAsync_creates id timeout task participating done now s :
  let ps := barrier_participants E participating s in
  let m := none_arrived ps ∅ in
  shutting_down_ s = false → barriers_ s !! id = None →
  task ∈ ps → NoDup ps → (1 < length ps)%nat →
  (∀ t, t ∈ ps → ∃ r, cluster_state_ s !! GetTaskName t = Some r
                       ∧ state_ r ≠ TASKSTATE_ERROR) →
  BarrierAsync E id timeout task participating done now s
  = Some (tt,
          set_barriers (<[id := created_barrier now timeout task done m]>)
            (set_cluster_state
               (join_all id (GetTaskName <$> (map_to_list m).*1))
               (set_ongoing_barriers (λ o, {[id]} ∪ o) s))).
Proof.
  intros ps m Hrun Hnone Htask Hnd Hlen Hall.
  assert (∀ t, t ∈ ps → is_Some (cluster_state_ s !! GetTaskName t)) as Hdecl.
  { intros t Hin. destruct (Hall t Hin) as (r & -> & _). eauto. }
  assert (size m = length ps) as Hsize.
  { unfold m. rewrite none_arrived_size; [by rewrite map_size_empty|done|].
    intros t _. apply lookup_empty. }
  unfold BarrierAsync.
  assert (negb (bool_decide (participating = []))
          && negb (existsb (λ t, String.eqb (GetTaskName t) (GetTaskName task))
                           participating) = false) as ->.
  { destruct participating as [|p rest]; [done|].
    rewrite (bool_decide_eq_false_2 (p :: rest = [])) by done. simpl.
    apply negb_false_iff. apply orb_true_iff.
    change (String.eqb (GetTaskName p) (GetTaskName task) = true
            ∨ existsb (λ t, String.eqb (GetTaskName t) (GetTaskName task)) rest
              = true).
    rewrite <- orb_true_iff.
    change (existsb (λ t, String.eqb (GetTaskName t) (GetTaskName task))
                    (p :: rest) = true).
    apply existsb_exists. exists task. split; [|apply String.eqb_refl].
    by apply list_elem_of_In. }
  unfold bind at 1, gets at 1. simpl. rewrite Hrun.
  unfold bind at 1.
  destruct (try_emplace_barrier_run E id s)
    as (inserted & s1 & -> & _ & _ & _ & _ & Hnew & _).
  destruct (Hnew Hnone) as [-> ->]. clear Hnew.
  set (b0 := init_barrier task new_BarrierState).
  set (b1 := set_tasks_at_barrier m b0).
  (* the barrier is created *)
  assert (create_barrier E id timeout task participating done now
            (set_barriers (<[id := new_BarrierState]>) s)
          = Some (true,
                  set_cluster_state
                    (join_all id (GetTaskName <$> (map_to_list m).*1))
                    (set_ongoing_barriers (λ o, {[id]} ∪ o)
                       (set_barriers
                          (<[id := set_deadline_in_micros (u64 (now + timeout))
                                     (set_num_pending_tasks
                                        (Z.of_nat (size m)) b1)]>) s))))
    as Hcreate.
  { unfold create_barrier.
    unfold bind at 1, update_barrier at 1, bind at 1, barrier_at at 1, gets, modify.
    simpl. rewrite lookup_insert_eq. simpl. rewrite set_barriers_insert_twice.
    fold b0.
    assert ((match participating with
             | [] =>
                 names <- task_names ;;
                 for_each names (λ task_name,
                   update_barrier id (λ b,
                     set_tasks_at_barrier
                       (<[GetTaskFromName E task_name := false]>
                          (tasks_at_barrier b)) b)) ;;;
                 ret None
             | _ => add_participating_tasks id participating
             end) (set_barriers (<[id := b0]>) s)
            = Some (None, set_barriers (<[id := b1]>) s)) as Hadd.
    { destruct participating as [|p rest].
      - unfold bind at 1, task_names, gets at 1. simpl.
        unfold bind at 1.
        rewrite (add_all_tasks_run id _ _ b0) by (simpl; apply lookup_insert_eq).
        by rewrite set_barriers_insert_twice.
      - rewrite (add_participating_tasks_run id _ _ b0);
          [|simpl; apply lookup_insert_eq|exact Hdecl].
        by rewrite set_barriers_insert_twice. }
    unfold bind at 1. rewrite Hadd. clear Hadd.
    unfold bind at 1, update_barrier at 1, bind at 1, barrier_at at 1, gets, modify.
    simpl. rewrite lookup_insert_eq. simpl. rewrite set_barriers_insert_twice.
    unfold bind at 1, barrier_at at 1, gets. simpl. rewrite lookup_insert_eq.
    simpl.
    unfold bind at 1. rewrite find_task_in_error_none.
    2:{ intros t Hin. apply (proj1 (none_arrived_keys ps t)) in Hin. simpl. by apply Hall. }
    unfold bind at 1, update_barrier at 1, bind at 1, barrier_at at 1, gets, modify.
    simpl. rewrite lookup_insert_eq. simpl. rewrite set_barriers_insert_twice.
    unfold bind at 1. simpl.
    unfold bind at 1. rewrite join_all_run.
    2:{ intros t Hin. apply (proj1 (none_arrived_keys ps t)) in Hin. simpl. by apply Hdecl. }
    done. }
  cbv beta iota. unfold bind at 1. cbv beta iota.
  rewrite Hcreate. clear Hcreate. cbv beta iota.
  unfold join_barrier.
  unfold bind at 1, barrier_at at 1, gets. simpl. rewrite lookup_insert_eq.
  simpl.
  unfold bind at 1, update_barrier at 1, bind at 1, barrier_at at 1, modify.
  simpl. rewrite lookup_insert_eq. simpl.
  unfold bind at 1. simpl.
  assert (ValidateTaskArgs participating m
            (Z.of_nat (size (join_all id (GetTaskName <$> (map_to_list m).*1)
                               (cluster_state_ s)))) = true) as ->.
  { unfold ValidateTaskArgs. destruct participating as [|p rest].
    - apply bool_decide_eq_true. f_equal. rewrite Hsize.
      transitivity (size (cluster_state_ s)).
      + unfold ps. simpl. by rewrite !length_fmap, length_map_to_list.
      + rewrite <- (size_dom (cluster_state_ s)).
        rewrite <- (size_dom (join_all _ _ _)). by rewrite join_all_dom.
    - rewrite bool_decide_eq_true_2 by exact Hsize. simpl negb. cbv iota.
      apply forallb_forall. intros t Hin. apply bool_decide_eq_true.
      unfold m. rewrite none_arrived_lookup.
      rewrite decide_True; [eauto|]. by apply list_elem_of_In. }
  simpl negb. cbv iota.
  assert (m !! task = Some false) as ->.
  { unfold m. rewrite none_arrived_lookup. by rewrite decide_True. }
  simpl.
  unfold bind at 1, update_barrier at 1, bind at 1, barrier_at at 1, modify.
  simpl. rewrite lookup_insert_eq. simpl.
  unfold bind at 1, barrier_at at 1. simpl. rewrite lookup_insert_eq.
  simpl. rewrite bool_decide_eq_false_2 by lia.
  unfold ret. do 2 f_equal.
  unfold set_barriers, set_cluster_state, set_ongoing_barriers. simpl.
  f_equal. rewrite !insert_insert_eq. done.
Qed.

End barrier_creation.

Section barrier_creation_fails.

Context (E : ServiceEnv).

Local Abbreviation shutdown_id := (shutdown_barrier_id_ E).

Lemma add_participating_tasks_undeclared id tasks s b :
  barriers_ s !! id = Some b →
  (∃ t, t ∈ tasks ∧ cluster_state_ s !! GetTaskName t = None) →
  ∃ name m',
    add_participating_tasks id tasks s
    = Some (Some name, set_barriers (<[id := set_tasks_at_barrier m' b]>) s)
    ∧ ∀ t, is_Some (m' !! t) →
        is_Some (tasks_at_barrier b !! t)
        ∨ is_Some (cluster_state_ s !! GetTaskName t).
Proof.
  revert s b. induction tasks as [|t tasks IH]; intros s b Hb (u & Hin & Hu).
  { by apply elem_of_nil in Hin. }
  simpl. unfold bind at 1, gets at 1. simpl.
  destruct (cluster_state_ s !! GetTaskName t) as [r|] eqn:Hr.
  - rewrite bool_decide_eq_true_2 by eauto. simpl.
    unfold bind at 1, update_barrier at 1, bind at 1, barrier_at at 1, gets, modify.
    simpl. rewrite Hb. simpl.
    destruct (IH (set_barriers
                    (<[id := set_tasks_at_barrier
                               (<[t := false]> (tasks_at_barrier b)) b]>) s)
                 (set_tasks_at_barrier (<[t := false]> (tasks_at_barrier b)) b))
      as (name & m' & -> & Hm').
    + simpl. apply lookup_insert_eq.
    + exists u. split; [|done]. apply elem_of_cons in Hin as [->|Hin]; [|done].
      congruence.
    + exists name, m'. rewrite set_barriers_insert_twice. split; [done|].
      intros t' Ht'. destruct (Hm' t' Ht') as [Hold|Hdecl]; [|by right].
      simpl in Hold. destruct (decide (t' = t)) as [->|Hne].
      * right. eauto.
      * left. by rewrite lookup_insert_ne in Hold.
  - rewrite bool_decide_eq_false_2 by (by intros [? ?]). simpl.
    exists (GetTaskName t), (tasks_at_barrier b). unfold ret. split.
    + rewrite set_barriers_insert_id; [done|]. rewrite Hb. by destruct b.
    + intros t' Ht'. by left.
Qed.

Lemma find_task_in_error_some tasks s :
  (∀ t, t ∈ tasks → is_Some (cluster_state_ s !! GetTaskName t)) →
  (∃ t r, t ∈ tasks ∧ cluster_state_ s !! GetTaskName t = Some r
          ∧ state_ r = TASKSTATE_ERROR) →
  ∃ name, find_task_in_error tasks s = Some (Some name, s).
Proof.
  intros Hdecl (u & r & Hin & Hu & Hstate).
  induction tasks as [|t tasks IH]; [by apply elem_of_nil in Hin|].
  simpl. destruct (Hdecl t) as [r' Hr']; [by left|].
  unfold bind at 1, task_at at 1. rewrite Hr'.
  case_bool_decide as Herr; [by eexists|].
  apply IH.
  - intros t' Hin'. apply Hdecl. by right.
  - apply elem_of_cons in Hin as [->|Hin]; [|done]. congruence.
Qed.

(** The end of a failed creation: the barrier is passed with the error and
    the callback of the call is called with it. *)
Lemma fail_creation id task error done now s (b : BarrierState) :
  well_formed E s → barriers_ s !! id = Some b →
  done_callbacks b = [] → initiating_task b = task →
  ∃ s' pre,
    (PassBarrier E now id error ;;; call done error ;;; ret false) s
    = Some (false, s')
    ∧ failed_at_creation id task error s'
    ∧ log s' = log s ++ pre ++ [StatusCallbackCalled done error]
    ∧ (id ≠ shutdown_id → pre = []).
Proof.
  intros Hwf Hb Hcbs Htask.
  destruct (triple_total_run _ _ _ s
              (PassBarrier_total E now id error b (log s)))
    as ([] & s' & Hpass & _ & Hb' & pre & Hlog & Hpre).
  { split; [done|]. by rewrite Hb. }
  unfold bind at 1. rewrite Hpass.
  eexists _, pre. split; [reflexivity|]. simpl.
  split; [|split; [|done]].
  - eexists. split; [exact Hb'|]. done.
  - rewrite Hlog, Hcbs. simpl. by rewrite <- !app_assoc.
Qed.

(** X20.  A barrier that cannot be created.  [BarrierAsync] with an id that has
    no record yet, from a caller that is not refused as non-participating,
    fails the new barrier at once in two cases.  If the participant list
    names a task that is not declared, the error is InvalidArgument.  If
    every participant (the listed ones, or every declared task when the list
    is empty) is declared and one of them is in state ERROR, the error is
    Internal.  In both cases the barrier stays behind passed with that
    error, and the callback of the call is called with it, once. *)
Theorem BarrierAsync_creation_fails id timeout task participating done now s :
  shutting_down_ s = false → barriers_ s !! id = None →
  non_participating_call (OpBarrierAsync id timeout task participating done)
    = None →
  well_formed E s →
  let ps := barrier_participants E participating s in
  ((∃ t, t ∈ participating ∧ cluster_state_ s !! GetTaskName t = None) →
     ∃ error s' pre,
       BarrierAsync E id timeout task participating done now s = Some (tt, s')
       ∧ code error = kInvalidArgument
       ∧ failed_at_creation id task error s'
       ∧ log s' = log s ++ pre ++ [StatusCallbackCalled done error]
       ∧ (id ≠ shutdown_id → pre = []))
  ∧ ((∀ t, t ∈ ps → is_Some (cluster_state_ s !! GetTaskName t)) →
     (∃ t r, t ∈ ps ∧ cluster_state_ s !! GetTaskName t = Some r
             ∧ state_ r = TASKSTATE_ERROR) →
     ∃ error s' pre,
       BarrierAsync E id timeout task participating done now s = Some (tt, s')
       ∧ code error = kInternal
       ∧ failed_at_creation id task error s'
       ∧ log s' = log s ++ pre ++ [StatusCallbackCalled done error]
       ∧ (id ≠ shutdown_id → pre = [])).
Proof.
  intros Hrun Hnone Hcall Hwf ps.
  set (b0 := init_barrier task new_BarrierState).
  assert (BarrierAsync E id timeout task participating done now s
          = (proceed <- create_barrier E id timeout task participating
                          done now ;;
             if (proceed : bool)
             then join_barrier E id task participating done now
             else ret tt)
              (set_barriers (<[id := new_BarrierState]>) s)) as Hhead.
  { unfold BarrierAsync. simpl in Hcall.
    destruct (negb (bool_decide (participating = [])) && _); [done|].
    unfold bind at 1, gets at 1. simpl. rewrite Hrun.
    unfold bind at 1.
    destruct (try_emplace_barrier_run E id s)
      as (inserted & s1 & -> & _ & _ & _ & _ & Hnew & _).
    destruct (Hnew Hnone) as [-> ->]. reflexivity. }
  assert (∀ m, (∀ t, is_Some (m !! t) →
                     is_Some (cluster_state_ s !! GetTaskName t)) →
            ∀ n, well_formed E
                   (set_barriers
                      (<[id := set_num_pending_tasks n
                                 (set_tasks_at_barrier m b0)]>) s)) as Hwf'.
  { intros m Hm n. destruct Hwf as [Hpart Hnames]. split; [|exact Hnames].
    intros id' b' t Hb' Hkey. simpl in *.
    destruct (decide (id = id')) as [<-|Hne].
    - rewrite lookup_insert_eq in Hb'. injection Hb' as <-. by apply Hm.
    - rewrite lookup_insert_ne in Hb' by done. by eapply Hpart. }
  split.
  - intros Hundeclared.
    destruct participating as [|p rest].
    { destruct Hundeclared as (t & Hin & _). by apply elem_of_nil in Hin. }
    destruct (add_participating_tasks_undeclared id (p :: rest)
                (set_barriers (<[id := b0]>) s) b0)
      as (name & m' & Hadd & Hm'); [simpl; apply lookup_insert_eq|done|].
    rewrite set_barriers_insert_twice in Hadd.
    set (error := MakeCoordinationError (InvalidArgumentError (StrCat
                   ["Unexpected task ("; name;
                    ") that is not in the cluster called the barrier. ";
                    "Barrier Id: "; id]))).
    destruct (fail_creation id task error done now
                (set_barriers (<[id := set_tasks_at_barrier m' b0]>) s)
                (set_tasks_at_barrier m' b0))
      as (s' & pre & Hfail & Hpost); [|simpl; apply lookup_insert_eq|done|done|].
    { assert (∀ t, is_Some (m' !! t) →
                is_Some (cluster_state_ s !! GetTaskName t)) as Hm.
      { intros t Ht. destruct (Hm' t Ht) as [Hold|Hdecl]; [|done].
        simpl in Hold. rewrite lookup_empty in Hold. by destruct Hold. }
      apply (Hwf' m' Hm (num_pending_tasks b0)). }
    exists error, s', pre. split; [|split; [done|exact Hpost]].
    rewrite Hhead. unfold bind at 1, create_barrier.
    remember (add_participating_tasks id (p :: rest)) as add eqn:Hdef in *.
    unfold bind at 1, update_barrier at 1, bind at 1, barrier_at at 1, gets, modify.
    simpl. rewrite lookup_insert_eq. simpl. rewrite set_barriers_insert_twice.
    fold b0. unfold bind at 1.
    rewrite Hadd.
    change (match (PassBarrier E now id error ;;; call done error ;;; ret false)
                    (set_barriers (<[id := set_tasks_at_barrier m' b0]>) s) with
            | Some (a, s0) =>
                (if (a : bool) then join_barrier E id task (p :: rest) done now
                 else ret tt) s0
            | None => None
            end = Some (tt, s')).
    by rewrite Hfail.
  - intros Hdecl Herr.
    set (m := none_arrived ps ∅).
    set (b2 := set_num_pending_tasks (Z.of_nat (size m))
                 (set_tasks_at_barrier m b0)).
    assert (∀ t, t ∈ (map_to_list m).*1 ↔ t ∈ ps) as Hkeys.
    { intros t. apply none_arrived_keys. }
    destruct (find_task_in_error_some (map_to_list m).*1
                (set_barriers (<[id := b2]>) s)) as [name Hfind].
    { intros t Hin. simpl. apply Hdecl. by apply Hkeys. }
    { destruct Herr as (t & r & Hin & Hr & Hstate). exists t, r.
      split; [by apply Hkeys|]. done. }
    set (error := MakeCoordinationError (InternalError (StrCat
                   ["Task ("; name;
                    ") is already in error before the barrier ";
                    "was called. Barrier Id: "; id]))).
    destruct (fail_creation id task error done now
                (set_barriers (<[id := b2]>) s) b2)
      as (s' & pre & Hfail & Hpost); [|simpl; apply lookup_insert_eq|done|done|].
    { apply Hwf'. intros t [v Ht]. apply Hdecl. apply Hkeys.
      apply list_elem_of_fmap. exists (t, v). split; [done|].
      by apply elem_of_map_to_list. }
    exists error, s', pre. split; [|split; [done|exact Hpost]].
    rewrite Hhead. unfold bind at 1, create_barrier.
    unfold bind at 1, update_barrier at 1, bind at 1, barrier_at at 1, gets, modify.
    simpl. rewrite lookup_insert_eq. simpl. rewrite set_barriers_insert_twice.
    fold b0.
    assert ((match participating with
             | [] =>
                 names <- task_names ;;
                 for_each names (λ task_name,
                   update_barrier id (λ b,
                     set_tasks_at_barrier
                       (<[GetTaskFromName E task_name := false]>
                          (tasks_at_barrier b)) b)) ;;;
                 ret None
             | _ => add_participating_tasks id participating
             end) (set_barriers (<[id := b0]>) s)
            = Some (None, set_barriers (<[id := set_tasks_at_barrier m b0]>) s))
      as Hadd.
    { destruct participating as [|p rest].
      - unfold bind at 1, task_names. simpl.
        unfold bind at 1.
        rewrite (add_all_tasks_run E id _ _ b0) by (simpl; apply lookup_insert_eq).
        by rewrite set_barriers_insert_twice.
      - rewrite (add_participating_tasks_run id _ _ b0);
          [|simpl; apply lookup_insert_eq|exact Hdecl].
        by rewrite set_barriers_insert_twice. }
    unfold bind at 1. rewrite Hadd. clear Hadd.
    unfold bind at 1, update_barrier at 1, bind at 1, barrier_at at 1, modify.
    simpl. rewrite lookup_insert_eq. simpl. rewrite set_barriers_insert_twice.
    unfold bind at 1, barrier_at at 1. simpl. rewrite lookup_insert_eq.
    simpl. fold m. fold b2.
    unfold bind at 1. rewrite Hfind.
    change (match (PassBarrier E now id error ;;; call done error ;;; ret false)
                    (set_barriers (<[id := b2]>) s) with
            | Some (a, s0) =>
                (if (a : bool) then join_barrier E id task participating done now
                 else ret tt) s0
            | None => None
            end = Some (tt, s')).
    by rewrite Hfail.
Qed.

End barrier_creation_fails.

(** ** The barrier sweep *)

Section barrier_sweep.

Context (E : ServiceEnv).

Local Abbreviation is_expired now s :=
  (λ id : string,
     bool_decide (deadline_in_micros
                    (default new_BarrierState (barriers_ s !! id)) < now)).

Lemma expired_barriers_run now ids s :
  (∀ id, id ∈ ids → is_Some (barriers_ s !! id)) →
  expired_barriers now ids s = Some (List.filter (is_expired now s) ids, s).
Proof.
  intros Hall. induction ids as [|id ids IH]; simpl; [done|].
  unfold bind at 1.
  destruct (try_emplace_barrier_run E id s)
    as (inserted & s1 & -> & _ & _ & _ & Hsame & _).
  destruct Hsame as [-> ->]; [apply Hall; by left|].
  unfold bind at 1, barrier_at at 1, gets at 1.
  unfold bind at 1. rewrite IH by (intros id' Hin; apply Hall; by right).
  unfold ret. by destruct (bool_decide _).
Qed.

Local Abbreviation Passed X :=
  (λ s : Service,
     True ∧ ∀ id, id ∈ X → passed_with timed_out_or_disconnected id s).

Lemma pass_expired_barriers_passes now ids shutdown_error (X : gset string) :
  triple True (Passed X) (pass_expired_barriers E now ids shutdown_error)
         (λ _, Passed (X ∪ list_to_set ids)).
Proof.
  revert X shutdown_error.
  induction ids as [|id ids IH]; intros X shutdown_error; simpl.
  { apply triple_ret. intros s [_ Hp]. split; [done|].
    intros id Hid. apply Hp. set_solver. }
  eapply triple_bind; [apply triple_gets_inv|]. intros barrier.
  eapply triple_bind.
  { apply (PassBarrier_passes E timed_out_or_disconnected); try done.
    - intros ? ?. by right.
    - by left. }
  intros []. eapply triple_post; [apply IH|].
  intros se s [_ Hp]. split; [done|]. intros id' Hid. apply Hp. set_solver.
Qed.

Lemma pass_expired_barriers_total now ids shutdown_error :
  triple False (well_formed E) (pass_expired_barriers E now ids shutdown_error)
         (λ _, well_formed E).
Proof.
  revert shutdown_error. induction ids as [|id ids IH]; intros se; simpl.
  { by apply triple_ret. }
  eapply triple_bind; [apply triple_gets_inv|]. intros barrier.
  eapply triple_bind; [apply PassBarrier_well_formed|]. intros []. apply IH.
Qed.

(** X21.  The barrier sweep.  In a state where every ongoing barrier has a
    record, [CheckBarrierTimeout] changes nothing when no ongoing barrier has
    its deadline before the clock value.  In general, from a well-formed
    state, it has a result, after which every ongoing barrier whose deadline
    was before the clock value has passed, with a DeadlineExceeded error or
    with the Internal error of a disconnected task, unless the sweep stopped
    the service. *)
Theorem CheckBarrierTimeout_passes_expired now s :
  (∀ id, id ∈ ongoing_barriers_ s → is_Some (barriers_ s !! id)) →
  ((∀ id b, id ∈ ongoing_barriers_ s → barriers_ s !! id = Some b →
      now ≤ deadline_in_micros b) →
     CheckBarrierTimeout E now s = Some (tt, s))
  ∧ (well_formed E s →
     ∃ s', CheckBarrierTimeout E now s = Some (tt, s')
           ∧ (stopped s'
              ∨ ∀ id b, id ∈ ongoing_barriers_ s → barriers_ s !! id = Some b →
                  deadline_in_micros b < now →
                  passed_with timed_out_or_disconnected id s')).
Proof.
  intros Hexist.
  set (expired := List.filter (is_expired now s) (elements (ongoing_barriers_ s))).
  set (rest := λ shutdown_error : option string,
         match shutdown_error with
         | Some error_message =>
             if negb (client_cache_present E)
             then SendErrorPollingResponseOrStopService E now
                    (MakeCoordinationError (DeadlineExceededError (StrCat
                       ["Shutdown barrier timed out. Error: "; error_message]))) ;;;
                  ret tt
             else ret tt
         | None => ret tt
         end).
  assert (CheckBarrierTimeout E now s
          = (shutdown_error <- pass_expired_barriers E now expired None ;;
             rest shutdown_error) s) as Hhead.
  { unfold CheckBarrierTimeout, bind at 1, gets at 1.
    unfold bind at 1. rewrite expired_barriers_run; [done|].
    intros id Hid. apply Hexist. by apply elem_of_elements. }
  split.
  - intros Hquiet. rewrite Hhead.
    assert (expired = []) as ->; [|done].
    apply filter_none. apply Forall_forall. intros id Hid%elem_of_elements.
    apply bool_decide_eq_false_2.
    destruct (Hexist id Hid) as [b Hb]. rewrite Hb. simpl.
    specialize (Hquiet id b Hid Hb). lia.
  - intros Hwf. rewrite Hhead.
    assert (triple False (well_formed E)
              (shutdown_error <- pass_expired_barriers E now expired None ;;
               rest shutdown_error)
              (λ _ _, True)) as Htotal.
    { eapply triple_bind; [apply pass_expired_barriers_total|].
      intros [msg|]; simpl; [|by apply triple_ret].
      destruct (negb _); [|by apply triple_ret].
      eapply triple_bind.
      - by apply SendErrorPollingResponseOrStopService_total.
      - intros ?. by apply triple_ret. }
    assert (triple True (Passed (∅ : gset string))
              (shutdown_error <- pass_expired_barriers E now expired None ;;
               rest shutdown_error)
              (λ _ s', Passed (list_to_set expired : gset string) s' ∨ stopped s'))
      as Hpartial.
    { eapply triple_bind; [apply pass_expired_barriers_passes|].
      assert (core_pred (Passed (∅ ∪ list_to_set expired : gset string))) as Hcore.
      { intros s0 s0' (_ & Hb & _) [_ Hp]. split; [done|].
        unfold passed_with. by rewrite Hb. }
      assert (∀ s0, Passed (∅ ∪ list_to_set expired : gset string) s0 →
                Passed (list_to_set expired : gset string) s0) as Hweak.
      { intros s0 [_ Hp]. split; [done|]. intros id Hid. apply Hp. set_solver. }
      intros [msg|]; simpl.
      2:{ apply triple_ret. intros s0 Hs0. left. by apply Hweak. }
      destruct (negb _).
      2:{ apply triple_ret. intros s0 Hs0. left. by apply Hweak. }
      eapply triple_bind.
      - by apply SendErrorPollingResponseOrStopService_core.
      - intros ?. apply triple_ret. intros s0 [Hs0|Hs0]; [left|by right].
        by apply Hweak. }
    specialize (Htotal s Hwf).
    assert (Passed (∅ : gset string) s) as HK by (split; [done|set_solver]).
    specialize (Hpartial s HK).
    destruct ((shutdown_error <- pass_expired_barriers E now expired None ;;
               rest shutdown_error) s) as [[[] s']|]; [|done].
    exists s'. split; [done|].
    destruct Hpartial as [[_ Hp]|Hstopped]; [right|by left].
    intros id b Hid Hb Hdead. apply Hp. apply elem_of_list_to_set.
    apply list_elem_of_In. apply filter_In. split.
    + apply list_elem_of_In. by apply elem_of_elements.
    + apply bool_decide_eq_true_2. by rewrite Hb.
Qed.

End barrier_sweep.

(** ** [Stop] answers every pending call *)

Section stop_answers.

Context (E : ServiceEnv).

Lemma for_each_emits {X} (l : list X) (f : X → Event) s :
  for_each l (λ x, emit (f x)) s = Some (tt, add_log (f <$> l) s).
Proof.
  revert s. induction l as [|x l IH]; intros s; simpl.
  - by rewrite add_log_nil.
  - unfold bind at 1, emit at 1, modify. rewrite IH. by rewrite add_log_app.
Qed.

Lemma cancel_getters_run (entries : list (string * list StatusOrValueCallback)) s :
  for_each entries (λ entry,
    for_each entry.2 (λ get_kv_callback,
      emit (GetCallbackCalled get_kv_callback
              (ErrorOf (shutdown_get_error entry.1))))) s
  = Some (tt, add_log
                (concat ((λ entry : string * list StatusOrValueCallback,
                            (λ cb, GetCallbackCalled cb
                                     (ErrorOf (shutdown_get_error entry.1)))
                              <$> entry.2) <$> entries)) s).
Proof.
  revert s. induction entries as [|entry entries IH]; intros s; simpl.
  - by rewrite add_log_nil.
  - unfold bind at 1. rewrite for_each_emits. rewrite IH.
    by rewrite add_log_app.
Qed.

(** While the service is stopping, [PassBarrier] leaves the other barriers
    alone: the [DisconnectTask] of the shutdown hook returns at once. *)
Section others.

Context (id : string) (bs0 : gmap string BarrierState).

Local Abbreviation Others :=
  (λ s : Service,
     shutting_down_ s = true
     ∧ ∀ id', id' ≠ id → barriers_ s !! id' = bs0 !! id').

Lemma others_core : core_pred Others.
Proof. intros s s' (_ & Hb & _ & Hf) [Hflag Hothers]. by rewrite Hb, Hf. Qed.

Lemma others_update_barrier f :
  triple True Others (update_barrier id f) (λ _, Others).
Proof.
  apply triple_update_barrier. intros s [Hflag Hothers]. split; [done|].
  intros id' Hne. simpl. rewrite lookup_insert_ne by done. by apply Hothers.
Qed.

Lemma others_DisconnectTaskG pass task now :
  triple True Others (DisconnectTaskG E pass task now) (λ _, Others).
Proof.
  unfold DisconnectTaskG.
  eapply triple_bind; [apply triple_gets_eq|]. intros stopped.
  apply (triple_assert (stopped = true)).
  { intros s [[Hflag _] ->]. done. }
  intros ->. apply triple_ret. by intros s [Hs _].
Qed.

Lemma PassBarrier_others now r :
  triple True Others (PassBarrier E now id r) (λ _, Others).
Proof.
  unfold PassBarrier, PassBarrierG. pose proof others_core as Hcore.
  tinv;
    first [ by apply core_call
          | by apply (core_AggregateClusterDevices E)
          | by apply core_ReportServiceErrorToTaskAsync
          | apply others_update_barrier
          | apply others_DisconnectTaskG
          | apply triple_update_task; intros s Hs;
            destruct (cluster_state_ s !! _); [exact Hs|done]
          | apply triple_modify; intros s Hs; exact Hs
          | idtac ].
Qed.

End others.

(** What the barrier loop of [Stop] keeps. *)
Local Abbreviation same_calls s s' :=
  (get_cb_ s' = get_cb_ s
   ∧ error_polling_state_ s' = error_polling_state_ s
   ∧ client_polling_for_error_ s' = client_polling_for_error_ s).

Lemma PassBarrier_same_calls now id r g e p :
  triple True
    (λ s, get_cb_ s = g ∧ error_polling_state_ s = e
          ∧ client_polling_for_error_ s = p)
    (PassBarrier E now id r)
    (λ _ s, get_cb_ s = g ∧ error_polling_state_ s = e
            ∧ client_polling_for_error_ s = p).
Proof. apply PassBarrier_stable; intros; done. Qed.

Lemma stop_pass now id s b :
  well_formed E s → shutting_down_ s = true → barriers_ s !! id = Some b →
  ∃ s' more,
    (barrier <- barrier_at id ;;
     when (negb (passed barrier))
          (PassBarrier E now id (shutdown_barrier_error id))) s = Some (tt, s')
    ∧ well_formed E s' ∧ shutting_down_ s' = true ∧ same_calls s s'
    ∧ (∀ id', id' ≠ id → barriers_ s' !! id' = barriers_ s !! id')
    ∧ log s' = log s ++ more
    ∧ (passed b = false → ∀ cb, cb ∈ done_callbacks b →
         StatusCallbackCalled cb (shutdown_barrier_error id) ∈ more).
Proof.
  intros Hwf Hflag Hb.
  unfold bind at 1, barrier_at at 1, gets at 1. rewrite Hb. simpl.
  destruct (passed b) eqn:Hpassed; simpl.
  { exists s, []. rewrite app_nil_r. split_and!; done. }
  set (r := shutdown_barrier_error id).
  destruct (triple_total_run _ _ _ s (PassBarrier_total E now id r b (log s)))
    as ([] & s' & Hpass & Hwf' & Hb' & pre & Hlog & Hpre).
  { split; [done|]. by rewrite Hb. }
  pose proof (triple_partial_run _ _ _ _ _ _
                (PassBarrier_others id (barriers_ s) now r)
                (conj Hflag (λ id' _, eq_refl)) Hpass) as [Hflag' Hothers].
  pose proof (triple_partial_run _ _ _ _ _ _
                (PassBarrier_same_calls now id r _ _ _)
                (conj eq_refl (conj eq_refl eq_refl)) Hpass) as Hsame.
  exists s', (pre ++ callbacks_called (done_callbacks b) r).
  split_and!; try done; try apply Hsame.
  intros _ cb Hcb. apply elem_of_app. right.
  unfold callbacks_called. apply list_elem_of_fmap. eauto.
Qed.

Lemma stop_loop now ids s :
  NoDup ids → (∀ id, id ∈ ids → is_Some (barriers_ s !! id)) →
  well_formed E s → shutting_down_ s = true →
  ∃ s' more,
    for_each ids (λ barrier_id,
      barrier <- barrier_at barrier_id ;;
      when (negb (passed barrier))
           (PassBarrier E now barrier_id (shutdown_barrier_error barrier_id))) s
    = Some (tt, s')
    ∧ shutting_down_ s' = true ∧ same_calls s s'
    ∧ log s' = log s ++ more
    ∧ ∀ id b cb, id ∈ ids → barriers_ s !! id = Some b → passed b = false →
        cb ∈ done_callbacks b →
        StatusCallbackCalled cb (shutdown_barrier_error id) ∈ more.
Proof.
  intros Hnd. revert s. induction Hnd as [|id ids Hnotin Hnd IH];
    intros s Hall Hwf Hflag; simpl.
  { exists s, []. rewrite app_nil_r. split_and!; try done.
    intros id b cb Hin. by apply elem_of_nil in Hin. }
  destruct (Hall id) as [b Hb]; [by left|].
  destruct (stop_pass now id s b Hwf Hflag Hb)
    as (s1 & more1 & Hstep & Hwf1 & Hflag1 & Hsame1 & Hothers & Hlog1 & Hcalls).
  destruct (IH s1) as (s' & more & Hrest & Hflag' & Hsame & Hlog & Hcalls');
    [|done|done|].
  { intros id' Hin. rewrite Hothers by (intros ->; done).
    apply Hall. by right. }
  exists s', (more1 ++ more). unfold bind at 1. rewrite Hstep, Hrest.
  split; [done|]. split; [done|]. split.
  { destruct Hsame as (-> & -> & ->). exact Hsame1. }
  split; [by rewrite Hlog, Hlog1, app_assoc|].
  intros id' b' cb Hin Hb' Hpassed Hcb. apply elem_of_app.
  apply elem_of_cons in Hin as [->|Hin].
  - left. assert (b' = b) as -> by congruence. by apply Hcalls.
  - right. apply (Hcalls' id' b'); [done| |done|done].
    rewrite Hothers; [done|]. intros ->. done.
Qed.

(** X22.  Stopping.  [Stop] on a well-formed state has a result, and leaves the
    service stopped: the shutdown flag is set and there are no tasks, no
    barriers and no pending [GetKeyValueAsync] callbacks.  Before that it
    answers every pending call: first every pending [GetKeyValueAsync]
    callback with a Cancelled error that names its key; then every callback
    of every barrier that has not passed with the Aborted error of that
    barrier; and, if tasks poll for errors and no error has been handed out
    yet, every polling callback with a Cancelled error. *)
Theorem Stop_answers_pending_calls now s :
  well_formed E s →
  ∃ s' more,
    Stop E now s = Some (tt, s')
    ∧ stopped s' ∧ get_cb_ s' = ∅
    ∧ log s' = log s ++ getters_cancelled (get_cb_ s) ++ more
    ∧ (∀ id b cb, barriers_ s !! id = Some b → passed b = false →
         cb ∈ done_callbacks b →
         StatusCallbackCalled cb (shutdown_barrier_error id) ∈ more)
    ∧ (client_polling_for_error_ s = true →
       responded_ (error_polling_state_ s) = false →
       ∀ cb, cb ∈ polling_done_callbacks_ (error_polling_state_ s) →
         StatusCallbackCalled cb shutdown_poll_error ∈ more).
Proof.
  intros Hwf. unfold Stop.
  unfold bind at 1, gets at 1.
  unfold bind at 1. rewrite cancel_getters_run.
  fold (getters_cancelled (get_cb_ s)).
  unfold bind at 1, modify at 1.
  unfold bind at 1, modify at 1.
  unfold bind at 1, gets at 1.
  set (s1 := set_shutting_down true
               (set_get_cb ∅ (add_log (getters_cancelled (get_cb_ s)) s))).
  destruct (stop_loop now (map_to_list (barriers_ s1)).*1 s1)
    as (s2 & more & Hloop & Hflag & (Hg & He & Hp) & Hlog & Hcalls).
  { apply NoDup_fst_map_to_list. }
  { intros id Hin. apply list_elem_of_fmap in Hin as ([id' b] & -> & Hin).
    apply elem_of_map_to_list in Hin. eauto. }
  { destruct Hwf as [Hpart Hnames]. by split. }
  { done. }
  unfold bind at 1. rewrite Hloop.
  unfold bind at 1, modify at 1.
  unfold bind at 1, modify at 1.
  unfold bind at 1, gets at 1. simpl.
  assert (∀ id b cb, barriers_ s !! id = Some b → passed b = false →
            cb ∈ done_callbacks b →
            StatusCallbackCalled cb (shutdown_barrier_error id) ∈ more)
    as Hbarriers.
  { intros id b cb Hb Hpassed Hcb. apply (Hcalls id b); [|done..].
    apply list_elem_of_fmap. exists (id, b). split; [done|].
    by apply elem_of_map_to_list. }
  rewrite Hp. simpl in *.
  destruct (client_polling_for_error_ s) eqn:Hpoll; simpl.
  2:{ eexists _, more. split; [reflexivity|]. simpl.
      split_and!; try done. by rewrite Hlog, <- app_assoc. }
  unfold SendErrorPollingResponse, bind at 1, gets at 1. simpl. rewrite Hp.
  simpl. unfold bind at 1, gets at 1. simpl. rewrite He. simpl.
  destruct (responded_ (error_polling_state_ s)) eqn:Hresp.
  { eexists _, more. split; [reflexivity|]. simpl.
    split_and!; try done. by rewrite Hlog, <- app_assoc. }
  unfold ErrorPollingState_SetError, bind at 1, gets at 1. simpl.
  rewrite He. simpl. rewrite Hresp.
  unfold bind at 1, modify at 1.
  unfold bind at 1. rewrite for_each_call. unfold modify.
  eexists _, (more ++ callbacks_called
                        (polling_done_callbacks_ (error_polling_state_ s))
                        shutdown_poll_error).
  split; [reflexivity|]. simpl. split_and!; try done.
  - rewrite Hlog. simpl. by rewrite <- !app_assoc.
  - intros id b cb Hb Hpassed Hcb. apply elem_of_app. left. eauto.
  - intros _ _ cb Hcb. apply elem_of_app. right.
    unfold callbacks_called. apply list_elem_of_fmap. eauto.
Qed.

End stop_answers.

(** ** Polling for errors *)

Section polling_calls.

Context (E : ServiceEnv).

(** [PollForErrorAsync] in pull mode, while the service runs, for a declared
    task that may poll. *)
Lemma PollForErrorAsync_eligible task done now s t :
  shutting_down_ s = false → client_cache_present E = false →
  cluster_state_ s !! GetTaskName task = Some t →
  IsDisconnectedBeyondGracePeriod now t = false →
  state_ t ≠ TASKSTATE_ERROR →
  PollForErrorAsync E task done now s
  = (if responded_ (error_polling_state_ s)
     then call done (error_ (error_polling_state_ s))
     else ErrorPollingState_AddTask task done)
      (set_client_polling_for_error true s).
Proof.
  intros Hrun Hcc Ht Hgrace Hstate.
  unfold PollForErrorAsync, bind at 1, gets at 1. simpl. rewrite Hrun, Hcc.
  unfold bind at 1, modify at 1. unfold bind at 1, gets at 1. simpl.
  rewrite Ht, Hgrace. rewrite bool_decide_eq_false_2 by done.
  unfold bind at 1, gets at 1. done.
Qed.

(** X23.  Polling.  [PollForErrorAsync] is answered at once with an Internal
    error by a stopped service and by a service that has a client cache,
    and changes nothing else then.  Otherwise it marks the service as
    polled, also when the poll is refused: with InvalidArgument for an
    undeclared task, with FailedPrecondition for a task that is DISCONNECTED
    beyond its grace period or in state ERROR.  A poll that is not refused
    is answered at once with the error that was handed out before, if there
    is one; otherwise its callback is queued, and the next error that is not
    OK is handed to every queued callback, this one last, without stopping
    the service; every poll that is not refused is answered with that same
    error from then on. *)
Theorem PollForErrorAsync_outcomes task done now s :
  let name := GetTaskName task in
  let polled := set_client_polling_for_error true s in
  let answered err := Some (tt, add_log [StatusCallbackCalled done err] s) in
  let refused err := Some (tt, add_log [StatusCallbackCalled done err] polled) in
  (shutting_down_ s = true →
     ∃ err, PollForErrorAsync E task done now s = answered err
            ∧ code err = kInternal)
  ∧ (shutting_down_ s = false → client_cache_present E = true →
     ∃ err, PollForErrorAsync E task done now s = answered err
            ∧ code err = kInternal)
  ∧ (shutting_down_ s = false → client_cache_present E = false →
     cluster_state_ s !! name = None →
     ∃ err, PollForErrorAsync E task done now s = refused err
            ∧ code err = kInvalidArgument)
  ∧ (∀ t, shutting_down_ s = false → client_cache_present E = false →
       cluster_state_ s !! name = Some t →
       IsDisconnectedBeyondGracePeriod now t = true
       ∨ state_ t = TASKSTATE_ERROR →
       ∃ err, PollForErrorAsync E task done now s = refused err
              ∧ code err = kFailedPrecondition)
  ∧ (∀ t, shutting_down_ s = false → client_cache_present E = false →
       cluster_state_ s !! name = Some t →
       IsDisconnectedBeyondGracePeriod now t = false →
       state_ t ≠ TASKSTATE_ERROR →
       responded_ (error_polling_state_ s) = true →
       PollForErrorAsync E task done now s
       = refused (error_ (error_polling_state_ s)))
  ∧ (∀ t error later, shutting_down_ s = false →
       client_cache_present E = false →
       cluster_state_ s !! name = Some t →
       IsDisconnectedBeyondGracePeriod now t = false →
       state_ t ≠ TASKSTATE_ERROR →
       responded_ (error_polling_state_ s) = false →
       ok error = false →
       ∃ s1 s2,
         PollForErrorAsync E task done now s = Some (tt, s1)
         ∧ log s1 = log s
         ∧ polling_done_callbacks_ (error_polling_state_ s1)
           = polling_done_callbacks_ (error_polling_state_ s) ++ [done]
         ∧ SendErrorPollingResponseOrStopService E later error s1
           = Some (false, s2)
         ∧ shutting_down_ s2 = false
         ∧ cluster_state_ s2 = cluster_state_ s
         ∧ log s2 = log s ++ callbacks_called
                      (polling_done_callbacks_ (error_polling_state_ s)
                       ++ [done]) error
         ∧ ∀ task' done' now' t',
             cluster_state_ s2 !! GetTaskName task' = Some t' →
             IsDisconnectedBeyondGracePeriod now' t' = false →
             state_ t' ≠ TASKSTATE_ERROR →
             PollForErrorAsync E task' done' now' s2
             = Some (tt, add_log [StatusCallbackCalled done' error] s2)).
Proof.
  intros name polled answered refused. split_and!.
  - intros Hstop. unfold PollForErrorAsync, bind, gets. simpl. rewrite Hstop.
    eexists. split; [reflexivity|done].
  - intros Hrun Hcc. unfold PollForErrorAsync, bind, gets. simpl.
    rewrite Hrun, Hcc. eexists. split; [reflexivity|done].
  - intros Hrun Hcc Hnone.
    unfold PollForErrorAsync, bind at 1, gets at 1. simpl. rewrite Hrun, Hcc.
    unfold bind at 1, modify at 1. unfold bind at 1, gets at 1. simpl.
    fold name. rewrite Hnone. eexists. split; [reflexivity|done].
  - intros t Hrun Hcc Ht Hcase.
    unfold PollForErrorAsync, bind at 1, gets at 1. simpl. rewrite Hrun, Hcc.
    unfold bind at 1, modify at 1. unfold bind at 1, gets at 1. simpl.
    fold name. rewrite Ht.
    destruct (IsDisconnectedBeyondGracePeriod now t) eqn:Hgrace.
    { eexists. split; [reflexivity|done]. }
    destruct Hcase as [?|Hstate]; [done|].
    rewrite bool_decide_eq_true_2 by done.
    eexists. split; [reflexivity|done].
  - intros t Hrun Hcc Ht Hgrace Hstate Hresp.
    rewrite (PollForErrorAsync_eligible _ _ _ _ t) by done. by rewrite Hresp.
  - intros t error later Hrun Hcc Ht Hgrace Hstate Hresp Herr.
    rewrite (PollForErrorAsync_eligible _ _ _ _ t) by done. rewrite Hresp.
    unfold ErrorPollingState_AddTask, bind at 1, gets at 1. simpl.
    rewrite Hresp. unfold modify.
    eexists _, _. split; [reflexivity|]. simpl. split; [done|]. split; [done|].
    unfold SendErrorPollingResponseOrStopService. rewrite Herr.
    unfold bind at 1, gets at 1. simpl.
    unfold bind at 1, SendErrorPollingResponse, bind at 1, gets at 1. simpl.
    unfold bind at 1, gets at 1. simpl. rewrite ?Hresp.
    unfold ErrorPollingState_SetError, bind at 1, gets at 1. simpl.
    rewrite ?Hresp. unfold bind at 1, modify at 1.
    unfold bind at 1. rewrite for_each_call. unfold modify, ret.
    split; [reflexivity|]. simpl. split_and!; try done.
    intros task' done' now' t' Ht' Hgrace' Hstate'.
    by rewrite (PollForErrorAsync_eligible _ _ _ _ t').
Qed.

End polling_calls.

(** ** The cluster devices *)

Section cluster_devices.

Context (E : ServiceEnv).

Lemma task_le_total : Total task_le.
Proof.
  intros task1 task2. unfold task_le, task_lt.
  rewrite (String.eqb_sym (job_name task2) (job_name task1)).
  destruct (String.eqb (job_name task1) (job_name task2)); simpl.
  - destruct (decide (task_id task1 < task_id task2)).
    + left. apply bool_decide_eq_false_2. lia.
    + right. apply bool_decide_eq_false_2. lia.
  - unfold String.ltb.
    rewrite (String.compare_antisym (job_name task1) (job_name task2)).
    destruct (String.compare (job_name task2) (job_name task1)); simpl; auto.
Qed.

Lemma merge_devices_run (tasks : list CoordinatedTask) s :
  (∀ task, task ∈ tasks → is_Some (cluster_state_ s !! GetTaskName task)) →
  for_each tasks (λ task,
    t <- task_at (GetTaskName task) ;;
    modify (λ s, set_cluster_devices (cluster_devices_ s ++ devices_ t) s)) s
  = Some (tt, set_cluster_devices
                (cluster_devices_ s ++ concat (devices_of_task s <$> tasks)) s).
Proof.
  revert s. induction tasks as [|task tasks IH]; intros s Hall; simpl.
  { rewrite app_nil_r. by destruct s. }
  destruct (Hall task) as [t Ht]; [by left|].
  unfold bind at 1, bind at 1, task_at at 1. rewrite Ht. unfold modify at 1.
  rewrite IH by (intros task' Hin; simpl; apply Hall; by right).
  unfold devices_of_task at 2. rewrite Ht. simpl.
  unfold set_cluster_devices. simpl. by rewrite <- app_assoc.
Qed.

(** X24.  The cluster devices.  [AggregateClusterDevices], in a state whose
    task names parse back to declared tasks, appends to the cluster devices
    the devices of the tasks, task after task in the order of the job name
    and, within a job, of the task id, and then applies the post-processing
    function if one was set.  It changes nothing else. *)
Theorem AggregateClusterDevices_in_task_order s :
  names_parse E s →
  let tasks := merge_sort task_le
                 (GetTaskFromName E <$> (map_to_list (cluster_state_ s)).*1) in
  let post := default (λ devices, devices) (post_aggregate_device_fn_ s) in
  AggregateClusterDevices E s
  = Some (tt, set_cluster_devices
                (post (cluster_devices_ s
                       ++ concat (devices_of_task s <$> tasks))) s)
  ∧ Sorted task_le tasks
  ∧ tasks ≡ₚ GetTaskFromName E <$> (map_to_list (cluster_state_ s)).*1.
Proof.
  intros Hparse tasks post. split; [|split].
  - unfold AggregateClusterDevices, bind at 1, task_names, gets at 1.
    fold tasks. unfold bind at 1. rewrite merge_devices_run.
    + unfold bind at 1, gets at 1. simpl. unfold post.
      destruct (post_aggregate_device_fn_ s) as [f|]; simpl; [done|].
      unfold ret. done.
    + intros task Hin. unfold tasks in Hin.
      rewrite merge_sort_Permutation in Hin.
      apply list_elem_of_fmap in Hin as (name & -> & Hin).
      apply Hparse.
      apply list_elem_of_fmap in Hin as ([name' t] & -> & Hin).
      apply elem_of_map_to_list in Hin. simpl. eauto.
  - apply (@Sorted_merge_sort _ task_le _ task_le_total).
  - apply merge_sort_Permutation.
Qed.

End cluster_devices.

(** ** Tasks and the barriers they wait for *)

Section waiting.

Context (E : ServiceEnv).

(** X25.  Waiting tasks.  In every state the service can reach, a task waits
    only for barriers that have a record, have not passed and list a task of
    that name among their participants; and a barrier that has passed is not
    among the ongoing barriers.  So no entry point leaves a task waiting for
    a barrier that has been decided. *)
Theorem waiting_tasks_are_participants s name t id :
  reachable E s →
  cluster_state_ s !! name = Some t →
  id ∈ ongoing_barriers_for_task_ t →
  ∃ b, barriers_ s !! id = Some b
       ∧ passed b = false
       ∧ ∃ task, is_Some (tasks_at_barrier b !! task)
                 ∧ GetTaskName task = name.
Proof.
  intros Hreach Ht Hid.
  destruct (reachable_inv E s Hreach) as (_ & Hwait & _).
  by destruct (Hwait name t id Ht Hid) as (_ & Hb).
Qed.

(** X26.  Shutdown without a barrier.  When the configured shutdown barrier
    timeout is not positive, [ShutdownTaskAsync] uses no barrier: it
    disconnects the task and hands the outcome to the callback.  A stopped
    service answers Internal, an undeclared task gets InvalidArgument, a
    task that is DISCONNECTED already gets FailedPrecondition, and nothing
    else changes then; any other task is disconnected as by [ResetTask] and
    its callback is called with OK. *)
Theorem ShutdownTaskAsync_without_barrier task done now s :
  shutdown_barrier_timeout_ E ≤ 0 →
  let name := GetTaskName task in
  let answered err := Some (tt, add_log [StatusCallbackCalled done err] s) in
  (shutting_down_ s = true →
     ∃ err, ShutdownTaskAsync E task done now s = answered err
            ∧ code err = kInternal)
  ∧ (shutting_down_ s = false → cluster_state_ s !! name = None →
     ∃ err, ShutdownTaskAsync E task done now s = answered err
            ∧ code err = kInvalidArgument)
  ∧ (∀ t, shutting_down_ s = false → cluster_state_ s !! name = Some t →
       state_ t = TASKSTATE_DISCONNECTED →
       ∃ err, ShutdownTaskAsync E task done now s = answered err
              ∧ code err = kFailedPrecondition)
  ∧ (∀ t, shutting_down_ s = false → cluster_state_ s !! name = Some t →
       state_ t ≠ TASKSTATE_DISCONNECTED →
       reachable E s → well_formed E s →
       ∃ s1, ResetTask E task now s = Some (OkStatus, s1)
             ∧ cluster_state_ s1 !! name = Some (disconnected_record E now t)
             ∧ ShutdownTaskAsync E task done now s
               = Some (tt, add_log [StatusCallbackCalled done OkStatus] s1)).
Proof.
  intros Hzero name answered. unfold ShutdownTaskAsync.
  rewrite bool_decide_eq_false_2 by lia. split_and!.
  - intros Hstop. unfold bind at 1, gets at 1. simpl. rewrite Hstop.
    unfold bind at 1, ret at 1. eexists. split; [reflexivity|done].
  - intros Hrun Hnone. unfold bind at 1, gets at 1. simpl. rewrite Hrun.
    unfold bind at 1, DisconnectTask, DisconnectTaskG, bind at 1, gets at 1.
    simpl. rewrite Hrun. unfold bind at 1, gets at 1. simpl.
    fold name. rewrite Hnone. eexists. split; [reflexivity|done].
  - intros t Hrun Ht Hstate. unfold bind at 1, gets at 1. simpl. rewrite Hrun.
    unfold bind at 1, DisconnectTask, DisconnectTaskG, bind at 1, gets at 1.
    simpl. rewrite Hrun. unfold bind at 1, gets at 1. simpl.
    fold name. rewrite Ht. rewrite bool_decide_eq_true_2 by done.
    eexists. split; [reflexivity|done].
  - intros t Hrun Ht Hstate Hreach Hwf.
    destruct (DisconnectTask_disconnects E task now s t)
      as (s1 & Hd & Ht1 & _); [done..|].
    exists s1. split; [done|]. split; [done|].
    unfold bind at 1, gets at 1. simpl. rewrite Hrun.
    unfold bind at 1. by rewrite Hd.
Qed.

End waiting.

(** ** The heartbeat sweep on stale tasks *)

Section heartbeat_sweep.

Context (E : ServiceEnv) (now : Z) (s0 : Service).

(** During the sweep no task becomes CONNECTED and no heartbeat time
    changes; the tasks in [Q] are not CONNECTED any more. *)
Local Abbreviation Unrevived :=
  (λ s : Service,
     ∀ name t0, cluster_state_ s0 !! name = Some t0 →
       ∃ t, cluster_state_ s !! name = Some t
            ∧ last_heartbeat_us_ t = last_heartbeat_us_ t0
            ∧ (state_ t = TASKSTATE_CONNECTED →
               state_ t0 = TASKSTATE_CONNECTED)).

Local Abbreviation Sweep Q :=
  (λ s : Service, Unrevived s ∧ ∀ name : string, Q name → not_connected name s).

Implicit Types Q : string → Prop.

Lemma sweep_update Q s n t t' :
  Sweep Q s → cluster_state_ s !! n = Some t →
  last_heartbeat_us_ t' = last_heartbeat_us_ t →
  (state_ t' = TASKSTATE_CONNECTED → state_ t = TASKSTATE_CONNECTED) →
  Sweep Q (set_cluster_state (<[n := t']>) s).
Proof.
  intros [Hkept HQ] Hn Hbeat Hstate. split.
  - intros name t0 H0. destruct (Hkept name t0 H0) as (t1 & H1 & Hb1 & Hs1).
    simpl. destruct (decide (n = name)) as [->|Hne].
    + rewrite lookup_insert_eq. exists t'.
      assert (t1 = t) as -> by congruence.
      split; [done|]. split; [congruence|]. auto.
    + rewrite lookup_insert_ne by done. eauto.
  - intros name Hname. destruct (HQ name Hname) as (t1 & H1 & Hs1).
    unfold not_connected. simpl. destruct (decide (n = name)) as [->|Hne].
    + rewrite lookup_insert_eq. exists t'.
      assert (t1 = t) as -> by congruence. split; [done|]. auto.
    + rewrite lookup_insert_ne by done. eauto.
Qed.

Lemma sweep_frame Q s s' : cluster_state_ s' = cluster_state_ s → Sweep Q s → Sweep Q s'.
Proof. intros Hc. unfold not_connected. by rewrite Hc. Qed.

Lemma sweep_core Q : core_pred (Sweep Q).
Proof. intros s s' (Hc & _) HT. by apply (sweep_frame Q s). Qed.

Lemma sweep_weaken Q Q' s : (∀ name, Q' name → Q name) → Sweep Q s → Sweep Q' s.
Proof. intros Hsub [Hkept HQ]. split; [done|]. auto. Qed.

Lemma PassBarrier_sweep Q now' id r :
  triple True (Sweep Q) (PassBarrier E now' id r) (λ _, Sweep Q).
Proof.
  eapply triple_conseq.
  - apply (PassBarrier_passes E (λ _, True) (λ _ _, I) (Sweep Q)) with (X := ∅).
    + apply sweep_frame.
    + intros s n t id' HT Hn. by eapply sweep_update.
    + intros s n t grace now'' HT Hn Hst. by eapply sweep_update.
    + done.
  - intros s HT. split; [done|]. intros id' Hid. by apply elem_of_empty in Hid.
  - by intros [] s [HT _].
Qed.

Lemma SetTaskError_sweep Q name err :
  triple True (Sweep Q) (SetTaskError E now name err)
         (λ _, Sweep (λ n, Q n ∨ n = name)).
Proof.
  unfold SetTaskError.
  eapply triple_bind with (R := λ _, Sweep (λ n, Q n ∨ n = name)).
  { apply triple_update_task. intros s HT.
    destruct (cluster_state_ s !! name) as [t|] eqn:Ht; [|done].
    assert (state_ (TaskState_SetError err t) ≠ TASKSTATE_CONNECTED
            ∧ last_heartbeat_us_ (TaskState_SetError err t)
              = last_heartbeat_us_ t) as [Hstate Hbeat].
    { unfold TaskState_SetError. case_bool_decide; [|done]. split; congruence. }
    pose proof (sweep_update Q s name t _ HT Ht Hbeat) as [Hkept HQ]; [done|].
    split; [done|]. intros n [Hn| ->]; [by apply HQ|].
    eexists. simpl. rewrite lookup_insert_eq. done. }
  intros []. tinv_step; [tinv_step|].
  apply triple_for_each. intros id _.
  tinv_step; [|apply PassBarrier_sweep].
  apply triple_try_emplace_barrier. intros s HT.
  destruct (barriers_ s !! id); [done|]. by apply (sweep_frame _ s).
Qed.

Lemma mark_stale_tasks_sweep names Q :
  triple True (Sweep Q) (mark_stale_tasks E now names)
    (λ _, Sweep (λ n, Q n ∨ (n ∈ names ∧ stale_at E now s0 n))).
Proof.
  revert Q. induction names as [|name names IH]; intros Q; simpl.
  { apply triple_ret. intros s. apply sweep_weaken.
    intros n [?|[Hin _]]; [done|]. by apply elem_of_nil in Hin. }
  eapply triple_bind; [apply triple_gets_eq|]. intros found.
  destruct found as [t|].
  2:{ (* the name is not declared: it was not declared at the start *)
      apply (triple_assert (¬ stale_at E now s0 name)).
      { intros s [[Hkept _] Hfound] (t0 & H0 & _).
        destruct (Hkept name t0 H0) as (t & Ht & _). congruence. }
      intros Hfresh. eapply triple_conseq; [apply (IH Q)|by intros s [HT _]|].
      intros stale s. apply sweep_weaken.
      intros n [?|[[->|Hin]%elem_of_cons Hstale]]; [by left|done|right; done]. }
  destruct (bool_decide (state_ t = TASKSTATE_CONNECTED)) eqn:Hconn; simpl.
  2:{ (* not CONNECTED now, and never again *)
      apply bool_decide_eq_false in Hconn.
      eapply triple_conseq; [apply (IH (λ n, Q n ∨ n = name))| |].
      - intros s [[Hkept HQ] Hfound]. split; [done|].
        intros n [Hn| ->]; [by apply HQ|]. by exists t.
      - intros stale s. apply sweep_weaken.
        intros n [?|[[->|Hin]%elem_of_cons Hstale]];
          [by left; left|by left; right|by right]. }
  apply bool_decide_eq_true in Hconn.
  case_bool_decide as Hstale.
  - eapply triple_bind.
    { eapply triple_pre; [apply (SetTaskError_sweep Q)|]. by intros s [HT _]. }
    intros []. eapply triple_bind; [apply (IH (λ n, Q n ∨ n = name))|].
    intros stale. apply triple_ret. intros s. apply sweep_weaken.
    intros n [?|[[->|Hin]%elem_of_cons Hst]];
      [by left; left|by left; right|by right].
  - (* fresh now, so fresh at the start *)
    apply (triple_assert (¬ stale_at E now s0 name)).
    { intros s [[Hkept _] Hfound] (t0 & H0 & _ & Hold).
      destruct (Hkept name t0 H0) as (t1 & Ht1 & Hbeat & _).
      assert (t1 = t) as -> by congruence.
      apply Hstale. unfold TimeSinceLastHeartbeatMs in *. by rewrite Hbeat. }
    intros Hfresh. eapply triple_conseq; [apply (IH Q)|by intros s [HT _]|].
    intros stale s. apply sweep_weaken.
    intros n [?|[[->|Hin]%elem_of_cons Hst]]; [by left|done|right; done].
Qed.

Lemma mark_stale_tasks_total names :
  triple False
    (λ s, well_formed E s)
    (mark_stale_tasks E now names) (λ _, well_formed E).
Proof.
  induction names as [|name names IH]; simpl; [by apply triple_ret|].
  eapply triple_bind; [apply triple_gets_eq|]. intros [t|].
  2:{ eapply triple_pre; [apply IH|]. by intros s [Hs _]. }
  destruct (negb _).
  { eapply triple_pre; [apply IH|]. by intros s [Hs _]. }
  destruct (bool_decide _).
  2:{ eapply triple_pre; [apply IH|]. by intros s [Hs _]. }
  eapply triple_bind.
  { eapply triple_pre; [apply SetTaskError_total|].
    intros s [Hwf Hfound]. split; [done|]. rewrite <- Hfound. eauto. }
  intros []. eapply triple_bind; [apply IH|]. intros stale. by apply triple_ret.
Qed.

Lemma mark_stale_tasks_among names :
  triple True (λ _, True) (mark_stale_tasks E now names)
    (λ stale _, ∀ n, n ∈ stale → n ∈ names).
Proof.
  induction names as [|name names IH]; simpl.
  { apply triple_ret. intros s _ n Hn. by apply elem_of_nil in Hn. }
  assert (triple True (λ _, True) (mark_stale_tasks E now names)
            (λ stale _, ∀ n, n ∈ stale → n ∈ name :: names)) as IH'.
  { eapply triple_post; [apply IH|]. intros stale s Hsub n Hn. right. auto. }
  eapply triple_bind with (R := λ _ _, True); [by apply triple_gets|].
  intros [t|]; [|done]. destruct (negb _); [done|].
  destruct (bool_decide _); [|done].
  eapply triple_bind with (R := λ _ _, True).
  { intros s _. by destruct (SetTaskError _ _ _ _ s) as [[[] ?]|]. }
  intros []. eapply triple_bind; [apply IH|]. intros stale.
  apply triple_ret. intros s Hsub n [->|Hn]%elem_of_cons; [by left|].
  right. auto.
Qed.

End heartbeat_sweep.

Section heartbeat_sweep_result.

Context (E : ServiceEnv).

(** In push mode [PropagateError] in a well-formed state only sends. *)
Lemma PropagateError_push_run now source reported s :
  client_cache_present E = true →
  is_Some (cluster_state_ s !! GetTaskName source) →
  ∃ es, PropagateError E now source reported s = Some (tt, add_log es s).
Proof.
  intros Hcc [t Ht]. unfold PropagateError.
  destruct (isRecoverableJob _ _).
  { exists []. by rewrite add_log_nil. }
  unfold bind at 1, task_at at 1. rewrite Ht.
  unfold bind at 1, task_names, gets at 1.
  rewrite propagate_to_push; [eauto|done|].
  intros name t'. apply elem_of_map_to_list.
Qed.

(** X27.  The heartbeat sweep on stale tasks.  [CheckHeartbeatTimeout] on a
    well-formed state has a result, after which every task that was
    CONNECTED with its last heartbeat older than the heartbeat timeout is no
    longer CONNECTED, unless the sweep stopped the service. *)
Theorem CheckHeartbeatTimeout_fails_stale now s :
  well_formed E s →
  ∃ s', CheckHeartbeatTimeout E now s = Some (tt, s')
        ∧ (stopped s'
           ∨ ∀ name, stale_at E now s name → not_connected name s').
Proof.
  intros Hwf.
  set (names := (map_to_list (cluster_state_ s)).*1).
  set (Q := λ n : string, False ∨ (n ∈ names ∧ stale_at E now s n)).
  set (TQ := λ s1 : Service,
         (∀ name t0, cluster_state_ s !! name = Some t0 →
            ∃ t, cluster_state_ s1 !! name = Some t
                 ∧ last_heartbeat_us_ t = last_heartbeat_us_ t0
                 ∧ (state_ t = TASKSTATE_CONNECTED →
                    state_ t0 = TASKSTATE_CONNECTED))
         ∧ ∀ name : string, Q name → not_connected name s1).
  assert (core_pred TQ) as Hcore by apply sweep_core.
  assert (triple False (λ s1, s1 = s) (CheckHeartbeatTimeout E now)
            (λ _ s', TQ s' ∨ stopped s')) as Htriple.
  { unfold CheckHeartbeatTimeout.
    eapply triple_bind; [apply triple_gets_eq|]. intros names'.
    apply (triple_assert (names' = names)). { by intros s1 [-> ->]. }
    intros ->.
    eapply triple_bind
      with (R := λ stale s1, (well_formed E s1 ∧ TQ s1)
                             ∧ ∀ n, n ∈ stale → n ∈ names).
    { eapply triple_conseq;
        [apply (triple_total_and _ _ _ _ _
                  (triple_total_and _ _ _ _ _
                     (mark_stale_tasks_total E now names)
                     (mark_stale_tasks_sweep E now s names (λ _, False)))
                  (mark_stale_tasks_among E now names))
        | |].
      - intros s1 [-> _]. split; [|done]. split; [done|]. split; [|done].
        intros name t0 H0. eauto.
      - intros stale s1 Hpost. exact Hpost. }
    intros stale. apply (triple_assert (∀ n, n ∈ stale → n ∈ names)).
    { by intros s1 [_ Hsub]. }
    intros Hsub.
    eapply triple_pre with (P := λ s1, well_formed E s1 ∧ TQ s1);
      [|by intros s1 [? _]].
    destruct stale as [|stale1 stale]; [apply triple_ret; by intros s1 [_ HT]; left|].
    destruct (negb (client_cache_present E)) eqn:Hcc.
    - eapply triple_bind.
      + eapply triple_conseq;
          [apply (triple_total_and _ _ _ _ _
                    (SendErrorPollingResponseOrStopService_total E now
                       (unhealthy_tasks_error (stale1 :: stale)) eq_refl)
                    (SendErrorPollingResponseOrStopService_core E TQ now
                       (unhealthy_tasks_error (stale1 :: stale)) Hcore))
          |by intros s1 [??]|].
        intros b s1 [_ Hpost]. exact Hpost.
      + intros b. by apply triple_ret.
    - apply negb_false_iff in Hcc.
      eapply triple_conseq with (P := λ s1, well_formed E s1 ∧ TQ s1)
                                (Q := λ _ s1, well_formed E s1 ∧ TQ s1);
        [|done|by intros [] s1 [_ HT]; left].
      apply triple_for_each. intros stale_name Hin.
      intros s1 [Hwf1 HT1].
      destruct (PropagateError_push_run now (GetTaskFromName E stale_name)
                  false s1 Hcc) as (es & ->).
      2:{ split.
          - eapply well_formed_core; [|exact Hwf1]. done.
          - eapply Hcore; [|exact HT1]. done. }
      destruct Hwf1 as [_ Hparse]. apply Hparse.
      apply Hsub in Hin. unfold names in Hin.
      apply list_elem_of_fmap in Hin as ([n t0] & -> & Hin).
      apply elem_of_map_to_list in Hin.
      destruct HT1 as [Hkept _]. destruct (Hkept n t0 Hin) as (t1 & Ht1 & _).
      simpl. eauto. }
  destruct (triple_total_run _ _ _ s Htriple eq_refl) as ([] & s' & Hrun & Hpost).
  exists s'. split; [done|]. destruct Hpost as [[_ HQ]|Hstopped]; [right|by left].
  intros name Hstale. apply HQ. right. split; [|done].
  destruct Hstale as (t & Ht & _). unfold names.
  apply list_elem_of_fmap. exists (name, t). split; [done|].
  by apply elem_of_map_to_list.
Qed.

End heartbeat_sweep_result.

(** ** The constructed service *)

Section constructed.

Context (E : ServiceEnv).

Lemma declare_tasks_fresh job cs :
  map_Forall (λ _ t, t = new_TaskState) cs →
  map_Forall (λ _ t, t = new_TaskState) (declare_tasks job cs).
Proof.
  unfold declare_tasks. generalize (seq 0 (Z.to_nat job.2)). intros l.
  revert cs. induction l as [|i l IH]; intros cs Hcs; simpl; [done|].
  apply IH. destruct (cs !! _) eqn:Hi; [done|].
  by apply map_Forall_insert_2.
Qed.

Lemma initial_service_fresh :
  map_Forall (λ _ t, t = new_TaskState) (cluster_state_ (initial_service E)).
Proof.
  simpl. generalize (coordinated_job_list (config E)). intros jobs.
  assert (∀ cs : gmap string TaskState,
            map_Forall (λ _ t, t = new_TaskState) cs →
            map_Forall (λ _ t, t = new_TaskState)
              (foldl (λ cs job, declare_tasks job cs) cs jobs)) as Hfold.
  { induction jobs as [|job jobs IH]; intros cs Hcs; simpl; [done|].
    apply IH. by apply declare_tasks_fresh. }
  apply Hfold. apply map_Forall_empty.
Qed.

(** X28.  The constructed service.  The constructor leaves the service running,
    with an empty store, no barriers, and one record for each task of the
    configured jobs: DISCONNECTED, with an OK status, incarnation 0 and no
    grace period.  So the first [RegisterTask] of a declared task is
    accepted, whatever its incarnation, while a heartbeat of a declared task
    that comes after clock value 0 and before its registration is refused
    with InvalidArgument and recorded nowhere. *)
Theorem constructed_service_awaits_registration task incarnation now :
  declared_name E (GetTaskName task) →
  let s := initial_service E in
  shutting_down_ s = false ∧ kv_store_ s = [] ∧ barriers_ s = ∅
  ∧ cluster_state_ s !! GetTaskName task = Some new_TaskState
  ∧ RegisterTask E task incarnation now s
    = Some (OkStatus,
            set_cluster_state
              (<[GetTaskName task :=
                   mkTaskState incarnation TASKSTATE_CONNECTED OkStatus now 0
                     [] ∅]>) s)
  ∧ (0 < now →
     ∃ err, RecordHeartbeat E task incarnation now s = Some (err, s)
            ∧ code err = kInvalidArgument).
Proof.
  intros Hdecl s.
  assert (cluster_state_ s !! GetTaskName task = Some new_TaskState) as Ht.
  { apply initial_service_dom in Hdecl. apply elem_of_dom in Hdecl as [t Ht].
    by rewrite (initial_service_fresh _ t Ht) in Ht. }
  split; [done|]. split; [done|]. split; [done|]. split; [done|]. split.
  - rewrite (RegisterTask_declared E _ _ _ _ new_TaskState) by done. simpl.
    unfold bind. by rewrite (update_task_run _ _ _ new_TaskState).
  - intros Hnow.
    rewrite (RecordHeartbeat_declared E _ _ _ _ new_TaskState) by done. simpl.
    unfold IsDisconnectedBeyondGracePeriod. simpl.
    rewrite bool_decide_eq_true_2 by done.
    eexists. split; [reflexivity|done].
Qed.

End constructed.

(** ** Callers outside a cluster-wide barrier *)

Section outsiders.

Context (E : ServiceEnv).

(** X29.  An outsider is counted.  [BarrierAsync] with the empty participant
    list is not checked against the participants of the barrier: while the
    service runs, on a barrier that has not passed, has as many participants
    as the cluster has tasks, and has a pending count other than one (so
    that this arrival does not complete it), a caller that is not a
    participant is added to the participant map as arrived and the pending
    count goes down by one, as for a participant.  If the caller is not a
    declared task, the state then lists an undeclared participant. *)
Theorem BarrierAsync_counts_outsider id timeout task done now s b :
  shutting_down_ s = false →
  barriers_ s !! id = Some b → passed b = false →
  tasks_at_barrier b !! task = None →
  size (tasks_at_barrier b) = size (cluster_state_ s) →
  num_pending_tasks b - 1 ≠ 0 →
  let b' := mkBarrierState false (result b) (deadline_in_micros b)
              (num_pending_tasks b - 1) (<[task := true]> (tasks_at_barrier b))
              (done_callbacks b ++ [done]) (initiating_task b) in
  let s' := set_barriers (<[id := b']>) s in
  BarrierAsync E id timeout task [] done now s = Some (tt, s')
  ∧ (cluster_state_ s !! GetTaskName task = None → ¬ well_formed E s').
Proof.
  intros Hrun Hb Hpassed Hout Hsize Hpending b' s'. split.
  - rewrite (BarrierAsync_existing E _ _ _ _ _ _ _ b) by done.
    unfold ValidateTaskArgs.
    rewrite bool_decide_eq_true_2 by (by rewrite Hsize). simpl.
    rewrite Hout. simpl. rewrite arrival_step. simpl.
    rewrite bool_decide_eq_false_2 by done.
    unfold ret, s', b'. destruct b as [p r d n m cbs it]. simpl in *.
    by subst p.
  - intros Hundeclared [Hpart _].
    destruct (Hpart id b' task) as [t Ht].
    + unfold s'. simpl. apply lookup_insert_eq.
    + unfold b'. simpl. rewrite lookup_insert_eq. eauto.
    + unfold s' in Ht. simpl in Ht. congruence.
Qed.

End outsiders.

(** ** What the entry points keep of the task records *)

Create HintDb records.

Section record_walk.

Context (E : ServiceEnv) (R : string → TaskState → Prop).
Context
  (R_barriers : ∀ n t f, R n t → R n (set_ongoing_barriers_for_task f t))
  (R_disconnect : ∀ n t grace now, R n t → R n (Disconnect grace now t))
  (R_error : ∀ n t error, R n t → R n (TaskState_SetError error t))
  (R_connected : ∀ n t incarnation now,
                   R n t → R n (SetConnected incarnation now t))
  (R_heartbeat : ∀ n t now,
                   R n t →
                   R n (mkTaskState (task_incarnation_ t) (state_ t) (status_ t)
                          now (disconnect_grace_period_us_ t) (devices_ t)
                          (ongoing_barriers_for_task_ t)))
  (R_collect : ∀ n t devices,
                 R n t → DeviceInfoIsCollected t = false →
                 R n (CollectDeviceInfo devices t)).

Local Abbreviation keeps m := (triple True (records R) m (λ _, records R)).

Lemma records_insert name t t' s :
  records R s → cluster_state_ s !! name = Some t → (R name t → R name t') →
  records R (set_cluster_state (<[name := t']>) s).
Proof.
  intros Hs Ht Ht' name' t1. simpl.
  destruct (decide (name = name')) as [<-|Hne].
  - rewrite lookup_insert_eq. intros [= <-]. apply Ht'. by apply Hs.
  - rewrite lookup_insert_ne by done. apply Hs.
Qed.

Lemma records_update_task name f :
  (∀ t, R name t → R name (f t)) → keeps (update_task name f).
Proof.
  intros Hf. apply triple_update_task. intros s Hs.
  destruct (cluster_state_ s !! name) as [t|] eqn:Ht; [|done].
  eapply records_insert; [done|done|apply Hf].
Qed.

Ltac records_leaf :=
  first
    [ apply triple_update_barrier; intros ? Hrec; exact Hrec
    | apply triple_try_emplace_barrier; intros ? Hrec; destruct (_ !! _);
      exact Hrec
    | apply triple_emit; intros ? Hrec; exact Hrec
    | apply triple_modify; intros ? Hrec; exact Hrec
    | apply triple_modify; intros ? _ ? ?; simpl; by rewrite lookup_empty
    | apply records_update_task; intros ? ?;
      first [ by apply R_barriers | by apply R_disconnect | by apply R_error
            | by apply R_connected ] ].

Ltac records_walk :=
  repeat first [ progress (tinv_step; simpl) | records_leaf
               | solve [eauto with records] ].

Lemma ReportServiceErrorToTaskAsync_records task error :
  keeps (ReportServiceErrorToTaskAsync E task error).
Proof. unfold ReportServiceErrorToTaskAsync. records_walk. Qed.

Lemma AggregateClusterDevices_records : keeps (AggregateClusterDevices E).
Proof. unfold AggregateClusterDevices. records_walk. Qed.

Local Hint Resolve ReportServiceErrorToTaskAsync_records
  AggregateClusterDevices_records : records.

Lemma PassBarrierG_records disconnect id r :
  (∀ task, keeps (disconnect task)) → keeps (PassBarrierG E disconnect id r).
Proof. intros Hdisc. unfold PassBarrierG, ExitBarrier. records_walk. Qed.

Lemma DisconnectTaskG_records pass task now :
  (∀ id r, keeps (pass id r)) → keeps (DisconnectTaskG E pass task now).
Proof. intros Hpass. unfold DisconnectTaskG. records_walk. Qed.

Lemma PassBarrier_records now id r : keeps (PassBarrier E now id r).
Proof.
  apply PassBarrierG_records. intros task. apply DisconnectTaskG_records.
  intros id' r'. apply PassBarrierG_records. intros task'.
  by apply triple_undefined.
Qed.

Local Hint Resolve PassBarrier_records : records.

Lemma DisconnectTask_records task now : keeps (DisconnectTask E task now).
Proof. apply DisconnectTaskG_records. intros id r. apply PassBarrier_records. Qed.

Local Hint Resolve DisconnectTask_records : records.

Lemma SetTaskError_records now name error :
  keeps (SetTaskError E now name error).
Proof. unfold SetTaskError. records_walk. Qed.

Lemma ErrorPollingState_SetError_records error :
  keeps (ErrorPollingState_SetError error).
Proof. unfold ErrorPollingState_SetError. records_walk. Qed.

Lemma ErrorPollingState_AddTask_records task done :
  keeps (ErrorPollingState_AddTask task done).
Proof. unfold ErrorPollingState_AddTask. records_walk. Qed.

Local Hint Resolve SetTaskError_records ErrorPollingState_SetError_records
  ErrorPollingState_AddTask_records : records.

Lemma SendErrorPollingResponse_records error :
  keeps (SendErrorPollingResponse error).
Proof. unfold SendErrorPollingResponse. records_walk. Qed.

Local Hint Resolve SendErrorPollingResponse_records : records.

Lemma Stop_records now : keeps (Stop E now).
Proof. unfold Stop. records_walk. Qed.

Local Hint Resolve Stop_records : records.

Lemma SendErrorPollingResponseOrStopService_records now error :
  keeps (SendErrorPollingResponseOrStopService E now error).
Proof. unfold SendErrorPollingResponseOrStopService. records_walk. Qed.

Local Hint Resolve SendErrorPollingResponseOrStopService_records : records.

Lemma propagate_to_records now source reported error names :
  keeps (propagate_to E now source reported error names).
Proof. induction names; simpl; records_walk. Qed.

Local Hint Resolve propagate_to_records : records.

Lemma PropagateError_records now source reported :
  keeps (PropagateError E now source reported).
Proof. unfold PropagateError. records_walk. Qed.

Local Hint Resolve PropagateError_records : records.

Lemma mark_stale_tasks_records now names : keeps (mark_stale_tasks E now names).
Proof. induction names; simpl; records_walk. Qed.

Lemma expired_barriers_records now ids : keeps (expired_barriers now ids).
Proof. induction ids; simpl; records_walk. Qed.

Lemma pass_expired_barriers_records now ids shutdown_error :
  keeps (pass_expired_barriers E now ids shutdown_error).
Proof. revert shutdown_error. induction ids; intros ?; simpl; records_walk. Qed.

Local Hint Resolve mark_stale_tasks_records expired_barriers_records
  pass_expired_barriers_records : records.

Lemma GetTaskState_records tasks : keeps (GetTaskState tasks).
Proof. induction tasks; simpl; records_walk. Qed.

Lemma add_participating_tasks_records id tasks :
  keeps (add_participating_tasks id tasks).
Proof. induction tasks; simpl; records_walk. Qed.

Lemma find_task_in_error_records tasks : keeps (find_task_in_error tasks).
Proof. induction tasks; simpl; records_walk. Qed.

Local Hint Resolve GetTaskState_records add_participating_tasks_records
  find_task_in_error_records : records.

Lemma BarrierAsync_records id timeout task participating done now :
  keeps (BarrierAsync E id timeout task participating done now).
Proof.
  unfold BarrierAsync, create_barrier, join_barrier, JoinBarrier. records_walk.
Qed.

Local Hint Resolve BarrierAsync_records : records.

Lemma RecordHeartbeat_records task incarnation now :
  keeps (RecordHeartbeat E task incarnation now).
Proof.
  unfold RecordHeartbeat.
  eapply triple_bind; [apply triple_gets_inv|]. intros [|]; [records_walk|].
  eapply triple_bind; [apply triple_gets_eq|]. intros [t|].
  2:{ eapply triple_pre with (P := records R); [records_walk|by intros s [??]]. }
  destruct (negb (ok (status_ t))).
  { eapply triple_pre with (P := records R); [records_walk|by intros s [??]]. }
  destruct (IsDisconnectedBeyondGracePeriod now t).
  { eapply triple_pre with (P := records R); [records_walk|by intros s [??]]. }
  destruct (TaskState_RecordHeartbeat incarnation now t) as [st t'] eqn:Hrec.
  assert (R (GetTaskName task) t → R (GetTaskName task) t') as Ht'.
  { unfold TaskState_RecordHeartbeat in Hrec.
    destruct (negb (ok (status_ t))); [by simplify_eq|].
    destruct (negb (bool_decide _)); simplify_eq; [done|]. apply R_heartbeat. }
  eapply triple_bind with (R := λ _, records R); [|intros []; records_walk].
  apply triple_modify. intros s [Hs Ht]. by eapply records_insert.
Qed.

Lemma WaitForAllTasks_records task devices done now :
  keeps (WaitForAllTasks E task devices done now).
Proof.
  unfold WaitForAllTasks.
  eapply triple_bind; [apply triple_gets_inv|]. intros [|]; [records_walk|].
  eapply triple_bind; [apply triple_gets_eq|]. intros [t|].
  2:{ eapply triple_pre with (P := records R); [records_walk|by intros s [??]]. }
  eapply triple_bind with (R := λ _, records R); [|intros []; records_walk].
  destruct (DeviceInfoIsCollected t) eqn:Hcollected; simpl.
  { apply triple_ret. by intros s [??]. }
  apply triple_update_task. intros s [Hs Ht]. rewrite <- Ht.
  eapply records_insert; [done|done|]. intros HR. by apply R_collect.
Qed.

Local Hint Resolve RecordHeartbeat_records WaitForAllTasks_records : records.

Lemma step_records op now : keeps (step E op now).
Proof.
  destruct op; simpl;
    unfold RegisterTask, ShutdownTaskAsync, ResetTask,
      ReportTaskError, InsertKeyValue, GetKeyValueAsync,
      TryGetKeyValue, DeleteKeyValue, CancelBarrier, PollForErrorAsync,
      SetDeviceAggregationFunction, CheckHeartbeatTimeout, CheckBarrierTimeout;
    records_walk.
Qed.

Lemma run_records ops s s' :
  records R s → run E ops s = Some s' → records R s'.
Proof.
  revert s. induction ops as [|[op now] ops IH]; intros s Hs; simpl.
  { by intros [= <-]. }
  destruct (step E op now s) as [[[] s1]|] eqn:Hstep; [|done].
  apply IH.
  exact (triple_partial_run _ _ _ s tt s1 (step_records op now) Hs Hstep).
Qed.

End record_walk.

Section devices.

Context (E : ServiceEnv).

(** X30.  Devices are collected once.  [WaitForAllTasks] records the devices
    it is given for a declared task that has none recorded.  Once a task has
    devices recorded, no entry point changes them, a later [WaitForAllTasks]
    of the task with other devices included: as long as the task is in the
    table, it has the devices that were recorded first. *)
Theorem devices_are_collected_once task devices done now s t :
  shutting_down_ s = false →
  cluster_state_ s !! GetTaskName task = Some t →
  devices_ t = [] → devices ≠ [] →
  ∀ s1 ops s2 t2,
    WaitForAllTasks E task devices done now s = Some (tt, s1) →
    run E ops s1 = Some s2 →
    cluster_state_ s2 !! GetTaskName task = Some t2 →
    devices_ t2 = devices.
Proof.
  intros Hrun Ht Hnone Hsome s1 ops s2 t2 Hwait Hops Ht2.
  set (R := λ (n : string) (t' : TaskState),
              n = GetTaskName task → devices_ t' = devices).
  assert (records R s2) as Hrec; [|by apply (Hrec _ t2 Ht2)].
  assert (∀ op now', triple True (records R) (step E op now')
                        (λ _, records R)) as Hstep.
  { intros op now'. apply step_records; unfold R; intros; simpl; auto.
    - unfold TaskState_SetError. case_bool_decide; simpl; auto.
    - exfalso. unfold DeviceInfoIsCollected in *.
      assert (devices_ t0 = devices) as Hd by auto.
      rewrite Hd in *. destruct devices; [done|].
      by rewrite bool_decide_eq_false_2 in * by done. }
  assert (records R s1) as Hs1.
  { revert Hwait. unfold WaitForAllTasks, bind at 1, gets at 1. simpl.
    rewrite Hrun. unfold bind at 1, bind at 1, gets at 1. simpl. rewrite Ht.
    unfold DeviceInfoIsCollected. rewrite Hnone. simpl.
    rewrite (update_task_run _ _ _ t) by done.
    intros Hbarrier.
    refine (triple_partial_run (records R) _ (λ _, records R) _ _ _ _ _ Hbarrier).
    - apply BarrierAsync_records; unfold R; intros; simpl; auto;
        unfold TaskState_SetError; case_bool_decide; simpl; auto.
    - intros n t'. simpl. destruct (decide (GetTaskName task = n)) as [<-|Hne].
      + rewrite lookup_insert_eq. by intros [= <-] _.
      + rewrite lookup_insert_ne by done. intros _ Hn. by destruct Hne. }
  revert Hops. generalize s1 Hs1. clear -Hstep.
  induction ops as [|[op now'] ops IH]; intros s1 Hs1; simpl.
  { by intros [= <-]. }
  destruct (step E op now' s1) as [[[] s3]|] eqn:Hs3; [|done].
  apply IH.
  exact (triple_partial_run _ _ _ s1 tt s3 (Hstep op now') Hs1 Hs3).
Qed.

End devices.

(** ** Worked examples of the further properties *)

Lemma example_store_sorted : kv_sorted example_store.
Proof.
  unfold kv_sorted, example_store. simpl.
  repeat (constructor; [|by repeat constructor]). constructor.
Qed.

Lemma example_registered_reachable : reachable example_env example_registered.
Proof. apply state_after_reachable. vm_compute. eauto. Qed.

Lemma example_pending_reachable : reachable example_env example_pending.
Proof. apply state_after_reachable. vm_compute. eauto. Qed.

Lemma InsertKeyValue_TryGetKeyValue_witness :
  ∃ s', InsertKeyValue "/a//x/" "9" false example_kv = Some (OkStatus, s')
        ∧ TryGetKeyValue "a/x" s' = Some (ValueOf "9", s')
        ∧ kv_sorted (kv_store_ s').
Proof.
  destruct (InsertKeyValue_TryGetKeyValue "/a//x/" "9" false example_kv)
    as (s' & Hrun & Hsame & _ & Hsorted).
  { right. vm_compute. reflexivity. }
  exists s'. split; [done|]. split.
  - apply Hsame. vm_compute. reflexivity.
  - apply Hsorted. apply example_store_sorted.
Defined.

Lemma InsertKeyValue_already_exists_witness :
  ∃ st, InsertKeyValue "/a/b" "9" false example_kv = Some (st, example_kv)
        ∧ code st = kAlreadyExists
        ∧ TryGetKeyValue "/a/b" example_kv = Some (ValueOf "2", example_kv).
Proof.
  apply (InsertKeyValue_already_exists "/a/b" "9" example_kv "2").
  vm_compute. reflexivity.
Defined.

Lemma GetKeyValueAsync_served_witness :
  GetKeyValueAsync "a//b" 3%nat example_kv
  = Some (tt, add_log [GetCallbackCalled 3%nat (ValueOf "2")] example_kv)
  ∧ ∃ s1 s2,
      GetKeyValueAsync "c" 3%nat example_kv = Some (tt, s1)
      ∧ InsertKeyValue "/c/" "6" false s1 = Some (OkStatus, s2)
      ∧ log s2 = log example_kv ++ getters_called [3%nat] "6".
Proof.
  split.
  - apply (GetKeyValueAsync_served "a//b" 3%nat example_kv).
    vm_compute. reflexivity.
  - destruct (GetKeyValueAsync_served "c" 3%nat example_kv) as [_ H].
    destruct H as (s1 & Hget & _ & _ & Hput); [vm_compute; reflexivity|].
    destruct (Hput "/c/" "6" false) as (s2 & Hrun & Hlog & _);
      [vm_compute; reflexivity|].
    exists s1, s2. split; [done|]. split; [done|]. exact Hlog.
Defined.

Lemma GetKeyValueDir_entries_witness :
  GetKeyValueDir "/a/" example_kv
  = Some ([("a/b", "2"); ("a/b/c", "3")], example_kv).
Proof.
  destruct (GetKeyValueDir_entries "/a/" example_kv example_store_sorted)
    as (entries & -> & -> & _).
  vm_compute. reflexivity.
Defined.

Lemma DeleteKeyValue_then_lookup_witness :
  ∃ s', DeleteKeyValue "/a/" example_kv = Some (OkStatus, s')
        ∧ (∃ err, TryGetKeyValue "a" s' = Some (ErrorOf err, s')
                  ∧ code err = kNotFound)
        ∧ GetKeyValueDir "a" s' = Some ([], s').
Proof.
  apply (DeleteKeyValue_then_lookup "/a/" "a" example_kv).
  - apply example_store_sorted.
  - vm_compute. reflexivity.
Defined.

Lemma reachable_store_entries_readable_witness :
  let s := state_after example_env [(OpInsertKeyValue "/a//b" "1" false, 10)] in
  kv_store_ s = [("a/b", "1")]
  ∧ TryGetKeyValue "a/b" s = Some (ValueOf "1", s).
Proof.
  intros s.
  assert (kv_store_ s = [("a/b", "1")]) as Hstore by (vm_compute; reflexivity).
  split; [done|].
  destruct (reachable_store_entries_readable example_env s) as [_ H].
  { apply state_after_reachable. vm_compute. eauto. }
  apply H. rewrite Hstore. by left.
Defined.

Lemma kv_store_written_by_kv_calls_only_witness :
  kv_store_ (default example_kv
               (snd <$> step example_env (OpRegisterTask j0 7) 100 example_kv))
  = example_store.
Proof.
  rewrite (kv_store_written_by_kv_calls_only example_env (OpRegisterTask j0 7)
             100 example_kv
             (default example_kv
                (snd <$> step example_env (OpRegisterTask j0 7) 100 example_kv))).
  - reflexivity.
  - reflexivity.
  - vm_compute. reflexivity.
Defined.

Lemma stopped_service_stays_stopped_witness :
  let ops := [(OpRegisterTask j0 7, 400); (OpInsertKeyValue "k" "v" false, 500)] in
  let s' := default example_stopped (run example_env ops example_stopped) in
  shutting_down_ s' = true
  ∧ ∃ st, RecordHeartbeat example_env j0 7 600 s' = Some (st, s')
          ∧ code st = kInternal.
Proof.
  intros ops s'.
  destruct (stopped_service_stays_stopped example_env ops example_stopped s')
    as (Hflag & _ & Hbeat & _).
  - vm_compute. reflexivity.
  - vm_compute. reflexivity.
  - split; [done|]. apply Hbeat.
Defined.

Lemma task_table_is_declared_witness :
  ∃ st, RegisterTask example_env (mkTask "k" 0) 7 300 example_pending
        = Some (st, example_pending)
        ∧ code st = kInvalidArgument.
Proof.
  destruct (task_table_is_declared example_env example_pending
              example_pending_reachable) as [_ H].
  apply H; [vm_compute; reflexivity|].
  intros (job & n & i & Hin & Hi & Heq).
  apply list_elem_of_singleton in Hin. injection Hin as -> ->.
  assert (i = 0 ∨ i = 1) as [-> | ->] by lia; vm_compute in Heq; congruence.
Defined.

Lemma RegisterTask_accepts_witness :
  RegisterTask example_env j0 7 100 (initial_service example_env)
  = Some (OkStatus,
          set_cluster_state
            (<[GetTaskName j0 :=
                 mkTaskState 7 TASKSTATE_CONNECTED OkStatus 100
                   (disconnect_grace_period_us_ new_TaskState)
                   (devices_ new_TaskState)
                   (ongoing_barriers_for_task_ new_TaskState)]>)
            (initial_service example_env)).
Proof.
  apply (RegisterTask_accepts example_env j0 7 100 (initial_service example_env)
           new_TaskState).
  - reflexivity.
  - vm_compute. reflexivity.
  - left. reflexivity.
Defined.

Lemma RegisterTask_then_RecordHeartbeat_witness :
  let s := initial_service example_env in
  let s1 := default s (snd <$> RegisterTask example_env j0 7 100 s) in
  (∃ s2, RecordHeartbeat example_env j0 7 5000 s1 = Some (OkStatus, s2))
  ∧ ∀ r s2, RecordHeartbeat example_env j0 8 5000 s1 = Some (r, s2) →
            code r = kAborted.
Proof.
  intros s s1.
  destruct (RegisterTask_then_RecordHeartbeat example_env j0 7 100 s s1)
    as [Hsame Hother].
  - reflexivity.
  - vm_compute. eauto.
  - vm_compute. reflexivity.
  - split.
    + destruct (Hsame 5000) as (t1 & _ & _ & _ & Hrun). eauto.
    + intros r s2. by apply Hother.
Defined.



Lemma PropagateError_reaches_connected_tasks_witness :
  log (default example_push_registered
         (snd <$> PropagateError example_push_env 300 j0 true
                    example_push_registered))
  = log example_push_registered
    ++ error_reports j0 true OkStatus [GetTaskName j1; GetTaskName j0].
Proof.
  destruct (PropagateError_reaches_connected_tasks example_push_env 300 j0 true
              example_push_registered (record_of example_push_registered j0))
    as (_ & H & _).
  - vm_compute. reflexivity.
  - rewrite H by reflexivity. vm_compute. reflexivity.
Defined.

Lemma CheckHeartbeatTimeout_spares_healthy_witness :
  CheckHeartbeatTimeout example_env 5000100 example_registered
  = Some (tt, example_registered).
Proof.
  apply (CheckHeartbeatTimeout_spares_healthy example_env 5000100
           example_registered).
  assert (map_Forall (λ _ t, state_ t = TASKSTATE_CONNECTED →
                             TimeSinceLastHeartbeatMs 5000100 t
                             ≤ heartbeat_timeout_ms_ example_env)
            (cluster_state_ example_registered)) as H.
  { apply (bool_decide_unpack _). vm_compute. exact I. }
  intros name t Ht. exact (H name t Ht).
Defined.

Lemma ResetTask_outcomes_witness :
  ∃ s', ResetTask example_env j0 300 example_pending = Some (OkStatus, s')
        ∧ cluster_state_ s' !! GetTaskName j0
          = Some (disconnected_record example_env 300
                    (record_of example_pending j0))
        ∧ passed_with (λ r, code r = kInternal) "b" s'.
Proof.
  destruct (ResetTask_outcomes example_env j0 300 example_pending)
    as (_ & _ & _ & H).
  destruct (H (record_of example_pending j0)) as (s' & Hrun & Hrec & Hb).
  - vm_compute. reflexivity.
  - vm_compute. reflexivity.
  - vm_compute. congruence.
  - apply example_pending_reachable.
  - apply well_formed_check_sound. vm_compute. reflexivity.
  - exists s'. split; [done|]. split; [done|]. apply Hb.
    apply (bool_decide_unpack _). vm_compute. exact I.
Defined.

Lemma BarrierAsync_replays_result_witness :
  BarrierAsync example_env "b" 5000000 j1 [j0; j1] 2%nat 400 example_cancelled
  = Some (tt, add_log [StatusCallbackCalled 2%nat
                         (result example_cancelled_barrier)]
                example_cancelled).
Proof.
  apply (BarrierAsync_replays_result example_env "b" 5000000 j1 [j0; j1] 2%nat
           400 example_cancelled example_cancelled_barrier).
  - vm_compute. reflexivity.
  - vm_compute. reflexivity.
  - vm_compute. reflexivity.
  - vm_compute. reflexivity.
  - intros H. vm_compute in H. congruence.
Defined.

Lemma BarrierAsync_fails_for_outsider_witness :
  ∃ s' pre,
    BarrierAsync example_env "b" 5000000 j1 [j0] 2%nat 300 example_pending
    = Some (tt, s')
    ∧ barriers_ s' !! "b"
      = Some (passed_record (non_participating_error "b" j1) example_barrier)
    ∧ log s' = log example_pending ++ pre
               ++ callbacks_called [1%nat; 2%nat]
                    (non_participating_error "b" j1).
Proof.
  destruct (BarrierAsync_fails_for_outsider example_env "b" 5000000 j1 [j0]
              2%nat 300 example_pending)
    as (_ & s' & pre & Hrun & Hb & Hlog & _).
  - done.
  - intros t Hin. apply list_elem_of_singleton in Hin as ->.
    intros H. vm_compute in H. congruence.
  - vm_compute. reflexivity.
  - apply well_formed_check_sound. vm_compute. reflexivity.
  - exists s', pre. split; [done|]. split; [exact Hb|]. exact Hlog.
Defined.

Lemma BarrierAsync_creates_witness :
  let m := none_arrived [j0; j1] ∅ in
  BarrierAsync example_env "c" 5000000 j0 [j0; j1] 1%nat 200 example_registered
  = Some (tt,
          set_barriers (<["c" := created_barrier 200 5000000 j0 1%nat m]>)
            (set_cluster_state
               (join_all "c" (GetTaskName <$> (map_to_list m).*1))
               (set_ongoing_barriers (λ o, {["c"]} ∪ o) example_registered))).
Proof.
  apply (BarrierAsync_creates example_env "c" 5000000 j0 [j0; j1] 1%nat 200
           example_registered).
  - vm_compute. reflexivity.
  - vm_compute. reflexivity.
  - by left.
  - apply NoDup_cons. split; [|apply NoDup_singleton].
    intros Hin. apply list_elem_of_singleton in Hin. discriminate.
  - simpl. lia.
  - intros t [->|Hin]%elem_of_cons.
    + vm_compute. eexists. split; [reflexivity|]. congruence.
    + apply list_elem_of_singleton in Hin as ->.
      vm_compute. eexists. split; [reflexivity|]. congruence.
Defined.

Lemma BarrierAsync_creation_fails_witness :
  ∃ error s' pre,
    BarrierAsync example_env "c" 5000000 j0 [j0; mkTask "k" 0] 1%nat 200
      example_registered = Some (tt, s')
    ∧ code error = kInvalidArgument
    ∧ failed_at_creation "c" j0 error s'
    ∧ log s' = log example_registered ++ pre ++ [StatusCallbackCalled 1%nat error].
Proof.
  destruct (BarrierAsync_creation_fails example_env "c" 5000000 j0
              [j0; mkTask "k" 0] 1%nat 200 example_registered) as [H _].
  - vm_compute. reflexivity.
  - vm_compute. reflexivity.
  - vm_compute. reflexivity.
  - apply well_formed_check_sound. vm_compute. reflexivity.
  - destruct H as (error & s' & pre & Hrun & Hcode & Hfail & Hlog & _).
    { exists (mkTask "k" 0). split; [right; by left|]. vm_compute. reflexivity. }
    exists error, s', pre. done.
Defined.

Lemma CheckBarrierTimeout_passes_expired_witness :
  CheckBarrierTimeout example_env 1000 example_pending
  = Some (tt, example_pending)
  ∧ ∃ s', CheckBarrierTimeout example_env 6000000 example_pending
          = Some (tt, s')
          ∧ (stopped s' ∨ passed_with timed_out_or_disconnected "b" s').
Proof.
  assert (set_Forall (λ id, is_Some (barriers_ example_pending !! id))
            (ongoing_barriers_ example_pending)) as Hexist.
  { apply (bool_decide_unpack _). vm_compute. exact I. }
  assert ("b" ∈ ongoing_barriers_ example_pending) as Hb.
  { apply (bool_decide_unpack _). vm_compute. exact I. }
  split.
  - apply (CheckBarrierTimeout_passes_expired example_env 1000 example_pending);
      [exact Hexist|].
    assert (map_Forall (λ _ b, 1000 ≤ deadline_in_micros b)
              (barriers_ example_pending)) as H.
    { apply (bool_decide_unpack _). vm_compute. exact I. }
    intros id b _ Hlook. exact (H id b Hlook).
  - destruct (CheckBarrierTimeout_passes_expired example_env 6000000
                example_pending Hexist) as [_ H].
    destruct H as (s' & Hrun & Hpost).
    { apply well_formed_check_sound. vm_compute. reflexivity. }
    exists s'. split; [done|]. destruct Hpost as [?|Hp]; [by left|right].
    apply (Hp "b" example_barrier); [done| |]; vm_compute; reflexivity.
Defined.

Lemma Stop_answers_pending_calls_witness :
  ∃ s' more,
    Stop example_env 300 example_pending = Some (tt, s')
    ∧ stopped s' ∧ get_cb_ s' = ∅
    ∧ log s' = log example_pending ++ more
    ∧ StatusCallbackCalled 1%nat (shutdown_barrier_error "b") ∈ more.
Proof.
  destruct (Stop_answers_pending_calls example_env 300 example_pending)
    as (s' & more & Hrun & Hst & Hget & Hlog & Hb & _).
  { apply well_formed_check_sound. vm_compute. reflexivity. }
  exists s', more. split_and!; [done..| |].
  - rewrite Hlog. reflexivity.
  - apply (Hb "b" example_barrier).
    + vm_compute. reflexivity.
    + vm_compute. reflexivity.
    + assert (done_callbacks example_barrier = [1%nat]) as ->
        by (vm_compute; reflexivity).
      by left.
Defined.

Lemma PollForErrorAsync_outcomes_witness :
  let error := heartbeat_timeout_error "t" in
  ∃ s1 s2,
    PollForErrorAsync example_env j0 5%nat 250 example_registered = Some (tt, s1)
    ∧ SendErrorPollingResponseOrStopService example_env 300 error s1
      = Some (false, s2)
    ∧ log s2 = log example_registered ++ callbacks_called ([] ++ [5%nat]) error
    ∧ PollForErrorAsync example_env j1 6%nat 400 s2
      = Some (tt, add_log [StatusCallbackCalled 6%nat error] s2).
Proof.
  intros error.
  destruct (PollForErrorAsync_outcomes example_env j0 5%nat 250
              example_registered) as (_ & _ & _ & _ & _ & H).
  destruct (H (record_of example_registered j0) error 300)
    as (s1 & s2 & H1 & _ & _ & H2 & _ & Hcs & Hlog & Hlater).
  { vm_compute. reflexivity. }
  { vm_compute. reflexivity. }
  { vm_compute. reflexivity. }
  { vm_compute. reflexivity. }
  { vm_compute. congruence. }
  { vm_compute. reflexivity. }
  { vm_compute. reflexivity. }
  exists s1, s2. split; [done|]. split; [done|]. split; [exact Hlog|].
  apply (Hlater j1 6%nat 400 (record_of example_registered j1)).
  - transitivity (cluster_state_ example_registered !! GetTaskName j1).
    + by rewrite Hcs.
    + vm_compute. reflexivity.
  - vm_compute. reflexivity.
  - vm_compute. congruence.
Defined.

Lemma AggregateClusterDevices_in_task_order_witness :
  AggregateClusterDevices example_env example_devices
  = Some (tt, set_cluster_devices ["d1"; "d2"] example_devices).
Proof.
  destruct (AggregateClusterDevices_in_task_order example_env example_devices)
    as (-> & _).
  - apply (well_formed_check_sound example_env example_devices).
    vm_compute. reflexivity.
  - vm_compute. reflexivity.
Defined.

Lemma waiting_tasks_are_participants_witness :
  ∃ b, barriers_ example_pending !! "b" = Some b
       ∧ passed b = false
       ∧ ∃ task, is_Some (tasks_at_barrier b !! task)
                 ∧ GetTaskName task = GetTaskName j0.
Proof.
  apply (waiting_tasks_are_participants example_env example_pending
           (GetTaskName j0) (record_of example_pending j0) "b").
  - apply example_pending_reachable.
  - vm_compute. reflexivity.
  - apply (bool_decide_unpack _). vm_compute. exact I.
Defined.

Lemma ShutdownTaskAsync_without_barrier_witness :
  ∃ s1, ResetTask example_env j0 300 example_registered = Some (OkStatus, s1)
        ∧ ShutdownTaskAsync example_env j0 4%nat 300 example_registered
          = Some (tt, add_log [StatusCallbackCalled 4%nat OkStatus] s1).
Proof.
  destruct (ShutdownTaskAsync_without_barrier example_env j0 4%nat 300
              example_registered) as (_ & _ & _ & H).
  { vm_compute. congruence. }
  destruct (H (record_of example_registered j0)) as (s1 & Hreset & _ & Hrun).
  - vm_compute. reflexivity.
  - vm_compute. reflexivity.
  - vm_compute. congruence.
  - apply example_registered_reachable.
  - apply well_formed_check_sound. vm_compute. reflexivity.
  - exists s1. done.
Defined.

Lemma CheckHeartbeatTimeout_fails_stale_witness :
  ∃ s', CheckHeartbeatTimeout example_env 11000100 example_registered
        = Some (tt, s')
        ∧ (stopped s' ∨ not_connected (GetTaskName j0) s').
Proof.
  destruct (CheckHeartbeatTimeout_fails_stale example_env 11000100
              example_registered) as (s' & Hrun & Hpost).
  { apply well_formed_check_sound. vm_compute. reflexivity. }
  exists s'. split; [done|]. destruct Hpost as [?|H]; [by left|right].
  apply H. exists (record_of example_registered j0).
  split; [vm_compute; reflexivity|]. split; vm_compute; reflexivity.
Defined.

Lemma constructed_service_awaits_registration_witness :
  let s := initial_service example_env in
  RegisterTask example_env j0 7 100 s
  = Some (OkStatus,
          set_cluster_state
            (<[GetTaskName j0 :=
                 mkTaskState 7 TASKSTATE_CONNECTED OkStatus 100 0 [] ∅]>) s)
  ∧ ∃ err, RecordHeartbeat example_env j0 7 100 s = Some (err, s)
           ∧ code err = kInvalidArgument.
Proof.
  intros s.
  destruct (constructed_service_awaits_registration example_env j0 7 100)
    as (_ & _ & _ & _ & Hreg & Hbeat).
  { exists "j", 2, 0. split; [by left|]. split; [lia|reflexivity]. }
  split; [exact Hreg|]. apply Hbeat. lia.
Defined.

Lemma BarrierAsync_counts_outsider_witness :
  let b := default new_BarrierState (barriers_ example_open_barrier !! "w") in
  let outsider := mkTask "k" 0 in
  num_pending_tasks b = 2
  ∧ ∃ s', BarrierAsync example_env3 "w" 5000000 outsider [] 2%nat 300
            example_open_barrier = Some (tt, s')
          ∧ (∃ b', barriers_ s' !! "w" = Some b'
                   ∧ num_pending_tasks b' = 1
                   ∧ tasks_at_barrier b' !! outsider = Some true)
          ∧ ¬ well_formed example_env3 s'.
Proof.
  intros b outsider. split; [vm_compute; reflexivity|].
  destruct (BarrierAsync_counts_outsider example_env3 "w" 5000000 outsider
              2%nat 300 example_open_barrier b) as [Hrun Hbad].
  - vm_compute. reflexivity.
  - vm_compute. reflexivity.
  - vm_compute. reflexivity.
  - vm_compute. reflexivity.
  - vm_compute. reflexivity.
  - vm_compute. congruence.
  - eexists. split; [exact Hrun|]. split.
    + eexists. split; [apply lookup_insert_eq|]. split.
      * vm_compute. reflexivity.
      * apply lookup_insert_eq.
    + apply Hbad. vm_compute. reflexivity.
Defined.

Lemma devices_are_collected_once_witness :
  let s1 := default example_registered
              (snd <$> WaitForAllTasks example_env j1 ["d1"; "d2"] 1%nat 200
                         example_registered) in
  let s2 := default s1
              (run example_env [(OpWaitForAllTasks j1 ["x"] 2%nat, 300);
                                (OpRecordHeartbeat j1 9, 400)] s1) in
  devices_ (record_of s2 j1) = ["d1"; "d2"].
Proof.
  intros s1 s2.
  apply (devices_are_collected_once example_env j1 ["d1"; "d2"] 1%nat 200
           example_registered (record_of example_registered j1))
    with (s1 := s1)
         (ops := [(OpWaitForAllTasks j1 ["x"] 2%nat, 300);
                  (OpRecordHeartbeat j1 9, 400)])
         (s2 := s2).
  - vm_compute. reflexivity.
  - vm_compute. reflexivity.
  - vm_compute. reflexivity.
  - done.
  - vm_compute. reflexivity.
  - vm_compute. reflexivity.
  - vm_compute. reflexivity.
Defined.

